(** * bullsat: a shallow embedding of the CDCL core of [bullsat.hpp]

    The solver of [src/bullsat.hpp] is embedded function by function.

    - [int] values ([Lit::x], [Var], decision levels) are integers of [Z];
      the literal operations [^ 1], [>> 1] and [& 1] are the bit operations
      of [Z].  [size_t] indices are [nat].  A [static_cast<size_t>] of a
      negative [int] is larger than the size of any vector, so an access
      through a negative index is out of range.
    - [std::vector] and [std::deque] are lists; [v\[i\]] outside the vector is
      undefined behaviour in C++ and is the error [OutOfRange] here.
    - [assert] is active (the build without [NDEBUG]); a failed assertion is
      the error [AssertionFailed] and no state results from it.
    - [CRef = std::shared_ptr<Clause>] is a handle into a store of clauses
      ([heap]); the clause database, the watcher lists and the reasons hold
      handles, so that the swaps [propagate] makes inside a clause are seen
      through every handle, as in the source.
    - loops whose termination depends on the state take a fuel argument. *)

From stdpp Require Import base option list gmap.
From Stdlib Require Import ZArith Lia.

(** ** Results of fallible code *)

Inductive error := AssertionFailed | OutOfRange | BadOptionalAccess | OutOfFuel.

Inductive result (A : Type) :=
| Ok (a : A)
| Err (e : error).
Arguments Ok {A} a.
Arguments Err {A} e.

#[global] Instance result_ret : MRet result := fun A a => Ok a.
#[global] Instance result_bind : MBind result := fun A B f m =>
  match m with
  | Ok a => f a
  | Err e => Err e
  end.

Definition assert (b : bool) : result unit :=
  if b then Ok tt else Err AssertionFailed.

(** [v\[i\]] for a [size_t] index. *)
Definition at_ {A} (v : list A) (i : nat) : result A :=
  match v !! i with
  | Some a => Ok a
  | None => Err OutOfRange
  end.

(** [v\[i\]] for an index cast from [int]. *)
Definition at_z {A} (v : list A) (i : Z) : result A :=
  if (i <? 0)%Z then Err OutOfRange else at_ v (Z.to_nat i).

(** [v\[i\] = a]. *)
Definition set_at {A} (v : list A) (i : nat) (a : A) : result (list A) :=
  if decide (i < length v) then Ok (<[i:=a]> v) else Err OutOfRange.

Definition set_at_z {A} (v : list A) (i : Z) (a : A) : result (list A) :=
  if (i <? 0)%Z then Err OutOfRange else set_at v (Z.to_nat i) a.

(** ** Definitions *)

Inductive Status := Sat | Unsat | Unknown.

Module LitBool.
Inductive t := True | False | Undefine.
#[global] Instance eq_dec : EqDecision t.
Proof. solve_decision. Defined.
End LitBool.

Abbreviation Var := Z (only parsing).

Module Lit.
Record t := mk { x : Z }.

#[global] Instance eq_dec : EqDecision t.
Proof. solve_decision. Defined.

(** [Lit(Var v, bool positive)] *)
Definition make (v : Var) (positive : bool) : result t :=
  _ ← assert (bool_decide (0 ≤ v)%Z);
  Ok (mk (if positive then 2 * v else 2 * v + 1)%Z).

Definition neg (l : t) : bool := negb (Z.land (x l) 1 =? 0)%Z.
Definition pos (l : t) : bool := negb (neg l).
Definition var (l : t) : Var := Z.shiftr (x l) 1.
Definition vidx (l : t) : Z := var l.
Definition lidx (l : t) : Z := x l.

(** [operator~] *)
Definition not (p : t) : t := mk (Z.lxor (x p) 1).
End Lit.

Abbreviation Clause := (list Lit.t) (only parsing).
Abbreviation CRef := nat (only parsing).

(** ** The solver state *)

Record Solver := mkSolver {
  assings : list bool;
  status : option Status;
  heap : list Clause;
  clauses : list CRef;
  learnts : list CRef;
  watchers : list (list CRef);
  reasons : list (option CRef);
  levels : list (option Z);
  que : list Lit.t;
  que_head : nat
}.

Definition set_assings (s : Solver) (a : list bool) : Solver :=
  mkSolver a (status s) (heap s) (clauses s) (learnts s) (watchers s)
           (reasons s) (levels s) (que s) (que_head s).
Definition set_heap (s : Solver) (h : list Clause) : Solver :=
  mkSolver (assings s) (status s) h (clauses s) (learnts s) (watchers s)
           (reasons s) (levels s) (que s) (que_head s).
Definition set_clauses (s : Solver) (c : list CRef) : Solver :=
  mkSolver (assings s) (status s) (heap s) c (learnts s) (watchers s)
           (reasons s) (levels s) (que s) (que_head s).
Definition set_learnts (s : Solver) (c : list CRef) : Solver :=
  mkSolver (assings s) (status s) (heap s) (clauses s) c (watchers s)
           (reasons s) (levels s) (que s) (que_head s).
Definition set_watchers (s : Solver) (w : list (list CRef)) : Solver :=
  mkSolver (assings s) (status s) (heap s) (clauses s) (learnts s) w
           (reasons s) (levels s) (que s) (que_head s).
Definition set_reasons (s : Solver) (r : list (option CRef)) : Solver :=
  mkSolver (assings s) (status s) (heap s) (clauses s) (learnts s) (watchers s)
           r (levels s) (que s) (que_head s).
Definition set_levels (s : Solver) (l : list (option Z)) : Solver :=
  mkSolver (assings s) (status s) (heap s) (clauses s) (learnts s) (watchers s)
           (reasons s) l (que s) (que_head s).
Definition set_que (s : Solver) (q : list Lit.t) : Solver :=
  mkSolver (assings s) (status s) (heap s) (clauses s) (learnts s) (watchers s)
           (reasons s) (levels s) q (que_head s).
Definition set_que_head (s : Solver) (h : nat) : Solver :=
  mkSolver (assings s) (status s) (heap s) (clauses s) (learnts s) (watchers s)
           (reasons s) (levels s) (que s) h.

(** [*cr] *)
Definition deref (s : Solver) (cr : CRef) : result Clause := at_ (heap s) cr.

(** [std::make_shared<Clause>(clause)] *)
Definition make_shared (s : Solver) (clause : Clause) : Solver * CRef :=
  (set_heap s (heap s ++ [clause]), length (heap s)).

(** [explicit Solver(size_t variable_num)] *)
Definition new_solver (variable_num : nat) : Solver :=
  mkSolver (replicate variable_num false) None [] [] []
           (replicate (2 * variable_num) []) (replicate variable_num None)
           (replicate variable_num None) [] 0.

Definition eval (s : Solver) (lit : Lit.t) : result LitBool.t :=
  lv ← at_z (levels s) (Lit.vidx lit);
  match lv with
  | None => Ok LitBool.Undefine
  | Some _ =>
      a ← at_z (assings s) (Lit.vidx lit);
      if Lit.neg lit
      then Ok (if a : bool then LitBool.False else LitBool.True)
      else Ok (if a : bool then LitBool.True else LitBool.False)
  end.

Definition decision_level (s : Solver) : result Z :=
  match last (que s) with
  | None => Ok 0%Z
  | Some l =>
      lv ← at_z (levels s) (Lit.vidx l);
      Ok (default 0%Z lv)
  end.

Definition enqueue (s : Solver) (lit : Lit.t) (reason : option CRef)
  : result Solver :=
  lv ← at_z (levels s) (Lit.vidx lit);
  _ ← assert (bool_decide (lv = None));
  d ← decision_level s;
  lvs ← set_at_z (levels s) (Lit.vidx lit) (Some d);
  asg ← set_at_z (assings s) (Lit.vidx lit) (Lit.pos lit);
  rsn ← set_at_z (reasons s) (Lit.vidx lit) reason;
  Ok (set_que (set_reasons (set_assings (set_levels s lvs) asg) rsn)
              (que s ++ [lit])).

Definition new_decision (s : Solver) (lit : Lit.t) (reason : option CRef)
  : result Solver :=
  s1 ← enqueue s lit reason;
  lv ← at_z (levels s1) (Lit.vidx lit);
  match lv with
  | None => Err BadOptionalAccess
  | Some l =>
      lvs ← set_at_z (levels s1) (Lit.vidx lit) (Some (l + 1)%Z);
      Ok (set_levels s1 lvs)
  end.

(** [levels\[lit.vidx()\] > until_level]: an empty optional is not greater
    than a value. *)
Definition opt_gt (o : option Z) (n : Z) : bool :=
  match o with
  | None => false
  | Some l => (n <? l)%Z
  end.

(** [levels\[lit.vidx()\] < level]: an empty optional is less than any
    value. *)
Definition opt_lt (o : option Z) (n : Z) : bool :=
  match o with
  | None => true
  | Some l => (l <? n)%Z
  end.

(** The [while] loop of [pop_queue_until]; every iteration that does not
    leave the loop pops one entry, so the length of the queue bounds the
    number of iterations. *)
Fixpoint pop_loop (n : nat) (s : Solver) (until_level : Z) : result Solver :=
  match n with
  | 0 => Ok s
  | S n' =>
      match last (que s) with
      | None => Ok s
      | Some lit =>
          lv ← at_z (levels s) (Lit.vidx lit);
          if opt_gt lv until_level then
            rsn ← set_at_z (reasons s) (Lit.vidx lit) None;
            lvs ← set_at_z (levels s) (Lit.vidx lit) None;
            pop_loop n'
              (set_que (set_levels (set_reasons s rsn) lvs)
                       (removelast (que s)))
              until_level
          else Ok s
      end
  end.

Definition pop_queue_until (s : Solver) (until_level : Z) : result Solver :=
  _ ← assert (negb (bool_decide (que s = [])));
  s1 ← pop_loop (length (que s)) s until_level;
  if decide (0 < length (que s1))
  then Ok (set_que_head s1 (length (que s1) - 1))
  else Ok (set_que_head s1 0).

Definition new_var (s : Solver) : Solver :=
  set_levels
    (set_reasons
       (set_assings (set_watchers s (watchers s ++ [[]] ++ [[]]))
                    (assings s ++ [false]))
       (reasons s ++ [None]))
    (levels s ++ [None]).

(** [watchers\[idx\].push_back(cr)] *)
Definition push_watcher (s : Solver) (idx : Z) (cr : CRef) : result Solver :=
  w ← at_z (watchers s) idx;
  ws ← set_at_z (watchers s) idx (w ++ [cr]);
  Ok (set_watchers s ws).

Definition attach_clause (s : Solver) (cr : CRef) (learnt : bool)
  : result Solver :=
  clause ← deref s cr;
  _ ← assert (bool_decide (1 < length clause));
  c0 ← at_ clause 0;
  s1 ← push_watcher s (Lit.lidx (Lit.not c0)) cr;
  c1 ← at_ clause 1;
  s2 ← push_watcher s1 (Lit.lidx (Lit.not c1)) cr;
  let s3 := set_clauses s2 (clauses s2 ++ [cr]) in
  Ok (if learnt then set_learnts s3 (learnts s3 ++ [cr]) else s3).

(** The [for_each] of [add_clause]: at most one [new_var] per literal. *)
Definition grow (s : Solver) (clause : Clause) : Solver :=
  foldl (fun s lit =>
           if bool_decide (Lit.vidx lit < 0 ∨
                           Z.of_nat (length (assings s)) ≤ Lit.vidx lit)%Z
           then new_var s else s)
        s clause.

Definition add_clause (s : Solver) (clause : Clause) : result Solver :=
  let s1 := grow s clause in
  if decide (length clause = 1) then
    c0 ← at_ clause 0;
    enqueue s1 c0 None
  else
    let '(s2, cr) := make_shared s1 clause in
    attach_clause s2 cr false.

(** ** Propagation *)

(** [std::swap(clause\[a\], clause\[b\])] *)
Definition swap_at (clause : Clause) (a b : nat) : result Clause :=
  ca ← at_ clause a;
  cb ← at_ clause b;
  Ok (<[b:=ca]> (<[a:=cb]> clause)).

(** [watcher\[i\] = watcher.back(); watcher.pop_back();] *)
Definition swap_pop (watcher : list CRef) (i : nat) : result (list CRef) :=
  match last watcher with
  | None => Err OutOfRange
  | Some b =>
      w ← set_at watcher i b;
      Ok (removelast w)
  end.

(** The clause behind a handle is updated in place. *)
Definition store (s : Solver) (cr : CRef) (clause : Clause) : Solver :=
  set_heap s (<[cr:=clause]> (heap s)).

(** The loop [for (size_t k = 2; k < clause.size(); k++)] over the literals
    from position [k] on: the first position whose literal is not False. *)
Fixpoint find_watch (s : Solver) (lits : list Lit.t) (k : nat)
  : result (option nat) :=
  match lits with
  | [] => Ok None
  | l :: rest =>
      e ← eval s l;
      if decide (e = LitBool.False) then find_watch s rest (S k)
      else Ok (Some k)
  end.

Inductive Outcome :=
| Next (i : nat)
| Conflict (cr : CRef).

(** One iteration of the loop over [watchers\[lit.lidx()\]], at index [i]. *)
Definition visit (s : Solver) (lit : Lit.t) (i : nat)
  : result (Solver * Outcome) :=
  let nlit := Lit.not lit in
  watcher ← at_z (watchers s) (Lit.lidx lit);
  cr ← at_ watcher i;
  clause ← deref s cr;
  c0 ← at_ clause 0;
  c1 ← at_ clause 1;
  _ ← assert (bool_decide (c0 = nlit) || bool_decide (c1 = nlit));
  clause ← (if decide (c0 = nlit) then swap_at clause 0 1 else Ok clause);
  let s := store s cr clause in
  c1 ← at_ clause 1;
  _ ← assert (bool_decide (c1 = nlit));
  e1 ← eval s c1;
  _ ← assert (bool_decide (e1 = LitBool.False));
  first ← at_ clause 0;
  ef ← eval s first;
  if decide (ef = LitBool.True) then Ok (s, Next (i + 1))
  else
    found ← find_watch s (drop 2 clause) 2;
    match found with
    | Some k =>
        clause ← swap_at clause 1 k;
        let s := store s cr clause in
        watcher ← at_z (watchers s) (Lit.lidx lit);
        w ← swap_pop watcher i;
        ws ← set_at_z (watchers s) (Lit.lidx lit) w;
        let s := set_watchers s ws in
        c1 ← at_ clause 1;
        s ← push_watcher s (Lit.lidx (Lit.not c1)) cr;
        Ok (s, Next i)
    | None =>
        if decide (ef = LitBool.False) then
          Ok (set_que_head s (length (que s)), Conflict cr)
        else
          _ ← assert (bool_decide (ef = LitBool.Undefine));
          s ← enqueue s first (Some cr);
          Ok (s, Next (i + 1))
    end.

(** [for (size_t i = 0; i < watcher.size();)] *)
Fixpoint watch_loop (fuel : nat) (s : Solver) (lit : Lit.t) (i : nat)
  : result (Solver * option CRef) :=
  match fuel with
  | 0 => Err OutOfFuel
  | S fuel' =>
      watcher ← at_z (watchers s) (Lit.lidx lit);
      if decide (i < length watcher) then
        '(s1, o) ← visit s lit i;
        match o with
        | Next i' => watch_loop fuel' s1 lit i'
        | Conflict cr => Ok (s1, Some cr)
        end
      else Ok (s, None)
  end.

Fixpoint propagate (fuel : nat) (s : Solver) : result (Solver * option CRef) :=
  match fuel with
  | 0 => Err OutOfFuel
  | S fuel' =>
      if decide (que_head s < length (que s)) then
        lit ← at_ (que s) (que_head s);
        let s1 := set_que_head s (que_head s + 1) in
        '(s2, r) ← watch_loop fuel s1 lit 0;
        match r with
        | Some cr => Ok (s2, Some cr)
        | None => propagate fuel' s2
        end
      else Ok (s, None)
  end.

(** ** Conflict analysis *)

(** The accumulators of [analyze]: [checking_variables], [learnt_clause]
    and [counter]. *)
Record Frontier := mkFrontier {
  checking_variables : gset Z;
  learnt_clause : Clause;
  counter : Z
}.

(** What both loops of [analyze] do with a literal whose variable enters
    the frontier. *)
Definition account (s : Solver) (level : Z) (f : Frontier) (lit : Lit.t)
  : result Frontier :=
  lv ← at_z (levels s) (Lit.vidx lit);
  Ok (if opt_lt lv level
      then mkFrontier ({[Lit.var lit]} ∪ checking_variables f)
                      (learnt_clause f ++ [lit]) (counter f)
      else mkFrontier ({[Lit.var lit]} ∪ checking_variables f)
                      (learnt_clause f) (counter f + 1)%Z).

(** [for (const Lit lit : clause)] over the conflicting clause. *)
Fixpoint seed (s : Solver) (level : Z) (lits : list Lit.t) (f : Frontier)
  : result Frontier :=
  match lits with
  | [] => Ok f
  | lit :: rest =>
      e ← eval s lit;
      _ ← assert (bool_decide (e = LitBool.False));
      f1 ← account s level f lit;
      seed s level rest f1
  end.

(** [for (size_t j = 1; j < clause.size(); j++)] over a reason. *)
Fixpoint resolve (s : Solver) (level : Z) (lits : list Lit.t) (f : Frontier)
  : result Frontier :=
  match lits with
  | [] => Ok f
  | clit :: rest =>
      if decide (Lit.var clit ∈ checking_variables f)
      then resolve s level rest f
      else
        f1 ← account s level f clit;
        resolve s level rest f1
  end.

(** [for (size_t i = que.size() - 1; true; i--)]; [n] is [i + 1], and
    [n = 0] is the index that wrapped around. *)
Fixpoint walk (n : nat) (s : Solver) (level : Z) (f : Frontier)
  : result (Lit.t * Frontier) :=
  match n with
  | 0 => Err OutOfRange
  | S i =>
      lit ← at_ (que s) i;
      if decide (Lit.var lit ∈ checking_variables f) then
        let f := mkFrontier (checking_variables f) (learnt_clause f)
                            (counter f - 1)%Z in
        if decide (counter f ≤ 0)%Z then Ok (lit, f)
        else
          let f := mkFrontier ({[Lit.var lit]} ∪ checking_variables f)
                              (learnt_clause f) (counter f) in
          r ← at_z (reasons s) (Lit.vidx lit);
          _ ← assert (bool_decide (is_Some r));
          match r with
          | None => Err BadOptionalAccess
          | Some reason =>
              clause ← deref s reason;
              c0 ← at_ clause 0;
              _ ← assert (bool_decide (c0 = lit));
              f1 ← resolve s level (drop 1 clause) f;
              walk i s level f1
          end
      else walk i s level f
  end.

(** The loop that computes [back_jump_level] over the literals from
    position 1 on. *)
Fixpoint max_level (s : Solver) (lits : list Lit.t) (acc : Z) : result Z :=
  match lits with
  | [] => Ok acc
  | l :: rest =>
      lv ← at_z (levels s) (Lit.vidx l);
      _ ← assert (bool_decide (is_Some lv));
      match lv with
      | None => Err BadOptionalAccess
      | Some n => max_level s rest (Z.max acc n)
      end
  end.

Definition analyze (s : Solver) (conflict : CRef) : result (Clause * Z) :=
  conflicted_decision_level ← decision_level s;
  clause ← deref s conflict;
  f ← seed s conflicted_decision_level clause (mkFrontier ∅ [] 0);
  _ ← assert (bool_decide (1 ≤ counter f)%Z);
  '(first_uip, f) ← walk (length (que s)) s conflicted_decision_level f;
  let learnt := learnt_clause f ++ [Lit.not first_uip] in
  learnt ← swap_at learnt 0 (length learnt - 1);
  back_jump_level ← max_level s (drop 1 learnt) 0;
  Ok (learnt, back_jump_level).

(** ** The search driver *)

(** The loop of [solve] that looks for an unassigned variable, from
    variable [v] on; [n] is [assings.size() - v]. *)
Fixpoint next_undef (s : Solver) (n v : nat) : result (option Lit.t) :=
  match n with
  | 0 => Ok None
  | S n' =>
      lv ← at_ (levels s) v;
      match lv with
      | None =>
          a ← at_ (assings s) v;
          l ← Lit.make (Z.of_nat v) a;
          Ok (Some l)
      | Some _ => next_undef s n' (S v)
      end
  end.

(** The conflict branch of [solve] below the level test. *)
Definition learn (s : Solver) (conflict : CRef) : result Solver :=
  '(learnt, back_jump_level) ← analyze s conflict;
  s1 ← pop_queue_until s back_jump_level;
  if decide (length learnt = 1) then
    l0 ← at_ learnt 0;
    enqueue s1 l0 None
  else
    let '(s2, cr) := make_shared s1 learnt in
    s3 ← attach_clause s2 cr true;
    l0 ← at_ learnt 0;
    enqueue s3 l0 (Some cr).

(** One iteration of [while (true)] in [solve]. *)
Definition solve_step (fuel : nat) (s : Solver)
  : result (Solver * option Status) :=
  '(s1, conflict) ← propagate fuel s;
  match conflict with
  | Some cr =>
      d ← decision_level s1;
      if decide (d = 0%Z) then Ok (s1, Some Unsat)
      else
        s2 ← learn s1 cr;
        Ok (s2, None)
  | None =>
      next ← next_undef s1 (length (assings s1)) 0;
      match next with
      | Some l =>
          s2 ← new_decision s1 l None;
          Ok (s2, None)
      | None => Ok (s1, Some Sat)
      end
  end.

Fixpoint solve (fuel : nat) (s : Solver) : result (Solver * Status) :=
  match fuel with
  | 0 => Err OutOfFuel
  | S fuel' =>
      '(s1, r) ← solve_step fuel s;
      match r with
      | Some st => Ok (s1, st)
      | None => solve fuel' s1
      end
  end.

(** Literals for the examples. *)
Definition xp (v : Z) : Lit.t := Lit.mk (2 * v).
Definition xn (v : Z) : Lit.t := Lit.mk (2 * v + 1).

Definition fst_status {A} (r : result (A * Status)) : result Status :=
  '(_, st) ← r; Ok st.
Definition adds (s : Solver) (cs : list Clause) : result Solver :=
  foldl (fun r c => s ← r; add_clause s c) (Ok s) cs.

(** The slot of a literal's variable in the per-variable vectors. *)
Definition vnat (l : Lit.t) : nat := Z.to_nat (Lit.vidx l).

(** The value [eval] computes from a stored polarity. *)
Definition lit_value (a : bool) (l : Lit.t) : LitBool.t :=
  if Lit.neg l then (if a then LitBool.False else LitBool.True)
  else (if a then LitBool.True else LitBool.False).

Definition flip (e : LitBool.t) : LitBool.t :=
  match e with
  | LitBool.True => LitBool.False
  | LitBool.False => LitBool.True
  | LitBool.Undefine => LitBool.Undefine
  end.

(** The state after [lit] has been assigned at level [d] with [reason]. *)
Definition assigned_state (s : Solver) (lit : Lit.t) (d : Z)
  (reason : option CRef) : Solver :=
  set_que
    (set_reasons
       (set_assings
          (set_levels s (<[vnat lit:=Some d]> (levels s)))
          (<[vnat lit:=Lit.pos lit]> (assings s)))
       (<[vnat lit:=reason]> (reasons s)))
    (que s ++ [lit]).

(** What [pop_queue_until] clears for the popped literals. *)
Definition clear_slots {A} (popped : list Lit.t) (v : list (option A))
  : list (option A) :=
  foldr (fun l acc => <[vnat l:=None]> acc) v popped.

(** The state after the entries [popped] have been taken off the trail,
    [keep] being what is left. *)
Definition popped_state (s : Solver) (keep popped : list Lit.t) : Solver :=
  set_que
    (set_levels (set_reasons s (clear_slots popped (reasons s)))
                (clear_slots popped (levels s)))
    keep.

(** The level stored for a variable slot. *)
Definition var_level (s : Solver) (v : nat) : option Z :=
  default None (levels s !! v).

(** The test [levels\[lit.vidx()\] > until_level] of [pop_queue_until]. *)
Definition above (s : Solver) (until_level : Z) (l : Lit.t) : bool :=
  opt_gt (var_level s (vnat l)) until_level.

(** The levels of the trail entries, in trail order. *)
Definition trail_levels (s : Solver) : list Z :=
  (fun l => default 0%Z (var_level s (vnat l))) <$> que s.

(** Along the trail the level stays or goes up by one. *)
Fixpoint level_steps (prev : Z) (ls : list Z) : Prop :=
  match ls with
  | [] => True
  | d :: rest => (d = prev ∨ d = (prev + 1)%Z) ∧ level_steps d rest
  end.

Record trail_inv (s : Solver) : Prop := {
  ti_assings : length (assings s) = length (levels s);
  ti_reasons : length (reasons s) = length (levels s);
  ti_nodup : NoDup (vnat <$> que s);
  ti_true : ∀ l, l ∈ que s → eval s l = Ok LitBool.True;
  ti_trail : ∀ v d, levels s !! v = Some (Some d) →
                    ∃ l, l ∈ que s ∧ vnat l = v;
  ti_no_reason : ∀ v, levels s !! v = Some None → reasons s !! v = Some None;
  ti_steps : level_steps 0 (trail_levels s)
}.

(** The slot of a literal in the watcher index. *)
Definition lnat (l : Lit.t) : nat := Z.to_nat (Lit.lidx l).

(** The clause after the test [if (clause\[0\] == nlit)] and its swap. *)
Definition normalized (C : Clause) (c0 c1 nlit : Lit.t) : Clause :=
  if decide (c0 = nlit) then <[1:=c0]> (<[0:=c1]> C) else C.

(** The four ways a visit ends, [first] being the other watched literal
    and [ef] its value. *)
Definition visit_cases (s : Solver) (lit : Lit.t) (i : nat) (cr : CRef)
  (ws : list CRef) (C1 : Clause) (first : Lit.t) (ef : LitBool.t)
  (s' : Solver) (o : Outcome) : Prop :=
  (ef = LitBool.True ∧ s' = store s cr C1 ∧ o = Next (i + 1)) ∨
  (ef ≠ LitBool.True ∧
   ∃ k ck e w, 2 ≤ k ∧ C1 !! k = Some ck ∧ eval s ck = Ok e ∧
     e ≠ LitBool.False ∧ last ws = Some w ∧ i < length ws ∧
     push_watcher
       (set_watchers
          (store (store s cr C1) cr (<[k:=Lit.not lit]> (<[1:=ck]> C1)))
          (<[lnat lit:=removelast (<[i:=w]> ws)]> (watchers s)))
       (Lit.lidx (Lit.not ck)) cr = Ok s' ∧
     o = Next i) ∨
  (ef = LitBool.False ∧
   (∀ y, y ∈ drop 2 C1 → eval s y = Ok LitBool.False) ∧
   s' = set_que_head (store s cr C1) (length (que s)) ∧ o = Conflict cr) ∨
  (ef = LitBool.Undefine ∧
   (∀ y, y ∈ drop 2 C1 → eval s y = Ok LitBool.False) ∧
   enqueue (store s cr C1) first (Some cr) = Ok s' ∧ o = Next (i + 1)).

Definition occ (cr : nat) (ws : list nat) : nat :=
  length (filter (eq cr) ws).

Definition ind (P : Prop) `{!Decision P} : nat := if decide P then 1 else 0.

(** How many of the two watched positions of [C] are registered in the
    watcher list of slot [i]: the clause watches [C\[0\]] and [C\[1\]] and is
    registered in the lists of their negations. *)
Definition watched_by (C : Clause) (i : nat) : nat :=
  match C !! 0, C !! 1 with
  | Some c0, Some c1 =>
      ind (i = lnat (Lit.not c0)) + ind (i = lnat (Lit.not c1))
  | _, _ => 0
  end.

Record watch_inv (s : Solver) : Prop := {
  wi_clauses : clauses s = seq 0 (length (heap s));
  wi_size : ∀ cr C, heap s !! cr = Some C → 2 ≤ length C;
  wi_range : ∀ cr C j c,
    heap s !! cr = Some C → j < 2 → C !! j = Some c →
    (0 ≤ Lit.lidx (Lit.not c))%Z ∧ lnat (Lit.not c) < length (watchers s);
  wi_occ : ∀ cr C i ws,
    heap s !! cr = Some C → watchers s !! i = Some ws →
    occ cr ws = watched_by C i;
  wi_valid : ∀ i ws cr,
    watchers s !! i = Some ws → cr ∈ ws → cr < length (heap s)
}.

(** [a] stands before [b] on the trail. *)
Definition before (s : Solver) (a b : Lit.t) : Prop :=
  ∃ i j, i < j ∧ que s !! i = Some a ∧ que s !! j = Some b.

(** The shape of the reason [R] of the trail literal [l]. *)
Definition reason_shape (s : Solver) (l : Lit.t) (R : Clause) : Prop :=
  R !! 0 = Some l ∧
  ∀ j y, 0 < j → R !! j = Some y →
         eval s y = Ok LitBool.False ∧ before s (Lit.not y) l.

Definition reason_inv (s : Solver) : Prop :=
  ∀ l cr, l ∈ que s → reasons s !! vnat l = Some (Some cr) →
          ∃ R, heap s !! cr = Some R ∧ reason_shape s l R.

Record solver_inv (s : Solver) : Prop := {
  si_trail : trail_inv s;
  si_watch : watch_inv s;
  si_reason : reason_inv s
}.

Definition all_false (s : Solver) (lits : list Lit.t) : Prop :=
  Forall (fun y => eval s y = Ok LitBool.False) lits.

(** The states the solver reaches from a fresh one through its operations:
    [new_var], [add_clause], an assignment without reason ([enqueue],
    [new_decision]), [pop_queue_until], [propagate], and the conflict
    branch of [solve].  The iterations of [solve] are compositions of
    these steps. *)
Inductive reachable : Solver → Prop :=
| reach_new (n : nat) : reachable (new_solver n)
| reach_new_var (s : Solver) : reachable s → reachable (new_var s)
| reach_add_clause (s : Solver) (c : list Lit.t) (s' : Solver) :
    reachable s → add_clause s c = Ok s' → reachable s'
| reach_enqueue (s : Solver) (l : Lit.t) (s' : Solver) :
    reachable s → enqueue s l None = Ok s' → reachable s'
| reach_new_decision (s : Solver) (l : Lit.t) (s' : Solver) :
    reachable s → new_decision s l None = Ok s' → reachable s'
| reach_pop_queue_until (s : Solver) (until_level : Z) (s' : Solver) :
    reachable s → pop_queue_until s until_level = Ok s' → reachable s'
| reach_propagate (s : Solver) (fuel : nat) (s' : Solver) (r : option nat) :
    reachable s → propagate fuel s = Ok (s', r) → reachable s'
| reach_learn (s : Solver) (conflict : nat) (s' : Solver) :
    reachable s → learn s conflict = Ok s' → reachable s'.

(** [Solver s(2); s.enqueue(x0); s.propagate();] *)
Definition st_unit : Solver :=
  mkSolver [true; false] None [] [] [] [[]; []; []; []] [None; None]
           [Some 0%Z; None] [xp 0] 1.

(** [... s.new_decision(x1);] *)
Definition st_decided : Solver :=
  mkSolver [true; true] None [] [] [] [[]; []; []; []] [None; None]
           [Some 0%Z; Some 1%Z] [xp 0; xp 1] 1.

(** The claim that [pop_queue_until] leaves the cursor at the new trail
    length. *)
Definition cursor_at_trail_length (s : Solver) (until_level : Z) : Prop :=
  ∀ s', pop_queue_until s until_level = Ok s' → que_head s' = length (que s').

(** The claim that assigning and undoing to the prior level gives back
    the prior trail, levels, reasons, literal values and cursor. *)
Definition restored (s s2 : Solver) : Prop :=
  que s2 = que s ∧ levels s2 = levels s ∧ reasons s2 = reasons s ∧
  (∀ l, eval s2 l = eval s l) ∧ que_head s2 = que_head s.

(** A whole run: the clauses are added to a fresh solver, then [solve]. *)
Definition run (n : nat) (cs : list (list Lit.t)) (fuel : nat)
  : result (Solver * Status) :=
  s ← adds (new_solver n) cs; solve fuel s.

(** The state in which [solve] returns SAT for
    [{x0, x1, x2}, {!x0, x1}, {!x1, x2}]: propagation has reordered the
    first clause and moved it between watcher lists. *)
Definition st_sat : Solver :=
  mkSolver [false; false; true] None
           [[xp 2; xp 1; xp 0]; [xn 0; xp 1]; [xn 1; xp 2]]
           [0; 1; 2] []
           [[1]; []; [2]; [0; 1]; []; [2; 0]]
           [None; None; Some 0]
           [Some 1%Z; Some 2%Z; Some 2%Z]
           [xn 0; xn 1; xp 2] 3.

(** The state in which [solve] returns UNSAT for
    [{x0, x1}, {!x0, x2}, {!x1, x2}, {!x2}]: [!x0] and [!x1] were propagated
    from the second and the third clause. *)
Definition st_unsat : Solver :=
  mkSolver [false; false; false] None
           [[xp 1; xp 0]; [xn 0; xp 2]; [xn 1; xp 2]]
           [0; 1; 2] []
           [[1]; [0]; [2]; [0]; []; [1; 2]]
           [Some 1; Some 2; None]
           [Some 0%Z; Some 0%Z; Some 0%Z]
           [xn 2; xn 0; xn 1] 3.

(** The state of [solve] on the single clause [{x0, x0}] when [propagate]
    reports the conflict: the default decision [!x0] at level 1 falsifies
    the clause. *)
Definition st_dup : Solver :=
  mkSolver [false] None [[xp 0; xp 0]] [0] [] [[]; [0; 0]] [None]
           [Some 1%Z] [xn 0] 1.

(** The level of a literal's variable. *)
Definition lit_level (s : Solver) (l : Lit.t) : option Z :=
  var_level s (vnat l).

(** An edge of the implication graph: the trail literal [b] was propagated
    by a reason that holds the negation of [a] behind its first
    position. *)
Definition implies (s : Solver) (a b : Lit.t) : Prop :=
  b ∈ que s ∧
  ∃ cr R j, reasons s !! vnat b = Some (Some cr) ∧ heap s !! cr = Some R ∧
            0 < j ∧ R !! j = Some (Lit.not a).

(** [a] has a path to the conflict on the clause [K]: [K] holds the
    negation of the last literal of the path. *)
Inductive to_conflict (s : Solver) (K : list Lit.t) : Lit.t → Prop :=
| tc_direct (a : Lit.t) :
    a ∈ que s → Lit.not a ∈ K → to_conflict s K a
| tc_step (a b : Lit.t) :
    a ∈ que s → implies s a b → to_conflict s K b → to_conflict s K a.

(** [a] has a path to the conflict that does not pass through [u]. *)
Inductive path_avoiding (s : Solver) (K : list Lit.t) (u : Lit.t)
  : Lit.t → Prop :=
| pa_direct (a : Lit.t) :
    a ≠ u → a ∈ que s → Lit.not a ∈ K → path_avoiding s K u a
| pa_step (a b : Lit.t) :
    a ≠ u → a ∈ que s → implies s a b → path_avoiding s K u b →
    path_avoiding s K u a.

(** The decision literal of level [d]: the first trail entry of that
    level, at position [p0]. *)
Definition decision_at (s : Solver) (d : Z) (p0 : nat) (dlit : Lit.t) : Prop :=
  que s !! p0 = Some dlit ∧ lit_level s dlit = Some d ∧
  ∀ p l, p < p0 → que s !! p = Some l → lit_level s l ≠ Some d.

(** A unique implication point of level [d]: a literal of that level that
    reaches the conflict and lies on every path from the decision literal
    of the level to the conflict. *)
Definition uip (s : Solver) (K : list Lit.t) (d : Z) (u : Lit.t) : Prop :=
  u ∈ que s ∧ lit_level s u = Some d ∧ to_conflict s K u ∧
  ∀ p0 dlit, decision_at s d p0 dlit → ¬ path_avoiding s K u dlit.

(** The first unique implication point: the one closest to the conflict,
    that is, the last one on the trail. *)
Definition first_uip (s : Solver) (K : list Lit.t) (d : Z) (u : Lit.t) : Prop :=
  uip s K d u ∧
  ∀ u' p p', uip s K d u' → que s !! p = Some u → que s !! p' = Some u' →
             p' ≤ p.

(** What [analyze] relies on when [solve] calls it on the conflicting
    clause [K] at level [d]. *)
Record analysis_pre (s : Solver) (conflict : nat) (K : list Lit.t) (d : Z)
  : Prop := {
  ap_trail : trail_inv s;
  ap_reason : reason_inv s;
  ap_level : decision_level s = Ok d;
  ap_pos : (0 < d)%Z;
  ap_conflict : heap s !! conflict = Some K;
  ap_false : ∀ y, y ∈ K → eval s y = Ok LitBool.False;
  ap_nodup : NoDup (vnat <$> K);
  ap_current : ∃ y, y ∈ K ∧ lit_level s y = Some d;
  ap_propagated : ∀ p0 dlit p l,
    decision_at s d p0 dlit → p0 < p → que s !! p = Some l →
    ∃ cr, reasons s !! vnat l = Some (Some cr);
  ap_connected : ∀ l cr R,
    l ∈ que s → lit_level s l = Some d →
    reasons s !! vnat l = Some (Some cr) → heap s !! cr = Some R →
    ∃ j y, 0 < j ∧ R !! j = Some y ∧ lit_level s y = Some d
}.

(** A trail literal that the frontier still has to resolve: its variable
    is seen and it is of the conflict level. *)
Definition pend (s : Solver) (d : Z) (seen : gset Z) (l : Lit.t) : Prop :=
  Lit.var l ∈ seen ∧ lit_level s l = Some d.

#[global] Instance pend_dec (s : Solver) (d : Z) (seen : gset Z) (l : Lit.t) :
  Decision (pend s d seen l).
Proof. unfold pend. apply _. Defined.

(** The literals of the first [n] trail entries that are still to be
    resolved. *)
Definition pending (s : Solver) (d : Z) (seen : gset Z) (n : nat)
  : list Lit.t :=
  filter (pend s d seen) (take n (que s)).

(** What [analyze] puts into the learnt clause before the asserting
    literal. *)
Definition learnt_ok (s : Solver) (d : Z) (y : Lit.t) : Prop :=
  eval s y = Ok LitBool.False ∧ ∃ e, lit_level s y = Some e ∧ (e < d)%Z.

(** The relation between the seen set and the implication graph while the
    walk of [analyze] stands before trail position [n - 1]: the entries
    from position [m] on have been examined. *)
Record graph_inv (s : Solver) (K : list Lit.t) (d : Z) (n m : nat)
  (seen : gset Z) : Prop := {
  gi_sound : ∀ a, a ∈ que s → pend s d seen a →
    Lit.not a ∈ K ∨
    ∃ b p, que s !! p = Some b ∧ n ≤ p ∧ pend s d seen b ∧ implies s a b;
  gi_resolved : ∀ p b a,
    m ≤ p → que s !! p = Some b → pend s d seen b → implies s a b →
    Lit.var a ∈ seen;
  gi_closed : ∀ p b,
    m ≤ p → que s !! p = Some b → lit_level s b = Some d →
    to_conflict s K b → Lit.var b ∈ seen;
  gi_hist : ∀ p b,
    m ≤ p → que s !! p = Some b → pend s d seen b →
    ∃ a q, que s !! q = Some a ∧ q < p ∧ lit_level s a = Some d ∧
           path_avoiding s K b a
}.

Record front_inv (s : Solver) (K : list Lit.t) (d : Z) (n m : nat)
  (f : Frontier) : Prop := {
  fi_count :
    counter f = Z.of_nat (length (pending s d (checking_variables f) n));
  fi_learnt : Forall (learnt_ok s d) (learnt_clause f);
  fi_graph : graph_inv s K d n m (checking_variables f)
}.

(** The variables of the literals [lits] are seen. *)
Definition seeded (lits : list Lit.t) (seen : gset Z) : Prop :=
  ∀ y, y ∈ lits → Lit.var y ∈ seen.

(** The state of [solve] on
    [{x0, x1}, {!x0, x1}, {x0, !x1}, {!x0, !x1}] at its first conflict:
    the decision [!x0] at level 1 has propagated [x1] from the first
    clause, and the third clause [{!x1, x0}] is falsified. *)
Definition st_conflict : Solver :=
  mkSolver [false; true] None
           [[xp 1; xp 0]; [xn 0; xp 1]; [xn 1; xp 0]; [xn 0; xn 1]]
           [0; 1; 2; 3] []
           [[1; 3]; [0; 2]; [2; 3]; [0; 1]]
           [None; Some 0]
           [Some 1%Z; Some 1%Z]
           [xn 0; xp 1] 2.

(** [Lit::operator==], [operator!=] and [operator<]. *)
Definition lit_eqb (a b : Lit.t) : bool := (Lit.x a =? Lit.x b)%Z.
Definition lit_neb (a b : Lit.t) : bool := negb (Lit.x a =? Lit.x b)%Z.
Definition lit_ltb (a b : Lit.t) : bool := (Lit.x a <? Lit.x b)%Z.

(** [Solver s(2); s.add_clause({x0, x1});] *)
Definition st_binary : Solver :=
  mkSolver [false; false] None [[xp 0; xp 1]] [0] [] [[]; [0]; []; [0]]
           [None; None] [None; None] [] 0.

(** [st_decided] after [add_clause({x2})]: the unit is on the trail at
    level 1. *)
Definition st_decided_unit : Solver :=
  mkSolver [true; true; true] None [] [] [] [[]; []; []; []; []; []]
           [None; None; None] [Some 0%Z; Some 1%Z; Some 1%Z]
           [xp 0; xp 1; xp 2] 1.

(** [st_decided_unit] after [pop_queue_until(0)]: the unit [{x2}] is
    gone. *)
Definition st_unit_lost : Solver :=
  mkSolver [true; true; true] None [] [] [] [[]; []; []; []; []; []]
           [None; None; None] [Some 0%Z; None; None] [xp 0] 0.

(** What a run of [propagate] may change: it reorders literals inside
    clauses, moves handles between watcher lists and extends the trail. *)
Record propagated (s s' : Solver) : Prop := {
  pg_clauses : clauses s' = clauses s;
  pg_learnts : learnts s' = learnts s;
  pg_heap_length : length (heap s') = length (heap s);
  pg_watchers_length : length (watchers s') = length (watchers s);
  pg_levels_length : length (levels s') = length (levels s);
  pg_heap : ∀ cr C, heap s !! cr = Some C →
                    ∃ C', heap s' !! cr = Some C' ∧ C' ≡ₚ C;
  pg_trail : ∃ new, que s' = que s ++ new;
  pg_eval : ∀ l e, eval s l = Ok e → e ≠ LitBool.Undefine → eval s' l = Ok e;
  pg_level : ∀ l e, lit_level s l = Some e → lit_level s' l = Some e
}.

(** The state in which [solve] starts on
    [{x0, x1, x2}, {!x0, x1}, {!x1, x2}] after its first decision [!x0]. *)
Definition st_sat_decided : Solver :=
  mkSolver [false; false; false] None
           [[xp 0; xp 1; xp 2]; [xn 0; xp 1]; [xn 1; xp 2]]
           [0; 1; 2] []
           [[1]; [0]; [2]; [0; 1]; []; [2]]
           [None; None; None]
           [Some 1%Z; None; None]
           [xn 0] 0.

(** ... and after the propagation of [!x0], which moves the first clause
    to the watcher list of [x2]. *)
Definition st_sat_propagated : Solver :=
  mkSolver [false; false; false] None
           [[xp 1; xp 2; xp 0]; [xn 0; xp 1]; [xn 1; xp 2]]
           [0; 1; 2] []
           [[1]; []; [2]; [0; 1]; []; [2; 0]]
           [None; None; None]
           [Some 1%Z; None; None]
           [xn 0] 1.

(** The state of [solve] on
    [{x0, x1}, {!x0, x1}, {x0, !x1}, {!x0, !x1}] after its first decision
    [!x0]. *)
Definition st_conflict_decided : Solver :=
  mkSolver [false; false] None
           [[xp 0; xp 1]; [xn 0; xp 1]; [xp 0; xn 1]; [xn 0; xn 1]]
           [0; 1; 2; 3] []
           [[1; 3]; [0; 2]; [2; 3]; [0; 1]]
           [None; None] [Some 1%Z; None] [xn 0] 0.

(** The trail entries the cursor of [propagate] has not passed. *)
Definition queued (s : Solver) (l : Lit.t) : Prop :=
  ∃ p, que_head s ≤ p ∧ que s !! p = Some l.

(** A watched literal that needs no visit: it is not False, or the trail
    literal that falsifies it is still queued. *)
Definition live (s : Solver) (w : Lit.t) : Prop :=
  eval s w ≠ Ok LitBool.False ∨ queued s (Lit.not w).

(** One of the two watched literals of the clause is live. *)
Definition has_live_watch (s : Solver) (C : list Lit.t) : Prop :=
  ∃ j w, j < 2 ∧ C !! j = Some w ∧ live s w.

(** The states of the search: between two iterations of [solve], and
    while the clauses are added before it. *)
Record search_inv (s : Solver) : Prop := {
  sr_inv : solver_inv s;
  sr_sizes : length (watchers s) = 2 * length (levels s);
  sr_head : que_head s ≤ length (que s);
  sr_queued : ∀ l d, queued s l → decision_level s = Ok d →
                     lit_level s l = Some d;
  sr_live : ∀ cr C, heap s !! cr = Some C → has_live_watch s C
}.

(** The states inside the loop of [propagate] over the watcher list of
    [lit], before the visit of index [i]: the clauses that still wait
    for their visit are the ones from index [i] on. *)
Record visiting (s : Solver) (lit : Lit.t) (i : nat) (d : Z) : Prop := {
  vs_inv : solver_inv s;
  vs_sizes : length (watchers s) = 2 * length (levels s);
  vs_head : que_head s ≤ length (que s);
  vs_level : decision_level s = Ok d;
  vs_lit : lit_level s lit = Some d;
  vs_queued : ∀ l, queued s l → lit_level s l = Some d;
  vs_live : ∀ cr C, heap s !! cr = Some C →
    has_live_watch s C ∨
    ∃ ws k, watchers s !! lnat lit = Some ws ∧ i ≤ k ∧ ws !! k = Some cr
}.

(** The states in which [propagate] reports a conflict at level [d]. *)
Record conflicting (s : Solver) (d : Z) : Prop := {
  cf_inv : solver_inv s;
  cf_sizes : length (watchers s) = 2 * length (levels s);
  cf_head : que_head s = length (que s);
  cf_level : decision_level s = Ok d;
  cf_live : ∀ cr C, heap s !! cr = Some C →
    ∃ j w, j < 2 ∧ C !! j = Some w ∧
           (eval s w ≠ Ok LitBool.False ∨ lit_level s w = Some d)
}.

(** What the search keeps of a state: the clauses, up to the order of
    their literals, and the trail entries of level 0. *)
Record persists (s s' : Solver) : Prop := {
  ps_heap : ∀ cr C, heap s !! cr = Some C →
                    ∃ C', heap s' !! cr = Some C' ∧ C' ≡ₚ C;
  ps_root : ∀ l, l ∈ que s → lit_level s l = Some 0%Z →
                 l ∈ que s' ∧ lit_level s' l = Some 0%Z
}.

(** How the solver holds a clause that was added: behind a handle, or,
    for a unit clause, as a trail entry of level 0. *)
Definition recorded (s : Solver) (c : list Lit.t) : Prop :=
  (∃ cr C, heap s !! cr = Some C ∧ C ≡ₚ c) ∨
  (∃ l, c = [l] ∧ l ∈ que s ∧ lit_level s l = Some 0%Z).

(** The literals [analyze] puts into the learnt clause before the
    asserting literal passed the test
    [levels\[lit.vidx()\] < conflicted_decision_level]. *)
Definition below (s : Solver) (level : Z) (y : Lit.t) : Prop :=
  ∃ lv, levels s !! vnat y = Some lv ∧ opt_lt lv level = true.

(** An assignment of the variables makes a literal true when it gives the
    variable the polarity of the literal. *)
Definition models_lit (M : Z → bool) (l : Lit.t) : Prop :=
  M (Lit.var l) = Lit.pos l.

(** It makes a clause true when it makes one of its literals true. *)
Definition models (M : Z → bool) (c : list Lit.t) : Prop :=
  ∃ l, l ∈ c ∧ models_lit M l.

(** What the solver holds is true under [M]: the stored clauses, the
    learnt ones among them, and the trail entries of level 0. *)
Record entailed (M : Z → bool) (s : Solver) : Prop := {
  en_heap : ∀ cr C, heap s !! cr = Some C → models M C;
  en_root : ∀ l, l ∈ que s → lit_level s l = Some 0%Z → models_lit M l
}.

(** A trail literal that [analyze] has seen and that failed the test
    [levels\[lit.vidx()\] < conflicted_decision_level]: it is counted and
    still has to be resolved. *)
Definition open (s : Solver) (d : Z) (seen : gset Z) (t : Lit.t) : Prop :=
  Lit.var t ∈ seen ∧ opt_lt (var_level s (vnat t)) d = false.

#[global] Instance open_dec (s : Solver) (d : Z) (seen : gset Z) (t : Lit.t) :
  Decision (open s d seen t).
Proof. unfold open. apply _. Defined.

(** The open literals among the first [n] trail entries. *)
Definition opens (s : Solver) (d : Z) (seen : gset Z) (n : nat)
  : list Lit.t :=
  filter (open s d seen) (take n (que s)).

(** The accumulators of [analyze] before trail position [n - 1]: the
    counter bounds the number of open literals, and a seen literal below
    the conflict level is in the learnt clause. *)
Record frontier_ok (s : Solver) (d : Z) (n : nat) (f : Frontier) : Prop := {
  fo_count :
    (Z.of_nat (length (opens s d (checking_variables f) n)) ≤ counter f)%Z;
  fo_seen : ∀ t, t ∈ que s → Lit.var t ∈ checking_variables f →
                 opt_lt (var_level s (vnat t)) d = true →
                 Lit.not t ∈ learnt_clause f
}.

(** The clause [analyze] stands for before trail position [n - 1], the
    learnt literals and the negations of the open ones, is true under
    [M]. *)
Definition resolvent (M : Z → bool) (s : Solver) (d : Z) (n : nat)
  (f : Frontier) : Prop :=
  models M (learnt_clause f) ∨
  ∃ p t, p < n ∧ que s !! p = Some t ∧
         open s d (checking_variables f) t ∧ ¬ models_lit M t.

(** The assignment a state holds: the stored polarity of every
    variable. *)
Definition assignment (s : Solver) (v : Z) : bool :=
  default false (assings s !! Z.to_nat v).

(** [st_conflict] after the conflict branch of [solve]: the unit clause
    [{x0}] was learnt, the trail cut to level 0 and [x0] assigned. *)
Definition st_learnt : Solver :=
  mkSolver [true; true] None
           [[xp 1; xp 0]; [xn 0; xp 1]; [xn 1; xp 0]; [xn 0; xn 1]]
           [0; 1; 2; 3] []
           [[1; 3]; [0; 2]; [2; 3]; [0; 1]]
           [None; None]
           [Some 0%Z; None]
           [xp 0] 0.

(** Every literal of a stored clause is a literal of a variable of the
    solver. *)
Definition covered (s : Solver) : Prop :=
  ∀ cr C y, heap s !! cr = Some C → y ∈ C →
            (0 ≤ Lit.vidx y)%Z ∧ vnat y < length (levels s).

(** The states in which [propagate] runs through: the invariants hold,
    there are two watcher lists per variable, and the stored clauses
    only mention variables of the solver. *)
Record propagable (s : Solver) : Prop := {
  pr_inv : solver_inv s;
  pr_sizes : length (watchers s) = 2 * length (levels s);
  pr_covered : covered s
}.

(** [{x0}, {!x0, x1}, {!x1, x2, x3}] in a fresh solver of four
    variables ... *)
Definition st_chain : Solver :=
  mkSolver [true; false; false; false] None
           [[xn 0; xp 1]; [xn 1; xp 2; xp 3]]
           [0; 1] []
           [[0]; []; [1]; [0]; []; [1]; []; []]
           [None; None; None; None]
           [Some 0%Z; None; None; None]
           [xp 0] 0.

(** ... and after the propagation at level 0, which derives [x1] and
    moves the last clause to its two unassigned literals. *)
Definition st_chain_propagated : Solver :=
  mkSolver [true; true; false; false] None
           [[xp 1; xn 0]; [xp 2; xp 3; xn 1]]
           [0; 1] []
           [[0]; []; []; [0]; []; [1]; []; [1]]
           [None; Some 0; None; None]
           [Some 0%Z; Some 0%Z; None; None]
           [xp 0; xp 1] 2.

(** * Properties *)

Arguments grow : simpl never.
Arguments eval : simpl never.
Arguments decision_level : simpl never.
Arguments enqueue : simpl never.
Arguments new_decision : simpl never.
Arguments pop_queue_until : simpl never.
Arguments attach_clause : simpl never.
Arguments add_clause : simpl never.
Arguments visit : simpl never.
Arguments analyze : simpl never.
Arguments learn : simpl never.

(** ** Inversion of successful runs *)

Lemma bind_Ok {A B} (m : result A) (f : A → result B) (b : B) :
  m ≫= f = Ok b ↔ ∃ a, m = Ok a ∧ f a = Ok b.
Proof.
  destruct m as [a|e]; simpl; split.
  - intros H. by exists a.
  - by intros (a' & [= ->] & H).
  - discriminate.
  - by intros (a' & [=] & _).
Qed.

Lemma assert_Ok (b : bool) (u : unit) : assert b = Ok u ↔ b = true.
Proof. destruct b, u; simpl; split; congruence. Qed.

Lemma at_Ok {A} (v : list A) (i : nat) (a : A) :
  at_ v i = Ok a ↔ v !! i = Some a.
Proof. unfold at_. destruct (v !! i); split; congruence. Qed.

Lemma at_z_Ok {A} (v : list A) (i : Z) (a : A) :
  at_z v i = Ok a ↔ (0 ≤ i)%Z ∧ v !! Z.to_nat i = Some a.
Proof.
  unfold at_z. destruct (Z.ltb_spec i 0).
  - split; [discriminate | lia].
  - rewrite at_Ok. intuition.
Qed.

Lemma set_at_Ok {A} (v : list A) (i : nat) (a : A) (w : list A) :
  set_at v i a = Ok w ↔ i < length v ∧ w = <[i:=a]> v.
Proof.
  unfold set_at. case_decide; split; try discriminate.
  - intros [= <-]. done.
  - intros [_ ->]. done.
  - intros [? _]. lia.
Qed.

Lemma set_at_z_Ok {A} (v : list A) (i : Z) (a : A) (w : list A) :
  set_at_z v i a = Ok w ↔
  (0 ≤ i)%Z ∧ Z.to_nat i < length v ∧ w = <[Z.to_nat i:=a]> v.
Proof.
  unfold set_at_z. destruct (Z.ltb_spec i 0).
  - split; [discriminate | lia].
  - rewrite set_at_Ok. intuition.
Qed.

Ltac inv_ok :=
  repeat match goal with
    | H : Err _ = Ok _ |- _ => discriminate H
    | H : Ok _ = Ok _ |- _ => injection H as H
    | H : mret _ = Ok _ |- _ => injection H as H
    | H : _ ≫= _ = Ok _ |- _ =>
        apply bind_Ok in H; destruct H as (? & ? & H)
    | H : assert _ = Ok _ |- _ => apply assert_Ok in H
    | H : at_ _ _ = Ok _ |- _ => apply at_Ok in H
    | H : at_z _ _ = Ok _ |- _ => apply at_z_Ok in H; destruct H as [? H]
    | H : set_at _ _ _ = Ok _ |- _ => apply set_at_Ok in H; destruct H as [? H]
    | H : set_at_z _ _ _ = Ok _ |- _ =>
        apply set_at_z_Ok in H; destruct H as (? & ? & H)
    | H : bool_decide _ = true |- _ => apply bool_decide_eq_true in H
    | H : negb _ = true |- _ => apply negb_true_iff in H
    | H : bool_decide _ = false |- _ => apply bool_decide_eq_false in H
    end.

(** ** Literals *)

Lemma lxor_1_testbit (a : Z) (n : Z) :
  (0 ≤ n)%Z →
  Z.testbit (Z.lxor a 1) n = if (n =? 0)%Z then negb (Z.testbit a 0) else Z.testbit a n.
Proof.
  intros Hn. rewrite Z.lxor_spec.
  destruct (Z.eqb_spec n 0) as [->|Hne].
  - simpl. by destruct (Z.testbit a 0).
  - replace (Z.testbit 1 n) with false; [by destruct (Z.testbit a n)|].
    symmetry. change 1%Z with (2 ^ 0)%Z. apply Z.pow2_bits_false. lia.
Qed.

Lemma lit_not_not (l : Lit.t) : Lit.not (Lit.not l) = l.
Proof.
  destruct l as [a]. unfold Lit.not. simpl. f_equal.
  rewrite Z.lxor_assoc. change (Z.lxor 1 1) with 0%Z. apply Z.lxor_0_r.
Qed.

Lemma lit_var_not (l : Lit.t) : Lit.var (Lit.not l) = Lit.var l.
Proof.
  destruct l as [a]. unfold Lit.var, Lit.not. simpl.
  rewrite Z.shiftr_lxor. change (Z.shiftr 1 1) with 0%Z. apply Z.lxor_0_r.
Qed.

Lemma lit_neg_odd (l : Lit.t) : Lit.neg l = Z.odd (Lit.x l).
Proof.
  unfold Lit.neg. change 1%Z with (Z.ones 1) at 1.
  rewrite Z.land_ones by lia. change (2 ^ 1)%Z with 2%Z.
  rewrite Zmod_odd. by destruct (Z.odd (Lit.x l)).
Qed.

Lemma lit_neg_not (l : Lit.t) : Lit.neg (Lit.not l) = negb (Lit.neg l).
Proof.
  rewrite !lit_neg_odd. unfold Lit.not. simpl.
  rewrite <- !Z.bit0_odd. rewrite lxor_1_testbit by lia. done.
Qed.

Lemma lit_pos_not (l : Lit.t) : Lit.pos (Lit.not l) = negb (Lit.pos l).
Proof. unfold Lit.pos. by rewrite lit_neg_not. Qed.

Lemma lit_not_ne (l : Lit.t) : Lit.not l ≠ l.
Proof.
  intros H. apply (f_equal Lit.neg) in H. rewrite lit_neg_not in H.
  by destruct (Lit.neg l).
Qed.

Lemma lit_x_decompose (l : Lit.t) :
  Lit.x l = (2 * Lit.var l + (if Lit.neg l then 1 else 0))%Z.
Proof.
  rewrite lit_neg_odd. unfold Lit.var. rewrite Z.shiftr_div_pow2 by lia.
  change (2 ^ 1)%Z with 2%Z. rewrite (Z.div_mod (Lit.x l) 2) at 1 by lia.
  rewrite Zmod_odd. by destruct (Z.odd (Lit.x l)).
Qed.

Lemma lit_eq_var_neg (l1 l2 : Lit.t) :
  Lit.var l1 = Lit.var l2 → Lit.neg l1 = Lit.neg l2 → l1 = l2.
Proof.
  intros Hv Hn. destruct l1 as [a], l2 as [b]. f_equal.
  pose proof (lit_x_decompose (Lit.mk a)) as Ha.
  pose proof (lit_x_decompose (Lit.mk b)) as Hb.
  rewrite Hv, Hn in Ha. simpl in Ha, Hb. congruence.
Qed.

Lemma lit_same_var (l1 l2 : Lit.t) :
  Lit.var l1 = Lit.var l2 → l1 = l2 ∨ l1 = Lit.not l2.
Proof.
  intros Hv. destruct (decide (Lit.neg l1 = Lit.neg l2)) as [Hn|Hn].
  - left. by apply lit_eq_var_neg.
  - right. apply lit_eq_var_neg.
    + by rewrite lit_var_not.
    + rewrite lit_neg_not. destruct (Lit.neg l1), (Lit.neg l2); done.
Qed.

Lemma lit_var_nonneg (l : Lit.t) : (0 ≤ Lit.var l ↔ 0 ≤ Lit.x l)%Z.
Proof. unfold Lit.var. by rewrite Z.shiftr_nonneg. Qed.

Lemma lit_not_nonneg (l : Lit.t) : (0 ≤ Lit.x (Lit.not l) ↔ 0 ≤ Lit.x l)%Z.
Proof. rewrite <- !lit_var_nonneg. by rewrite lit_var_not. Qed.

Lemma lit_not_inj (l1 l2 : Lit.t) : Lit.not l1 = Lit.not l2 → l1 = l2.
Proof. intros H. by rewrite <- (lit_not_not l1), H, lit_not_not. Qed.

(** ** Boundary behaviour of [add_clause] and [pop_queue_until] *)

(** C10: [pop_queue_until] requires a non-empty trail.  On a solver whose
    trail is empty the call fails the assertion [assert(!que.empty())],
    whatever the target level is (level 0 included). *)
Theorem pop_queue_until_empty_trail (s : Solver) (until_level : Z) :
  que s = [] → pop_queue_until s until_level = Err AssertionFailed.
Proof. intros Hq. unfold pop_queue_until. by rewrite Hq. Qed.

Lemma pop_queue_until_empty_trail_new :
  que (new_solver 3) = [] ∧
  pop_queue_until (new_solver 3) 0 = Err AssertionFailed.
Proof.
  split; [reflexivity|].
  apply (pop_queue_until_empty_trail (new_solver 3) 0). reflexivity.
Defined.

(** C2: adding the empty clause does not succeed.  [add_clause] sends every
    clause whose size is not 1 to [attach_clause], whose assertion
    [assert(clause.size() > 1)] fails for the empty clause; no solver state
    results, and no later [solve] can report UNSAT for it. *)
Theorem add_clause_empty_aborts (s : Solver) :
  add_clause s [] = Err AssertionFailed.
Proof.
  unfold add_clause, make_shared, attach_clause, deref, at_. simpl.
  rewrite lookup_app_r by lia. rewrite Nat.sub_diag. reflexivity.
Qed.

Lemma grow_in_range (s : Solver) (l : Lit.t) :
  (0 ≤ Lit.vidx l < Z.of_nat (length (assings s)))%Z → grow s [l] = s.
Proof.
  intros H. unfold grow. simpl. rewrite bool_decide_eq_false_2; [done|lia].
Qed.

(** C1: a unit clause followed by the unit clause of its negation.  The
    second [add_clause] calls [enqueue] on a variable that the first one
    assigned, and fails the assertion
    [assert(!levels\[lit.vidx()\].has_value())]: the formula never reaches
    [solve]. *)
Theorem unit_then_negated_unit_aborts (s s1 : Solver) (l : Lit.t) :
  add_clause s [l] = Ok s1 →
  add_clause s1 [Lit.not l] = Err AssertionFailed.
Proof.
  unfold add_clause. cbn [length decide_rel]. 
  destruct (decide (1 = 1)) as [_|]; [|done].
  cbn [at_ lookup list_lookup mbind result_bind].
  intros H. unfold enqueue in H. inv_ok. subst.
  rewrite grow_in_range.
  2:{ simpl. unfold Lit.vidx in *. rewrite lit_var_not.
      rewrite length_insert. lia. }
  unfold enqueue. simpl. unfold Lit.vidx in *. rewrite lit_var_not.
  unfold at_z. destruct (Z.ltb_spec (Lit.var l) 0); [lia|].
  unfold at_. rewrite list_lookup_insert_eq by done. reflexivity.
Qed.

Lemma unit_then_negated_unit_aborts_x0 :
  add_clause (new_solver 1) [xp 0] =
    Ok (mkSolver [true] None [] [] [] [[]; []] [None] [Some 0%Z] [xp 0] 0) ∧
  add_clause (mkSolver [true] None [] [] [] [[]; []] [None] [Some 0%Z] [xp 0] 0)
             [xn 0] = Err AssertionFailed.
Proof.
  split; [vm_compute; reflexivity|].
  apply (unit_then_negated_unit_aborts (new_solver 1) _ (xp 0)).
  vm_compute; reflexivity.
Defined.

(** The same formula handed to [solve]: no status is returned. *)
Example unit_and_negation_no_status :
  (s1 ← add_clause (new_solver 1) [xp 0];
   s2 ← add_clause s1 [xn 0];
   solve 100 s2) = Err AssertionFailed.
Proof. vm_compute. reflexivity. Qed.

Lemma grow_cons (s : Solver) (l : Lit.t) (c : Clause) :
  grow s (l :: c) =
  grow (if bool_decide (Lit.vidx l < 0 ∨
                        Z.of_nat (length (assings s)) ≤ Lit.vidx l)%Z
        then new_var s else s) c.
Proof. reflexivity. Qed.

Lemma grow_length_le (c : Clause) (s : Solver) :
  length (assings (grow s c)) ≤ length (assings s) + length c.
Proof.
  revert s. induction c as [|l c IH]; intros s.
  { change (grow s []) with s. simpl. lia. }
  rewrite grow_cons. etrans; [apply IH|].
  case_bool_decide; simpl; rewrite ?length_app; simpl; lia.
Qed.

(** C3: the variable space after [add_clause] does not always cover the
    largest index of the clause.  The growing loop calls [new_var] at most
    once per literal; for a unit clause on a variable beyond the current
    count exactly one variable is created, the index stays uncovered, and
    the [enqueue] that follows reads [levels] out of range. *)
Theorem add_clause_does_not_cover (s : Solver) (l : Lit.t) :
  (Z.of_nat (length (assings s)) < Lit.var l)%Z →
  length (assings (grow s [l])) = S (length (assings s)) ∧
  length (levels (grow s [l])) = S (length (levels s)) ∧
  (Z.of_nat (length (assings (grow s [l]))) ≤ Lit.var l)%Z ∧
  (length (levels s) = length (assings s) →
   add_clause s [l] = Err OutOfRange).
Proof.
  intros Hlt. unfold add_clause. rewrite grow_cons.
  rewrite bool_decide_eq_true_2 by (unfold Lit.vidx; lia).
  change (grow (new_var s) []) with (new_var s).
  unfold new_var. simpl. rewrite !length_app. simpl.
  repeat split; try lia.
  intros Hlen. unfold enqueue, at_z. simpl. unfold Lit.vidx.
  destruct (Z.ltb_spec (Lit.var l) 0); [lia|].
  unfold at_. rewrite lookup_ge_None_2; [done|].
  rewrite length_app. simpl. lia.
Qed.

Lemma add_clause_does_not_cover_x2 :
  (Z.of_nat (length (assings (new_solver 0))) < Lit.var (xp 2))%Z ∧
  length (assings (grow (new_solver 0) [xp 2])) = 1 ∧
  add_clause (new_solver 0) [xp 2] = Err OutOfRange.
Proof.
  assert (Z.of_nat (length (assings (new_solver 0))) < Lit.var (xp 2))%Z
    as H by (vm_compute; reflexivity).
  split; [exact H|].
  destruct (add_clause_does_not_cover (new_solver 0) (xp 2) H)
    as (H1 & _ & _ & H2).
  split; [exact H1|]. apply H2. vm_compute; reflexivity.
Defined.

(** A two-literal clause over fresh variables 2 and 3: two variables are
    created, and [attach_clause] indexes the watcher lists out of range. *)
Example add_clause_binary_not_covered :
  length (assings (grow (new_solver 0) [xp 2; xp 3])) = 2 ∧
  add_clause (new_solver 0) [xp 2; xp 3] = Err OutOfRange.
Proof. split; vm_compute; reflexivity. Qed.

(** A clause can be stored although one of its variables has no slot. *)
Example add_clause_stores_uncovered :
  (s ← add_clause (new_solver 0) [xp 0; xp 1; xp 5];
   Ok (length (assings s), heap s)) = Ok (3, [[xp 0; xp 1; xp 5]]).
Proof. vm_compute. reflexivity. Qed.

(** ** Reading the assignment *)

Lemma vnat_not (l : Lit.t) : vnat (Lit.not l) = vnat l.
Proof. unfold vnat, Lit.vidx. by rewrite lit_var_not. Qed.

Lemma vidx_not (l : Lit.t) : Lit.vidx (Lit.not l) = Lit.vidx l.
Proof. apply lit_var_not. Qed.

Lemma lit_value_not (a : bool) (l : Lit.t) :
  lit_value a (Lit.not l) = flip (lit_value a l).
Proof.
  unfold lit_value. rewrite lit_neg_not. by destruct (Lit.neg l), a.
Qed.

Lemma lit_value_pos (l : Lit.t) : lit_value (Lit.pos l) l = LitBool.True.
Proof. unfold lit_value, Lit.pos. by destruct (Lit.neg l). Qed.

Lemma lit_value_True (a : bool) (l : Lit.t) :
  lit_value a l = LitBool.True ↔ a = Lit.pos l.
Proof. unfold lit_value, Lit.pos. destruct (Lit.neg l), a; naive_solver. Qed.

Lemma lit_value_not_Undefine (a : bool) (l : Lit.t) :
  lit_value a l ≠ LitBool.Undefine.
Proof. unfold lit_value. by destruct (Lit.neg l), a. Qed.

Lemma eval_Ok (s : Solver) (l : Lit.t) (e : LitBool.t) :
  eval s l = Ok e ↔
  (0 ≤ Lit.vidx l)%Z ∧
  ∃ lv, levels s !! vnat l = Some lv ∧
        match lv with
        | None => e = LitBool.Undefine
        | Some _ => ∃ a, assings s !! vnat l = Some a ∧ e = lit_value a l
        end.
Proof.
  unfold eval, vnat, lit_value. split.
  - intros H. inv_ok. split; [done|]. eexists; split; [done|].
    destruct x; inv_ok; [|done]. eexists; split; [done|].
    destruct (Lit.neg l); inv_ok; done.
  - intros (Hv & lv & Hlv & H).
    apply bind_Ok. exists lv. split; [by apply at_z_Ok|].
    destruct lv; [|by subst]. destruct H as (a & Ha & ->).
    apply bind_Ok. exists a. split; [by apply at_z_Ok|].
    by destruct (Lit.neg l).
Qed.

Lemma eval_not (s : Solver) (l : Lit.t) (e : LitBool.t) :
  eval s l = Ok e → eval s (Lit.not l) = Ok (flip e).
Proof.
  rewrite !eval_Ok, vidx_not, vnat_not. intros (Hv & lv & Hlv & H).
  split; [done|]. exists lv. split; [done|].
  destruct lv; [|by subst]. destruct H as (a & Ha & ->).
  exists a. by rewrite lit_value_not.
Qed.

Lemma eval_True (s : Solver) (l : Lit.t) :
  eval s l = Ok LitBool.True ↔
  (0 ≤ Lit.vidx l)%Z ∧ (∃ d, levels s !! vnat l = Some (Some d)) ∧
  assings s !! vnat l = Some (Lit.pos l).
Proof.
  rewrite eval_Ok. split.
  - intros (Hv & lv & Hlv & H). destruct lv; [|done].
    destruct H as (a & Ha & Hval). symmetry in Hval.
    apply lit_value_True in Hval. subst. eauto.
  - intros (Hv & [d Hd] & Ha). split; [done|]. eexists; split; [done|].
    eexists; split; [done|]. by rewrite lit_value_pos.
Qed.

Lemma eval_Undefine (s : Solver) (l : Lit.t) :
  eval s l = Ok LitBool.Undefine ↔
  (0 ≤ Lit.vidx l)%Z ∧ levels s !! vnat l = Some None.
Proof.
  rewrite eval_Ok. split.
  - intros (Hv & lv & Hlv & H). destruct lv; [|done].
    destruct H as (a & _ & Hval). symmetry in Hval.
    by apply lit_value_not_Undefine in Hval.
  - intros [Hv Hl]. split; [done|]. by exists None.
Qed.

Lemma eval_False_not (s : Solver) (l : Lit.t) :
  eval s l = Ok LitBool.False ↔ eval s (Lit.not l) = Ok LitBool.True.
Proof.
  split; intros H; apply eval_not in H; [done|].
  by rewrite lit_not_not in H.
Qed.

(** [eval] reads only the slot of the literal's variable. *)
Lemma eval_ext (s s' : Solver) (l : Lit.t) :
  levels s' !! vnat l = levels s !! vnat l →
  assings s' !! vnat l = assings s !! vnat l →
  eval s' l = eval s l.
Proof.
  intros Hl Ha. unfold eval, at_z, at_.
  destruct (Lit.vidx l <? 0)%Z; [done|]. fold (vnat l). by rewrite Hl, Ha.
Qed.

Lemma eval_assigned_ext (s s' : Solver) (l : Lit.t) (e : LitBool.t) :
  e ≠ LitBool.Undefine →
  eval s l = Ok e →
  levels s' !! vnat l = levels s !! vnat l →
  (assings s' !! vnat l = assings s !! vnat l) →
  eval s' l = Ok e.
Proof. intros _ He Hl Ha. by rewrite (eval_ext s s'). Qed.

Lemma decision_level_Ok (s : Solver) (d : Z) :
  decision_level s = Ok d ↔
  match last (que s) with
  | None => d = 0%Z
  | Some l => (0 ≤ Lit.vidx l)%Z ∧
              ∃ lv, levels s !! vnat l = Some lv ∧ d = default 0%Z lv
  end.
Proof.
  unfold decision_level. destruct (last (que s)) as [l|].
  - rewrite bind_Ok. split.
    + intros (lv & H & [= <-]). inv_ok. eauto.
    + intros (Hv & lv & Hlv & ->). exists lv. split; [|done].
      by apply at_z_Ok.
  - split; [by intros [= <-]|by intros ->].
Qed.

(** ** The trail operations *)

Lemma enqueue_Ok (s : Solver) (lit : Lit.t) (reason : option CRef) (s' : Solver) :
  enqueue s lit reason = Ok s' ↔
  (0 ≤ Lit.vidx lit)%Z ∧ levels s !! vnat lit = Some None ∧
  vnat lit < length (assings s) ∧ vnat lit < length (reasons s) ∧
  ∃ d, decision_level s = Ok d ∧ s' = assigned_state s lit d reason.
Proof.
  unfold enqueue, assigned_state. fold (vnat lit). split.
  - intros H. inv_ok. subst. repeat split; try done. eauto.
  - intros (Hv & Hl & Ha & Hr & d & Hd & ->).
    apply bind_Ok. exists None. split; [by apply at_z_Ok|].
    apply bind_Ok. exists tt. split; [done|].
    apply bind_Ok. exists d. split; [done|].
    apply lookup_lt_Some in Hl as Hlt.
    unfold set_at_z, set_at. fold (vnat lit).
    destruct (Z.ltb_spec (Lit.vidx lit) 0); [lia|].
    rewrite !decide_True by done. reflexivity.
Qed.

Lemma new_decision_Ok (s : Solver) (lit : Lit.t) (reason : option CRef)
  (s' : Solver) :
  new_decision s lit reason = Ok s' ↔
  (0 ≤ Lit.vidx lit)%Z ∧ levels s !! vnat lit = Some None ∧
  vnat lit < length (assings s) ∧ vnat lit < length (reasons s) ∧
  ∃ d, decision_level s = Ok d ∧ s' = assigned_state s lit (d + 1) reason.
Proof.
  unfold new_decision. rewrite bind_Ok. split.
  - intros (s1 & H1 & H). apply enqueue_Ok in H1.
    destruct H1 as (Hv & Hl & Ha & Hr & d & Hd & ->).
    repeat split; try done. exists d. split; [done|].
    apply lookup_lt_Some in Hl as Hlt.
    unfold assigned_state in *. simpl in H. fold (vnat lit) in H.
    unfold at_z, at_, set_at_z, set_at in H. fold (vnat lit) in H.
    destruct (Z.ltb_spec (Lit.vidx lit) 0); [lia|].
    rewrite list_lookup_insert_eq in H by done. simpl in H.
    rewrite length_insert in H. rewrite decide_True in H by done.
    rewrite list_insert_insert_eq in H. by injection H as <-.
  - intros (Hv & Hl & Ha & Hr & d & Hd & ->).
    exists (assigned_state s lit d reason). split.
    { apply enqueue_Ok. repeat split; try done. eauto. }
    apply lookup_lt_Some in Hl as Hlt.
    unfold assigned_state. simpl.
    unfold at_z, at_, set_at_z, set_at. fold (vnat lit).
    destruct (Z.ltb_spec (Lit.vidx lit) 0); [lia|].
    rewrite list_lookup_insert_eq by done. simpl.
    rewrite length_insert. rewrite decide_True by done.
    by rewrite list_insert_insert_eq.
Qed.

Lemma clear_slots_length {A} (popped : list Lit.t) (v : list (option A)) :
  length (clear_slots popped v) = length v.
Proof.
  induction popped as [|l p IH]; simpl; [done|]. by rewrite length_insert.
Qed.

Lemma clear_slots_lookup_in {A} (popped : list Lit.t) (v : list (option A))
  (l : Lit.t) :
  l ∈ popped → vnat l < length v → clear_slots popped v !! vnat l = Some None.
Proof.
  induction popped as [|l' p IH]; simpl; intros Hin Hlt.
  { by apply elem_of_nil in Hin. }
  destruct (decide (vnat l' = vnat l)) as [->|Hne].
  - rewrite list_lookup_insert_eq; [done|]. by rewrite clear_slots_length.
  - rewrite list_lookup_insert_ne by done. apply IH; [|done].
    apply elem_of_cons in Hin as [->|Hin]; done.
Qed.

Lemma clear_slots_lookup_notin {A} (popped : list Lit.t) (v : list (option A))
  (i : nat) :
  (∀ l, l ∈ popped → vnat l ≠ i) →
  clear_slots popped v !! i = v !! i.
Proof.
  induction popped as [|l' p IH]; simpl; intros Hnot; [done|].
  rewrite list_lookup_insert_ne.
  - apply IH. intros l Hl. apply Hnot. by apply elem_of_cons; right.
  - apply Hnot. by apply elem_of_cons; left.
Qed.

Lemma clear_slots_app {A} (p1 p2 : list Lit.t) (v : list (option A)) :
  clear_slots (p1 ++ p2) v = clear_slots p1 (clear_slots p2 v).
Proof. unfold clear_slots. by rewrite foldr_app. Qed.

Lemma popped_state_nil (s : Solver) : popped_state s (que s) [] = s.
Proof. by destruct s. Qed.

Lemma removelast_snoc {A} (l : list A) (a : A) : removelast (l ++ [a]) = l.
Proof. apply removelast_last. Qed.

Lemma opt_gt_true (o : option Z) (n : Z) :
  opt_gt o n = true ↔ ∃ d, o = Some d ∧ (n < d)%Z.
Proof.
  destruct o as [d|]; simpl.
  - rewrite Z.ltb_lt. naive_solver.
  - naive_solver.
Qed.

Lemma opt_gt_false (o : option Z) (n : Z) :
  opt_gt o n = false ↔ ∀ d, o = Some d → (d ≤ n)%Z.
Proof.
  destruct o as [d|]; simpl.
  - rewrite Z.ltb_ge. naive_solver.
  - naive_solver.
Qed.

(** What a successful run of the popping loop did. *)
Lemma pop_loop_Ok (n : nat) (s : Solver) (until_level : Z) (s' : Solver) :
  pop_loop n s until_level = Ok s' →
  NoDup (vnat <$> que s) →
  ∃ popped,
    que s = que s' ++ popped ∧
    s' = popped_state s (que s') popped ∧
    Forall (fun l => (0 ≤ Lit.vidx l)%Z ∧ vnat l < length (reasons s) ∧
                     ∃ d, levels s !! vnat l = Some (Some d) ∧
                          (until_level < d)%Z) popped ∧
    (length (que s) ≤ n →
     match last (que s') with
     | None => True
     | Some l => (0 ≤ Lit.vidx l)%Z ∧
                 ∃ lv, levels s' !! vnat l = Some lv ∧
                       opt_gt lv until_level = false
     end).
Proof.
  revert s. induction n as [|n IH]; intros s; simpl.
  { intros H _; injection H as <-. exists []. rewrite app_nil_r, popped_state_nil.
    repeat split; [done|]. intros Hlen.
    destruct (que s); [done|simpl in Hlen; lia]. }
  destruct (last (que s)) as [lit|] eqn:Hlast.
  2:{ intros H _; injection H as <-. exists []. rewrite app_nil_r, popped_state_nil.
      repeat split; [done|]. by rewrite Hlast. }
  apply last_Some in Hlast as [q Hq].
  intros H Hnd. apply bind_Ok in H as (lv & Hlv & H).
  apply at_z_Ok in Hlv as [Hv Hlv]. fold (vnat lit) in Hlv.
  destruct (opt_gt lv until_level) eqn:Hgt.
  2:{ injection H as <-. exists []. rewrite app_nil_r, popped_state_nil.
      repeat split; [done|]. intros _. rewrite Hq, last_snoc. eauto. }
  inv_ok. subst. fold (vnat lit) in *.
  rewrite Hq, removelast_snoc in H.
  rewrite Hq, fmap_app, NoDup_app in Hnd. destruct Hnd as (Hndq & Hnin & _).
  apply IH in H as (popped & Hque & Hs' & Hall & Hstop); [|done].
  simpl in Hque.
  exists (popped ++ [lit]). split; [by rewrite Hq, Hque, app_assoc|].
  split.
  { rewrite Hs'. unfold popped_state. simpl. by rewrite !clear_slots_app. }
  split.
  - apply Forall_app. split.
    + eapply Forall_impl; [exact Hall|]. simpl.
      intros l (Hvl & Hr & d & Hd & Hlt).
      rewrite length_insert in Hr. repeat split; [done..|].
      exists d. split; [|done].
      destruct (decide (vnat lit = vnat l)) as [Heq|Hne].
      * rewrite Heq, list_lookup_insert_eq in Hd; [done|].
        by apply lookup_lt_is_Some; rewrite <- Heq; eauto.
      * by rewrite list_lookup_insert_ne in Hd.
    + apply Forall_singleton. repeat split; [done..|].
      apply opt_gt_true in Hgt as (d & -> & Hlt). eauto.
  - intros Hlen. apply Hstop. simpl.
    rewrite Hq, length_app in Hlen. simpl in Hlen. lia.
Qed.

(** The popping loop does not fail when the trail literals have slots. *)
Lemma pop_loop_total (n : nat) (s : Solver) (until_level : Z) :
  (∀ l, l ∈ que s → (0 ≤ Lit.vidx l)%Z ∧ vnat l < length (levels s) ∧
                    vnat l < length (reasons s)) →
  ∃ s', pop_loop n s until_level = Ok s'.
Proof.
  revert s. induction n as [|n IH]; intros s Hin; simpl; [eauto|].
  destruct (last (que s)) as [lit|] eqn:Hlast; [|eauto].
  apply last_Some in Hlast as [q Hq].
  destruct (Hin lit) as (Hv & Hl & Hr).
  { rewrite Hq. apply elem_of_app; right. by apply list_elem_of_singleton. }
  apply lookup_lt_is_Some in Hl as [lv Hlv].
  unfold at_z, at_, set_at_z, set_at. fold (vnat lit).
  destruct (Z.ltb_spec (Lit.vidx lit) 0); [lia|].
  rewrite Hlv. simpl. destruct (opt_gt lv until_level); [|eauto].
  apply lookup_lt_Some in Hlv as Hlt.
  rewrite !decide_True by done. simpl.
  apply IH. simpl. intros l Hl'. rewrite !length_insert.
  apply Hin. rewrite Hq, removelast_snoc in Hl'. rewrite Hq.
  apply elem_of_app. by left.
Qed.

Lemma pop_queue_until_Ok (s : Solver) (until_level : Z) (s' : Solver) :
  pop_queue_until s until_level = Ok s' →
  NoDup (vnat <$> que s) →
  que s ≠ [] ∧
  ∃ keep popped,
    que s = keep ++ popped ∧
    s' = set_que_head (popped_state s keep popped) (length keep - 1) ∧
    Forall (fun l => (0 ≤ Lit.vidx l)%Z ∧ vnat l < length (reasons s) ∧
                     ∃ d, levels s !! vnat l = Some (Some d) ∧
                          (until_level < d)%Z) popped ∧
    match last keep with
    | None => True
    | Some l => (0 ≤ Lit.vidx l)%Z ∧
                ∃ lv, levels s' !! vnat l = Some lv ∧
                      opt_gt lv until_level = false
    end.
Proof.
  unfold pop_queue_until. intros H Hnd. inv_ok.
  rename H0 into Hne, H1 into Hloop.
  split; [done|].
  apply pop_loop_Ok in Hloop as (popped & Hq & Hs' & Hall & Hstop); [|done].
  exists (que x0), popped. specialize (Hstop (le_n _)).
  assert (s' = set_que_head x0 (length (que x0) - 1)) as ->.
  { case_decide; inv_ok; subst s'; [done|].
    f_equal. lia. }
  repeat split; [done| |done|done].
  by rewrite Hs' at 1.
Qed.

(** ** The trail invariant *)

Lemma default_last_cons {A} (p a : A) (l : list A) :
  default p (last (a :: l)) = default a (last l).
Proof. rewrite last_cons. by destruct (last l). Qed.

Lemma level_steps_app (p : Z) (l1 l2 : list Z) :
  level_steps p (l1 ++ l2) ↔
  level_steps p l1 ∧ level_steps (default p (last l1)) l2.
Proof.
  revert p. induction l1 as [|a l1 IH]; intros p.
  - simpl. naive_solver.
  - rewrite default_last_cons. simpl. rewrite IH. naive_solver.
Qed.

Lemma level_steps_ge (p : Z) (ls : list Z) :
  level_steps p ls → Forall (fun d => (p ≤ d)%Z) ls.
Proof.
  revert p. induction ls as [|a ls IH]; intros p; simpl; [done|].
  intros [Ha Hs]. constructor; [lia|].
  eapply Forall_impl; [apply IH, Hs|]. simpl. lia.
Qed.

Lemma level_steps_last_ge (p : Z) (ls : list Z) :
  level_steps p ls →
  (p ≤ default p (last ls))%Z ∧
  Forall (fun d => (d ≤ default p (last ls))%Z) ls.
Proof.
  revert p. induction ls as [|a ls IH]; intros p.
  - simpl. split; [lia|done].
  - rewrite default_last_cons. simpl. intros [Ha Hs].
    destruct (IH _ Hs) as [H1 H2]. split; [lia|]. by constructor.
Qed.

Lemma trail_inv_slot (s : Solver) (l : Lit.t) :
  trail_inv s → l ∈ que s →
  (0 ≤ Lit.vidx l)%Z ∧ (∃ d, levels s !! vnat l = Some (Some d)) ∧
  assings s !! vnat l = Some (Lit.pos l) ∧
  vnat l < length (levels s) ∧ vnat l < length (reasons s).
Proof.
  intros Hinv Hin. apply (ti_true _ Hinv), eval_True in Hin.
  destruct Hin as (Hv & [d Hd] & Ha). repeat split; eauto.
  - by eapply lookup_lt_Some.
  - rewrite (ti_reasons _ Hinv). by eapply lookup_lt_Some.
Qed.

Lemma pop_queue_until_total (s : Solver) (until_level : Z) :
  trail_inv s → que s ≠ [] → ∃ s', pop_queue_until s until_level = Ok s'.
Proof.
  intros Hinv Hne. unfold pop_queue_until.
  rewrite bool_decide_eq_false_2 by done. simpl.
  destruct (pop_loop_total (length (que s)) s until_level) as [s1 ->].
  { intros l Hl. by destruct (trail_inv_slot s l) as (? & _ & _ & ? & ?). }
  simpl. case_decide; eauto.
Qed.

Lemma trail_levels_app (s : Solver) (keep popped : list Lit.t) :
  que s = keep ++ popped →
  trail_levels s =
    ((fun l => default 0%Z (var_level s (vnat l))) <$> keep) ++
    ((fun l => default 0%Z (var_level s (vnat l))) <$> popped).
Proof. intros H. unfold trail_levels. by rewrite H, fmap_app. Qed.

(** In a state that satisfies the invariant the entries at or below a
    level form a prefix of the trail: once the last of them is not above
    the level, none is. *)
Lemma trail_prefix_not_above (s : Solver) (keep popped : list Lit.t)
  (until_level : Z) (l0 : Lit.t) :
  trail_inv s → que s = keep ++ popped →
  last keep = Some l0 → above s until_level l0 = false →
  ∀ l, l ∈ keep → above s until_level l = false.
Proof.
  intros Hinv Hq Hlast Hl0 l Hl.
  pose proof (ti_steps _ Hinv) as Hsteps.
  rewrite (trail_levels_app _ _ _ Hq), level_steps_app in Hsteps.
  destruct Hsteps as [Hsteps _].
  apply level_steps_last_ge in Hsteps as [_ Hsteps].
  rewrite fmap_last, Hlast in Hsteps. simpl in Hsteps.
  rewrite Forall_fmap, Forall_forall in Hsteps.
  specialize (Hsteps l Hl). simpl in Hsteps.
  assert (l ∈ que s) as Hlq by (rewrite Hq; apply elem_of_app; by left).
  assert (l0 ∈ que s) as Hl0q.
  { rewrite Hq. apply elem_of_app. left. apply last_Some in Hlast as [k ->].
    apply elem_of_app. right. by apply list_elem_of_singleton. }
  destruct (trail_inv_slot s l Hinv Hlq) as (_ & [d Hd] & _).
  destruct (trail_inv_slot s l0 Hinv Hl0q) as (_ & [d0 Hd0] & _).
  unfold above, var_level in *. rewrite Hd, Hd0 in *. simpl in *.
  apply Z.ltb_ge. apply Z.ltb_ge in Hl0. lia.
Qed.

Lemma popped_state_lookup_keep (s : Solver) (keep popped : list Lit.t) (v : nat) :
  (∀ l, l ∈ popped → vnat l ≠ v) →
  levels (popped_state s keep popped) !! v = levels s !! v ∧
  reasons (popped_state s keep popped) !! v = reasons s !! v.
Proof.
  intros H. simpl. by rewrite !clear_slots_lookup_notin.
Qed.

Lemma NoDup_app_vnat_ne (keep popped : list Lit.t) (l l' : Lit.t) :
  NoDup (vnat <$> keep ++ popped) → l ∈ keep → l' ∈ popped → vnat l' ≠ vnat l.
Proof.
  rewrite fmap_app, NoDup_app. intros (_ & Hdisj & _) Hl Hl' Heq.
  apply (Hdisj (vnat l)).
  - by apply list_elem_of_fmap_2.
  - rewrite <- Heq. by apply list_elem_of_fmap_2.
Qed.

Lemma filter_app_all_none {A} (P : A → Prop) `{!∀ x, Decision (P x)}
  (l1 l2 : list A) :
  Forall P l1 → Forall (fun x => ¬ P x) l2 → filter P (l1 ++ l2) = l1.
Proof.
  intros H1 H2. rewrite filter_app.
  replace (filter P l2) with (@nil A).
  - rewrite app_nil_r. induction H1 as [|x l Hx _ IH]; [done|].
    by rewrite filter_cons_True, IH.
  - symmetry. induction H2 as [|x l Hx _ IH]; [done|].
    by rewrite filter_cons_False.
Qed.

(** C4 (as the code has it): on a non-empty trail of a state that
    satisfies the trail invariant, [pop_queue_until] returns; it pops
    exactly the entries whose level exceeds the given level, clears the
    level and the reason of every popped variable, whose literals then
    evaluate to Undefine, leaves the other variables and the stored
    polarities as they were, and sets the propagation cursor to the new
    trail length minus one (to 0 when the trail became empty). *)
Theorem pop_queue_until_spec (s : Solver) (until_level : Z) :
  trail_inv s → que s ≠ [] →
  ∃ s', pop_queue_until s until_level = Ok s' ∧
    que s' = filter (fun l => above s until_level l = false) (que s) ∧
    (∀ l, l ∈ que s → above s until_level l = true →
          levels s' !! vnat l = Some None ∧
          reasons s' !! vnat l = Some None ∧
          eval s' l = Ok LitBool.Undefine) ∧
    (∀ v, (∀ l, l ∈ que s → above s until_level l = true → vnat l ≠ v) →
          levels s' !! v = levels s !! v ∧
          reasons s' !! v = reasons s !! v) ∧
    assings s' = assings s ∧
    que_head s' = length (que s') - 1.
Proof.
  intros Hinv Hne.
  destruct (pop_queue_until_total s until_level Hinv Hne) as [s' Hpop].
  exists s'. split; [done|].
  pose proof (ti_nodup _ Hinv) as Hnd.
  apply pop_queue_until_Ok in Hpop as (_ & keep & popped & Hq & -> & Hall & Hstop);
    [|done].
  rewrite Forall_forall in Hall.
  assert (∀ l, l ∈ popped → above s until_level l = true) as Hpopped.
  { intros l Hl. destruct (Hall l Hl) as (_ & _ & d & Hd & Hlt).
    unfold above, var_level. rewrite Hd. simpl. by apply Z.ltb_lt. }
  assert (∀ l, l ∈ keep → above s until_level l = false) as Hkeep.
  { destruct (last keep) as [l0|] eqn:Hlast.
    2:{ apply last_None in Hlast as ->. intros l Hl.
        by apply elem_of_nil in Hl. }
    eapply trail_prefix_not_above; [done..|].
    destruct Hstop as (_ & lv & Hlv & Hgt).
    destruct (popped_state_lookup_keep s keep popped (vnat l0)) as [Hl0 _].
    { intros l' Hl'. rewrite Hq in Hnd.
      eapply NoDup_app_vnat_ne; [done| |done].
      apply last_Some in Hlast as [k ->]. apply elem_of_app. right.
      by apply list_elem_of_singleton. }
    simpl in Hlv, Hl0. rewrite Hl0 in Hlv.
    unfold above, var_level. by rewrite Hlv. }
  split.
  { simpl. rewrite Hq. symmetry. apply filter_app_all_none.
    - by apply Forall_forall.
    - apply Forall_forall. intros l Hl. rewrite (Hpopped l Hl). done. }
  assert (∀ l, l ∈ que s → above s until_level l = true → l ∈ popped) as Hin.
  { intros l Hl Habove. rewrite Hq in Hl. apply elem_of_app in Hl as [Hl|Hl].
    - rewrite (Hkeep l Hl) in Habove. done.
    - done. }
  split; [|split; [|split]].
  - intros l Hl Habove. specialize (Hin l Hl Habove).
    destruct (Hall l Hin) as (Hv & Hr & d & Hd & _).
    apply lookup_lt_Some in Hd as Hlt.
    assert (levels (set_que_head (popped_state s keep popped)
                      (length keep - 1)) !! vnat l = Some None) as Hlv.
    { simpl. by apply clear_slots_lookup_in. }
    split; [done|]. split.
    + simpl. by apply clear_slots_lookup_in.
    + apply eval_Undefine. done.
  - intros v Hv. apply (popped_state_lookup_keep s keep popped v).
    intros l Hl. apply Hv; [|by apply Hpopped].
    rewrite Hq. apply elem_of_app. by right.
  - done.
  - done.
Qed.

(** ** The trail invariant is kept by the trail operations *)

Lemma trail_inv_new_solver (n : nat) : trail_inv (new_solver n).
Proof.
  split; simpl.
  - by rewrite !length_replicate.
  - by rewrite !length_replicate.
  - constructor.
  - intros l Hl. by apply elem_of_nil in Hl.
  - intros v d Hv. apply lookup_replicate in Hv as [? _]. done.
  - intros v Hv. apply lookup_replicate in Hv as [_ Hv].
    by apply lookup_replicate.
  - done.
Qed.

(** The invariant speaks of the trail and of the per-variable vectors
    only. *)
Lemma trail_inv_frame (s s' : Solver) :
  assings s' = assings s → levels s' = levels s → reasons s' = reasons s →
  que s' = que s → trail_inv s → trail_inv s'.
Proof.
  intros Ha Hl Hr Hq Hinv.
  assert (∀ l, eval s' l = eval s l) as Heval.
  { intros l. apply eval_ext; congruence. }
  destruct Hinv. split; rewrite ?Ha, ?Hl, ?Hr, ?Hq; try done.
  - intros l Hl'. rewrite Heval. auto.
  - unfold trail_levels, var_level. by rewrite Hl, Hq.
Qed.

Lemma trail_inv_new_var (s : Solver) : trail_inv s → trail_inv (new_var s).
Proof.
  intros Hinv. split; simpl.
  - rewrite !length_app. by rewrite (ti_assings _ Hinv).
  - rewrite !length_app. by rewrite (ti_reasons _ Hinv).
  - apply Hinv.
  - intros l Hl. destruct (trail_inv_slot s l Hinv Hl) as (Hv & [d Hd] & Ha & _).
    apply eval_True. simpl. repeat split; [done| |].
    + exists d. by apply lookup_app_l_Some.
    + by apply lookup_app_l_Some.
  - intros v d Hv. apply lookup_app_Some in Hv as [Hv|[_ Hv]].
    + by eapply ti_trail.
    + by destruct (v - length (levels s)) as [|[|?]].
  - intros v Hv. apply lookup_app_Some in Hv as [Hv|[Hge Hv]].
    + apply lookup_app_l_Some. by apply (ti_no_reason _ Hinv).
    + rewrite lookup_app_r by (rewrite (ti_reasons _ Hinv); done).
      rewrite (ti_reasons _ Hinv).
      by destruct (v - length (levels s)) as [|[|?]].
  - pose proof (ti_steps _ Hinv) as Hsteps.
    replace (trail_levels (new_var s)) with (trail_levels s); [done|].
    unfold trail_levels. apply list_fmap_ext. intros i l Hl.
    apply list_elem_of_lookup_2 in Hl.
    destruct (trail_inv_slot s l Hinv Hl) as (_ & [d Hd] & _).
    unfold var_level. simpl. by rewrite (lookup_app_l_Some _ _ _ _ Hd), Hd.
Qed.

Lemma decision_level_last (s : Solver) (d : Z) :
  decision_level s = Ok d → d = default 0%Z (last (trail_levels s)).
Proof.
  intros H. apply decision_level_Ok in H. unfold trail_levels.
  rewrite fmap_last. destruct (last (que s)) as [l|]; simpl; [|done].
  destruct H as (_ & lv & Hlv & ->). unfold var_level. by rewrite Hlv.
Qed.

Lemma decision_level_total (s : Solver) :
  trail_inv s → ∃ d, decision_level s = Ok d.
Proof.
  intros Hinv. unfold decision_level.
  destruct (last (que s)) as [l|] eqn:Hlast; [|eauto].
  apply last_Some in Hlast as [q Hq].
  destruct (trail_inv_slot s l Hinv) as (Hv & [d Hd] & _).
  { rewrite Hq. apply elem_of_app. right. by apply list_elem_of_singleton. }
  exists d. apply bind_Ok. exists (Some d). split; [|done].
  by apply at_z_Ok.
Qed.

(** Assigning a fresh variable at the level of the trail top, or one
    above it. *)
Lemma trail_inv_assigned (s : Solver) (lit : Lit.t) (d d' : Z)
  (reason : option CRef) :
  trail_inv s →
  (0 ≤ Lit.vidx lit)%Z → levels s !! vnat lit = Some None →
  decision_level s = Ok d → (d' = d ∨ d' = (d + 1)%Z) →
  trail_inv (assigned_state s lit d' reason).
Proof.
  intros Hinv Hv Hl Hd Hd'.
  apply lookup_lt_Some in Hl as Hlt.
  assert (∀ l, l ∈ que s → vnat l ≠ vnat lit) as Hfresh.
  { intros l Hin Heq.
    destruct (trail_inv_slot s l Hinv Hin) as (_ & [e He] & _).
    rewrite Heq in He. congruence. }
  split; simpl.
  - rewrite !length_insert. apply Hinv.
  - rewrite !length_insert. apply Hinv.
  - rewrite fmap_app. apply NoDup_app. split; [apply Hinv|]. split.
    + intros v Hin Hin'. apply list_elem_of_singleton in Hin'. subst v.
      apply list_elem_of_fmap in Hin as (l & Heq & Hin).
      by apply (Hfresh l).
    + apply NoDup_singleton.
  - intros l Hin. apply elem_of_app in Hin as [Hin|Hin].
    + rewrite <- (ti_true _ Hinv l Hin). apply eval_ext; simpl.
      * rewrite list_lookup_insert_ne; [done|]. intros Heq.
        by apply (Hfresh l).
      * rewrite list_lookup_insert_ne; [done|]. intros Heq.
        by apply (Hfresh l).
    + apply list_elem_of_singleton in Hin. subst l. apply eval_True. simpl.
      rewrite !list_lookup_insert_eq; eauto.
      by rewrite (ti_assings _ Hinv).
  - intros v e He. destruct (decide (v = vnat lit)) as [->|Hne].
    + exists lit. split; [|done]. apply elem_of_app. right.
      by apply list_elem_of_singleton.
    + rewrite list_lookup_insert_ne in He by done.
      destruct (ti_trail _ Hinv v e He) as (l & Hin & Heq).
      exists l. split; [|done]. apply elem_of_app. by left.
  - intros v Hnone. destruct (decide (v = vnat lit)) as [->|Hne].
    + by rewrite list_lookup_insert_eq in Hnone.
    + rewrite list_lookup_insert_ne in Hnone by done.
      rewrite list_lookup_insert_ne by done. by apply (ti_no_reason _ Hinv).
  - unfold trail_levels. simpl. rewrite fmap_app. simpl.
    replace ((fun l => default 0%Z (var_level (assigned_state s lit d' reason)
                                                (vnat l))) <$> que s)
      with (trail_levels s).
    2:{ unfold trail_levels. apply list_fmap_ext. intros i l Hin.
        apply list_elem_of_lookup_2 in Hin. unfold var_level. simpl.
        rewrite list_lookup_insert_ne; [done|]. intros Heq.
        by apply (Hfresh l). }
    apply level_steps_app. split; [apply Hinv|].
    apply decision_level_last in Hd. rewrite <- Hd.
    unfold var_level. simpl. rewrite list_lookup_insert_eq by done. simpl.
    done.
Qed.

Lemma trail_inv_enqueue (s : Solver) (lit : Lit.t) (reason : option CRef)
  (s' : Solver) :
  trail_inv s → enqueue s lit reason = Ok s' → trail_inv s'.
Proof.
  intros Hinv H. apply enqueue_Ok in H as (Hv & Hl & _ & _ & d & Hd & ->).
  eapply trail_inv_assigned; eauto.
Qed.

Lemma trail_inv_new_decision (s : Solver) (lit : Lit.t) (reason : option CRef)
  (s' : Solver) :
  trail_inv s → new_decision s lit reason = Ok s' → trail_inv s'.
Proof.
  intros Hinv H. apply new_decision_Ok in H as (Hv & Hl & _ & _ & d & Hd & ->).
  eapply trail_inv_assigned; eauto.
Qed.

Lemma popped_state_lookup_popped (s : Solver) (keep popped : list Lit.t)
  (v : nat) :
  Forall (fun l => vnat l < length (levels s) ∧ vnat l < length (reasons s))
         popped →
  v ∈ vnat <$> popped →
  levels (popped_state s keep popped) !! v = Some None ∧
  reasons (popped_state s keep popped) !! v = Some None.
Proof.
  intros Hall Hin. apply list_elem_of_fmap in Hin as (l & -> & Hin).
  rewrite Forall_forall in Hall. destruct (Hall l Hin) as [Hl Hr].
  simpl. by rewrite !clear_slots_lookup_in.
Qed.

Lemma trail_inv_popped (s : Solver) (keep popped : list Lit.t) :
  trail_inv s → que s = keep ++ popped →
  trail_inv (popped_state s keep popped).
Proof.
  intros Hinv Hq.
  pose proof (ti_nodup _ Hinv) as Hnd. rewrite Hq in Hnd.
  assert (Forall (fun l => vnat l < length (levels s) ∧
                           vnat l < length (reasons s)) popped) as Hslots.
  { apply Forall_forall. intros l Hl.
    destruct (trail_inv_slot s l Hinv) as (_ & _ & _ & ? & ?); [|done].
    rewrite Hq. apply elem_of_app. by right. }
  assert (∀ l, l ∈ keep →
               levels (popped_state s keep popped) !! vnat l = levels s !! vnat l)
    as Hkeep.
  { intros l Hl. apply popped_state_lookup_keep. intros l' Hl'.
    by eapply NoDup_app_vnat_ne. }
  split; simpl.
  - rewrite clear_slots_length. apply Hinv.
  - rewrite !clear_slots_length. apply Hinv.
  - rewrite fmap_app in Hnd. by apply NoDup_app in Hnd as [? _].
  - intros l Hl. rewrite <- (ti_true _ Hinv l).
    + apply eval_ext; [by apply Hkeep|done].
    + rewrite Hq. apply elem_of_app. by left.
  - intros v d Hv. destruct (decide (v ∈ vnat <$> popped)) as [Hin|Hnin].
    + destruct (popped_state_lookup_popped s keep popped v Hslots Hin) as [H _].
      simpl in H. congruence.
    + rewrite clear_slots_lookup_notin in Hv.
      2:{ intros l Hl <-. apply Hnin. by apply list_elem_of_fmap_2. }
      destruct (ti_trail _ Hinv v d Hv) as (l & Hl & <-).
      exists l. split; [|done]. rewrite Hq in Hl.
      apply elem_of_app in Hl as [Hl|Hl]; [done|].
      exfalso. apply Hnin. by apply list_elem_of_fmap_2.
  - intros v Hv. destruct (decide (v ∈ vnat <$> popped)) as [Hin|Hnin].
    + by destruct (popped_state_lookup_popped s keep popped v Hslots Hin).
    + rewrite clear_slots_lookup_notin in Hv.
      2:{ intros l Hl <-. apply Hnin. by apply list_elem_of_fmap_2. }
      rewrite clear_slots_lookup_notin.
      2:{ intros l Hl <-. apply Hnin. by apply list_elem_of_fmap_2. }
      by apply (ti_no_reason _ Hinv).
  - pose proof (ti_steps _ Hinv) as Hsteps.
    rewrite (trail_levels_app _ _ _ Hq), level_steps_app in Hsteps.
    destruct Hsteps as [Hsteps _].
    replace (trail_levels (popped_state s keep popped))
      with ((fun l => default 0%Z (var_level s (vnat l))) <$> keep); [done|].
    unfold trail_levels. simpl. apply list_fmap_ext. intros i l Hl.
    apply list_elem_of_lookup_2 in Hl. unfold var_level.
    specialize (Hkeep l Hl). simpl in Hkeep. simpl. by rewrite Hkeep.
Qed.

Lemma trail_inv_pop_queue_until (s : Solver) (until_level : Z) (s' : Solver) :
  trail_inv s → pop_queue_until s until_level = Ok s' → trail_inv s'.
Proof.
  intros Hinv H.
  apply pop_queue_until_Ok in H as (_ & keep & popped & Hq & -> & _);
    [|apply Hinv].
  eapply trail_inv_frame; [..|by apply (trail_inv_popped s keep popped)]; done.
Qed.

(** ** Undoing an assignment *)

Lemma pop_loop_unfold (n : nat) (s : Solver) (until_level : Z) :
  pop_loop (S n) s until_level =
  match last (que s) with
  | None => Ok s
  | Some lit =>
      lv ← at_z (levels s) (Lit.vidx lit);
      if opt_gt lv until_level then
        rsn ← set_at_z (reasons s) (Lit.vidx lit) None;
        lvs ← set_at_z (levels s) (Lit.vidx lit) None;
        pop_loop n
          (set_que (set_levels (set_reasons s rsn) lvs) (removelast (que s)))
          until_level
      else Ok s
  end.
Proof. reflexivity. Qed.

(** The loop stops at once when the top of the trail is not above the
    level. *)
Lemma pop_loop_stop (n : nat) (s : Solver) (d : Z) :
  decision_level s = Ok d → pop_loop n s d = Ok s.
Proof.
  intros Hd. destruct n as [|n]; [done|]. rewrite pop_loop_unfold.
  apply decision_level_Ok in Hd.
  destruct (last (que s)) as [l|]; [|done].
  destruct Hd as (Hv & lv & Hlv & ->).
  unfold at_z, at_. destruct (Z.ltb_spec (Lit.vidx l) 0); [lia|].
  fold (vnat l). rewrite Hlv. simpl.
  destruct lv as [e|]; simpl; [|done]. by rewrite Z.ltb_irrefl.
Qed.

Lemma decision_level_ext (s s' : Solver) :
  que s' = que s → levels s' = levels s →
  decision_level s' = decision_level s.
Proof. intros Hq Hl. unfold decision_level. by rewrite Hq, Hl. Qed.

(** C6 (as the code has it).  In a state that satisfies the trail
    invariant, for a literal whose variable is unassigned:
    - [new_decision] followed by [pop_queue_until] to the prior level gives
      back the trail, the level and the reason of every variable and the
      value of every literal; the stored polarity of the variable keeps
      the decided polarity, and the cursor is left at the trail length
      minus one (0 on an empty trail), whatever it was before;
    - [enqueue] assigns at the prior level itself, so that
      [pop_queue_until] to that level pops nothing: the literal stays on
      the trail and the cursor is put on it. *)
Theorem assign_then_undo (s : Solver) (lit : Lit.t) (d : Z) :
  trail_inv s → decision_level s = Ok d →
  (0 ≤ Lit.vidx lit)%Z → levels s !! vnat lit = Some None →
  (∃ s1 s2,
      new_decision s lit None = Ok s1 ∧ pop_queue_until s1 d = Ok s2 ∧
      que s2 = que s ∧ levels s2 = levels s ∧ reasons s2 = reasons s ∧
      (∀ l, eval s2 l = eval s l) ∧
      assings s2 = <[vnat lit:=Lit.pos lit]> (assings s) ∧
      que_head s2 = length (que s) - 1) ∧
  (∃ s1,
      enqueue s lit None = Ok s1 ∧
      pop_queue_until s1 d = Ok (set_que_head s1 (length (que s))) ∧
      que s1 = que s ++ [lit] ∧
      eval s1 lit = Ok LitBool.True).
Proof.
  intros Hinv Hd Hv Hl.
  apply lookup_lt_Some in Hl as Hlt.
  assert (vnat lit < length (assings s)) as Hlta
    by (by rewrite (ti_assings _ Hinv)).
  assert (vnat lit < length (reasons s)) as Hltr
    by (by rewrite (ti_reasons _ Hinv)).
  pose proof (ti_no_reason _ Hinv _ Hl) as Hr.
  split.
  - exists (assigned_state s lit (d + 1) None).
    set (s1 := assigned_state s lit (d + 1) None).
    set (s2 := set_que (set_assings s (<[vnat lit:=Lit.pos lit]> (assings s)))
                       (que s)).
    exists (set_que_head s2 (length (que s) - 1)).
    split.
    { apply new_decision_Ok. repeat split; eauto. }
    split.
    { unfold pop_queue_until.
      rewrite bool_decide_eq_false_2 by (simpl; by destruct (que s)).
      simpl. rewrite length_app, Nat.add_1_r, pop_loop_unfold.
      simpl. rewrite last_snoc. simpl.
      unfold at_z, at_, set_at_z, set_at. fold (vnat lit).
      destruct (Z.ltb_spec (Lit.vidx lit) 0); [lia|].
      rewrite list_lookup_insert_eq by done. simpl.
      replace (d <? d + 1)%Z with true by (symmetry; apply Z.ltb_lt; lia).
      rewrite !length_insert, !decide_True by done. simpl.
      rewrite !list_insert_insert_eq, removelast_snoc.
      rewrite (list_insert_id _ _ _ Hl), (list_insert_id _ _ _ Hr).
      replace (set_que _ (que s)) with s2 by (by destruct s).
      rewrite pop_loop_stop.
      2:{ rewrite <- Hd. by apply decision_level_ext. }
      simpl. case_decide; [done|].
      do 2 f_equal. simpl in *. lia. }
    repeat split; try done.
    intros l. unfold eval, at_z, at_. simpl.
    destruct (Z.ltb_spec (Lit.vidx l) 0); [done|]. fold (vnat l).
    destruct (levels s !! vnat l) as [[e|]|] eqn:Hlv; simpl; try done.
    rewrite list_lookup_insert_ne; [done|]. intros Heq. congruence.
  - exists (assigned_state s lit d None).
    set (s1 := assigned_state s lit d None).
    assert (enqueue s lit None = Ok s1) as Henq.
    { apply enqueue_Ok. repeat split; eauto. }
    assert (decision_level s1 = Ok d) as Hd1.
    { apply decision_level_Ok. simpl. rewrite last_snoc. split; [done|].
      exists (Some d). by rewrite list_lookup_insert_eq. }
    split; [done|]. split.
    { unfold pop_queue_until.
      rewrite bool_decide_eq_false_2 by (simpl; by destruct (que s)).
      simpl. rewrite pop_loop_stop by done. simpl.
      rewrite length_app, Nat.add_1_r. simpl.
      by rewrite Nat.sub_0_r. }
    split; [done|].
    apply (ti_true _ (trail_inv_enqueue _ _ _ _ Hinv Henq)).
    simpl. apply elem_of_app. right. by apply list_elem_of_singleton.
Qed.

(** ** One visit of a watching clause *)

Lemma swap_at_Ok (C : Clause) (a b : nat) (C' : Clause) :
  swap_at C a b = Ok C' ↔
  ∃ ca cb, C !! a = Some ca ∧ C !! b = Some cb ∧ C' = <[b:=ca]> (<[a:=cb]> C).
Proof.
  unfold swap_at. split.
  - intros H. inv_ok. subst. eauto.
  - intros (ca & cb & Ha & Hb & ->).
    apply bind_Ok. exists ca. split; [by apply at_Ok|].
    apply bind_Ok. exists cb. split; [by apply at_Ok|]. done.
Qed.

Lemma find_watch_Some (s : Solver) (lits : list Lit.t) (k0 k : nat) :
  find_watch s lits k0 = Ok (Some k) →
  ∃ j y e, k = k0 + j ∧ lits !! j = Some y ∧ eval s y = Ok e ∧
           e ≠ LitBool.False.
Proof.
  revert k0. induction lits as [|l lits IH]; intros k0; simpl; [done|].
  intros H. apply bind_Ok in H as (e & He & H).
  case_decide as Hf.
  - apply IH in H as (j & y & e' & -> & Hy & Hey & Hne).
    exists (S j), y, e'. repeat split; [lia|done..].
  - injection H as <-. exists 0, l, e. repeat split; [lia|done..].
Qed.

Lemma find_watch_None (s : Solver) (lits : list Lit.t) (k0 : nat) :
  find_watch s lits k0 = Ok None →
  ∀ y, y ∈ lits → eval s y = Ok LitBool.False.
Proof.
  revert k0. induction lits as [|l lits IH]; intros k0; simpl.
  { intros _ y Hy. by apply elem_of_nil in Hy. }
  intros H. apply bind_Ok in H as (e & He & H).
  case_decide as Hf; [|done]. subst e.
  intros y Hy. apply elem_of_cons in Hy as [->|Hy]; [done|].
  by eapply IH.
Qed.

Lemma visit_Ok (s : Solver) (lit : Lit.t) (i : nat) (s' : Solver) (o : Outcome) :
  visit s lit i = Ok (s', o) →
  ∃ ws cr C c0 c1 first ef,
    (0 ≤ Lit.lidx lit)%Z ∧ watchers s !! lnat lit = Some ws ∧
    ws !! i = Some cr ∧ heap s !! cr = Some C ∧
    C !! 0 = Some c0 ∧ C !! 1 = Some c1 ∧
    normalized C c0 c1 (Lit.not lit) !! 1 = Some (Lit.not lit) ∧
    normalized C c0 c1 (Lit.not lit) !! 0 = Some first ∧
    eval s (Lit.not lit) = Ok LitBool.False ∧ eval s first = Ok ef ∧
    visit_cases s lit i cr ws (normalized C c0 c1 (Lit.not lit)) first ef s' o.
Proof.
  unfold visit. intros H.
  apply bind_Ok in H as (ws & Hws & H). apply at_z_Ok in Hws as [Hl Hws].
  apply bind_Ok in H as (cr & Hcr & H). apply at_Ok in Hcr.
  apply bind_Ok in H as (C & HC & H). apply at_Ok in HC.
  apply bind_Ok in H as (c0 & Hc0 & H). apply at_Ok in Hc0.
  apply bind_Ok in H as (c1 & Hc1 & H). apply at_Ok in Hc1.
  apply bind_Ok in H as ([] & _ & H).
  apply bind_Ok in H as (C1 & HC1 & H).
  assert (C1 = normalized C c0 c1 (Lit.not lit)) as ->.
  { unfold normalized. case_decide.
    - apply swap_at_Ok in HC1 as (ca & cb & Ha & Hb & ->).
      congruence.
    - by injection HC1. }
  set (C1 := normalized C c0 c1 (Lit.not lit)) in *.
  apply bind_Ok in H as (c1' & Hc1' & H). apply at_Ok in Hc1'.
  apply bind_Ok in H as ([] & Heq & H). apply assert_Ok in Heq.
  apply bool_decide_eq_true in Heq. subst c1'.
  apply bind_Ok in H as (e1 & He1 & H).
  apply bind_Ok in H as ([] & Heq & H). apply assert_Ok in Heq.
  apply bool_decide_eq_true in Heq. subst e1.
  apply bind_Ok in H as (first & Hfirst & H). apply at_Ok in Hfirst.
  apply bind_Ok in H as (ef & Hef & H).
  exists ws, cr, C, c0, c1, first, ef.
  repeat (split; [done|]).
  unfold visit_cases.
  destruct (decide (ef = LitBool.True)) as [Htrue|Htrue].
  { left. by injection H as <- <-. }
  right. apply bind_Ok in H as (found & Hfound & H).
  destruct found as [k|].
  - left. split; [done|].
    apply find_watch_Some in Hfound as (j & ck & e & -> & Hck & He & Hne).
    rewrite lookup_drop in Hck.
    apply bind_Ok in H as (C2 & HC2 & H).
    apply swap_at_Ok in HC2 as (ca & cb & Ha & Hb & ->).
    apply bind_Ok in H as (ws' & Hws' & H).
    apply at_z_Ok in Hws' as [_ Hws'].
    apply bind_Ok in H as (w' & Hw' & H).
    apply bind_Ok in H as (wss & Hwss & H).
    apply set_at_z_Ok in Hwss as (_ & _ & ->).
    apply bind_Ok in H as (c1'' & Hc1'' & H). apply at_Ok in Hc1''.
    apply bind_Ok in H as (s2 & Hs2 & H). injection H as <- <-.
    simpl in Hws'. fold (lnat lit) in Hws', Hws, Hs2. rewrite Hws in Hws'.
    injection Hws' as <-.
    unfold swap_pop in Hw'. destruct (last ws) as [w|] eqn:Hlast; [|done].
    apply bind_Ok in Hw' as (w'' & Hw'' & Hw').
    apply set_at_Ok in Hw'' as [Hlt ->]. injection Hw' as <-.
    assert (ca = Lit.not lit) as -> by congruence.
    assert (cb = ck) as -> by congruence.
    assert (c1'' = ck) as ->.
    { apply lookup_lt_Some in Hb as Hlen.
      destruct (decide (2 + j = 1)); [lia|].
      rewrite list_lookup_insert_ne in Hc1'' by lia.
      rewrite list_lookup_insert_eq in Hc1'' by lia. congruence. }
    exists (2 + j), ck, e, w. repeat split; try done; lia.
  - right. pose proof (find_watch_None _ _ _ Hfound) as Hall.
    destruct (decide (ef = LitBool.False)) as [Hfalse|Hfalse].
    + left. by injection H as <- <-.
    + right. apply bind_Ok in H as ([] & Hu & H). apply assert_Ok in Hu.
      apply bool_decide_eq_true in Hu.
      apply bind_Ok in H as (s2 & Hs2 & H). by injection H as <- <-.
Qed.

(** ** Occurrences of a handle in a watcher list *)

Lemma ind_True (P : Prop) `{!Decision P} : P → ind P = 1.
Proof. intros H. unfold ind. by rewrite decide_True. Qed.

Lemma ind_False (P : Prop) `{!Decision P} : ¬ P → ind P = 0.
Proof. intros H. unfold ind. by rewrite decide_False. Qed.

(** Decides the indicators whose proposition is settled by the context;
    the others stay as atoms for [lia]. *)
Ltac ind_simpl :=
  repeat match goal with
    | |- context [@ind ?P ?d] =>
        first [ rewrite (@ind_True P d) by (done || congruence)
              | rewrite (@ind_False P d) by (done || congruence) ]
    | H0 : context [@ind ?P ?d] |- _ =>
        first [ rewrite (@ind_True P d) in H0 by (done || congruence)
              | rewrite (@ind_False P d) in H0 by (done || congruence) ]
    end.

Lemma occ_nil (cr : nat) : occ cr [] = 0.
Proof. done. Qed.

Lemma occ_cons (cr x : nat) (ws : list nat) :
  occ cr (x :: ws) = ind (cr = x) + occ cr ws.
Proof. unfold occ, ind. rewrite filter_cons. by case_decide. Qed.

Lemma occ_app (cr : nat) (l1 l2 : list nat) :
  occ cr (l1 ++ l2) = occ cr l1 + occ cr l2.
Proof. unfold occ. by rewrite filter_app, length_app. Qed.

Lemma occ_snoc (cr x : nat) (ws : list nat) :
  occ cr (ws ++ [x]) = occ cr ws + ind (cr = x).
Proof. rewrite occ_app, occ_cons, occ_nil. lia. Qed.

Lemma occ_pos (cr : nat) (ws : list nat) : cr ∈ ws ↔ 0 < occ cr ws.
Proof.
  induction ws as [|x ws IH].
  - rewrite occ_nil. split; [by intros ?%elem_of_nil|lia].
  - rewrite occ_cons, elem_of_cons, IH. unfold ind. case_decide; [|lia].
    split; [lia|by left].
Qed.

Lemma occ_insert (cr w c : nat) (ws : list nat) (i : nat) :
  ws !! i = Some c →
  occ cr (<[i:=w]> ws) + ind (cr = c) = occ cr ws + ind (cr = w).
Proof.
  intros Hi. apply lookup_lt_Some in Hi as Hlt.
  rewrite insert_take_drop by done.
  rewrite <- (take_drop_middle ws i c Hi) at 3.
  rewrite !occ_app, !occ_cons. lia.
Qed.

(** [watcher\[i\] = watcher.back(); watcher.pop_back();] removes exactly
    the occurrence at position [i]. *)
Lemma occ_swap_pop (cr w c : nat) (ws : list nat) (i : nat) :
  ws !! i = Some c → last ws = Some w →
  occ cr (removelast (<[i:=w]> ws)) + ind (cr = c) = occ cr ws.
Proof.
  intros Hi Hlast. apply last_Some in Hlast as [ws0 ->].
  apply lookup_lt_Some in Hi as Hlt. rewrite length_app in Hlt. simpl in Hlt.
  destruct (decide (i < length ws0)) as [Hlt0|Hge].
  - rewrite insert_app_l by done. rewrite removelast_snoc.
    rewrite lookup_app_l in Hi by done. rewrite occ_snoc.
    by apply occ_insert.
  - assert (i = length ws0) as -> by lia.
    rewrite lookup_app_r, Nat.sub_diag in Hi by lia. injection Hi as <-.
    rewrite insert_app_r_alt, Nat.sub_diag by lia. simpl.
    rewrite removelast_snoc. by rewrite occ_snoc.
Qed.

Lemma length_swap_pop (w : nat) (ws : list nat) (i : nat) :
  ws ≠ [] → length (removelast (<[i:=w]> ws)) = length ws - 1.
Proof.
  intros Hne. destruct (decide (<[i:=w]> ws = [])) as [He|Hne'].
  { apply (f_equal length) in He. rewrite length_insert in He.
    by destruct ws. }
  pose proof (app_removelast_last 0 Hne') as Heq.
  apply (f_equal length) in Heq. rewrite length_app, length_insert in Heq.
  simpl in Heq. lia.
Qed.

Lemma push_watcher_Ok (s : Solver) (idx : Z) (cr : nat) (s' : Solver) :
  push_watcher s idx cr = Ok s' ↔
  (0 ≤ idx)%Z ∧
  ∃ w, watchers s !! Z.to_nat idx = Some w ∧
       s' = set_watchers s (<[Z.to_nat idx:=w ++ [cr]]> (watchers s)).
Proof.
  unfold push_watcher. split.
  - intros H. inv_ok. subst. eauto.
  - intros (Hidx & w & Hw & ->).
    apply bind_Ok. exists w. split; [by apply at_z_Ok|].
    apply lookup_lt_Some in Hw as Hlt.
    unfold set_at_z, set_at. destruct (Z.ltb_spec idx 0); [lia|].
    by rewrite decide_True.
Qed.

(** ** The invariants of the clause store *)

Lemma vnat_eq_same_var (l1 l2 : Lit.t) :
  (0 ≤ Lit.vidx l1)%Z → (0 ≤ Lit.vidx l2)%Z → vnat l1 = vnat l2 →
  l1 = l2 ∨ l1 = Lit.not l2.
Proof.
  unfold vnat, Lit.vidx. intros H1 H2 Heq. apply lit_same_var. lia.
Qed.

Lemma lnat_inj (l1 l2 : Lit.t) :
  (0 ≤ Lit.lidx l1)%Z → (0 ≤ Lit.lidx l2)%Z → lnat l1 = lnat l2 → l1 = l2.
Proof.
  unfold lnat, Lit.lidx. destruct l1 as [a], l2 as [b]. simpl.
  intros H1 H2 Heq. f_equal. lia.
Qed.

(** A literal that evaluates to True stands on the trail. *)
Lemma true_on_trail (s : Solver) (l : Lit.t) :
  trail_inv s → eval s l = Ok LitBool.True → l ∈ que s.
Proof.
  intros Hinv Hl. apply eval_True in Hl as Hl'.
  destruct Hl' as (Hv & [d Hd] & Ha).
  destruct (ti_trail _ Hinv _ _ Hd) as (l' & Hin & Heq).
  destruct (trail_inv_slot s l' Hinv Hin) as (Hv' & _ & Ha' & _).
  destruct (vnat_eq_same_var l' l Hv' Hv Heq) as [->| ->]; [done|].
  rewrite vnat_not, Ha, lit_pos_not in Ha'. injection Ha' as Ha'.
  by destruct (Lit.pos l).
Qed.

(** The clause a reason points to starts with its trail literal. *)
Lemma reason_head_true (s : Solver) (v : nat) (cr : nat) (C : list Lit.t)
  (c0 : Lit.t) :
  trail_inv s → reason_inv s →
  reasons s !! v = Some (Some cr) → heap s !! cr = Some C → C !! 0 = Some c0 →
  eval s c0 = Ok LitBool.True.
Proof.
  intros Hinv Hr Hv HC Hc0.
  destruct (levels s !! v) as [[d|]|] eqn:Hlv.
  - destruct (ti_trail _ Hinv _ _ Hlv) as (l & Hin & <-).
    destruct (Hr l cr Hin Hv) as (R & HR & Hhead & _).
    assert (c0 = l) as -> by congruence. by apply (ti_true _ Hinv).
  - apply (ti_no_reason _ Hinv) in Hlv. congruence.
  - apply lookup_ge_None in Hlv. apply lookup_lt_Some in Hv.
    rewrite (ti_reasons _ Hinv) in Hv. lia.
Qed.

Lemma eval_det (s : Solver) (l : Lit.t) (e1 e2 : LitBool.t) :
  eval s l = Ok e1 → eval s l = Ok e2 → e1 = e2.
Proof. congruence. Qed.

(** ** The watcher invariant under the steps of a visit *)

Lemma watch_inv_frame (s s' : Solver) :
  heap s' = heap s → watchers s' = watchers s → clauses s' = clauses s →
  watch_inv s → watch_inv s'.
Proof.
  intros Hh Hw Hc Hinv. destruct Hinv.
  split; rewrite ?Hh, ?Hw, ?Hc; done.
Qed.

Lemma normalized_length (C : list Lit.t) (c0 c1 nlit : Lit.t) :
  length (normalized C c0 c1 nlit) = length C.
Proof. unfold normalized. case_decide; [|done]. by rewrite !length_insert. Qed.

Lemma normalized_lookup_01 (C : list Lit.t) (c0 c1 nlit : Lit.t) :
  C !! 0 = Some c0 → C !! 1 = Some c1 →
  normalized C c0 c1 nlit !! 0 = Some (if decide (c0 = nlit) then c1 else c0) ∧
  normalized C c0 c1 nlit !! 1 = Some (if decide (c0 = nlit) then c0 else c1).
Proof.
  intros H0 H1. unfold normalized. case_decide; [|done].
  apply lookup_lt_Some in H0 as Hl0. apply lookup_lt_Some in H1 as Hl1.
  split.
  - rewrite list_lookup_insert_ne by lia.
    by rewrite list_lookup_insert_eq by lia.
  - by rewrite list_lookup_insert_eq by (rewrite length_insert; lia).
Qed.

Lemma normalized_lookup_ge (C : list Lit.t) (c0 c1 nlit : Lit.t) (j : nat) :
  2 ≤ j → normalized C c0 c1 nlit !! j = C !! j.
Proof.
  intros Hj. unfold normalized. case_decide; [|done].
  by rewrite !list_lookup_insert_ne by lia.
Qed.

Lemma normalized_watched_by (C : list Lit.t) (c0 c1 nlit : Lit.t) (i : nat) :
  C !! 0 = Some c0 → C !! 1 = Some c1 →
  watched_by (normalized C c0 c1 nlit) i = watched_by C i.
Proof.
  intros H0 H1.
  destruct (normalized_lookup_01 C c0 c1 nlit H0 H1) as [Hn0 Hn1].
  unfold watched_by. rewrite Hn0, Hn1, H0, H1. case_decide; lia.
Qed.

(** Rewriting a stored clause without changing what it watches. *)
Lemma watch_inv_store (s : Solver) (cr : nat) (C C' : list Lit.t) :
  watch_inv s → heap s !! cr = Some C →
  length C' = length C →
  (∀ i, watched_by C' i = watched_by C i) →
  (∀ j c, j < 2 → C' !! j = Some c → ∃ j', j' < 2 ∧ C !! j' = Some c) →
  watch_inv (store s cr C').
Proof.
  intros Hinv HC Hlen Hwb Hpos.
  apply lookup_lt_Some in HC as Hcr.
  assert (∀ cr' D, <[cr:=C']> (heap s) !! cr' = Some D →
                   (cr' = cr ∧ D = C') ∨ (cr' ≠ cr ∧ heap s !! cr' = Some D))
    as Hcases.
  { intros cr' D HD. destruct (decide (cr' = cr)) as [->|Hne].
    - rewrite list_lookup_insert_eq in HD by done. left. by injection HD.
    - rewrite list_lookup_insert_ne in HD by done. by right. }
  split; simpl.
  - rewrite length_insert. apply Hinv.
  - intros cr' D HD. destruct (Hcases _ _ HD) as [[-> ->]|[_ HD']].
    + rewrite Hlen. by apply (wi_size _ Hinv cr).
    + by apply (wi_size _ Hinv cr').
  - intros cr' D j c HD Hj Hc. destruct (Hcases _ _ HD) as [[-> ->]|[_ HD']].
    + destruct (Hpos j c Hj Hc) as (j' & Hj' & Hc').
      by apply (wi_range _ Hinv cr C j').
    + by apply (wi_range _ Hinv cr' D j).
  - intros cr' D i ws HD Hws. destruct (Hcases _ _ HD) as [[-> ->]|[_ HD']].
    + rewrite Hwb. by apply (wi_occ _ Hinv).
    + by apply (wi_occ _ Hinv).
  - intros i ws cr' Hws Hin. rewrite length_insert.
    by apply (wi_valid _ Hinv i ws).
Qed.

Lemma watch_inv_store_normalized (s : Solver) (cr : nat) (C : list Lit.t)
  (c0 c1 nlit : Lit.t) :
  watch_inv s → heap s !! cr = Some C →
  C !! 0 = Some c0 → C !! 1 = Some c1 →
  watch_inv (store s cr (normalized C c0 c1 nlit)).
Proof.
  intros Hinv HC H0 H1. eapply watch_inv_store; [done..| | |].
  - apply normalized_length.
  - intros i. by apply normalized_watched_by.
  - intros j c Hj Hc.
    destruct (normalized_lookup_01 C c0 c1 nlit H0 H1) as [Hn0 Hn1].
    destruct j as [|[|j]]; [| |lia].
    + rewrite Hn0 in Hc. injection Hc as <-.
      case_decide; [exists 1|exists 0]; split; (lia || done).
    + rewrite Hn1 in Hc. injection Hc as <-.
      case_decide; [exists 0|exists 1]; split; (lia || done).
Qed.

(** Case 2 of the propagator: the clause leaves the list it was found in
    and enters the list of the negation of its new second watch. *)
Lemma watch_inv_move (s : Solver) (cr : nat) (C1 : list Lit.t) (lit : Lit.t)
  (i : nat) (ws : list nat) (w k : nat) (ck first : Lit.t) (s' : Solver) :
  watch_inv s → heap s !! cr = Some C1 →
  C1 !! 0 = Some first → C1 !! 1 = Some (Lit.not lit) →
  (0 ≤ Lit.lidx lit)%Z → watchers s !! lnat lit = Some ws →
  ws !! i = Some cr → last ws = Some w →
  2 ≤ k → C1 !! k = Some ck → ck ≠ Lit.not lit →
  push_watcher
    (set_watchers (store s cr (<[k:=Lit.not lit]> (<[1:=ck]> C1)))
                  (<[lnat lit:=removelast (<[i:=w]> ws)]> (watchers s)))
    (Lit.lidx (Lit.not ck)) cr = Ok s' →
  watch_inv s'.
Proof.
  intros Hinv HC Hfirst Hnlit Hl Hws Hi Hlast Hk Hck Hne Hpush.
  apply push_watcher_Ok in Hpush as (Hnck & w0 & Hw0 & ->).
  fold (lnat (Lit.not ck)) in *. simpl in Hw0.
  set (a := lnat lit) in *. set (t := lnat (Lit.not ck)) in *.
  set (C2 := <[k:=Lit.not lit]> (<[1:=ck]> C1)).
  assert (t ≠ a) as Hta.
  { intros Heq. apply lnat_inj in Heq; [|done..].
    apply Hne. by rewrite <- Heq, lit_not_not. }
  rewrite list_lookup_insert_ne in Hw0 by done.
  apply lookup_lt_Some in HC as Hcr.
  apply lookup_lt_Some in Hws as Ha. apply lookup_lt_Some in Hw0 as Ht.
  apply lookup_lt_Some in Hck as Hklen.
  assert (C2 !! 0 = Some first) as H20.
  { unfold C2. by rewrite !list_lookup_insert_ne by lia. }
  assert (C2 !! 1 = Some ck) as H21.
  { unfold C2. rewrite list_lookup_insert_ne by lia.
    rewrite list_lookup_insert_eq by lia. done. }
  assert (length C2 = length C1) as Hlen2.
  { unfold C2. by rewrite !length_insert. }
  assert (∀ cr' D, <[cr:=C2]> (heap s) !! cr' = Some D →
                   (cr' = cr ∧ D = C2) ∨ (cr' ≠ cr ∧ heap s !! cr' = Some D))
    as Hcases.
  { intros cr' D HD. destruct (decide (cr' = cr)) as [->|Hne'].
    - rewrite list_lookup_insert_eq in HD by done. left. by injection HD.
    - rewrite list_lookup_insert_ne in HD by done. by right. }
  assert (∀ j l, <[t:=w0 ++ [cr]]> (<[a:=removelast (<[i:=w]> ws)]> (watchers s))
                   !! j = Some l →
            (j = t ∧ l = w0 ++ [cr]) ∨
            (j = a ∧ l = removelast (<[i:=w]> ws)) ∨
            (j ≠ t ∧ j ≠ a ∧ watchers s !! j = Some l)) as Hwcases.
  { intros j l Hj. destruct (decide (j = t)) as [->|Hjt].
    - rewrite list_lookup_insert_eq in Hj by (by rewrite length_insert).
      left. by injection Hj.
    - rewrite list_lookup_insert_ne in Hj by done.
      destruct (decide (j = a)) as [->|Hja].
      + rewrite list_lookup_insert_eq in Hj by done.
        right; left. by injection Hj.
      + rewrite list_lookup_insert_ne in Hj by done. by right; right. }
  split; simpl.
  - rewrite length_insert. apply Hinv.
  - intros cr' D HD. destruct (Hcases _ _ HD) as [[-> ->]|[_ HD']].
    + rewrite Hlen2. by apply (wi_size _ Hinv cr).
    + by apply (wi_size _ Hinv cr').
  - intros cr' D j c HD Hj Hc. rewrite !length_insert.
    destruct (Hcases _ _ HD) as [[-> ->]|[_ HD']].
    + destruct j as [|[|j]]; [| |lia].
      * rewrite H20 in Hc. injection Hc as <-.
        by apply (wi_range _ Hinv cr C1 0).
      * rewrite H21 in Hc. injection Hc as <-. done.
    + by apply (wi_range _ Hinv cr' D j).
  - intros cr' D j l HD Hj.
    pose proof (occ_swap_pop cr' w cr ws i Hi Hlast) as Hsp.
    pose proof (wi_occ _ Hinv cr C1 a ws HC Hws) as Hoa.
    pose proof (wi_occ _ Hinv cr C1 t w0 HC Hw0) as Hot.
    unfold watched_by in Hoa, Hot. rewrite Hfirst, Hnlit in Hoa, Hot.
    rewrite lit_not_not in Hoa, Hot. fold a in Hoa, Hot.
    destruct (Hcases _ _ HD) as [[-> ->]|[Hne' HD']].
    + unfold watched_by. rewrite H20, H21. fold t.
      destruct (Hwcases _ _ Hj) as [[-> ->]|[[-> ->]|(Hjt & Hja & Hj')]].
      * rewrite occ_snoc, Hot. ind_simpl; lia.
      * ind_simpl; lia.
      * rewrite (wi_occ _ Hinv cr C1 j l HC Hj'). unfold watched_by.
        rewrite Hfirst, Hnlit, lit_not_not. fold a.
        ind_simpl; lia.
    + destruct (Hwcases _ _ Hj) as [[-> ->]|[[-> ->]|(Hjt & Hja & Hj')]].
      * rewrite <- (wi_occ _ Hinv cr' D t w0 HD' Hw0). rewrite occ_snoc.
        ind_simpl; lia.
      * rewrite <- (wi_occ _ Hinv cr' D a ws HD' Hws).
        ind_simpl; lia.
      * by apply (wi_occ _ Hinv cr' D j l).
  - intros j l cr' Hj Hin. rewrite length_insert.
    destruct (Hwcases _ _ Hj) as [[-> ->]|[[-> ->]|(Hjt & Hja & Hj')]].
    + apply elem_of_app in Hin as [Hin|Hin].
      * by apply (wi_valid _ Hinv t w0).
      * apply list_elem_of_singleton in Hin. by subst.
    + apply (wi_valid _ Hinv a ws); [done|]. apply occ_pos.
      apply occ_pos in Hin.
      pose proof (occ_swap_pop cr' w cr ws i Hi Hlast). lia.
    + by apply (wi_valid _ Hinv j l).
Qed.

(** ** The reason invariant under the steps of a visit *)

Lemma before_frame (s s' : Solver) (a b : Lit.t) :
  que s' = que s → before s a b → before s' a b.
Proof. unfold before. by intros ->. Qed.

Lemma reason_inv_frame (s s' : Solver) :
  que s' = que s → reasons s' = reasons s →
  levels s' = levels s → assings s' = assings s →
  (∀ v cr, reasons s !! v = Some (Some cr) → heap s' !! cr = heap s !! cr) →
  reason_inv s → reason_inv s'.
Proof.
  intros Hq Hr Hl Ha Hh Hinv l cr Hin Hcr. rewrite Hq in Hin. rewrite Hr in Hcr.
  destruct (Hinv l cr Hin Hcr) as (R & HR & Hhead & Hrest).
  exists R. rewrite (Hh _ _ Hcr). split; [done|]. split; [done|].
  intros j y Hj Hy. destruct (Hrest j y Hj Hy) as [He Hb]. split.
  - rewrite <- He. apply eval_ext; congruence.
  - by apply (before_frame s s').
Qed.

(** A literal that evaluates to False has its negation on the trail. *)
Lemma false_on_trail (s : Solver) (y : Lit.t) :
  trail_inv s → eval s y = Ok LitBool.False →
  ∃ i, que s !! i = Some (Lit.not y).
Proof.
  intros Hinv Hy. apply eval_False_not in Hy.
  apply (true_on_trail s _ Hinv) in Hy. by apply list_elem_of_lookup_1.
Qed.

Lemma reason_inv_assigned (s : Solver) (lit : Lit.t) (d : Z)
  (reason : option nat) :
  trail_inv s → reason_inv s →
  (0 ≤ Lit.vidx lit)%Z → levels s !! vnat lit = Some None →
  match reason with
  | None => True
  | Some cr =>
      ∃ R, heap s !! cr = Some R ∧ R !! 0 = Some lit ∧
           ∀ j y, 0 < j → R !! j = Some y → eval s y = Ok LitBool.False
  end →
  reason_inv (assigned_state s lit d reason).
Proof.
  intros Hinv Hr Hv Hl Hreason.
  apply lookup_lt_Some in Hl as Hlt.
  assert (∀ y, eval s y = Ok LitBool.False →
               eval (assigned_state s lit d reason) y = Ok LitBool.False)
    as Hkeep.
  { intros y Hy. rewrite <- Hy.
    assert (vnat y ≠ vnat lit) as Hne.
    { intros Heq. apply eval_Ok in Hy as (_ & lv & Hlv & Hrest).
      rewrite Heq, Hl in Hlv. injection Hlv as <-. done. }
    apply eval_ext; simpl; by rewrite list_lookup_insert_ne. }
  intros l cr Hin Hcr. simpl in Hin, Hcr.
  apply elem_of_app in Hin as [Hin|Hin].
  - assert (vnat l ≠ vnat lit) as Hne.
    { intros Heq. destruct (trail_inv_slot s l Hinv Hin) as (_ & [e He] & _).
      congruence. }
    rewrite list_lookup_insert_ne in Hcr by done.
    destruct (Hr l cr Hin Hcr) as (R & HR & Hhead & Hrest).
    exists R. split; [done|]. split; [done|].
    intros j y Hj Hy. destruct (Hrest j y Hj Hy) as [He (i1 & i2 & Hlt' & H1 & H2)].
    split; [by apply Hkeep|].
    exists i1, i2. simpl. split; [done|].
    split; by apply lookup_app_l_Some.
  - apply list_elem_of_singleton in Hin. subst l.
    rewrite list_lookup_insert_eq in Hcr
      by (by rewrite (ti_reasons _ Hinv)).
    injection Hcr as ->. destruct Hreason as (R & HR & Hhead & Hrest).
    exists R. split; [done|]. split; [done|].
    intros j y Hj Hy. specialize (Hrest j y Hj Hy). split; [by apply Hkeep|].
    destruct (false_on_trail s y Hinv Hrest) as [i Hi].
    exists i, (length (que s)). simpl. split; [by eapply lookup_lt_Some|].
    split; [by apply lookup_app_l_Some|].
    rewrite lookup_app_r by lia. by rewrite Nat.sub_diag.
Qed.

(** ** A visit keeps the invariants *)

Lemma solver_inv_visit (s : Solver) (lit : Lit.t) (i : nat) (s' : Solver)
  (o : Outcome) :
  solver_inv s → visit s lit i = Ok (s', o) → solver_inv s'.
Proof.
  intros [Ht Hw Hr] Hvisit.
  apply visit_Ok in Hvisit
    as (ws & cr & C & c0 & c1 & first & ef & Hl & Hws & Hi & HC & H0 & H1 &
        Hn1 & Hn0 & Hnlit & Hef & Hcases).
  set (C1 := normalized C c0 c1 (Lit.not lit)) in *.
  apply lookup_lt_Some in HC as Hcr.
  (* a clause some reason points to is left as it is, and is satisfied *)
  assert (∀ v, reasons s !! v = Some (Some cr) →
               C1 = C ∧ ef = LitBool.True) as Hpointed.
  { intros v Hv.
    pose proof (reason_head_true s v cr C c0 Ht Hr Hv HC H0) as Hc0.
    assert (c0 ≠ Lit.not lit) as Hne by (intros ->; congruence).
    unfold C1, normalized in *. rewrite decide_False in * by done.
    split; [done|]. assert (first = c0) as -> by congruence. congruence. }
  assert (watch_inv (store s cr C1)) as Hw1
    by (by apply watch_inv_store_normalized).
  assert (trail_inv (store s cr C1)) as Ht1
    by (by apply (trail_inv_frame s)).
  assert (heap (store s cr C1) !! cr = Some C1) as HC1
    by (simpl; by rewrite list_lookup_insert_eq).
  assert (ef ≠ LitBool.True → ∀ v cr', reasons s !! v = Some (Some cr') →
          cr' ≠ cr) as Hfree.
  { intros Hne v cr' Hv ->. by destruct (Hpointed v Hv). }
  assert (reason_inv (store s cr C1)) as Hr1.
  { apply (reason_inv_frame s); try done.
    intros v cr' Hv. simpl. destruct (decide (cr' = cr)) as [->|Hne].
    - destruct (Hpointed v Hv) as [-> _].
      by rewrite list_lookup_insert_eq, HC.
    - by rewrite list_lookup_insert_ne. }
  destruct Hcases as [(-> & -> & ->)|[(Hne & Hmove)|[(-> & Hall & -> & ->)|
                      (-> & Hall & Henq & ->)]]].
  - by split.
  - destruct Hmove as (k & ck & e & w & Hk & Hck & He & HeF & Hlast & Hlt &
                       Hpush & ->).
    assert (ck ≠ Lit.not lit) as Hckne by (intros ->; congruence).
    assert (watch_inv s') as Hw'.
    { eapply (watch_inv_move (store s cr C1)); eauto. }
    apply push_watcher_Ok in Hpush as (_ & w0 & _ & ->).
    split; [|done|].
    + by apply (trail_inv_frame s).
    + apply (reason_inv_frame s); try done.
      intros v cr' Hv. simpl.
      by rewrite !list_lookup_insert_ne by (by apply not_eq_sym, (Hfree Hne v)).
  - split.
    + by apply (trail_inv_frame s).
    + by apply (watch_inv_frame (store s cr C1)).
    + by apply (reason_inv_frame (store s cr C1)).
  - pose proof Henq as Henq'.
    apply enqueue_Ok in Henq' as (Hv & Hlv & _ & _ & d & Hd & ->).
    split.
    + by apply (trail_inv_enqueue _ _ _ _ Ht1 Henq).
    + by apply (watch_inv_frame (store s cr C1)).
    + apply reason_inv_assigned; try done.
      exists C1. split; [done|]. split; [done|].
      intros j y Hj Hy. destruct j as [|[|j]]; [lia| |].
      * assert (y = Lit.not lit) as -> by congruence. done.
      * apply Hall. apply list_elem_of_lookup. exists j.
        by rewrite lookup_drop.
Qed.

(** ** Propagation keeps the invariants *)

Lemma solver_inv_set_que_head (s : Solver) (h : nat) :
  solver_inv s → solver_inv (set_que_head s h).
Proof.
  intros [Ht Hw Hr]. split.
  - by apply (trail_inv_frame s).
  - by apply (watch_inv_frame s).
  - by apply (reason_inv_frame s).
Qed.

Lemma solver_inv_watch_loop (fuel : nat) (s : Solver) (lit : Lit.t) (i : nat)
  (s' : Solver) (r : option nat) :
  solver_inv s → watch_loop fuel s lit i = Ok (s', r) → solver_inv s'.
Proof.
  revert s i. induction fuel as [|fuel IH]; intros s i Hinv; simpl; [done|].
  intros H. apply bind_Ok in H as (ws & _ & H).
  case_decide as Hlt.
  - apply bind_Ok in H as ([s1 o] & Hvisit & H).
    apply solver_inv_visit in Hvisit; [|done].
    destruct o as [i'|cr].
    + by apply (IH s1 i').
    + by injection H as <- _.
  - by injection H as <- _.
Qed.

Lemma solver_inv_propagate (fuel : nat) (s s' : Solver) (r : option nat) :
  solver_inv s → propagate fuel s = Ok (s', r) → solver_inv s'.
Proof.
  revert s. induction fuel as [|fuel IH]; intros s Hinv; [done|].
  cbn [propagate]. case_decide as Hlt.
  - intros H. apply bind_Ok in H as (lit & _ & H).
    apply bind_Ok in H as ([s2 r2] & Hloop & H).
    apply solver_inv_watch_loop in Hloop;
      [|by apply solver_inv_set_que_head].
    destruct r2 as [cr|].
    + by injection H as <- _.
    + by apply (IH s2).
  - by intros [= <- _].
Qed.

(** ** Growing the variable space and attaching clauses *)

Lemma eval_new_var (s : Solver) (l : Lit.t) (e : LitBool.t) :
  eval s l = Ok e → eval (new_var s) l = Ok e.
Proof.
  rewrite !eval_Ok. intros (Hv & lv & Hlv & H). split; [done|].
  exists lv. simpl. split; [by apply lookup_app_l_Some|].
  destruct lv; [|done]. destruct H as (a & Ha & ->).
  exists a. split; [by apply lookup_app_l_Some|done].
Qed.

Lemma reason_in_heap (s : Solver) (v cr : nat) :
  trail_inv s → reason_inv s → reasons s !! v = Some (Some cr) →
  cr < length (heap s).
Proof.
  intros Ht Hr Hv. destruct (levels s !! v) as [[d|]|] eqn:Hlv.
  - destruct (ti_trail _ Ht _ _ Hlv) as (l & Hin & <-).
    destruct (Hr l cr Hin Hv) as (R & HR & _). by eapply lookup_lt_Some.
  - apply (ti_no_reason _ Ht) in Hlv. congruence.
  - apply lookup_ge_None in Hlv. apply lookup_lt_Some in Hv.
    rewrite (ti_reasons _ Ht) in Hv. lia.
Qed.

Lemma solver_inv_new_var (s : Solver) : solver_inv s → solver_inv (new_var s).
Proof.
  intros [Ht Hw Hr]. split.
  - by apply trail_inv_new_var.
  - split; simpl.
    + apply Hw.
    + apply Hw.
    + intros cr C j c HC Hj Hc. rewrite length_app.
      destruct (wi_range _ Hw cr C j c HC Hj Hc). split; [done|lia].
    + intros cr C i ws HC Hws.
      apply lookup_app_Some in Hws as [Hws|[Hge Hws]].
      * by apply (wi_occ _ Hw).
      * assert (ws = []) as ->.
        { destruct (i - length (watchers s)) as [|[|?]]; simpl in Hws;
            [by injection Hws..|done]. }
        rewrite occ_nil. unfold watched_by.
        destruct (C !! 0) as [c0|] eqn:H0; [|done].
        destruct (C !! 1) as [c1|] eqn:H1; [|done].
        destruct (wi_range _ Hw cr C 0 c0 HC) as [_ Hr0]; [lia|done|].
        destruct (wi_range _ Hw cr C 1 c1 HC) as [_ Hr1]; [lia|done|].
        rewrite !ind_False by lia. done.
    + intros i ws cr Hws Hin.
      apply lookup_app_Some in Hws as [Hws|[Hge Hws]].
      * by apply (wi_valid _ Hw i ws).
      * destruct (i - length (watchers s)) as [|[|?]]; simpl in Hws;
          [| |done]; injection Hws as <-; by apply elem_of_nil in Hin.
  - intros l cr Hin Hcr. simpl in Hin, Hcr.
    destruct (trail_inv_slot s l Ht Hin) as (_ & _ & _ & _ & Hlt).
    rewrite lookup_app_l in Hcr by done.
    destruct (Hr l cr Hin Hcr) as (R & HR & Hhead & Hrest).
    exists R. split; [done|]. split; [done|].
    intros j y Hj Hy. destruct (Hrest j y Hj Hy) as [He Hb].
    split; [by apply eval_new_var|done].
Qed.

Lemma solver_inv_grow (c : list Lit.t) (s : Solver) :
  solver_inv s → solver_inv (grow s c).
Proof.
  revert s. induction c as [|l c IH]; intros s Hinv; [done|].
  rewrite grow_cons. apply IH. case_bool_decide; [|done].
  by apply solver_inv_new_var.
Qed.

Lemma attach_clause_Ok (s : Solver) (cr : nat) (learnt : bool) (s' : Solver) :
  attach_clause s cr learnt = Ok s' →
  ∃ C c0 c1 w0 w1,
    heap s !! cr = Some C ∧ C !! 0 = Some c0 ∧ C !! 1 = Some c1 ∧
    (0 ≤ Lit.lidx (Lit.not c0))%Z ∧ (0 ≤ Lit.lidx (Lit.not c1))%Z ∧
    watchers s !! lnat (Lit.not c0) = Some w0 ∧
    <[lnat (Lit.not c0):=w0 ++ [cr]]> (watchers s) !! lnat (Lit.not c1)
      = Some w1 ∧
    heap s' = heap s ∧ clauses s' = clauses s ++ [cr] ∧
    watchers s' =
      <[lnat (Lit.not c1):=w1 ++ [cr]]>
        (<[lnat (Lit.not c0):=w0 ++ [cr]]> (watchers s)) ∧
    assings s' = assings s ∧ levels s' = levels s ∧
    reasons s' = reasons s ∧ que s' = que s ∧ que_head s' = que_head s.
Proof.
  unfold attach_clause, deref. intros H.
  apply bind_Ok in H as (C & HC & H). apply at_Ok in HC.
  apply bind_Ok in H as ([] & _ & H).
  apply bind_Ok in H as (c0 & H0 & H). apply at_Ok in H0.
  apply bind_Ok in H as (s1 & Hs1 & H).
  apply push_watcher_Ok in Hs1 as (Hn0 & w0 & Hw0 & ->).
  apply bind_Ok in H as (c1 & H1 & H). apply at_Ok in H1.
  apply bind_Ok in H as (s2 & Hs2 & H).
  apply push_watcher_Ok in Hs2 as (Hn1 & w1 & Hw1 & ->).
  exists C, c0, c1, w0, w1. simpl in Hw1.
  injection H as <-. by destruct learnt.
Qed.

Lemma push_lookup (W : list (list nat)) (t : nat) (w : list nat) (cr i : nat)
  (l : list nat) :
  W !! t = Some w → <[t:=w ++ [cr]]> W !! i = Some l →
  ∃ l0, W !! i = Some l0 ∧ ∀ x, occ x l = occ x l0 + ind (i = t) * ind (x = cr).
Proof.
  intros Ht Hi. apply lookup_lt_Some in Ht as Hlt.
  destruct (decide (i = t)) as [->|Hne].
  - rewrite list_lookup_insert_eq in Hi by done. injection Hi as <-.
    exists w. split; [done|]. intros x. rewrite occ_snoc.
    rewrite (ind_True (t = t)) by done. lia.
  - rewrite list_lookup_insert_ne in Hi by done.
    exists l. split; [done|]. intros x. rewrite (ind_False (i = t)) by done.
    lia.
Qed.

(** [attach_clause] on a clause that has just been allocated registers it
    in the lists of the negations of its first two literals. *)
Lemma solver_inv_attach_fresh (s : Solver) (C : list Lit.t) (learnt : bool)
  (s' : Solver) :
  solver_inv s →
  attach_clause (set_heap s (heap s ++ [C])) (length (heap s)) learnt = Ok s' →
  solver_inv s' ∧ heap s' = heap s ++ [C] ∧
  assings s' = assings s ∧ levels s' = levels s ∧ reasons s' = reasons s ∧
  que s' = que s.
Proof.
  intros [Ht Hw Hr] Hattach.
  apply attach_clause_Ok in Hattach
    as (C' & c0 & c1 & w0 & w1 & HC' & H0 & H1 & Hn0 & Hn1 & Hw0 & Hw1 &
        Hheap & Hcl & Hws & Ha & Hl & Hrs & Hq & _).
  simpl in HC', Hw0, Hw1, Hheap, Hcl, Hws, Ha, Hl, Hrs, Hq.
  rewrite lookup_app_r, Nat.sub_diag in HC' by lia. injection HC' as <-.
  set (cr := length (heap s)) in *.
  set (t0 := lnat (Lit.not c0)) in *. set (t1 := lnat (Lit.not c1)) in *.
  apply lookup_lt_Some in Hw0 as Ht0. apply lookup_lt_Some in Hw1 as Ht1.
  rewrite length_insert in Ht1.
  assert (∀ i l, watchers s' !! i = Some l →
            ∃ l0, watchers s !! i = Some l0 ∧
                  ∀ x, occ x l = occ x l0 + (ind (i = t0) + ind (i = t1)) *
                                              ind (x = cr)) as Hlists.
  { intros i l Hi. rewrite Hws in Hi.
    destruct (push_lookup _ _ _ _ _ _ Hw1 Hi) as (l1 & Hl1 & Ho1).
    destruct (push_lookup _ _ _ _ _ _ Hw0 Hl1) as (l0 & Hl0 & Ho0).
    exists l0. split; [done|]. intros x. rewrite Ho1, Ho0. lia. }
  assert (∀ i l0, watchers s !! i = Some l0 → occ cr l0 = 0) as Hfresh.
  { intros i l0 Hi. destruct (occ cr l0) eqn:Ho; [done|].
    assert (cr ∈ l0) as Hin by (apply occ_pos; lia).
    apply (wi_valid _ Hw i l0) in Hin; [|done]. unfold cr in Hin. lia. }
  split; [|by rewrite Hheap, Ha, Hl, Hrs, Hq].
  split.
  - by apply (trail_inv_frame s).
  - split.
    + rewrite Hcl, Hheap, (wi_clauses _ Hw), length_app. simpl.
      by rewrite Nat.add_1_r, seq_S.
    + rewrite Hheap. intros x D HD.
      apply lookup_app_Some in HD as [HD|[Hge HD]].
      * by apply (wi_size _ Hw x).
      * destruct (x - length (heap s)) as [|?]; [|done].
        injection HD as <-. apply lookup_lt_Some in H1. lia.
    + rewrite Hheap, Hws, !length_insert. intros x D j c HD Hj Hc.
      apply lookup_app_Some in HD as [HD|[Hge HD]].
      * by apply (wi_range _ Hw x D j).
      * destruct (x - length (heap s)) as [|?]; [|done].
        injection HD as <-. destruct j as [|[|j]]; [| |lia].
        -- rewrite H0 in Hc. by injection Hc as <-.
        -- rewrite H1 in Hc. by injection Hc as <-.
    + rewrite Hheap. intros x D i l HD Hi.
      destruct (Hlists i l Hi) as (l0 & Hl0 & Hocc). rewrite Hocc.
      apply lookup_app_Some in HD as [HD|[Hge HD]].
      * apply lookup_lt_Some in HD as Hx.
        rewrite (ind_False (x = cr)) by (unfold cr; lia).
        rewrite Nat.mul_0_r, Nat.add_0_r. by apply (wi_occ _ Hw).
      * destruct (x - length (heap s)) as [|?] eqn:Hx; [|done].
        injection HD as <-. assert (x = cr) as -> by (unfold cr; lia).
        rewrite (Hfresh i l0 Hl0), (ind_True (cr = cr)) by done.
        unfold watched_by. rewrite H0, H1. fold t0 t1. lia.
    + rewrite Hheap, length_app. simpl. intros i l x Hi Hin.
      destruct (Hlists i l Hi) as (l0 & Hl0 & Hocc).
      apply occ_pos in Hin. rewrite Hocc in Hin.
      destruct (decide (x = cr)) as [->|Hne]; [unfold cr; lia|].
      rewrite (ind_False (x = cr)), Nat.mul_0_r, Nat.add_0_r in Hin by done.
      apply occ_pos in Hin. apply (wi_valid _ Hw i l0) in Hin; [lia|done].
  - apply (reason_inv_frame s); try done.
    intros v x Hv. rewrite Hheap.
    apply lookup_app_l. by apply (reason_in_heap s v).
Qed.

Lemma solver_inv_enqueue_decision (s : Solver) (lit : Lit.t) (s' : Solver) :
  solver_inv s →
  enqueue s lit None = Ok s' ∨ new_decision s lit None = Ok s' →
  solver_inv s'.
Proof.
  intros [Ht Hw Hr] H.
  assert (trail_inv s') as Ht'.
  { destruct H as [H|H];
      [by eapply trail_inv_enqueue|by eapply trail_inv_new_decision]. }
  assert (∃ d, (0 ≤ Lit.vidx lit)%Z ∧ levels s !! vnat lit = Some None ∧
               s' = assigned_state s lit d None) as (d & Hv & Hl & ->).
  { destruct H as [H|H].
    - apply enqueue_Ok in H as (? & ? & _ & _ & d & _ & ->). eauto.
    - apply new_decision_Ok in H as (? & ? & _ & _ & d & _ & ->). eauto. }
  split; [done| |].
  - by apply (watch_inv_frame s).
  - by apply reason_inv_assigned.
Qed.

Lemma solver_inv_add_clause (s : Solver) (c : list Lit.t) (s' : Solver) :
  solver_inv s → add_clause s c = Ok s' → solver_inv s'.
Proof.
  intros Hinv. unfold add_clause. pose proof (solver_inv_grow c s Hinv) as Hg.
  case_decide as Hlen.
  - intros H. apply bind_Ok in H as (c0 & _ & H).
    eapply solver_inv_enqueue_decision; eauto.
  - unfold make_shared. intros H.
    by apply solver_inv_attach_fresh in H as [? _].
Qed.

Lemma solver_inv_new_solver (n : nat) : solver_inv (new_solver n).
Proof.
  split.
  - apply trail_inv_new_solver.
  - split; simpl; try done.
    intros i ws cr Hws Hin. apply lookup_replicate in Hws as [-> _].
    by apply elem_of_nil in Hin.
  - intros l cr Hin. by apply elem_of_nil in Hin.
Qed.

Lemma solver_inv_enqueue_reason (s : Solver) (lit : Lit.t) (cr : nat)
  (R : list Lit.t) (s' : Solver) :
  solver_inv s → heap s !! cr = Some R → R !! 0 = Some lit →
  (∀ j y, 0 < j → R !! j = Some y → eval s y = Ok LitBool.False) →
  enqueue s lit (Some cr) = Ok s' → solver_inv s'.
Proof.
  intros [Ht Hw Hr] HR Hhead Hrest Henq.
  pose proof (trail_inv_enqueue _ _ _ _ Ht Henq) as Ht'.
  apply enqueue_Ok in Henq as (Hv & Hl & _ & _ & d & _ & ->).
  split; [done| |].
  - by apply (watch_inv_frame s).
  - apply reason_inv_assigned; eauto.
Qed.

(** ** Backjumping keeps the invariants *)

Lemma reason_inv_popped (s : Solver) (keep popped : list Lit.t) :
  trail_inv s → reason_inv s → que s = keep ++ popped →
  reason_inv (popped_state s keep popped).
Proof.
  intros Ht Hr Hq.
  pose proof (ti_nodup _ Ht) as Hnd. rewrite Hq in Hnd.
  assert (NoDup (que s)) as Hndq by (eapply NoDup_fmap_1, Ht).
  assert (∀ l, l ∈ keep → ∀ l', l' ∈ popped → vnat l' ≠ vnat l) as Hdisj.
  { intros l Hl l' Hl'. by eapply NoDup_app_vnat_ne. }
  intros l cr Hin Hcr. simpl in Hin, Hcr.
  rewrite clear_slots_lookup_notin in Hcr by (by apply Hdisj).
  assert (l ∈ que s) as Hinq by (rewrite Hq; apply elem_of_app; by left).
  destruct (Hr l cr Hinq Hcr) as (R & HR & Hhead & Hrest).
  exists R. split; [done|]. split; [done|].
  intros j y Hj Hy.
  destruct (Hrest j y Hj Hy) as [He (i1 & i2 & Hlt & H1 & H2)].
  apply list_elem_of_lookup_1 in Hin as [j' Hj'].
  assert (i2 = j') as ->.
  { eapply NoDup_lookup; [exact Hndq|exact H2|].
    rewrite Hq. by apply lookup_app_l_Some. }
  apply lookup_lt_Some in Hj' as Hlen.
  rewrite Hq, lookup_app_l in H1 by lia.
  split.
  - rewrite <- He. apply eval_ext; [|done]. simpl.
    apply clear_slots_lookup_notin. rewrite <- (vnat_not y).
    apply Hdisj. by eapply list_elem_of_lookup_2.
  - exists i1, j'. by simpl.
Qed.

Lemma solver_inv_pop_queue_until (s : Solver) (until_level : Z) (s' : Solver) :
  solver_inv s → pop_queue_until s until_level = Ok s' → solver_inv s'.
Proof.
  intros [Ht Hw Hr] Hpop.
  pose proof (trail_inv_pop_queue_until _ _ _ Ht Hpop) as Ht'.
  apply pop_queue_until_Ok in Hpop as (_ & keep & popped & Hq & -> & _);
    [|apply Ht].
  split; [done| |].
  - by apply (watch_inv_frame s).
  - apply (reason_inv_frame (popped_state s keep popped)); try done.
    by apply reason_inv_popped.
Qed.

(** ** What [analyze] returns *)

Lemma account_learnt (s : Solver) (level : Z) (f : Frontier) (lit : Lit.t)
  (f' : Frontier) :
  account s level f lit = Ok f' →
  all_false s [lit] → all_false s (learnt_clause f) →
  all_false s (learnt_clause f').
Proof.
  unfold account. intros H Hlit Hf. apply bind_Ok in H as (lv & _ & H).
  injection H as <-. destruct (opt_lt lv level); simpl; [|done].
  by apply Forall_app.
Qed.

Lemma seed_false (s : Solver) (level : Z) (lits : list Lit.t)
  (f f' : Frontier) :
  seed s level lits f = Ok f' →
  all_false s (learnt_clause f) → all_false s (learnt_clause f').
Proof.
  revert f. induction lits as [|l lits IH]; intros f; simpl.
  { by intros [= ->]. }
  intros H Hf. apply bind_Ok in H as (e & He & H).
  apply bind_Ok in H as ([] & Hassert & H). apply assert_Ok in Hassert.
  apply bool_decide_eq_true in Hassert. subst e.
  apply bind_Ok in H as (f1 & Hf1 & H).
  apply (IH f1); [done|]. eapply account_learnt; [done| |done].
  by apply Forall_singleton.
Qed.

Lemma resolve_false (s : Solver) (level : Z) (lits : list Lit.t)
  (f f' : Frontier) :
  resolve s level lits f = Ok f' → all_false s lits →
  all_false s (learnt_clause f) → all_false s (learnt_clause f').
Proof.
  revert f. induction lits as [|l lits IH]; intros f; simpl.
  { by intros [= ->]. }
  intros H Hlits Hf. apply Forall_cons in Hlits as [Hl Hlits].
  case_decide as Hseen; [by apply (IH f)|].
  apply bind_Ok in H as (f1 & Hf1 & H).
  apply (IH f1); [done..|]. eapply account_learnt; [done| |done].
  by apply Forall_singleton.
Qed.

Lemma walk_false (n : nat) (s : Solver) (level : Z) (f : Frontier)
  (uip : Lit.t) (f' : Frontier) :
  reason_inv s → walk n s level f = Ok (uip, f') →
  all_false s (learnt_clause f) →
  uip ∈ que s ∧ all_false s (learnt_clause f').
Proof.
  intros Hr. revert f. induction n as [|i IH]; intros f; simpl; [done|].
  intros H Hf. apply bind_Ok in H as (lit & Hlit & H). apply at_Ok in Hlit.
  apply list_elem_of_lookup_2 in Hlit as Hin.
  case_decide as Hseen; [|by apply (IH f)].
  case_decide as Hcount.
  { injection H as <- <-. done. }
  apply bind_Ok in H as (r & Hrs & H). apply at_z_Ok in Hrs as [Hv Hrs].
  apply bind_Ok in H as ([] & _ & H). destruct r as [reason|]; [|done].
  apply bind_Ok in H as (clause & Hclause & H). apply at_Ok in Hclause.
  apply bind_Ok in H as (c0 & Hc0 & H).
  apply bind_Ok in H as ([] & _ & H).
  apply bind_Ok in H as (f1 & Hf1 & H).
  apply (IH f1); [done|]. eapply resolve_false; [done| |done].
  destruct (Hr lit reason Hin Hrs) as (R & HR & _ & Hrest).
  assert (R = clause) as -> by congruence.
  apply Forall_forall. intros y Hy.
  apply list_elem_of_lookup_1 in Hy as [j Hj]. rewrite lookup_drop in Hj.
  apply (Hrest (1 + j) y); [lia|done].
Qed.

Lemma max_level_Ok (s : Solver) (lits : list Lit.t) (acc b : Z) :
  max_level s lits acc = Ok b →
  (acc ≤ b)%Z ∧
  Forall (fun y => ∃ e, levels s !! vnat y = Some (Some e) ∧ (e ≤ b)%Z) lits.
Proof.
  revert acc. induction lits as [|l lits IH]; intros acc; simpl.
  { intros [= ->]. split; [lia|done]. }
  intros H. apply bind_Ok in H as (lv & Hlv & H). apply at_z_Ok in Hlv as [_ Hlv].
  apply bind_Ok in H as ([] & _ & H). destruct lv as [e|]; [|done].
  apply IH in H as [Hle Hall]. split; [lia|]. constructor; [|done].
  exists e. split; [done|lia].
Qed.

(** The clause after [push_back(~uip)] and the swap of its ends. *)
Lemma swap_ends_lookup (learnt : list Lit.t) (nu : Lit.t) (L : list Lit.t) :
  swap_at (learnt ++ [nu]) 0 (length (learnt ++ [nu]) - 1) = Ok L →
  L !! 0 = Some nu ∧ length L = S (length learnt) ∧
  ∀ j y, 0 < j → L !! j = Some y → y ∈ learnt.
Proof.
  rewrite length_app. simpl. rewrite Nat.add_sub.
  intros H. apply swap_at_Ok in H as (ca & cb & Ha & Hb & ->).
  rewrite lookup_app_r, Nat.sub_diag in Hb by lia. injection Hb as <-.
  destruct learnt as [|x learnt].
  { simpl in *. split; [done|]. split; [done|].
    intros j y Hj Hy. destruct j; [lia|done]. }
  simpl in Ha. injection Ha as <-. simpl length.
  split; [done|]. split.
  { rewrite !length_insert. simpl. by rewrite length_app, Nat.add_1_r. }
  intros j y Hj Hy.
  destruct (decide (j = S (length learnt))) as [->|Hne].
  - rewrite list_lookup_insert_eq in Hy.
    + injection Hy as <-. by left.
    + rewrite length_insert. simpl. rewrite length_app. simpl. lia.
  - rewrite list_lookup_insert_ne in Hy by done.
    rewrite list_lookup_insert_ne in Hy by lia.
    destruct j as [|j]; [lia|]. simpl in Hy.
    apply lookup_app_Some in Hy as [Hy|[Hge Hy]].
    + right. by eapply list_elem_of_lookup_2.
    + exfalso. apply lookup_lt_Some in Hy. simpl in Hy. simpl in Hne. lia.
Qed.

Lemma analyze_Ok (s : Solver) (conflict : nat) (L : list Lit.t) (b : Z) :
  reason_inv s → analyze s conflict = Ok (L, b) →
  ∃ uip, uip ∈ que s ∧ L !! 0 = Some (Lit.not uip) ∧ (0 ≤ b)%Z ∧
    ∀ j y, 0 < j → L !! j = Some y →
      eval s y = Ok LitBool.False ∧
      ∃ e, levels s !! vnat y = Some (Some e) ∧ (e ≤ b)%Z.
Proof.
  intros Hr. unfold analyze. intros H.
  apply bind_Ok in H as (d & Hd & H).
  apply bind_Ok in H as (K & HK & H).
  apply bind_Ok in H as (f0 & Hseed & H).
  apply bind_Ok in H as ([] & _ & H).
  apply bind_Ok in H as ([uip f1] & Hwalk & H).
  apply bind_Ok in H as (L' & Hswap & H).
  apply bind_Ok in H as (b' & Hmax & H). injection H as -> ->.
  apply seed_false in Hseed; [|by constructor].
  apply walk_false in Hwalk as [Hin Hfalse]; [|done..].
  apply swap_ends_lookup in Hswap as (Hhead & _ & Htail).
  apply max_level_Ok in Hmax as [Hb Hlv].
  exists uip. do 3 (split; [done|]).
  intros j y Hj Hy. split.
  - unfold all_false in Hfalse. rewrite Forall_forall in Hfalse.
    by apply Hfalse, (Htail j).
  - rewrite Forall_forall in Hlv. apply Hlv.
    apply list_elem_of_lookup. exists (j - 1). rewrite lookup_drop.
    by replace (1 + (j - 1)) with j by lia.
Qed.

Lemma solver_inv_learn (s : Solver) (conflict : nat) (s' : Solver) :
  solver_inv s → learn s conflict = Ok s' → solver_inv s'.
Proof.
  intros Hinv. unfold learn. intros H.
  apply bind_Ok in H as ([L b] & Hanalyze & H).
  apply bind_Ok in H as (s1 & Hpop & H).
  apply analyze_Ok in Hanalyze as (uip & _ & Hhead & _ & Htail);
    [|apply Hinv].
  pose proof (solver_inv_pop_queue_until _ _ _ Hinv Hpop) as Hinv1.
  (* the literals of the learnt clause behind the first stay False *)
  assert (∀ j y, 0 < j → L !! j = Some y → eval s1 y = Ok LitBool.False)
    as Hfalse1.
  { intros j y Hj Hy. destruct (Htail j y Hj Hy) as (He & e & Hlv & Hle).
    apply pop_queue_until_Ok in Hpop
      as (_ & keep & popped & Hq & -> & Hall & _); [|apply Hinv].
    rewrite <- He. apply eval_ext; [|done]. simpl.
    apply clear_slots_lookup_notin. intros l Hl Heq.
    rewrite Forall_forall in Hall.
    destruct (Hall l Hl) as (_ & _ & d & Hd & Hlt).
    rewrite Heq, Hlv in Hd. injection Hd as <-. lia. }
  case_decide as Hlen.
  - apply bind_Ok in H as (l0 & _ & H).
    eapply solver_inv_enqueue_decision; eauto.
  - unfold make_shared in H.
    apply bind_Ok in H as (s3 & Hattach & H).
    apply bind_Ok in H as (l0 & Hl0 & H). apply at_Ok in Hl0.
    apply solver_inv_attach_fresh in Hattach
      as (Hinv3 & Hheap & Ha & Hl & _ & _); [|done].
    eapply (solver_inv_enqueue_reason s3 l0 (length (heap s1)) L);
      [done| |done| |done].
    + rewrite Hheap, lookup_app_r, Nat.sub_diag by lia. done.
    + intros j y Hj Hy. rewrite <- (Hfalse1 j y Hj Hy).
      apply eval_ext; congruence.
Qed.

(** ** Reachable states *)

Lemma reachable_solve_step (fuel : nat) (s s' : Solver) (r : option Status) :
  reachable s → solve_step fuel s = Ok (s', r) → reachable s'.
Proof.
  intros Hs. unfold solve_step. intros H.
  apply bind_Ok in H as ([s1 conflict] & Hprop & H).
  apply (reach_propagate _ _ _ _ Hs) in Hprop.
  destruct conflict as [cr|].
  - apply bind_Ok in H as (d & _ & H). case_decide.
    + by injection H as <- _.
    + apply bind_Ok in H as (s2 & Hlearn & H). injection H as <- _.
      by eapply reach_learn.
  - apply bind_Ok in H as (next & _ & H). destruct next as [l|].
    + apply bind_Ok in H as (s2 & Hdec & H). injection H as <- _.
      by eapply reach_new_decision.
    + by injection H as <- _.
Qed.

Lemma reachable_solve (fuel : nat) (s s' : Solver) (st : Status) :
  reachable s → solve fuel s = Ok (s', st) → reachable s'.
Proof.
  revert s. induction fuel as [|fuel IH]; intros s Hs; [done|].
  cbn [solve]. intros H. apply bind_Ok in H as ([s1 r] & Hstep & H).
  apply (reachable_solve_step _ _ _ _ Hs) in Hstep.
  destruct r as [st'|].
  - by injection H as <- _.
  - by apply (IH s1).
Qed.

Lemma reachable_inv (s : Solver) : reachable s → solver_inv s.
Proof.
  induction 1.
  - apply solver_inv_new_solver.
  - by apply solver_inv_new_var.
  - by eapply solver_inv_add_clause.
  - eapply solver_inv_enqueue_decision; eauto.
  - eapply solver_inv_enqueue_decision; eauto.
  - by eapply solver_inv_pop_queue_until.
  - by eapply solver_inv_propagate.
  - by eapply solver_inv_learn.
Qed.

(** ** The level after backjumping *)

(** C7: from a reachable state whose decision level [d] exceeds [b]
    (a level, so [0 ≤ b]), [pop_queue_until] to [b] returns, the decision
    level afterwards is exactly [b], and every variable that is still
    assigned has a level of at most [b]. *)
Theorem undo_until_level (s : Solver) (b d : Z) :
  reachable s → decision_level s = Ok d → (0 ≤ b < d)%Z →
  ∃ s', pop_queue_until s b = Ok s' ∧ decision_level s' = Ok b ∧
        ∀ v e, levels s' !! v = Some (Some e) → (e ≤ b)%Z.
Proof.
  intros Hs Hd Hb. apply reachable_inv in Hs as [Hinv _ _].
  assert (que s ≠ []) as Hne.
  { intros Hq. unfold decision_level in Hd. rewrite Hq in Hd. simpl in Hd.
    injection Hd as <-. lia. }
  destruct (pop_queue_until_total s b Hinv Hne) as [s' Hpop].
  exists s'. split; [done|].
  pose proof (trail_inv_pop_queue_until _ _ _ Hinv Hpop) as Hinv'.
  pose proof (ti_nodup _ Hinv) as Hnd.
  apply pop_queue_until_Ok in Hpop
    as (_ & keep & popped & Hq & -> & Hall & Hstop); [|done].
  rewrite Forall_forall in Hall.
  assert (∀ l, l ∈ keep →
            levels (popped_state s keep popped) !! vnat l = levels s !! vnat l)
    as Hsame.
  { intros l Hl. apply popped_state_lookup_keep. intros l' Hl'.
    rewrite Hq in Hnd. by eapply NoDup_app_vnat_ne. }
  (* the level of the entry the loop stopped at, 0 on an empty trail *)
  set (e0 := default 0%Z (last ((fun l => default 0%Z (var_level s (vnat l)))
                                  <$> keep))).
  assert (decision_level (set_que_head (popped_state s keep popped)
                            (length keep - 1)) = Ok e0 ∧ (e0 ≤ b)%Z)
    as [Hd' He0].
  { unfold e0. rewrite fmap_last. rewrite decision_level_Ok. simpl.
    destruct (last keep) as [l0|] eqn:Hlast; simpl; [|split; [done|lia]].
    destruct Hstop as (Hv & lv & Hlv & Hgt). simpl in Hlv.
    assert (l0 ∈ keep) as Hl0.
    { apply last_Some in Hlast as [k ->]. apply elem_of_app. right.
      by apply list_elem_of_singleton. }
    pose proof (Hsame l0 Hl0) as Hs0. simpl in Hs0.
    split.
    - split; [done|]. exists lv. split; [done|].
      unfold var_level. by rewrite <- Hs0, Hlv.
    - unfold var_level. rewrite <- Hs0, Hlv. simpl.
      destruct lv as [e|]; simpl in *; [|lia]. by apply Z.ltb_ge. }
  (* something was popped, and its level is one above [e0] at most *)
  pose proof (ti_steps _ Hinv) as Hsteps.
  rewrite (trail_levels_app _ _ _ Hq), level_steps_app in Hsteps.
  destruct Hsteps as [_ Hsteps]. fold e0 in Hsteps.
  destruct popped as [|p1 popped].
  { exfalso. rewrite app_nil_r in Hq. subst keep.
    apply decision_level_last in Hd. unfold trail_levels in Hd.
    fold e0 in Hd. lia. }
  destruct (Hall p1) as (_ & _ & e1 & He1 & Hlt); [by left|].
  simpl in Hsteps. destruct Hsteps as [Hstep _].
  unfold var_level in Hstep. rewrite He1 in Hstep. simpl in Hstep.
  assert (e0 = b) as <- by lia.
  split; [done|].
  intros v e Hv.
  destruct (ti_trail _ Hinv' v e Hv) as (l & Hl & <-). simpl in Hl.
  pose proof (Hsame l Hl) as Hs. simpl in Hs, Hv.
  destruct (last keep) as [l0|] eqn:Hlast.
  2:{ apply last_None in Hlast. subst keep. by apply elem_of_nil in Hl. }
  assert (above s e0 l = false) as Hnot.
  { eapply (trail_prefix_not_above s keep _ e0 l0); [done..| |done].
    destruct Hstop as (_ & lv & Hlv & Hgt). simpl in Hlv.
    assert (l0 ∈ keep) as Hl0.
    { apply last_Some in Hlast as [k ->]. apply elem_of_app. right.
      by apply list_elem_of_singleton. }
    pose proof (Hsame l0 Hl0) as Hs0. simpl in Hs0.
    unfold above, var_level. rewrite <- Hs0, Hlv. simpl.
    unfold e0. rewrite fmap_last, Hlast. simpl.
    unfold var_level. rewrite <- Hs0, Hlv.
    destruct lv as [x|]; simpl; [apply Z.ltb_irrefl|done]. }
  unfold above, var_level in Hnot. rewrite <- Hs, Hv in Hnot. simpl in Hnot.
  by apply Z.ltb_ge.
Qed.

(** C8: in every reachable state every stored clause has at least two
    literals and is registered exactly twice in the watcher index: once in
    the list of the negation of its literal at position 0 and once in the
    list of the negation of its literal at position 1 (twice in one list
    when the two coincide), and in no other list.  Reachable states are
    closed under [add_clause] and the conflict branch of [solve], which
    attach clauses, and under [propagate], which swaps literals inside
    clauses and moves clauses between the lists. *)
Theorem watch_consistency (s : Solver) (cr : nat) :
  reachable s → cr ∈ clauses s →
  ∃ C c0 c1,
    heap s !! cr = Some C ∧ 2 ≤ length C ∧
    C !! 0 = Some c0 ∧ C !! 1 = Some c1 ∧
    (0 ≤ Lit.lidx (Lit.not c0))%Z ∧ lnat (Lit.not c0) < length (watchers s) ∧
    (0 ≤ Lit.lidx (Lit.not c1))%Z ∧ lnat (Lit.not c1) < length (watchers s) ∧
    ∀ i ws, watchers s !! i = Some ws →
            occ cr ws = ind (i = lnat (Lit.not c0)) + ind (i = lnat (Lit.not c1)).
Proof.
  intros Hs Hcr. apply reachable_inv in Hs as [_ Hw _].
  rewrite (wi_clauses _ Hw), elem_of_seq in Hcr.
  destruct (lookup_lt_is_Some_2 (heap s) cr) as [C HC]; [lia|].
  pose proof (wi_size _ Hw cr C HC) as Hlen.
  destruct (lookup_lt_is_Some_2 C 0) as [c0 H0]; [lia|].
  destruct (lookup_lt_is_Some_2 C 1) as [c1 H1]; [lia|].
  exists C, c0, c1.
  destruct (wi_range _ Hw cr C 0 c0 HC) as [? ?]; [lia|done|].
  destruct (wi_range _ Hw cr C 1 c1 HC) as [? ?]; [lia|done|].
  do 8 (split; [done|]).
  intros i ws Hws. rewrite (wi_occ _ Hw cr C i ws HC Hws).
  unfold watched_by. by rewrite H0, H1.
Qed.

(** C9: in every reachable state, if a literal [l] that is assigned True
    has a reason [cr], then the clause behind [cr] has [l] at position 0,
    and each of its other literals evaluates to False, its negation
    standing before [l] on the trail. *)
Theorem reason_shape_invariant (s : Solver) (l : Lit.t) (cr : nat) :
  reachable s → eval s l = Ok LitBool.True →
  reasons s !! vnat l = Some (Some cr) →
  ∃ R, heap s !! cr = Some R ∧ R !! 0 = Some l ∧
       ∀ j y, 0 < j → R !! j = Some y →
              eval s y = Ok LitBool.False ∧ before s (Lit.not y) l.
Proof.
  intros Hs Hl Hcr. apply reachable_inv in Hs as [Ht _ Hr].
  apply (Hr l cr); [|done]. by apply true_on_trail.
Qed.

(** ** Concrete runs *)

Lemma reachable_adds (cs : list (list Lit.t)) (s s' : Solver) :
  reachable s → adds s cs = Ok s' → reachable s'.
Proof.
  unfold adds. revert s'. induction cs as [|c cs IH] using rev_ind;
    intros s' Hs; simpl.
  { by intros [= <-]. }
  rewrite foldl_app. simpl. intros H.
  apply bind_Ok in H as (s1 & H1 & H).
  eapply reach_add_clause; [|exact H]. by apply IH.
Qed.

Lemma st_unit_reachable : reachable st_unit.
Proof.
  apply (reach_propagate
           (mkSolver [true; false] None [] [] [] [[]; []; []; []] [None; None]
                     [Some 0%Z; None] [xp 0] 0) 5 st_unit None).
  - apply (reach_enqueue (new_solver 2) (xp 0)); [apply reach_new|].
    vm_compute. reflexivity.
  - vm_compute. reflexivity.
Qed.

Lemma st_decided_reachable : reachable st_decided.
Proof.
  apply (reach_new_decision st_unit (xp 1)); [apply st_unit_reachable|].
  vm_compute. reflexivity.
Qed.

(** After [x0] at level 0 and the decision [x1] at level 1, undoing to
    level 0 leaves the trail [x0] of length 1 and the cursor at 0. *)
Lemma pop_queue_until_cursor_behind :
  reachable st_decided ∧
  pop_queue_until st_decided 0 =
    Ok (mkSolver [true; true] None [] [] [] [[]; []; []; []] [None; None]
                 [Some 0%Z; None] [xp 0] 0) ∧
  ¬ cursor_at_trail_length st_decided 0.
Proof.
  split; [apply st_decided_reachable|].
  assert (pop_queue_until st_decided 0 =
    Ok (mkSolver [true; true] None [] [] [] [[]; []; []; []] [None; None]
                 [Some 0%Z; None] [xp 0] 0)) as H
    by (vm_compute; reflexivity).
  split; [exact H|].
  intros Hc. specialize (Hc _ H). simpl in Hc. discriminate.
Qed.

Lemma pop_queue_until_spec_decided :
  trail_inv st_decided ∧ que st_decided ≠ [] ∧
  ∃ s', pop_queue_until st_decided 0 = Ok s' ∧
    que s' = filter (fun l => above st_decided 0 l = false) (que st_decided) ∧
    (∀ l, l ∈ que st_decided → above st_decided 0 l = true →
          levels s' !! vnat l = Some None ∧
          reasons s' !! vnat l = Some None ∧
          eval s' l = Ok LitBool.Undefine) ∧
    (∀ v, (∀ l, l ∈ que st_decided → above st_decided 0 l = true →
                vnat l ≠ v) →
          levels s' !! v = levels st_decided !! v ∧
          reasons s' !! v = reasons st_decided !! v) ∧
    assings s' = assings st_decided ∧
    que_head s' = length (que s') - 1.
Proof.
  assert (trail_inv st_decided) as Hinv
    by apply (si_trail _ (reachable_inv _ st_decided_reachable)).
  assert (que st_decided ≠ []) as Hne by (simpl; discriminate).
  split; [exact Hinv|]. split; [exact Hne|].
  exact (pop_queue_until_spec st_decided 0 Hinv Hne).
Defined.

(** From the state with [x0] at level 0 and the cursor at 1: after
    [new_decision(x1)] and the undo to level 0 the cursor is 0, and after
    [enqueue(x1)] the undo to level 0 leaves [x1] on the trail. *)
Lemma assign_undo_not_restored :
  reachable st_unit ∧ decision_level st_unit = Ok 0%Z ∧
  (∃ s1 s2, new_decision st_unit (xp 1) None = Ok s1 ∧
            pop_queue_until s1 0 = Ok s2 ∧ que_head s2 = 0 ∧
            que_head st_unit = 1 ∧ ¬ restored st_unit s2) ∧
  (∃ s1 s2, enqueue st_unit (xp 1) None = Ok s1 ∧
            pop_queue_until s1 0 = Ok s2 ∧ que s2 = [xp 0; xp 1] ∧
            que st_unit = [xp 0] ∧ ¬ restored st_unit s2).
Proof.
  split; [apply st_unit_reachable|]. split; [vm_compute; reflexivity|].
  split.
  - exists st_decided.
    exists (mkSolver [true; true] None [] [] [] [[]; []; []; []] [None; None]
                     [Some 0%Z; None] [xp 0] 0).
    split; [vm_compute; reflexivity|]. split; [vm_compute; reflexivity|].
    split; [reflexivity|]. split; [reflexivity|].
    intros (_ & _ & _ & _ & H). simpl in H. discriminate.
  - exists (mkSolver [true; true] None [] [] [] [[]; []; []; []] [None; None]
                     [Some 0%Z; Some 0%Z] [xp 0; xp 1] 1).
    exists (mkSolver [true; true] None [] [] [] [[]; []; []; []] [None; None]
                     [Some 0%Z; Some 0%Z] [xp 0; xp 1] 1).
    split; [vm_compute; reflexivity|]. split; [vm_compute; reflexivity|].
    split; [reflexivity|]. split; [reflexivity|].
    intros (H & _). simpl in H. discriminate.
Qed.

Lemma assign_then_undo_unit :
  trail_inv st_unit ∧ decision_level st_unit = Ok 0%Z ∧
  (0 ≤ Lit.vidx (xp 1))%Z ∧ levels st_unit !! vnat (xp 1) = Some None ∧
  (∃ s1 s2,
      new_decision st_unit (xp 1) None = Ok s1 ∧ pop_queue_until s1 0 = Ok s2 ∧
      que s2 = que st_unit ∧ levels s2 = levels st_unit ∧
      reasons s2 = reasons st_unit ∧
      (∀ l, eval s2 l = eval st_unit l) ∧
      assings s2 = <[vnat (xp 1):=Lit.pos (xp 1)]> (assings st_unit) ∧
      que_head s2 = length (que st_unit) - 1) ∧
  (∃ s1,
      enqueue st_unit (xp 1) None = Ok s1 ∧
      pop_queue_until s1 0 = Ok (set_que_head s1 (length (que st_unit))) ∧
      que s1 = que st_unit ++ [xp 1] ∧
      eval s1 (xp 1) = Ok LitBool.True).
Proof.
  assert (trail_inv st_unit) as Hinv
    by apply (si_trail _ (reachable_inv _ st_unit_reachable)).
  assert (decision_level st_unit = Ok 0%Z) as Hd by (vm_compute; reflexivity).
  assert (0 ≤ Lit.vidx (xp 1))%Z as Hv by (vm_compute; discriminate).
  assert (levels st_unit !! vnat (xp 1) = Some None) as Hl
    by (vm_compute; reflexivity).
  split; [exact Hinv|]. split; [exact Hd|]. split; [exact Hv|].
  split; [exact Hl|].
  exact (assign_then_undo st_unit (xp 1) 0 Hinv Hd Hv Hl).
Defined.

Lemma undo_until_level_decided :
  reachable st_decided ∧ decision_level st_decided = Ok 1%Z ∧
  (0 ≤ 0 < 1)%Z ∧
  ∃ s', pop_queue_until st_decided 0 = Ok s' ∧ decision_level s' = Ok 0%Z ∧
        ∀ v e, levels s' !! v = Some (Some e) → (e ≤ 0)%Z.
Proof.
  assert (decision_level st_decided = Ok 1%Z) as Hd
    by (vm_compute; reflexivity).
  assert (0 ≤ 0 < 1)%Z as Hb by lia.
  split; [exact st_decided_reachable|]. split; [exact Hd|].
  split; [exact Hb|].
  exact (undo_until_level st_decided 0 1 st_decided_reachable Hd Hb).
Defined.

Lemma reachable_run (n : nat) (cs : list (list Lit.t)) (fuel : nat)
  (s : Solver) (st : Status) :
  run n cs fuel = Ok (s, st) → reachable s.
Proof.
  unfold run. intros H. apply bind_Ok in H as (s0 & Hadds & H).
  eapply reachable_solve; [|exact H].
  eapply reachable_adds; [apply reach_new|exact Hadds].
Qed.

(** The end-to-end scenarios of the specification that the code
    handles. *)
Example scenario_1 : fst_status (run 1 [[xp 0]] 100) = Ok Sat.
Proof. vm_compute. reflexivity. Qed.

Example scenario_3 :
  fst_status (run 2 [[xp 0; xp 1]; [xn 0; xp 1]; [xp 0; xn 1]; [xn 0; xn 1]]
                  100) = Ok Unsat.
Proof. vm_compute. reflexivity. Qed.

Example scenario_4 :
  fst_status (run 3 [[xp 0; xp 1]; [xn 0; xp 2]; [xn 1; xp 2]; [xn 2]] 100)
  = Ok Unsat.
Proof. vm_compute. reflexivity. Qed.

Example scenario_6 :
  fst_status
    (run 6 [[xp 0; xp 1]; [xp 2; xp 3]; [xp 4; xp 5];
            [xn 0; xn 2]; [xn 0; xn 4]; [xn 2; xn 4];
            [xn 1; xn 3]; [xn 1; xn 5]; [xn 3; xn 5]] 100) = Ok Unsat.
Proof. vm_compute. reflexivity. Qed.

Lemma st_sat_reachable : reachable st_sat.
Proof.
  apply (reachable_run 3 [[xp 0; xp 1; xp 2]; [xn 0; xp 1]; [xn 1; xp 2]]
                       100 st_sat Sat).
  vm_compute. reflexivity.
Qed.

Lemma watch_consistency_sat :
  reachable st_sat ∧ 0 ∈ clauses st_sat ∧
  ∃ C c0 c1,
    heap st_sat !! 0 = Some C ∧ 2 ≤ length C ∧
    C !! 0 = Some c0 ∧ C !! 1 = Some c1 ∧
    (0 ≤ Lit.lidx (Lit.not c0))%Z ∧
    lnat (Lit.not c0) < length (watchers st_sat) ∧
    (0 ≤ Lit.lidx (Lit.not c1))%Z ∧
    lnat (Lit.not c1) < length (watchers st_sat) ∧
    ∀ i ws, watchers st_sat !! i = Some ws →
            occ 0 ws = ind (i = lnat (Lit.not c0)) + ind (i = lnat (Lit.not c1)).
Proof.
  assert (0 ∈ clauses st_sat) as Hin by (simpl; by left).
  split; [exact st_sat_reachable|]. split; [exact Hin|].
  exact (watch_consistency st_sat 0 st_sat_reachable Hin).
Defined.

Lemma st_unsat_reachable : reachable st_unsat.
Proof.
  apply (reachable_run 3 [[xp 0; xp 1]; [xn 0; xp 2]; [xn 1; xp 2]; [xn 2]]
                       100 st_unsat Unsat).
  vm_compute. reflexivity.
Qed.

Lemma reason_shape_invariant_unsat :
  reachable st_unsat ∧ eval st_unsat (xn 0) = Ok LitBool.True ∧
  reasons st_unsat !! vnat (xn 0) = Some (Some 1) ∧
  ∃ R, heap st_unsat !! 1 = Some R ∧ R !! 0 = Some (xn 0) ∧
       ∀ j y, 0 < j → R !! j = Some y →
              eval st_unsat y = Ok LitBool.False ∧
              before st_unsat (Lit.not y) (xn 0).
Proof.
  assert (eval st_unsat (xn 0) = Ok LitBool.True) as He
    by (vm_compute; reflexivity).
  assert (reasons st_unsat !! vnat (xn 0) = Some (Some 1)) as Hr
    by (vm_compute; reflexivity).
  split; [exact st_unsat_reachable|]. split; [exact He|]. split; [exact Hr|].
  exact (reason_shape_invariant st_unsat (xn 0) 1 st_unsat_reachable He Hr).
Defined.

(** ** A clause that repeats a literal *)

(** C5 at the clause [{x0, x0}]: the conflicting clause has every literal
    False at decision level 1, and [analyze] does not return.  Its seeding
    loop counts the variable once per occurrence, the counter is still 1
    when the walk reaches the decision literal, and the assertion
    [assert(reasons\[lit.vidx()\].has_value())] fails.  [solve] on this
    satisfiable formula ends the same way. *)
Theorem analyze_repeated_literal :
  (s0 ← add_clause (new_solver 1) [xp 0; xp 0];
   '(s1, _) ← solve_step 10 s0;
   propagate 10 s1) = Ok (st_dup, Some 0) ∧
  decision_level st_dup = Ok 1%Z ∧
  deref st_dup 0 = Ok [xp 0; xp 0] ∧
  eval st_dup (xp 0) = Ok LitBool.False ∧
  analyze st_dup 0 = Err AssertionFailed ∧
  run 1 [[xp 0; xp 0]] 100 = Err AssertionFailed.
Proof. repeat split; vm_compute; reflexivity. Qed.

(** ** The implication graph *)

(** ** Levels along the trail *)

Lemma level_steps_mono (p : Z) (ls : list Z) (i j : nat) (x y : Z) :
  level_steps p ls → ls !! i = Some x → ls !! j = Some y → i ≤ j →
  (x ≤ y)%Z.
Proof.
  revert p i j. induction ls as [|a ls IH]; intros p i j; [done|].
  simpl. intros [Ha Hs] Hi Hj Hle.
  destruct i as [|i], j as [|j]; simpl in *; try lia.
  - injection Hi as <-. injection Hj as <-. lia.
  - injection Hi as <-. apply level_steps_ge in Hs.
    rewrite Forall_forall in Hs. apply Hs. by eapply list_elem_of_lookup_2.
  - eapply (IH a i j); [done..|lia].
Qed.

Lemma trail_level_Some (s : Solver) (l : Lit.t) :
  trail_inv s → l ∈ que s → ∃ e, lit_level s l = Some e.
Proof.
  intros Hinv Hl. destruct (trail_inv_slot s l Hinv Hl) as (_ & [e He] & _).
  exists e. unfold lit_level, var_level. by rewrite He.
Qed.

Lemma trail_levels_lookup (s : Solver) (p : nat) (l : Lit.t) (e : Z) :
  que s !! p = Some l → lit_level s l = Some e → trail_levels s !! p = Some e.
Proof.
  intros Hp He. unfold trail_levels. rewrite list_lookup_fmap, Hp. simpl.
  unfold lit_level in He. by rewrite He.
Qed.

Lemma trail_level_mono (s : Solver) (p q : nat) (a b : Lit.t) (ea eb : Z) :
  trail_inv s → que s !! p = Some a → que s !! q = Some b → p ≤ q →
  lit_level s a = Some ea → lit_level s b = Some eb → (ea ≤ eb)%Z.
Proof.
  intros Hinv Hp Hq Hle Ha Hb.
  eapply (level_steps_mono 0 (trail_levels s) p q);
    [apply Hinv|by eapply trail_levels_lookup..|done].
Qed.

Lemma trail_level_le_decision (s : Solver) (l : Lit.t) (e d : Z) :
  trail_inv s → decision_level s = Ok d → l ∈ que s →
  lit_level s l = Some e → (0 ≤ e ≤ d)%Z.
Proof.
  intros Hinv Hd Hl He. apply decision_level_last in Hd.
  apply list_elem_of_lookup_1 in Hl as [p Hp].
  pose proof (trail_levels_lookup s p l e Hp He) as Hlv.
  pose proof (ti_steps _ Hinv) as Hsteps.
  split.
  - apply level_steps_ge in Hsteps. rewrite Forall_forall in Hsteps.
    apply Hsteps. by eapply list_elem_of_lookup_2.
  - apply level_steps_last_ge in Hsteps as [_ Hsteps].
    rewrite Forall_forall in Hsteps. rewrite Hd. apply Hsteps.
    by eapply list_elem_of_lookup_2.
Qed.

Lemma lit_level_not (s : Solver) (l : Lit.t) :
  lit_level s (Lit.not l) = lit_level s l.
Proof. unfold lit_level. by rewrite vnat_not. Qed.

(** A literal with a level stands on the trail, itself or negated. *)
Lemma false_lit_position (s : Solver) (y : Lit.t) :
  trail_inv s → eval s y = Ok LitBool.False →
  ∃ q e, que s !! q = Some (Lit.not y) ∧ lit_level s y = Some e.
Proof.
  intros Hinv Hy. destruct (false_on_trail s y Hinv Hy) as [q Hq].
  apply list_elem_of_lookup_2 in Hq as Hin.
  destruct (trail_level_Some s _ Hinv Hin) as [e He].
  rewrite lit_level_not in He. eauto.
Qed.

(** An edge goes forward on the trail. *)
Lemma implies_forward (s : Solver) (a b : Lit.t) :
  reason_inv s → implies s a b → before s a b.
Proof.
  intros Hr (Hb & cr & R & j & Hcr & HR & Hj & Hy).
  destruct (Hr b cr Hb Hcr) as (R' & HR' & _ & Hrest).
  assert (R' = R) as -> by congruence.
  destruct (Hrest j _ Hj Hy) as [_ Hbefore]. by rewrite lit_not_not in Hbefore.
Qed.

Lemma trail_position_unique (s : Solver) (p q : nat) (l : Lit.t) :
  trail_inv s → que s !! p = Some l → que s !! q = Some l → p = q.
Proof.
  intros Hinv Hp Hq. eapply NoDup_lookup; [|exact Hp|exact Hq].
  eapply NoDup_fmap_1, Hinv.
Qed.

Lemma trail_same_var (s : Solver) (a b : Lit.t) :
  trail_inv s → a ∈ que s → b ∈ que s → Lit.var a = Lit.var b → a = b.
Proof.
  intros Hinv Ha Hb Hv.
  apply list_elem_of_lookup_1 in Ha as [p Hp].
  apply list_elem_of_lookup_1 in Hb as [q Hq].
  assert (p = q) as ->.
  { eapply NoDup_lookup; [apply (ti_nodup _ Hinv)| |].
    - rewrite list_lookup_fmap, Hp. done.
    - rewrite list_lookup_fmap, Hq. simpl. unfold vnat, Lit.vidx.
      by rewrite Hv. }
  congruence.
Qed.

(** ** The resolution frontier of [analyze] *)

Lemma filter_length_ext_in {A} (P Q : A → Prop)
  `{!∀ x, Decision (P x)} `{!∀ x, Decision (Q x)} (l : list A) :
  (∀ z, z ∈ l → P z ↔ Q z) → length (filter P l) = length (filter Q l).
Proof.
  induction l as [|x l IH]; intros Hext; [done|].
  rewrite !filter_cons.
  assert (P x ↔ Q x) as Hx by (apply Hext; by left).
  assert (length (filter P l) = length (filter Q l)) as Hl.
  { apply IH. intros z Hz. apply Hext. by right. }
  destruct (decide (P x)), (decide (Q x)); simpl; try tauto; by rewrite Hl.
Qed.

Lemma filter_length_add_one {A} `{!EqDecision A} (P Q : A → Prop)
  `{!∀ x, Decision (P x)} `{!∀ x, Decision (Q x)} (l : list A) (x : A) :
  NoDup l → x ∈ l → ¬ P x → (∀ z, z ∈ l → Q z ↔ P z ∨ z = x) →
  length (filter Q l) = S (length (filter P l)).
Proof.
  induction l as [|a l IH]; intros Hnd Hin HP Hext.
  { by apply elem_of_nil in Hin. }
  apply NoDup_cons in Hnd as [Hna Hnd]. rewrite !filter_cons.
  destruct (decide (a = x)) as [->|Hne].
  - assert (length (filter Q l) = length (filter P l)) as Hl.
    { apply filter_length_ext_in. intros z Hz. rewrite Hext by (by right).
      split; [|by left]. intros [?| ->]; done. }
    rewrite decide_True by (apply Hext; [by left|by right]).
    rewrite decide_False by done. simpl. by rewrite Hl.
  - apply elem_of_cons in Hin as [->|Hin]; [done|].
    assert (length (filter Q l) = S (length (filter P l))) as Hl.
    { apply IH; [done..|]. intros z Hz. apply Hext. by right. }
    assert (Q a ↔ P a) as Ha.
    { rewrite Hext by (by left). split; [|by left]. intros [?|?]; done. }
    destruct (decide (Q a)), (decide (P a)); simpl; try tauto; by rewrite Hl.
Qed.

Lemma pend_mono (s : Solver) (d : Z) (S S' : gset Z) (l : Lit.t) :
  S ⊆ S' → pend s d S l → pend s d S' l.
Proof. unfold pend. set_solver. Qed.

Lemma account_Ok (s : Solver) (level : Z) (f : Frontier) (lit : Lit.t)
  (f' : Frontier) :
  account s level f lit = Ok f' →
  ∃ lv, levels s !! vnat lit = Some lv ∧
        checking_variables f' = {[Lit.var lit]} ∪ checking_variables f ∧
        learnt_clause f' =
          (if opt_lt lv level then learnt_clause f ++ [lit]
           else learnt_clause f) ∧
        counter f' = (if opt_lt lv level then counter f
                      else counter f + 1)%Z.
Proof.
  unfold account. intros H. apply bind_Ok in H as (lv & Hlv & H).
  apply at_z_Ok in Hlv as [_ Hlv]. injection H as <-.
  exists lv. split; [done|]. by destruct (opt_lt lv level).
Qed.

Lemma account_total (s : Solver) (level : Z) (f : Frontier) (lit : Lit.t)
  (e : LitBool.t) :
  eval s lit = Ok e → ∃ f', account s level f lit = Ok f'.
Proof.
  intros He. apply eval_Ok in He as (Hv & lv & Hlv & _).
  unfold account, at_z, at_. destruct (Z.ltb_spec (Lit.vidx lit) 0); [lia|].
  fold (vnat lit). rewrite Hlv. simpl. eauto.
Qed.

Section Analyze.

Context (s : Solver) (conflict : nat) (K : list Lit.t) (d : Z).
Hypothesis Hpre : analysis_pre s conflict K d.

Let Ht : trail_inv s := ap_trail _ _ _ _ Hpre.
Let Hr : reason_inv s := ap_reason _ _ _ _ Hpre.
Let Hd : decision_level s = Ok d := ap_level _ _ _ _ Hpre.

Lemma level_on_trail_le (l : Lit.t) (e : Z) :
  l ∈ que s → lit_level s l = Some e → (0 ≤ e ≤ d)%Z.
Proof. by apply trail_level_le_decision. Qed.

(** A trail literal behind one of level [d] is of level [d]. *)
Lemma level_after (p q : nat) (a b : Lit.t) :
  que s !! p = Some a → que s !! q = Some b → p ≤ q →
  lit_level s a = Some d → lit_level s b = Some d.
Proof.
  intros Hp Hq Hle Ha.
  apply list_elem_of_lookup_2 in Hq as Hin.
  destruct (trail_level_Some s b Ht Hin) as [e He].
  pose proof (trail_level_mono s p q a b d e Ht Hp Hq Hle Ha He).
  pose proof (level_on_trail_le b e Hin He). rewrite He. f_equal. lia.
Qed.

Lemma pending_snoc (S : gset Z) (i : nat) (lit : Lit.t) :
  que s !! i = Some lit →
  pending s d S (Datatypes.S i) =
    pending s d S i ++ (if decide (pend s d S lit) then [lit] else []).
Proof.
  intros Hi. unfold pending. rewrite (take_S_r _ _ _ Hi), filter_app.
  reflexivity.
Qed.

Lemma elem_of_pending (S : gset Z) (n : nat) (a : Lit.t) :
  a ∈ pending s d S n ↔ pend s d S a ∧ ∃ q, q < n ∧ que s !! q = Some a.
Proof.
  unfold pending. rewrite list_elem_of_filter, list_elem_of_lookup.
  split; intros [Hp [q Hq]]; (split; [done|]); exists q.
  - rewrite lookup_take_Some in Hq. tauto.
  - rewrite lookup_take_Some. tauto.
Qed.

(** Seeing the variable of a False literal whose negation stands below
    position [n] adds it to the pending literals when it is of level
    [d]. *)
Lemma pending_account (S : gset Z) (y : Lit.t) (q n : nat) (e : Z) :
  Lit.var y ∉ S → que s !! q = Some (Lit.not y) → q < n →
  lit_level s y = Some e →
  length (pending s d ({[Lit.var y]} ∪ S) n) =
  length (pending s d S n) + (if decide (e = d) then 1 else 0).
Proof.
  intros Hfresh Hq Hlt He. unfold pending.
  set (l := take n (que s)).
  assert (Lit.not y ∈ l) as Hin.
  { apply list_elem_of_lookup. exists q. unfold l.
    rewrite lookup_take_Some. done. }
  assert (∀ z, z ∈ l → z ∈ que s) as Hsub.
  { intros z Hz. unfold l in Hz. apply list_elem_of_lookup_1 in Hz as [k Hk].
    rewrite lookup_take_Some in Hk. destruct Hk as [Hk _].
    by eapply list_elem_of_lookup_2. }
  assert (∀ z, z ∈ l → Lit.var z = Lit.var y → z = Lit.not y) as Hsame.
  { intros z Hz Hv. apply (trail_same_var s); [done|by apply Hsub..|].
    by rewrite lit_var_not. }
  assert (NoDup l) as Hnd.
  { unfold l. eapply sublist_NoDup; [|apply sublist_take].
    eapply NoDup_fmap_1, Ht. }
  case_decide as Hed.
  - subst e. rewrite Nat.add_1_r.
    apply (filter_length_add_one _ _ l (Lit.not y)); [done..| |].
    + unfold pend. rewrite lit_var_not. tauto.
    + intros z Hz. unfold pend. split.
      * intros [Hv Hl]. apply elem_of_union in Hv as [Hv|Hv]; [|by left].
        apply elem_of_singleton in Hv. right. by apply Hsame.
      * intros [[Hv Hl]| ->].
        -- split; [|done]. apply elem_of_union. by right.
        -- rewrite lit_var_not, lit_level_not. split; [|done].
           apply elem_of_union. left. by apply elem_of_singleton.
  - rewrite Nat.add_0_r. apply filter_length_ext_in.
    intros z Hz. unfold pend. split.
    + intros [Hv Hl]. apply elem_of_union in Hv as [Hv|Hv]; [|done].
      apply elem_of_singleton in Hv. apply Hsame in Hv; [|done].
      subst z. rewrite lit_level_not in Hl. congruence.
    + intros [Hv Hl]. split; [|done]. apply elem_of_union. by right.
Qed.

Lemma false_level (y : Lit.t) :
  eval s y = Ok LitBool.False →
  ∃ e q, levels s !! vnat y = Some (Some e) ∧ lit_level s y = Some e ∧
         (0 ≤ e ≤ d)%Z ∧ que s !! q = Some (Lit.not y).
Proof.
  intros Hy. destruct (false_lit_position s y Ht Hy) as (q & e & Hq & He).
  exists e, q. split.
  - unfold lit_level, var_level in He.
    destruct (levels s !! vnat y) as [[e'|]|]; simpl in He; congruence.
  - split; [done|]. split; [|done].
    apply (level_on_trail_le (Lit.not y)); [by eapply list_elem_of_lookup_2|].
    by rewrite lit_level_not.
Qed.

(** A seen variable that enters the seen set later stands below the
    examined part of the trail, so it changes nothing there. *)
Lemma pend_examined (S : gset Z) (y b : Lit.t) (q p m : nat) :
  que s !! q = Some (Lit.not y) → q < m → m ≤ p → que s !! p = Some b →
  pend s d ({[Lit.var y]} ∪ S) b → pend s d S b.
Proof.
  intros Hq Hqm Hmp Hp [Hv Hl]. split; [|done].
  apply elem_of_union in Hv as [Hv|Hv]; [|done].
  apply elem_of_singleton in Hv.
  assert (b = Lit.not y) as ->.
  { apply (trail_same_var s); [done|by eapply list_elem_of_lookup_2..|].
    by rewrite lit_var_not. }
  pose proof (trail_position_unique s p q _ Ht Hp Hq). lia.
Qed.

Lemma front_inv_account (n m : nat) (f f' : Frontier) (y : Lit.t) (q : nat) :
  front_inv s K d n m f → account s d f y = Ok f' →
  eval s y = Ok LitBool.False → Lit.var y ∉ checking_variables f →
  que s !! q = Some (Lit.not y) → q < n → q < m →
  (y ∈ K ∨ ∃ b p, que s !! p = Some b ∧ n ≤ p ∧
                  pend s d (checking_variables f) b ∧
                  implies s (Lit.not y) b) →
  front_inv s K d n m f' ∧
  checking_variables f' = {[Lit.var y]} ∪ checking_variables f ∧
  (counter f ≤ counter f')%Z.
Proof.
  intros [Hcount Hlearnt [Hsound Hres Hclosed Hhist]] Hacc Hy Hfresh Hq Hqn Hqm
         Hwhy.
  apply account_Ok in Hacc as (lv & Hlv & HS & HL & HC).
  destruct (false_level y Hy) as (e & q' & Hlv' & He & Hed & _).
  rewrite Hlv' in Hlv. injection Hlv as <-. simpl in HL, HC.
  set (S := checking_variables f) in *.
  assert (S ⊆ {[Lit.var y]} ∪ S) as Hsub by set_solver.
  split; [|split; [done|]].
  - split.
    + rewrite HS, (pending_account S y q n e Hfresh Hq Hqn He), HC, Hcount.
      destruct (Z.ltb_spec e d); case_decide; lia.
    + rewrite HL. destruct (Z.ltb_spec e d); [|done].
      apply Forall_app. split; [done|]. apply Forall_singleton.
      split; [done|]. eauto.
    + rewrite HS. split.
      * intros a Ha [Hv Hl]. apply elem_of_union in Hv as [Hv|Hv].
        -- apply elem_of_singleton in Hv.
           assert (a = Lit.not y) as ->.
           { apply (trail_same_var s); [done..|by eapply list_elem_of_lookup_2|].
             by rewrite lit_var_not. }
           rewrite lit_not_not.
           destruct Hwhy as [HK|(b & p & Hp & Hnp & Hb & Himp)]; [by left|].
           right. exists b, p. split; [done|]. split; [done|].
           split; [|done]. by apply (pend_mono s d S).
        -- destruct (Hsound a Ha (conj Hv Hl))
             as [HK|(b & p & Hp & Hnp & Hb & Himp)]; [by left|].
           right. exists b, p. split; [done|]. split; [done|].
           split; [|done]. by apply (pend_mono s d S).
      * intros p b a Hmp Hp Hb Himp. apply Hsub.
        apply (Hres p b a); [done..| |done].
        by eapply (pend_examined S y b q p m).
      * intros p b Hmp Hp Hl Htc. apply Hsub. by apply (Hclosed p b).
      * intros p b Hmp Hp Hb. apply (Hhist p b); [done..|].
        by eapply (pend_examined S y b q p m).
  - rewrite HC. destruct (e <? d)%Z; lia.
Qed.

Lemma front_inv_init :
  front_inv s K d (length (que s)) (length (que s)) (mkFrontier ∅ [] 0).
Proof.
  assert (∀ p b, length (que s) ≤ p → que s !! p = Some b → False) as Hout.
  { intros p b Hle Hp. apply lookup_lt_Some in Hp. lia. }
  split; simpl.
  - unfold pending. replace (filter _ _) with (@nil Lit.t); [done|].
    symmetry. induction (take _ _) as [|a l IH]; [done|].
    rewrite filter_cons_False; [done|]. unfold pend. set_solver.
  - done.
  - split.
    + intros a _ [Hv _]. set_solver.
    + intros p b a Hle Hp. by destruct (Hout p b).
    + intros p b Hle Hp. by destruct (Hout p b).
    + intros p b Hle Hp. by destruct (Hout p b).
Qed.

Lemma seed_inv (rest done : list Lit.t) (f : Frontier) :
  K = done ++ rest →
  front_inv s K d (length (que s)) (length (que s)) f →
  seeded done (checking_variables f) →
  (∀ v, v ∈ checking_variables f → ∃ y, y ∈ done ∧ Lit.var y = v) →
  ∃ f', seed s d rest f = Ok f' ∧
        front_inv s K d (length (que s)) (length (que s)) f' ∧
        seeded K (checking_variables f').
Proof.
  revert done f. induction rest as [|y rest IH]; intros done f HK Hf Hseed Hfrom.
  { exists f. rewrite app_nil_r in HK. subst done. done. }
  assert (y ∈ K) as HyK.
  { rewrite HK. apply elem_of_app. right. by left. }
  pose proof (ap_false _ _ _ _ Hpre y HyK) as Hy.
  destruct (account_total s d f y _ Hy) as [f1 Hacc].
  cbn [seed]. rewrite Hy. cbn [mbind result_bind].
  rewrite bool_decide_eq_true_2 by done. cbn [assert mbind result_bind].
  rewrite Hacc. cbn [mbind result_bind].
  destruct (false_level y Hy) as (e & q & _ & _ & _ & Hq).
  apply lookup_lt_Some in Hq as Hlt.
  assert (Lit.var y ∉ checking_variables f) as Hfresh.
  { intros Hin. destruct (Hfrom _ Hin) as (y' & Hy' & Hv).
    pose proof (ap_nodup _ _ _ _ Hpre) as Hnd.
    rewrite HK, fmap_app, NoDup_app in Hnd. destruct Hnd as (_ & Hdisj & _).
    apply (Hdisj (vnat y')); [by apply list_elem_of_fmap_2|].
    rewrite fmap_cons. replace (vnat y') with (vnat y); [by left|].
    unfold vnat, Lit.vidx. by rewrite Hv. }
  destruct (front_inv_account _ _ f f1 y q Hf Hacc Hy Hfresh Hq Hlt Hlt)
    as (Hf1 & HS1 & _); [by left|].
  apply (IH (done ++ [y]) f1).
  - by rewrite <- app_assoc.
  - done.
  - intros z Hz. rewrite HS1. apply elem_of_app in Hz as [Hz|Hz].
    + apply elem_of_union. right. by apply Hseed.
    + apply list_elem_of_singleton in Hz. subst z. set_solver.
  - intros v Hv. rewrite HS1 in Hv. apply elem_of_union in Hv as [Hv|Hv].
    + apply elem_of_singleton in Hv. subst v. exists y. split; [|done].
      apply elem_of_app. right. by apply list_elem_of_singleton.
    + destruct (Hfrom v Hv) as (y' & Hy' & Hv'). exists y'. split; [|done].
      apply elem_of_app. by left.
Qed.

Lemma resolve_inv (i : nat) (lit : Lit.t) (lits : list Lit.t) (f : Frontier) :
  que s !! i = Some lit → pend s d (checking_variables f) lit →
  (∀ y, y ∈ lits →
        eval s y = Ok LitBool.False ∧ implies s (Lit.not y) lit) →
  front_inv s K d i (S i) f →
  ∃ f', resolve s d lits f = Ok f' ∧
        front_inv s K d i (S i) f' ∧
        checking_variables f ⊆ checking_variables f' ∧
        (∀ y, y ∈ lits → Lit.var y ∈ checking_variables f') ∧
        (counter f ≤ counter f')%Z.
Proof.
  intros Hi. revert f. induction lits as [|y lits IH]; intros f Hlit Hlits Hf.
  { exists f. split_and!; [done..| |lia].
    intros y Hy. by apply elem_of_nil in Hy. }
  cbn [resolve]. destruct (Hlits y) as [Hy Himp]; [by left|].
  assert (∀ y', y' ∈ lits →
            eval s y' = Ok LitBool.False ∧ implies s (Lit.not y') lit)
    as Hlits'.
  { intros y' Hy'. apply Hlits. by right. }
  case_decide as Hseen.
  - destruct (IH f Hlit Hlits' Hf) as (f' & Hres & Hf' & Hsub & Hall & Hc).
    exists f'. split_and!; [done..| |done].
    intros y' Hy'. apply elem_of_cons in Hy' as [->|Hy'];
      [by apply Hsub|by apply Hall].
  - destruct (account_total s d f y _ Hy) as [f1 Hacc].
    rewrite Hacc. cbn [mbind result_bind].
    destruct (implies_forward s _ _ Hr Himp) as (q & i' & Hlt & Hq & Hi').
    assert (i' = i) as -> by (by eapply trail_position_unique).
    destruct (front_inv_account i (S i) f f1 y q Hf Hacc Hy Hseen Hq)
      as (Hf1 & HS1 & Hc1); [lia..| |].
    { right. exists lit, i. done. }
    assert (checking_variables f ⊆ checking_variables f1) as Hsub1
      by (rewrite HS1; set_solver).
    destruct (IH f1) as (f' & Hres & Hf' & Hsub & Hall & Hc);
      [by apply (pend_mono s d (checking_variables f))|done..|].
    exists f'. split_and!; [done..|set_solver| |lia].
    intros y' Hy'. apply elem_of_cons in Hy' as [->|Hy']; [|by apply Hall].
    apply Hsub. rewrite HS1. set_solver.
Qed.

Lemma graph_inv_weaken (n n' m : nat) (S : gset Z) :
  n ≤ n' → graph_inv s K d n' m S → graph_inv s K d n m S.
Proof.
  intros Hle [Hsound Hres Hclosed Hhist]. split; [|done..].
  intros a Ha Hp. destruct (Hsound a Ha Hp)
    as [HK|(b & p & Hb & Hnp & Hpb & Himp)]; [by left|].
  right. exists b, p. split_and!; [done|lia|done..].
Qed.

(** An edge of the graph leads to a later trail position, and from level
    [d] to level [d]. *)
Lemma implies_position (a b : Lit.t) (q : nat) :
  implies s a b → que s !! q = Some a →
  ∃ p, q < p ∧ que s !! p = Some b ∧
       (lit_level s a = Some d → lit_level s b = Some d).
Proof.
  intros Himp Hq.
  destruct (implies_forward s _ _ Hr Himp) as (q' & p & Hlt & Hq' & Hp).
  assert (q' = q) as -> by (by eapply trail_position_unique).
  exists p. split_and!; [done..|].
  apply (level_after q p a b); [done..|lia].
Qed.

Lemma path_avoiding_to_conflict (u a : Lit.t) :
  path_avoiding s K u a → to_conflict s K a.
Proof.
  induction 1 as [a Hne Ha HK|a b Hne Ha Himp _ IH].
  - by apply tc_direct.
  - by apply (tc_step s K a b).
Qed.

(** Every literal the frontier has seen at level [d], other than the one
    at position [i], reaches the conflict without passing through that
    one, once the positions behind [i] are resolved. *)
Lemma sound_path_avoiding (i m : nat) (u : Lit.t) (S : gset Z) :
  que s !! i = Some u → graph_inv s K d (Datatypes.S i) m S →
  ∀ k a q, length (que s) - q ≤ k → que s !! q = Some a → pend s d S a →
           a ≠ u → path_avoiding s K u a.
Proof.
  intros Hi Hg. induction k as [|k IH]; intros a q Hk Hq Hp Hne.
  { apply lookup_lt_Some in Hq. lia. }
  apply list_elem_of_lookup_2 in Hq as Ha.
  destruct (gi_sound _ _ _ _ _ _ Hg a Ha Hp)
    as [HK|(b & p & Hb & Hnp & Hpb & Himp)].
  - by apply pa_direct.
  - destruct (implies_position a b q Himp Hq) as (p' & Hlt & Hp' & _).
    assert (p' = p) as -> by (by eapply trail_position_unique).
    apply (pa_step s K u a b); [done..|].
    apply (IH b p); [lia|done..|].
    intros ->. pose proof (trail_position_unique s p i u Ht Hb Hi). lia.
Qed.

Lemma seen_to_conflict (i m : nat) (u : Lit.t) (S : gset Z) :
  que s !! i = Some u → graph_inv s K d (Datatypes.S i) m S →
  pend s d S u → to_conflict s K u.
Proof.
  intros Hi Hg Hp. apply list_elem_of_lookup_2 in Hi as Hu.
  destruct (gi_sound _ _ _ _ _ _ Hg u Hu Hp)
    as [HK|(b & p & Hb & Hnp & Hpb & Himp)].
  - by apply tc_direct.
  - apply (tc_step s K u b); [done..|].
    apply (path_avoiding_to_conflict u).
    apply (sound_path_avoiding i m u S Hi Hg (length (que s)) b p);
      [lia|done..|].
    intros ->. pose proof (trail_position_unique s p i u Ht Hb Hi). lia.
Qed.

(** A literal of level [d] that reaches the conflict is seen as soon as
    the positions behind it are examined. *)
Lemma closed_at (i n : nat) (lit : Lit.t) (S : gset Z) :
  que s !! i = Some lit → graph_inv s K d n (Datatypes.S i) S →
  seeded K S → lit_level s lit = Some d → to_conflict s K lit →
  Lit.var lit ∈ S.
Proof.
  intros Hi Hg Hseed Hl Htc. inversion Htc as [a Ha HK|a b Ha Himp Hb]; subst.
  - rewrite <- (lit_var_not lit). by apply Hseed.
  - destruct (implies_position lit b i Himp Hi) as (p & Hlt & Hp & Hlb).
    specialize (Hlb Hl).
    assert (Lit.var b ∈ S) as Hvb.
    { apply (gi_closed _ _ _ _ _ _ Hg p b); [lia|done..]. }
    apply (gi_resolved _ _ _ _ _ _ Hg p b lit); [lia|done| |done].
    by split.
Qed.

Lemma hist_at (i m : nat) (lit : Lit.t) (S : gset Z) :
  que s !! i = Some lit → graph_inv s K d (Datatypes.S i) m S →
  pending s d S i ≠ [] →
  ∃ a q, que s !! q = Some a ∧ q < i ∧ lit_level s a = Some d ∧
         path_avoiding s K lit a.
Proof.
  intros Hi Hg Hne. destruct (pending s d S i) as [|a l] eqn:Hpend; [done|].
  assert (a ∈ pending s d S i) as Ha by (rewrite Hpend; by left).
  apply elem_of_pending in Ha as [Hp (q & Hq & Hqa)].
  exists a, q. split_and!; [done..|apply Hp|].
  apply (sound_path_avoiding i m lit S Hi Hg (length (que s)) a q);
    [lia|done..|].
  intros ->. pose proof (trail_position_unique s q i lit Ht Hqa Hi). lia.
Qed.

(** The invariant reaches position [i] from the three facts about that
    position. *)
Lemma graph_inv_extend (i : nat) (lit : Lit.t) (S : gset Z) :
  que s !! i = Some lit → graph_inv s K d i (Datatypes.S i) S →
  (pend s d S lit → ∀ a, implies s a lit → Lit.var a ∈ S) →
  (lit_level s lit = Some d → to_conflict s K lit → Lit.var lit ∈ S) →
  (pend s d S lit →
   ∃ a q, que s !! q = Some a ∧ q < i ∧ lit_level s a = Some d ∧
          path_avoiding s K lit a) →
  graph_inv s K d i i S.
Proof.
  intros Hi [Hsound Hres Hclosed Hhist] Hres' Hclosed' Hhist'.
  assert (∀ p b, i ≤ p → que s !! p = Some b →
                 (p = i ∧ b = lit) ∨ Datatypes.S i ≤ p) as Hcases.
  { intros p b Hle Hp. destruct (decide (p = i)) as [->|Hne]; [|right; lia].
    left. split; [done|]. congruence. }
  split; [done|..].
  - intros p b a Hle Hp Hpb Himp.
    destruct (Hcases p b Hle Hp) as [[-> ->]|Hlt]; [by apply Hres'|].
    by apply (Hres p b a).
  - intros p b Hle Hp Hl Htc.
    destruct (Hcases p b Hle Hp) as [[-> ->]|Hlt]; [by apply Hclosed'|].
    by apply (Hclosed p b).
  - intros p b Hle Hp Hpb.
    destruct (Hcases p b Hle Hp) as [[-> ->]|Hlt]; [by apply Hhist'|].
    by apply (Hhist p b).
Qed.

Lemma front_inv_skip (i : nat) (lit : Lit.t) (f : Frontier) :
  que s !! i = Some lit → Lit.var lit ∉ checking_variables f →
  seeded K (checking_variables f) →
  front_inv s K d (S i) (S i) f → front_inv s K d i i f.
Proof.
  intros Hi Hseen Hseed [Hcount Hlearnt Hg].
  assert (¬ pend s d (checking_variables f) lit) as Hnp
    by (intros [? _]; done).
  split; [|done|].
  - rewrite Hcount, (pending_snoc _ i lit Hi), decide_False by done.
    by rewrite app_nil_r.
  - apply (graph_inv_extend i lit); [done| |done|..].
    + apply (graph_inv_weaken i (S i)); [lia|done].
    + by apply (closed_at i (S i)).
    + done.
Qed.

(** The first trail entry of level [d]. *)
Lemma decision_exists (k q : nat) (a : Lit.t) :
  q ≤ k → que s !! q = Some a → lit_level s a = Some d →
  ∃ p0 dlit, decision_at s d p0 dlit ∧ p0 ≤ q.
Proof.
  revert q a. induction k as [|k IH]; intros q a Hk Hq Ha.
  { assert (q = 0) as -> by lia. exists 0, a. split; [|done].
    split_and!; [done..|]. intros p l Hp. lia. }
  destruct (decide (q ≤ k)) as [Hle|Hgt]; [by apply (IH q a)|].
  assert (q = S k) as -> by lia.
  destruct (lookup_lt_is_Some_2 (que s) k) as [b Hb].
  { apply lookup_lt_Some in Hq. lia. }
  destruct (decide (lit_level s b = Some d)) as [Hbd|Hbd].
  - destruct (IH k b (le_n _) Hb Hbd) as (p0 & dlit & Hdec & Hle).
    exists p0, dlit. split; [done|lia].
  - exists (S k), a. split; [|done]. split_and!; [done..|].
    intros p l Hp Hl Hld. apply Hbd.
    apply (level_after p k l b); [done..|lia|done].
Qed.

Lemma decision_first (p0 q : nat) (dlit a : Lit.t) :
  decision_at s d p0 dlit → que s !! q = Some a → lit_level s a = Some d →
  p0 ≤ q.
Proof.
  intros (_ & _ & Hfirst) Hq Ha. destruct (decide (p0 ≤ q)); [done|].
  exfalso. apply (Hfirst q a); [lia|done..].
Qed.

Lemma pending_nonempty (S : gset Z) (n : nat) :
  (1 ≤ Z.of_nat (length (pending s d S n)))%Z →
  ∃ a q, que s !! q = Some a ∧ q < n ∧ pend s d S a.
Proof.
  intros Hlen. destruct (pending s d S n) as [|a l] eqn:Hpend;
    [simpl in Hlen; lia|].
  assert (a ∈ pending s d S n) as Ha by (rewrite Hpend; by left).
  apply elem_of_pending in Ha as [Hp (q & Hq & Hqa)]. eauto.
Qed.

(** The reason of a trail literal, as [analyze] reads it. *)
Lemma reason_of (lit : Lit.t) (cr : nat) :
  lit ∈ que s → reasons s !! vnat lit = Some (Some cr) →
  ∃ R, heap s !! cr = Some R ∧ R !! 0 = Some lit ∧
       ∀ y, y ∈ drop 1 R →
            eval s y = Ok LitBool.False ∧ implies s (Lit.not y) lit.
Proof.
  intros Hin Hcr. destruct (Hr lit cr Hin Hcr) as (R & HR & Hhead & Hrest).
  exists R. split_and!; [done..|].
  intros y Hy. apply list_elem_of_lookup_1 in Hy as [j Hj].
  rewrite lookup_drop in Hj. split.
  - by apply (Hrest (1 + j) y); [lia|].
  - split; [done|]. exists cr, R, (1 + j).
    rewrite lit_not_not. split_and!; [done..|lia|done].
Qed.

Lemma walk_unfold (i : nat) (f : Frontier) :
  walk (S i) s d f =
  (lit ← at_ (que s) i;
   if decide (Lit.var lit ∈ checking_variables f) then
     let f := mkFrontier (checking_variables f) (learnt_clause f)
                         (counter f - 1)%Z in
     if decide (counter f ≤ 0)%Z then Ok (lit, f)
     else
       let f := mkFrontier ({[Lit.var lit]} ∪ checking_variables f)
                           (learnt_clause f) (counter f) in
       r ← at_z (reasons s) (Lit.vidx lit);
       _ ← assert (bool_decide (is_Some r));
       match r with
       | None => Err BadOptionalAccess
       | Some reason =>
           clause ← deref s reason;
           c0 ← at_ clause 0;
           _ ← assert (bool_decide (c0 = lit));
           f1 ← resolve s d (drop 1 clause) f;
           walk i s d f1
       end
   else walk i s d f).
Proof. reflexivity. Qed.

(** The walk of [analyze] returns, at a literal of level [d] below which
    nothing is left to resolve. *)
Lemma walk_inv (n : nat) (f : Frontier) :
  n ≤ length (que s) → front_inv s K d n n f →
  seeded K (checking_variables f) → (1 ≤ counter f)%Z →
  ∃ u f' i,
    walk n s d f = Ok (u, f') ∧ que s !! i = Some u ∧
    pend s d (checking_variables f') u ∧
    pending s d (checking_variables f') i = [] ∧
    graph_inv s K d (S i) (S i) (checking_variables f') ∧
    seeded K (checking_variables f') ∧
    Forall (learnt_ok s d) (learnt_clause f').
Proof.
  revert f. induction n as [|i IH]; intros f Hn Hf Hseed Hc.
  { destruct Hf as [Hcount _ _]. unfold pending in Hcount.
    rewrite take_0 in Hcount. simpl in Hcount. lia. }
  destruct (lookup_lt_is_Some_2 (que s) i) as [lit Hi]; [lia|].
  apply list_elem_of_lookup_2 in Hi as Hlit.
  rewrite walk_unfold, (proj2 (at_Ok _ _ _) Hi). cbn [mbind result_bind].
  case_decide as Hseen.
  2:{ apply IH; [lia| |done..]. by apply (front_inv_skip i lit). }
  destruct Hf as [Hcount Hlearnt Hg].
  set (S0 := checking_variables f) in *.
  (* the literal is of the conflict level *)
  assert (pend s d S0 lit) as Hpl.
  { split; [done|]. rewrite Hcount in Hc.
    destruct (pending_nonempty S0 (S i) Hc) as (a & q & Hq & Hlt & [_ Ha]).
    apply (level_after q i a lit); [done..|lia|done]. }
  assert (counter f - 1 = Z.of_nat (length (pending s d S0 i)))%Z as Hcount'.
  { rewrite Hcount, (pending_snoc _ i lit Hi), decide_True by done.
    rewrite length_app. simpl. lia. }
  cbn zeta. cbn [counter checking_variables learnt_clause].
  case_decide as Hzero.
  { exists lit, (mkFrontier S0 (learnt_clause f) (counter f - 1)), i.
    cbn [checking_variables learnt_clause].
    split_and!; try done.
    destruct (pending s d S0 i); [done|]. simpl in Hcount'. lia. }
  (* the literal has a reason, which is resolved *)
  replace ({[Lit.var lit]} ∪ S0) with S0 by set_solver.
  assert (1 ≤ Z.of_nat (length (pending s d S0 i)))%Z as Hmore by lia.
  destruct (pending_nonempty S0 i Hmore) as (a & q & Hq & Hqi & [_ Ha]).
  destruct (decision_exists q q a (le_n _) Hq Ha) as (p0 & dlit & Hdec & Hp0).
  destruct (ap_propagated _ _ _ _ Hpre p0 dlit i lit Hdec) as [cr Hcr];
    [lia|done|].
  destruct (trail_inv_slot s lit Ht Hlit) as (Hv & _).
  destruct (reason_of lit cr Hlit Hcr) as (R & HR & Hhead & Hrest).
  rewrite (proj2 (at_z_Ok (reasons s) (Lit.vidx lit) (Some cr)) (conj Hv Hcr)).
  cbn [mbind result_bind].
  rewrite bool_decide_eq_true_2 by eauto. cbn [assert mbind result_bind].
  unfold deref. rewrite (proj2 (at_Ok _ _ _) HR). cbn [mbind result_bind].
  rewrite (proj2 (at_Ok _ _ _) Hhead). cbn [mbind result_bind].
  rewrite bool_decide_eq_true_2 by done. cbn [assert mbind result_bind].
  set (f0 := mkFrontier S0 (learnt_clause f) (counter f - 1)).
  destruct (resolve_inv i lit (drop 1 R) f0 Hi Hpl Hrest)
    as (f1 & Hres & [Hcount1 Hlearnt1 Hg1] & Hsub & Hall & Hc1).
  { split; [done..|]. apply (graph_inv_weaken i (S i)); [lia|done]. }
  rewrite Hres. cbn [mbind result_bind].
  apply IH; [lia| | |simpl in Hc1; lia].
  - split; [done..|].
    apply (graph_inv_extend i lit); [done..| | |].
    + intros _ a' (_ & cr' & R' & j & Hcr' & HR' & Hj & Hy).
      rewrite Hcr in Hcr'. injection Hcr' as <-.
      rewrite HR in HR'. injection HR' as <-.
      rewrite <- (lit_var_not a'). apply Hall.
      apply list_elem_of_lookup. exists (j - 1). rewrite lookup_drop.
      by replace (1 + (j - 1)) with j by lia.
    + intros _ _. by apply Hsub.
    + intros _. apply (hist_at i (S i) lit S0); [done..|].
      intros Hnil. rewrite Hnil in Hmore. simpl in Hmore. lia.
  - intros y Hy. apply Hsub. by apply Hseed.
Qed.

(** No path to the conflict that avoids [u] starts at or below [u], once
    nothing is left to resolve below [u]. *)
Lemma no_path_below (i : nat) (u : Lit.t) (S : gset Z) :
  que s !! i = Some u → pending s d S i = [] →
  graph_inv s K d (Datatypes.S i) (Datatypes.S i) S → seeded K S →
  ∀ a, path_avoiding s K u a →
       ∀ q, que s !! q = Some a → q ≤ i → lit_level s a = Some d → False.
Proof.
  intros Hi Hnil Hg Hseed.
  assert (∀ a q, que s !! q = Some a → q ≤ i → a ≠ u →
                 pend s d S a → False) as Hnone.
  { intros a q Hq Hle Hne Hp.
    assert (a ∈ pending s d S i) as Hin.
    { apply elem_of_pending. split; [done|]. exists q. split; [|done].
      destruct (decide (q = i)) as [->|]; [|lia]. congruence. }
    rewrite Hnil in Hin. by apply elem_of_nil in Hin. }
  induction 1 as [a Hne Ha HK|a b Hne Ha Himp Hpath IH];
    intros q Hq Hle Hl.
  - apply (Hnone a q Hq Hle Hne). split; [|done].
    rewrite <- (lit_var_not a). by apply Hseed.
  - destruct (implies_position a b q Himp Hq) as (p & Hlt & Hp & Hlb).
    specialize (Hlb Hl).
    destruct (decide (p ≤ i)) as [Hpi|Hpi]; [by apply (IH p)|].
    assert (Lit.var b ∈ S) as Hvb.
    { apply (gi_closed _ _ _ _ _ _ Hg p b); [lia|done..|].
      by apply (path_avoiding_to_conflict u). }
    apply (Hnone a q Hq Hle Hne). split; [|done].
    apply (gi_resolved _ _ _ _ _ _ Hg p b a); [lia|done| |done].
    by split.
Qed.

(** Every literal of level [d] is reached from the decision literal of
    the level, through literals that stand before it. *)
Lemma connected_path (u' dlit : Lit.t) (p' p0 : nat) :
  decision_at s d p0 dlit → que s !! p' = Some u' →
  ∀ k a q, q ≤ k → que s !! q = Some a → q < p' →
           lit_level s a = Some d → path_avoiding s K u' a →
           path_avoiding s K u' dlit.
Proof.
  intros Hdec Hp'. induction k as [|k IH]; intros a q Hk Hq Hlt Hl Hpath.
  - pose proof (decision_first p0 q dlit a Hdec Hq Hl) as Hle.
    assert (q = p0) as -> by lia.
    destruct Hdec as (Hp0 & _). by assert (a = dlit) as <- by congruence.
  - pose proof (decision_first p0 q dlit a Hdec Hq Hl) as Hle.
    destruct (decide (q = p0)) as [->|Hne].
    { destruct Hdec as (Hp0 & _). by assert (a = dlit) as <- by congruence. }
    apply list_elem_of_lookup_2 in Hq as Ha.
    destruct (ap_propagated _ _ _ _ Hpre p0 dlit q a Hdec) as [cr Hcr];
      [lia|done|].
    destruct (Hr a cr Ha Hcr) as (R & HR & _ & _).
    destruct (ap_connected _ _ _ _ Hpre a cr R Ha Hl Hcr HR)
      as (j & y & Hj & Hy & Hly).
    assert (implies s (Lit.not y) a) as Himp.
    { split; [done|]. exists cr, R, j. by rewrite lit_not_not. }
    destruct (implies_forward s _ _ Hr Himp) as (qc & q' & Hqc & Hc & Hq').
    assert (q' = q) as -> by (by eapply trail_position_unique).
    apply (IH (Lit.not y) qc); [lia|done|lia|by rewrite lit_level_not|].
    apply (pa_step s K u' (Lit.not y) a);
      [|by eapply list_elem_of_lookup_2|done..].
    intros Heq. rewrite Heq in Hc.
    pose proof (trail_position_unique s qc p' u' Ht Hc Hp'). lia.
Qed.

Lemma max_level_total (lits : list Lit.t) (acc : Z) :
  Forall (learnt_ok s d) lits → ∃ b, max_level s lits acc = Ok b.
Proof.
  revert acc. induction lits as [|y lits IH]; intros acc Hall; [by eexists|].
  apply Forall_cons in Hall as [[Hy _] Hall].
  destruct (false_level y Hy) as (e & q & Hlv & _).
  apply eval_Ok in Hy as (Hv & _).
  cbn [max_level].
  rewrite (proj2 (at_z_Ok (levels s) (Lit.vidx y) (Some e)) (conj Hv Hlv)).
  cbn [mbind result_bind]. rewrite bool_decide_eq_true_2 by eauto.
  cbn [assert mbind result_bind]. by apply IH.
Qed.

Lemma max_level_attained (lits : list Lit.t) (acc b : Z) :
  max_level s lits acc = Ok b →
  b = acc ∨ ∃ y, y ∈ lits ∧ lit_level s y = Some b.
Proof.
  revert acc. induction lits as [|y lits IH]; intros acc; cbn [max_level].
  { intros [= ->]. by left. }
  intros H. apply bind_Ok in H as (lv & Hlv & H).
  apply at_z_Ok in Hlv as [_ Hlv].
  apply bind_Ok in H as ([] & _ & H). destruct lv as [e|]; [|done].
  assert (lit_level s y = Some e) as He.
  { unfold lit_level, var_level. fold (vnat y) in Hlv. by rewrite Hlv. }
  apply IH in H as [->|(y' & Hy' & Hb)].
  - destruct (Z.max_spec acc e) as [[_ ->]|[_ ->]].
    + right. exists y. split; [by left|done].
    + by left.
  - right. exists y'. split; [by right|done].
Qed.

(** [analyze] on a conflicting clause without repeated variable, in a
    state of the search: it returns a clause whose first literal is the
    negation of the first unique implication point, whose other literals
    are False at levels below [d], and the largest of these levels (0 if
    there is none) as the backjump level. *)
Theorem analyze_first_uip :
  ∃ L b u,
    analyze s conflict = Ok (L, b) ∧
    L !! 0 = Some (Lit.not u) ∧ first_uip s K d u ∧
    (∀ j y, 0 < j → L !! j = Some y →
            learnt_ok s d y ∧ ∃ e, lit_level s y = Some e ∧ (e ≤ b)%Z) ∧
    (0 ≤ b < d)%Z ∧
    (length L = 1 → b = 0%Z) ∧
    (1 < length L → ∃ j y, 0 < j ∧ L !! j = Some y ∧ lit_level s y = Some b).
Proof.
  pose proof (ap_conflict _ _ _ _ Hpre) as HK.
  pose proof (ap_pos _ _ _ _ Hpre) as Hdpos.
  (* the seeding loop *)
  destruct (seed_inv K [] (mkFrontier ∅ [] 0)) as (f0 & Hseed & Hf0 & Hseeded).
  { done. }
  { apply front_inv_init. }
  { intros y Hy. by apply elem_of_nil in Hy. }
  { intros v Hv. set_solver. }
  assert (1 ≤ counter f0)%Z as Hc0.
  { destruct (ap_current _ _ _ _ Hpre) as (y & Hy & Hly).
    destruct (false_level y (ap_false _ _ _ _ Hpre y Hy)) as (e & q & _ & _ & _ & Hq).
    assert (Lit.not y ∈ pending s d (checking_variables f0) (length (que s)))
      as Hin.
    { apply elem_of_pending. split.
      - split; [rewrite lit_var_not; by apply Hseeded|].
        by rewrite lit_level_not.
      - exists q. split; [by eapply lookup_lt_Some|done]. }
    rewrite (fi_count _ _ _ _ _ _ Hf0).
    destruct (pending _ _ _ _); [by apply elem_of_nil in Hin|simpl; lia]. }
  (* the walk *)
  destruct (walk_inv (length (que s)) f0 (le_n _) Hf0 Hseeded Hc0)
    as (u & f1 & i & Hwalk & Hi & Hpu & Hnil & Hg & Hseeded1 & Hlearnt).
  set (S1 := checking_variables f1) in *.
  apply list_elem_of_lookup_2 in Hi as Hu.
  (* the swap and the backjump level *)
  assert (∃ L, swap_at (learnt_clause f1 ++ [Lit.not u]) 0
                 (length (learnt_clause f1 ++ [Lit.not u]) - 1) = Ok L)
    as [L Hswap].
  { destruct (lookup_lt_is_Some_2 (learnt_clause f1 ++ [Lit.not u]) 0)
      as [x0 Hx0]; [rewrite length_app; simpl; lia|].
    eexists. apply swap_at_Ok. exists x0, (Lit.not u).
    split_and!; [done| |done].
    rewrite length_app. simpl. rewrite Nat.add_sub.
    by rewrite lookup_app_r, Nat.sub_diag by lia. }
  pose proof (swap_ends_lookup _ _ _ Hswap) as (Hhead & Hlen & Htail).
  assert (∀ j y, 0 < j → L !! j = Some y → learnt_ok s d y) as Hok.
  { intros j y Hj Hy. rewrite Forall_forall in Hlearnt.
    by apply Hlearnt, (Htail j). }
  assert (Forall (learnt_ok s d) (drop 1 L)) as Hdrop.
  { apply Forall_forall. intros y Hy.
    apply list_elem_of_lookup_1 in Hy as [j Hj]. rewrite lookup_drop in Hj.
    apply (Hok (1 + j) y); [lia|done]. }
  destruct (max_level_total (drop 1 L) 0 Hdrop) as [b Hmax].
  pose proof (max_level_Ok _ _ _ _ Hmax) as [Hb0 Hle].
  rewrite Forall_forall in Hle.
  assert (∀ j y, 0 < j → L !! j = Some y →
                 ∃ e, lit_level s y = Some e ∧ (e ≤ b)%Z) as Hbound.
  { intros j y Hj Hy. destruct (Hle y) as (e & He & Heb).
    - apply list_elem_of_lookup. exists (j - 1). rewrite lookup_drop.
      by replace (1 + (j - 1)) with j by lia.
    - exists e. split; [|done]. unfold lit_level, var_level. by rewrite He. }
  exists L, b, u. split.
  { unfold analyze. rewrite Hd. cbn [mbind result_bind].
    unfold deref. rewrite (proj2 (at_Ok _ _ _) HK). cbn [mbind result_bind].
    rewrite Hseed. cbn [mbind result_bind].
    rewrite bool_decide_eq_true_2 by done. cbn [assert mbind result_bind].
    rewrite Hwalk. cbn [mbind result_bind]. rewrite Hswap.
    cbn [mbind result_bind]. rewrite Hmax. done. }
  split; [done|]. split.
  { (* the first unique implication point *)
    split.
    - split_and!; [done|apply Hpu|by apply (seen_to_conflict i (S i) u S1)|].
      intros p0 dlit Hdec Hpath.
      pose proof (decision_first p0 i dlit u Hdec Hi (proj2 Hpu)) as Hp0.
      destruct Hdec as (Hdl & Hll & _).
      by apply (no_path_below i u S1 Hi Hnil Hg Hseeded1 dlit Hpath p0).
    - intros u' p p' (Hu' & Hlu' & Htc' & Hdom') Hp Hp'.
      assert (p = i) as -> by (by eapply trail_position_unique).
      destruct (decide (p' ≤ i)) as [|Hgt]; [done|]. exfalso.
      assert (pend s d S1 u') as Hpend'.
      { split; [|done].
        apply (gi_closed _ _ _ _ _ _ Hg p' u'); [lia|done..]. }
      destruct (gi_hist _ _ _ _ _ _ Hg p' u') as (a & q & Hq & Hqp & Hla & Hpath);
        [lia|done..|].
      destruct (decision_exists q q a (le_n _) Hq Hla)
        as (p0 & dlit & Hdec & _).
      apply (Hdom' p0 dlit Hdec).
      by apply (connected_path u' dlit p' p0 Hdec Hp' q a q). }
  split.
  { intros j y Hj Hy. split; [by apply (Hok j)|by apply (Hbound j)]. }
  assert (b = 0%Z ∨ ∃ j y, 0 < j ∧ L !! j = Some y ∧ lit_level s y = Some b)
    as Hmaxat.
  { destruct (max_level_attained _ _ _ Hmax) as [->|(y & Hy & Hly)];
      [by left|].
    right. apply list_elem_of_lookup_1 in Hy as [j Hj].
    rewrite lookup_drop in Hj. exists (1 + j), y. split_and!; [lia|done..]. }
  split.
  { split; [done|]. destruct Hmaxat as [->|(j & y & Hj & Hy & Hly)]; [done|].
    destruct (Hok j y Hj Hy) as (_ & e & He & Hed). congruence. }
  split.
  { intros Hone. destruct Hmaxat as [->|(j & y & Hj & Hy & _)]; [done|].
    apply lookup_lt_Some in Hy. lia. }
  intros Hmany. destruct Hmaxat as [->|Hex]; [|done].
  destruct (lookup_lt_is_Some_2 L 1) as [y Hy]; [lia|].
  exists 1, y. split_and!; [lia|done|].
  destruct (Hbound 1 y (le_n _) Hy) as (e & He & Heb).
  destruct (Hok 1 y (le_n _) Hy) as (Hfalse & _).
  destruct (false_level y Hfalse) as (e' & _ & _ & He' & Hrange & _).
  rewrite He. f_equal. assert (e = e') by congruence. lia.
Qed.

End Analyze.

(** ** [analyze] in a run of [solve] *)

Lemma st_conflict_reachable : reachable st_conflict.
Proof.
  set (cs := [[xp 0; xp 1]; [xn 0; xp 1]; [xp 0; xn 1]; [xn 0; xn 1]]).
  set (s0 := mkSolver [false; false] None cs [0; 1; 2; 3] []
                      [[1; 3]; [0; 2]; [2; 3]; [0; 1]] [None; None]
                      [None; None] [] 0).
  set (s1 := mkSolver [false; false] None cs [0; 1; 2; 3] []
                      [[1; 3]; [0; 2]; [2; 3]; [0; 1]] [None; None]
                      [Some 1%Z; None] [xn 0] 0).
  assert (adds (new_solver 2) cs = Ok s0) as H0 by (vm_compute; reflexivity).
  assert (solve_step 10 s0 = Ok (s1, None)) as H1
    by (vm_compute; reflexivity).
  assert (propagate 10 s1 = Ok (st_conflict, Some 2)) as H2
    by (vm_compute; reflexivity).
  eapply reach_propagate; [|exact H2].
  eapply reachable_solve_step; [|exact H1].
  eapply reachable_adds; [apply reach_new|exact H0].
Qed.

Lemma st_conflict_pre : analysis_pre st_conflict 2 [xn 1; xp 0] 1.
Proof.
  pose proof (reachable_inv _ st_conflict_reachable) as [Ht _ Hr].
  constructor.
  - exact Ht.
  - exact Hr.
  - vm_compute. reflexivity.
  - lia.
  - reflexivity.
  - intros y Hy. apply elem_of_cons in Hy as [->|Hy];
      [vm_compute; reflexivity|].
    apply list_elem_of_singleton in Hy. subst y. vm_compute. reflexivity.
  - apply (NoDup_cons_2 1 [0]); [|apply NoDup_singleton].
    intros Hin. apply list_elem_of_singleton in Hin. discriminate.
  - exists (xp 0). split; [|vm_compute; reflexivity].
    apply elem_of_cons. right. by apply list_elem_of_singleton.
  - intros p0 dlit p l _ Hlt Hp.
    destruct p as [|[|p]]; [lia| |discriminate Hp].
    injection Hp as <-. by exists 0.
  - intros l cr R Hl _ Hcr HR.
    apply elem_of_cons in Hl as [->|Hl]; [discriminate Hcr|].
    apply list_elem_of_singleton in Hl. subst l.
    injection Hcr as <-. injection HR as <-.
    exists 1, (xp 0). split_and!; [lia|reflexivity|vm_compute; reflexivity].
Qed.

(** On that state [analyze] returns the unit clause [{x0}] and level 0:
    the decision [!x0] is the first unique implication point. *)
Lemma analyze_first_uip_conflict :
  analysis_pre st_conflict 2 [xn 1; xp 0] 1 ∧
  analyze st_conflict 2 = Ok ([xp 0], 0%Z) ∧
  ∃ L b u,
    analyze st_conflict 2 = Ok (L, b) ∧
    L !! 0 = Some (Lit.not u) ∧ first_uip st_conflict [xn 1; xp 0] 1 u ∧
    (∀ j y, 0 < j → L !! j = Some y →
            learnt_ok st_conflict 1 y ∧
            ∃ e, lit_level st_conflict y = Some e ∧ (e ≤ b)%Z) ∧
    (0 ≤ b < 1)%Z ∧
    (length L = 1 → b = 0%Z) ∧
    (1 < length L →
     ∃ j y, 0 < j ∧ L !! j = Some y ∧ lit_level st_conflict y = Some b).
Proof.
  split; [exact st_conflict_pre|]. split; [vm_compute; reflexivity|].
  exact (analyze_first_uip st_conflict 2 [xn 1; xp 0] 1 st_conflict_pre).
Defined.

(** * The operations one by one *)

(** ** The encoding of literals *)

Lemma lit_make_bits (v : Z) (positive : bool) :
  (0 ≤ v)%Z →
  Lit.var (Lit.mk (if positive then 2 * v else 2 * v + 1)%Z) = v ∧
  Lit.pos (Lit.mk (if positive then 2 * v else 2 * v + 1)%Z) = positive.
Proof.
  intros Hv. split.
  - unfold Lit.var. simpl. rewrite Z.shiftr_div_pow2 by lia.
    change (2 ^ 1)%Z with 2%Z. destruct positive.
    + rewrite Z.mul_comm. by apply Z.div_mul.
    + rewrite Z.mul_comm, Z.add_comm.
      rewrite Z.div_add by lia. done.
  - unfold Lit.pos. rewrite lit_neg_odd. simpl. destruct positive; simpl.
    + rewrite Z.odd_mul. done.
    + rewrite Z.add_comm, Z.odd_add_mul_2. done.
Qed.

(** [Lit(v, positive)] for a non-negative variable below [2^30] (so that
    [2 v + 1] is an [int]) builds a literal whose accessors give back the
    variable and the polarity; its index in the watcher lists is [2 v] or
    [2 v + 1], an [int] again. *)
Theorem lit_make_accessors (v : Z) (positive : bool) :
  (0 ≤ v < 2 ^ 30)%Z →
  ∃ l, Lit.make v positive = Ok l ∧
       Lit.var l = v ∧ Lit.pos l = positive ∧ Lit.neg l = negb positive ∧
       Lit.lidx l = (if positive then 2 * v else 2 * v + 1)%Z ∧
       (0 ≤ Lit.x l < 2 ^ 31)%Z.
Proof.
  intros [Hv Hmax]. eexists. split.
  { unfold Lit.make. rewrite bool_decide_eq_true_2 by done. reflexivity. }
  destruct (lit_make_bits v positive Hv) as [Hvar Hpos].
  split; [exact Hvar|]. split; [exact Hpos|]. split.
  { unfold Lit.pos in Hpos. apply (f_equal negb) in Hpos.
    rewrite negb_involutive in Hpos. exact Hpos. }
  split; [reflexivity|].
  cbn [Lit.x]. change (2 ^ 30)%Z with 1073741824%Z in Hmax.
  change (2 ^ 31)%Z with 2147483648%Z. destruct positive; lia.
Qed.

Lemma lit_make_accessors_x3 :
  (0 ≤ 3 < 2 ^ 30)%Z ∧
  ∃ l, Lit.make 3 false = Ok l ∧
       Lit.var l = 3%Z ∧ Lit.pos l = false ∧ Lit.neg l = negb false ∧
       Lit.lidx l = (2 * 3 + 1)%Z ∧
       (0 ≤ Lit.x l < 2 ^ 31)%Z.
Proof.
  assert (0 ≤ 3 < 2 ^ 30)%Z as H by (change (2 ^ 30)%Z with 1073741824%Z; lia).
  split; [exact H|]. exact (lit_make_accessors 3 false H).
Defined.

(** Every literal of a non-negative index is the one the constructor
    builds from its variable and its polarity; a negative variable fails
    the assertion of the constructor. *)
Theorem lit_make_of_accessors (l : Lit.t) :
  (0 ≤ Lit.x l)%Z →
  Lit.make (Lit.var l) (Lit.pos l) = Ok l ∧
  ∀ v b, (v < 0)%Z → Lit.make v b = Err AssertionFailed.
Proof.
  intros Hx. split.
  - unfold Lit.make. rewrite bool_decide_eq_true_2 by by apply lit_var_nonneg.
    simpl. f_equal. destruct l as [a]. f_equal.
    pose proof (lit_x_decompose (Lit.mk a)) as Ha. simpl in Ha.
    unfold Lit.pos. destruct (Lit.neg (Lit.mk a)); simpl; lia.
  - intros v b Hv. unfold Lit.make.
    rewrite bool_decide_eq_false_2 by lia. reflexivity.
Qed.

Lemma lit_make_of_accessors_x5 :
  (0 ≤ Lit.x (Lit.mk 5))%Z ∧
  Lit.make (Lit.var (Lit.mk 5)) (Lit.pos (Lit.mk 5)) = Ok (Lit.mk 5) ∧
  ∀ v b, (v < 0)%Z → Lit.make v b = Err AssertionFailed.
Proof.
  assert (0 ≤ Lit.x (Lit.mk 5))%Z as H by (simpl; lia).
  split; [exact H|]. exact (lit_make_of_accessors (Lit.mk 5) H).
Defined.

(** [operator~] is an involution without fixed point that keeps the
    variable and flips the polarity; it moves between the two watcher
    slots [2 v] and [2 v + 1] of the variable. *)
Theorem lit_not_involution (l : Lit.t) :
  Lit.not (Lit.not l) = l ∧ Lit.not l ≠ l ∧
  Lit.var (Lit.not l) = Lit.var l ∧
  Lit.pos (Lit.not l) = negb (Lit.pos l) ∧
  Lit.neg (Lit.not l) = negb (Lit.neg l) ∧
  Lit.lidx (Lit.not l) =
    (if Lit.neg l then Lit.lidx l - 1 else Lit.lidx l + 1)%Z.
Proof.
  split; [apply lit_not_not|]. split; [apply lit_not_ne|].
  split; [apply lit_var_not|]. split; [apply lit_pos_not|].
  split; [apply lit_neg_not|].
  unfold Lit.lidx.
  pose proof (lit_x_decompose l) as Hl.
  pose proof (lit_x_decompose (Lit.not l)) as Hn.
  rewrite lit_var_not, lit_neg_not in Hn.
  destruct (Lit.neg l); cbn [negb] in Hn; lia.
Qed.

(** ** Reading the assignment *)

(** [eval] of a negated literal is the flipped value of the literal, and
    fails exactly when [eval] of the literal fails. *)
Theorem eval_not_flip (s : Solver) (l : Lit.t) :
  eval s (Lit.not l) = (e ← eval s l; Ok (flip e)).
Proof.
  destruct (eval s l) as [e|er] eqn:He.
  - simpl. by apply eval_not.
  - simpl. unfold eval in *. rewrite vidx_not.
    destruct (at_z (levels s) (Lit.vidx l)) as [[d|]|er1]; simpl in *;
      [|discriminate|done].
    destruct (at_z (assings s) (Lit.vidx l)) as [a|er2]; simpl in *; [|done].
    destruct (Lit.neg l); discriminate.
Qed.

(** ** Assigning *)

Lemma assigned_state_effect (s : Solver) (lit : Lit.t) (d d' : Z)
  (reason : option nat) :
  (0 ≤ Lit.vidx lit)%Z → levels s !! vnat lit = Some None →
  vnat lit < length (assings s) → vnat lit < length (reasons s) →
  let s' := assigned_state s lit d' reason in
  eval s lit = Ok LitBool.Undefine ∧
  eval s' lit = Ok LitBool.True ∧
  eval s' (Lit.not lit) = Ok LitBool.False ∧
  (∀ l, Lit.var l ≠ Lit.var lit → eval s' l = eval s l) ∧
  que s' = que s ++ [lit] ∧
  reasons s' !! vnat lit = Some reason ∧
  decision_level s' = Ok d' ∧
  lit_level s' lit = Some d'.
Proof.
  intros Hv Hl Ha Hr s'.
  assert (vnat lit < length (levels s)) as Hll.
  { by eapply lookup_lt_Some. }
  assert (eval s' lit = Ok LitBool.True) as Ht.
  { apply eval_True. split; [done|]. subst s'; simpl. split.
    - exists d'. by apply list_lookup_insert_eq.
    - by apply list_lookup_insert_eq. }
  split; [by apply eval_Undefine|]. split; [done|].
  split. { apply eval_False_not. by rewrite lit_not_not. }
  split.
  { intros l Hne. destruct (decide (0 ≤ Lit.vidx l)%Z) as [Hvl|Hvl].
    - apply eval_ext; subst s'; simpl.
      + apply list_lookup_insert_ne. unfold vnat, Lit.vidx in *. lia.
      + apply list_lookup_insert_ne. unfold vnat, Lit.vidx in *. lia.
    - unfold eval, at_z.
      destruct (Z.ltb_spec (Lit.vidx l) 0); [done|lia]. }
  split; [done|]. split.
  { subst s'; simpl. by apply list_lookup_insert_eq. }
  split.
  { apply decision_level_Ok. subst s'; simpl. rewrite last_snoc.
    split; [done|]. exists (Some d'). split; [|done].
    by apply list_lookup_insert_eq. }
  unfold lit_level, var_level. subst s'; simpl.
  by rewrite list_lookup_insert_eq.
Qed.

(** A successful [enqueue] makes an unassigned literal True and its
    negation False at the current decision level, appends it to the
    trail with the given reason, and changes the value of no literal of
    another variable, nor the decision level. *)
Theorem enqueue_assigns (s s' : Solver) (lit : Lit.t) (reason : option nat) :
  enqueue s lit reason = Ok s' →
  eval s lit = Ok LitBool.Undefine ∧
  eval s' lit = Ok LitBool.True ∧
  eval s' (Lit.not lit) = Ok LitBool.False ∧
  (∀ l, Lit.var l ≠ Lit.var lit → eval s' l = eval s l) ∧
  que s' = que s ++ [lit] ∧
  reasons s' !! vnat lit = Some reason ∧
  decision_level s' = decision_level s ∧
  lit_level s' lit = Some (default 0%Z (last (trail_levels s))).
Proof.
  intros H. apply enqueue_Ok in H as (Hv & Hl & Ha & Hr & d & Hd & ->).
  destruct (assigned_state_effect s lit d d reason Hv Hl Ha Hr)
    as (H1 & H2 & H3 & H4 & H5 & H6 & H7 & H8).
  rewrite Hd. rewrite <- (decision_level_last s d Hd).
  by split_and!.
Qed.

Lemma enqueue_assigns_x1 :
  enqueue st_unit (xp 1) None = Ok (assigned_state st_unit (xp 1) 0 None) ∧
  eval st_unit (xp 1) = Ok LitBool.Undefine ∧
  eval (assigned_state st_unit (xp 1) 0 None) (xp 1) = Ok LitBool.True ∧
  eval (assigned_state st_unit (xp 1) 0 None) (Lit.not (xp 1))
    = Ok LitBool.False ∧
  (∀ l, Lit.var l ≠ Lit.var (xp 1) →
        eval (assigned_state st_unit (xp 1) 0 None) l = eval st_unit l) ∧
  que (assigned_state st_unit (xp 1) 0 None) = que st_unit ++ [xp 1] ∧
  reasons (assigned_state st_unit (xp 1) 0 None) !! vnat (xp 1) = Some None ∧
  decision_level (assigned_state st_unit (xp 1) 0 None)
    = decision_level st_unit ∧
  lit_level (assigned_state st_unit (xp 1) 0 None) (xp 1)
    = Some (default 0%Z (last (trail_levels st_unit))).
Proof.
  assert (enqueue st_unit (xp 1) None =
            Ok (assigned_state st_unit (xp 1) 0 None)) as H
    by (vm_compute; reflexivity).
  split; [exact H|].
  exact (enqueue_assigns st_unit _ (xp 1) None H).
Defined.

(** A literal whose variable has a value cannot be assigned again:
    [enqueue] and [new_decision] fail their assertion, whatever the
    polarity. *)
Theorem enqueue_assigned_aborts (s : Solver) (lit : Lit.t)
  (reason : option nat) (e : LitBool.t) :
  eval s lit = Ok e → e ≠ LitBool.Undefine →
  enqueue s lit reason = Err AssertionFailed ∧
  enqueue s (Lit.not lit) reason = Err AssertionFailed ∧
  new_decision s lit reason = Err AssertionFailed ∧
  new_decision s (Lit.not lit) reason = Err AssertionFailed.
Proof.
  intros He Hne. apply eval_Ok in He as (Hv & lv & Hlv & He).
  destruct lv as [d|]; [|done].
  assert (∀ l, Lit.vidx l = Lit.vidx lit →
               enqueue s l reason = Err AssertionFailed) as Henq.
  { intros l Hl. unfold enqueue. rewrite Hl.
    rewrite (proj2 (at_z_Ok (levels s) (Lit.vidx lit) (Some d)) (conj Hv Hlv)).
    reflexivity. }
  unfold new_decision.
  rewrite (Henq lit eq_refl), (Henq (Lit.not lit) (vidx_not lit)).
  done.
Qed.

Lemma enqueue_assigned_aborts_x0 :
  eval st_unit (xp 0) = Ok LitBool.True ∧
  LitBool.True ≠ LitBool.Undefine ∧
  enqueue st_unit (xp 0) None = Err AssertionFailed ∧
  enqueue st_unit (Lit.not (xp 0)) None = Err AssertionFailed ∧
  new_decision st_unit (xp 0) None = Err AssertionFailed ∧
  new_decision st_unit (Lit.not (xp 0)) None = Err AssertionFailed.
Proof.
  assert (eval st_unit (xp 0) = Ok LitBool.True) as He
    by (vm_compute; reflexivity).
  assert (LitBool.True ≠ LitBool.Undefine) as Hne by discriminate.
  split; [exact He|]. split; [exact Hne|].
  exact (enqueue_assigned_aborts st_unit (xp 0) None _ He Hne).
Defined.

(** A successful [new_decision] opens a level: the decision level goes up
    by exactly one, the literal is True at the new level and last on the
    trail, and the literals of the other variables keep their values. *)
Theorem new_decision_opens_level (s s' : Solver) (lit : Lit.t)
  (reason : option nat) :
  new_decision s lit reason = Ok s' →
  ∃ d, decision_level s = Ok d ∧ decision_level s' = Ok (d + 1)%Z ∧
       lit_level s' lit = Some (d + 1)%Z ∧
       eval s' lit = Ok LitBool.True ∧
       eval s' (Lit.not lit) = Ok LitBool.False ∧
       que s' = que s ++ [lit] ∧
       ∀ l, Lit.var l ≠ Lit.var lit → eval s' l = eval s l.
Proof.
  intros H. apply new_decision_Ok in H as (Hv & Hl & Ha & Hr & d & Hd & ->).
  destruct (assigned_state_effect s lit d (d + 1) reason Hv Hl Ha Hr)
    as (H1 & H2 & H3 & H4 & H5 & H6 & H7 & H8).
  exists d. by split_and!.
Qed.

Lemma new_decision_opens_level_x1 :
  new_decision st_unit (xp 1) None = Ok st_decided ∧
  ∃ d, decision_level st_unit = Ok d ∧
       decision_level st_decided = Ok (d + 1)%Z ∧
       lit_level st_decided (xp 1) = Some (d + 1)%Z ∧
       eval st_decided (xp 1) = Ok LitBool.True ∧
       eval st_decided (Lit.not (xp 1)) = Ok LitBool.False ∧
       que st_decided = que st_unit ++ [xp 1] ∧
       ∀ l, Lit.var l ≠ Lit.var (xp 1) → eval st_decided l = eval st_unit l.
Proof.
  assert (new_decision st_unit (xp 1) None = Ok st_decided) as H
    by (vm_compute; reflexivity).
  split; [exact H|].
  exact (new_decision_opens_level st_unit st_decided (xp 1) None H).
Defined.

(** ** Comparing literals *)

(** Two literals are [==] exactly when they have the same variable and
    the same polarity, and [!=] otherwise.  [<] orders the literals by
    variable, and the positive literal of a variable before its negative
    one, with no literal between the two. *)
Theorem lit_compare (a b : Lit.t) :
  (lit_eqb a b = true ↔ Lit.var a = Lit.var b ∧ Lit.pos a = Lit.pos b) ∧
  lit_neb a b = negb (lit_eqb a b) ∧
  (lit_ltb a b = true ↔
     (Lit.var a < Lit.var b)%Z ∨
     (Lit.var a = Lit.var b ∧ Lit.pos a = true ∧ Lit.pos b = false)) ∧
  lit_ltb a (Lit.not a) = Lit.pos a ∧
  (lit_ltb a b = true → Lit.pos a = true →
   b = Lit.not a ∨ lit_ltb (Lit.not a) b = true).
Proof.
  pose proof (lit_x_decompose a) as Ha.
  pose proof (lit_x_decompose b) as Hb.
  pose proof (lit_x_decompose (Lit.not a)) as Hna.
  rewrite lit_var_not, lit_neg_not in Hna.
  unfold lit_eqb, lit_neb, lit_ltb, Lit.pos.
  split; [|split; [done|split; [|split]]].
  - rewrite Z.eqb_eq. split.
    + intros Hx. destruct a as [x], b as [y]. simpl in Hx. by subst.
    + intros [Hv Hp]. apply (f_equal negb) in Hp.
      rewrite !negb_involutive in Hp. rewrite Hv, Hp in Ha. lia.
  - rewrite Z.ltb_lt.
    destruct (Lit.neg a), (Lit.neg b); simpl; split;
      try (intros [?|(? & ? & ?)]); try done; lia.
  - destruct (Lit.neg a); cbn [negb] in *; [apply Z.ltb_ge|apply Z.ltb_lt];
      lia.
  - rewrite !Z.ltb_lt. intros Hlt Hp.
    destruct (Lit.neg a); [done|]. cbn [negb] in Hna.
    destruct (decide (Lit.x (Lit.not a) = Lit.x b)) as [Heq|]; [left|right; lia].
    destruct (Lit.not a) as [x], b as [y]. simpl in Heq. by subst.
Qed.

(** ** Adding variables and clauses *)

(** [new_var] adds one unassigned variable and its two empty watcher
    lists; the literals that had a value, or were Undefine, keep it. *)
Theorem new_var_adds_unassigned (s : Solver) :
  length (assings (new_var s)) = S (length (assings s)) ∧
  length (levels (new_var s)) = S (length (levels s)) ∧
  length (reasons (new_var s)) = S (length (reasons s)) ∧
  length (watchers (new_var s)) = S (S (length (watchers s))) ∧
  watchers (new_var s) !! length (watchers s) = Some [] ∧
  watchers (new_var s) !! S (length (watchers s)) = Some [] ∧
  (∀ l e, eval s l = Ok e → eval (new_var s) l = Ok e) ∧
  (∀ l, Lit.vidx l = Z.of_nat (length (levels s)) →
        eval (new_var s) l = Ok LitBool.Undefine) ∧
  que (new_var s) = que s ∧ heap (new_var s) = heap s ∧
  clauses (new_var s) = clauses s.
Proof.
  unfold new_var; simpl. rewrite !length_app; simpl.
  split; [lia|]. split; [lia|]. split; [lia|]. split; [lia|].
  split. { rewrite lookup_app_r by lia. by rewrite Nat.sub_diag. }
  split.
  { rewrite lookup_app_r by lia.
    by replace (S (length (watchers s)) - length (watchers s)) with 1 by lia. }
  split. { apply eval_new_var. }
  split; [|done].
  intros l Hl. apply eval_Undefine. split; [lia|]. simpl.
  unfold vnat. rewrite Hl, Nat2Z.id.
  rewrite lookup_app_r by lia. by rewrite Nat.sub_diag.
Qed.

Lemma grow_frame (c : list Lit.t) (s : Solver) :
  heap (grow s c) = heap s ∧ clauses (grow s c) = clauses s ∧
  learnts (grow s c) = learnts s ∧ que (grow s c) = que s ∧
  que_head (grow s c) = que_head s ∧
  (∀ l e, eval s l = Ok e → eval (grow s c) l = Ok e) ∧
  (∀ d, decision_level s = Ok d → decision_level (grow s c) = Ok d).
Proof.
  revert s. induction c as [|l c IH]; intros s; [done|].
  rewrite grow_cons.
  destruct (IH (if bool_decide (Lit.vidx l < 0 ∨
                                Z.of_nat (length (assings s)) ≤ Lit.vidx l)%Z
                then new_var s else s))
    as (H1 & H2 & H3 & H4 & H5 & H6 & H7).
  rewrite H1, H2, H3, H4, H5.
  case_bool_decide; split_and!; try done.
  - intros y e He. apply H6. by apply eval_new_var.
  - intros d Hd. apply H7. apply decision_level_Ok.
    apply decision_level_Ok in Hd. simpl.
    destruct (last (que s)) as [l0|]; [|done].
    destruct Hd as (Hv & lv & Hlv & ->). split; [done|].
    exists lv. split; [|done]. by apply lookup_app_l_Some.
Qed.

(** A clause that is not a unit is stored behind a fresh handle, as it was
    given, and registered in the watcher lists of the negations of its
    first two literals; nothing is assigned or propagated by the call,
    whatever the values of its literals. *)
Theorem add_clause_stores (s s' : Solver) (c : list Lit.t) :
  add_clause s c = Ok s' → length c ≠ 1 →
  2 ≤ length c ∧
  heap s' = heap s ++ [c] ∧
  clauses s' = clauses s ++ [length (heap s)] ∧
  learnts s' = learnts s ∧
  que s' = que s ∧ que_head s' = que_head s ∧
  (∀ l e, eval s l = Ok e → eval s' l = Ok e) ∧
  ∃ c0 c1 w0 w1,
    c !! 0 = Some c0 ∧ c !! 1 = Some c1 ∧
    watchers s' !! lnat (Lit.not c0) = Some w0 ∧ length (heap s) ∈ w0 ∧
    watchers s' !! lnat (Lit.not c1) = Some w1 ∧ length (heap s) ∈ w1.
Proof.
  intros H Hlen. unfold add_clause in H.
  destruct (decide (length c = 1)) as [|_]; [done|].
  unfold make_shared in H.
  destruct (grow_frame c s) as (Hh & Hc & Hl & Hq & Hqh & Hev & _).
  set (s1 := set_heap (grow s c) (heap (grow s c) ++ [c])) in H.
  assert (learnts s' = learnts s1) as Hlearnts.
  { unfold attach_clause in H. inv_ok. subst.
    repeat match goal with
           | H : push_watcher _ _ _ = Ok _ |- _ =>
               apply push_watcher_Ok in H as (_ & ? & _ & ->)
           end. done. }
  apply attach_clause_Ok in H
    as (C & c0 & c1 & w0 & w1 & HC & H0 & H1 & Hp0 & Hp1 & Hw0 & Hw1 & Hheap &
        Hcl & Hws & Has & Hlv & Hrs & Hque & Hhead).
  subst s1. simpl in *. rewrite Hh in *.
  rewrite lookup_app_r, Nat.sub_diag in HC by lia. injection HC as <-.
  assert (2 ≤ length c) as H2.
  { apply lookup_lt_Some in H1. lia. }
  split; [done|]. split; [done|]. split; [by rewrite Hcl, Hc|].
  split; [by rewrite Hlearnts|]. split; [by rewrite Hque|].
  split; [by rewrite Hhead|]. split.
  { intros l e He. rewrite <- (Hev l e He). apply eval_ext; simpl; congruence. }
  exists c0, c1.
  assert (lnat (Lit.not c1) <
            length (<[lnat (Lit.not c0):=w0 ++ [length (heap s)]]>
                      (watchers (grow s c)))) as Hlt1.
  { by eapply lookup_lt_Some. }
  assert (lnat (Lit.not c0) < length (watchers (grow s c))) as Hlt0.
  { by eapply lookup_lt_Some. }
  rewrite Hws. rewrite length_insert in Hlt1.
  destruct (decide (lnat (Lit.not c0) = lnat (Lit.not c1))) as [Heq|Hne].
  - exists (w1 ++ [length (heap s)]), (w1 ++ [length (heap s)]).
    rewrite Heq.
    rewrite list_lookup_insert_eq by (rewrite length_insert; lia).
    split_and!; try done; set_solver.
  - exists (w0 ++ [length (heap s)]), (w1 ++ [length (heap s)]).
    rewrite list_lookup_insert_ne by done.
    rewrite list_lookup_insert_eq by done.
    rewrite list_lookup_insert_eq by (rewrite length_insert; lia).
    split_and!; try done; set_solver.
Qed.

Lemma add_clause_stores_x01 :
  add_clause (new_solver 2) [xp 0; xp 1] = Ok st_binary ∧
  length [xp 0; xp 1] ≠ 1 ∧
  2 ≤ length [xp 0; xp 1] ∧
  heap st_binary = heap (new_solver 2) ++ [[xp 0; xp 1]] ∧
  clauses st_binary = clauses (new_solver 2) ++ [length (heap (new_solver 2))] ∧
  learnts st_binary = learnts (new_solver 2) ∧
  que st_binary = que (new_solver 2) ∧
  que_head st_binary = que_head (new_solver 2) ∧
  (∀ l e, eval (new_solver 2) l = Ok e → eval st_binary l = Ok e) ∧
  ∃ c0 c1 w0 w1,
    [xp 0; xp 1] !! 0 = Some c0 ∧ [xp 0; xp 1] !! 1 = Some c1 ∧
    watchers st_binary !! lnat (Lit.not c0) = Some w0 ∧
    length (heap (new_solver 2)) ∈ w0 ∧
    watchers st_binary !! lnat (Lit.not c1) = Some w1 ∧
    length (heap (new_solver 2)) ∈ w1.
Proof.
  assert (add_clause (new_solver 2) [xp 0; xp 1] = Ok st_binary) as H
    by (vm_compute; reflexivity).
  assert (length [xp 0; xp 1] ≠ 1) as Hlen by (simpl; lia).
  split; [exact H|]. split; [exact Hlen|].
  exact (add_clause_stores _ _ _ H Hlen).
Defined.

(** A unit clause is not stored: [add_clause] assigns its literal at the
    decision level of the moment, without reason, and leaves the clause
    database as it was. *)
Theorem add_clause_unit_assigns (s s' : Solver) (l : Lit.t) :
  add_clause s [l] = Ok s' →
  heap s' = heap s ∧ clauses s' = clauses s ∧ learnts s' = learnts s ∧
  watchers s' = watchers (grow s [l]) ∧
  que s' = que s ++ [l] ∧ que_head s' = que_head s ∧
  eval s' l = Ok LitBool.True ∧
  reasons s' !! vnat l = Some None ∧
  (∀ y e, Lit.var y ≠ Lit.var l → eval s y = Ok e → eval s' y = Ok e) ∧
  (∀ d, decision_level s = Ok d →
        decision_level s' = Ok d ∧ lit_level s' l = Some d).
Proof.
  intros H. unfold add_clause in H. simpl in H.
  destruct (decide (1 = 1)) as [_|]; [|done]. simpl in H.
  destruct (grow_frame [l] s) as (Hh & Hc & Hl & Hq & Hqh & Hev & Hdl).
  apply enqueue_Ok in H as (Hv & Hlv & Ha & Hr & d & Hd & ->).
  destruct (assigned_state_effect _ l d d None Hv Hlv Ha Hr)
    as (_ & H2 & _ & H4 & H5 & H6 & H7 & _).
  simpl in *. rewrite Hh, Hc, Hl, Hqh.
  split_and!; try done.
  - by rewrite Hq.
  - intros y e Hne He. rewrite (H4 y Hne). by apply Hev.
  - intros d' Hd'. apply Hdl in Hd'. rewrite Hd' in Hd. injection Hd as <-.
    split; [done|].
    unfold lit_level, var_level. simpl.
    rewrite list_lookup_insert_eq; [done|]. by eapply lookup_lt_Some.
Qed.

Lemma add_clause_unit_assigns_x2 :
  add_clause st_decided [xp 2] = Ok st_decided_unit ∧
  heap st_decided_unit = heap st_decided ∧
  clauses st_decided_unit = clauses st_decided ∧
  learnts st_decided_unit = learnts st_decided ∧
  watchers st_decided_unit = watchers (grow st_decided [xp 2]) ∧
  que st_decided_unit = que st_decided ++ [xp 2] ∧
  que_head st_decided_unit = que_head st_decided ∧
  eval st_decided_unit (xp 2) = Ok LitBool.True ∧
  reasons st_decided_unit !! vnat (xp 2) = Some None ∧
  (∀ y e, Lit.var y ≠ Lit.var (xp 2) → eval st_decided y = Ok e →
          eval st_decided_unit y = Ok e) ∧
  (∀ d, decision_level st_decided = Ok d →
        decision_level st_decided_unit = Ok d ∧
        lit_level st_decided_unit (xp 2) = Some d).
Proof.
  assert (add_clause st_decided [xp 2] = Ok st_decided_unit) as H
    by (vm_compute; reflexivity).
  split; [exact H|].
  exact (add_clause_unit_assigns _ _ _ H).
Defined.

(** A unit clause that is added above level 0 is lost by the next
    backjump below its level: its literal is unassigned again and the
    clause is in no store. *)
Theorem unit_clause_forgotten (s s1 s2 : Solver) (l : Lit.t)
  (d until_level : Z) :
  reachable s → decision_level s = Ok d → (until_level < d)%Z →
  add_clause s [l] = Ok s1 → pop_queue_until s1 until_level = Ok s2 →
  eval s2 l = Ok LitBool.Undefine ∧
  heap s2 = heap s ∧ clauses s2 = clauses s ∧ l ∉ que s2.
Proof.
  intros Hs Hd Hlt Hadd Hpop.
  assert (reachable s1) as Hs1 by (by eapply reach_add_clause).
  pose proof (si_trail _ (reachable_inv _ Hs1)) as Hinv.
  assert (add_clause s [l] = Ok s1) as Hadd' by done.
  unfold add_clause in Hadd'. simpl in Hadd'.
  destruct (decide (1 = 1)) as [_|]; [|done]. simpl in Hadd'.
  destruct (grow_frame [l] s) as (Hh & Hc & _ & Hq & _ & _ & Hdl).
  apply Hdl in Hd.
  apply enqueue_Ok in Hadd' as (Hv & Hlv & Ha & Hr & d' & Hd' & Hs1eq).
  rewrite Hd in Hd'. injection Hd' as <-.
  assert (que s1 = que s ++ [l]) as Hque.
  { rewrite Hs1eq. simpl. by rewrite Hq. }
  assert (levels s1 !! vnat l = Some (Some d)) as Hlevel.
  { rewrite Hs1eq. simpl. apply list_lookup_insert_eq.
    by eapply lookup_lt_Some. }
  assert (heap s1 = heap s ∧ clauses s1 = clauses s) as [Hh1 Hc1].
  { rewrite Hs1eq. simpl. by rewrite Hh, Hc. }
  apply pop_queue_until_Ok in Hpop
    as (_ & keep & popped & Hsplit & -> & Hall & Hstop);
    [|apply (ti_nodup _ Hinv)].
  assert (l ∈ popped) as Hin.
  { destruct popped as [|p popped _] using rev_ind.
    - rewrite app_nil_r in Hsplit. subst keep. rewrite Hque in Hstop.
      rewrite last_snoc in Hstop. destruct Hstop as (_ & lv & Hlv' & Hgt).
      simpl in Hlv'. rewrite Hlevel in Hlv'. injection Hlv' as <-.
      simpl in Hgt. apply Z.ltb_ge in Hgt. lia.
    - rewrite Hque, app_assoc in Hsplit.
      apply app_inj_tail in Hsplit as [_ <-]. set_solver. }
  assert (Forall (fun y => vnat y < length (levels s1) ∧
                           vnat y < length (reasons s1)) popped) as Hrange.
  { eapply Forall_impl; [exact Hall|]. simpl.
    intros y (_ & Hyr & e & Hye & _). split; [|done].
    by eapply lookup_lt_Some. }
  destruct (popped_state_lookup_popped s1 keep popped (vnat l) Hrange)
    as [Hnone _].
  { apply list_elem_of_fmap. by exists l. }
  split. { apply eval_Undefine. split; [done|]. exact Hnone. }
  split; [done|]. split; [done|]. simpl.
  intros Hkeep. pose proof (ti_nodup _ Hinv) as Hnd.
  rewrite Hsplit in Hnd.
  by apply (NoDup_app_vnat_ne keep popped l l Hnd Hkeep Hin).
Qed.

Lemma unit_clause_forgotten_x2 :
  reachable st_decided ∧ decision_level st_decided = Ok 1%Z ∧ (0 < 1)%Z ∧
  add_clause st_decided [xp 2] = Ok st_decided_unit ∧
  pop_queue_until st_decided_unit 0 = Ok st_unit_lost ∧
  eval st_unit_lost (xp 2) = Ok LitBool.Undefine ∧
  heap st_unit_lost = heap st_decided ∧
  clauses st_unit_lost = clauses st_decided ∧
  xp 2 ∉ que st_unit_lost.
Proof.
  assert (decision_level st_decided = Ok 1%Z) as Hd
    by (vm_compute; reflexivity).
  assert (0 < 1)%Z as Hlt by lia.
  assert (add_clause st_decided [xp 2] = Ok st_decided_unit) as Hadd
    by (vm_compute; reflexivity).
  assert (pop_queue_until st_decided_unit 0 = Ok st_unit_lost) as Hpop
    by (vm_compute; reflexivity).
  split; [exact st_decided_reachable|]. split; [exact Hd|].
  split; [exact Hlt|]. split; [exact Hadd|]. split; [exact Hpop|].
  exact (unit_clause_forgotten _ _ _ _ _ _ st_decided_reachable Hd Hlt Hadd
                               Hpop).
Defined.

(** ** The assignment and the trail *)

Lemma NoDup_bounded_length (l : list nat) (n : nat) :
  NoDup l → (∀ x, x ∈ l → x < n) → length l ≤ n.
Proof.
  intros Hnd Hb. transitivity (length (seq 0 n)); [|by rewrite length_seq].
  apply submseteq_length, NoDup_submseteq; [done|].
  intros x Hx. apply elem_of_seq. specialize (Hb x Hx). lia.
Qed.

(** In every reachable state the trail is the assignment: a literal is
    True exactly when it is on the trail and False exactly when its
    negation is; no variable is on the trail twice, so the trail is never
    longer than the number of variables. *)
Theorem trail_is_assignment (s : Solver) (l : Lit.t) :
  reachable s →
  (eval s l = Ok LitBool.True ↔ l ∈ que s) ∧
  (eval s l = Ok LitBool.False ↔ Lit.not l ∈ que s) ∧
  ¬ (l ∈ que s ∧ Lit.not l ∈ que s) ∧
  length (que s) ≤ length (assings s).
Proof.
  intros Hs. pose proof (si_trail _ (reachable_inv _ Hs)) as Hinv.
  assert (∀ y, eval s y = Ok LitBool.True ↔ y ∈ que s) as Htrue.
  { intros y. split; [by apply true_on_trail|apply (ti_true _ Hinv)]. }
  split; [apply Htrue|]. split.
  { rewrite eval_False_not. apply Htrue. }
  split.
  { intros [H1 H2]. apply Htrue in H1. apply Htrue in H2.
    apply eval_False_not in H2. congruence. }
  rewrite <- (length_fmap vnat), (ti_assings _ Hinv).
  apply NoDup_bounded_length; [apply (ti_nodup _ Hinv)|].
  intros v (y & -> & Hy)%list_elem_of_fmap.
  by destruct (trail_inv_slot s y Hinv Hy) as (_ & _ & _ & ? & _).
Qed.

Lemma trail_is_assignment_sat :
  reachable st_sat ∧
  (eval st_sat (xp 2) = Ok LitBool.True ↔ xp 2 ∈ que st_sat) ∧
  (eval st_sat (xp 2) = Ok LitBool.False ↔ Lit.not (xp 2) ∈ que st_sat) ∧
  ¬ (xp 2 ∈ que st_sat ∧ Lit.not (xp 2) ∈ que st_sat) ∧
  length (que st_sat) ≤ length (assings st_sat).
Proof.
  split; [exact st_sat_reachable|].
  exact (trail_is_assignment st_sat (xp 2) st_sat_reachable).
Defined.

(** In every reachable state the levels of the trail entries never go
    down along the trail: they start at 0 or 1, go up by steps of one,
    and end at the decision level. *)
Theorem trail_levels_ordered (s : Solver) (p q : nat) (a b : Lit.t) :
  reachable s → que s !! p = Some a → que s !! q = Some b → p ≤ q →
  ∃ ea eb d,
    lit_level s a = Some ea ∧ lit_level s b = Some eb ∧
    decision_level s = Ok d ∧ (0 ≤ ea ≤ eb)%Z ∧ (eb ≤ d)%Z ∧
    (eb ≤ ea + Z.of_nat (q - p))%Z ∧ (ea ≤ Z.of_nat p + 1)%Z.
Proof.
  intros Hs Ha Hb Hpq. pose proof (si_trail _ (reachable_inv _ Hs)) as Hinv.
  destruct (trail_level_Some s a Hinv) as [ea Hea].
  { by eapply list_elem_of_lookup_2. }
  destruct (trail_level_Some s b Hinv) as [eb Heb].
  { by eapply list_elem_of_lookup_2. }
  destruct (decision_level_total s Hinv) as [d Hd].
  exists ea, eb, d. split; [done|]. split; [done|]. split; [done|].
  pose proof (trail_level_mono s p q a b ea eb Hinv Ha Hb Hpq Hea Heb).
  destruct (trail_level_le_decision s a ea d Hinv Hd) as [? _];
    [by eapply list_elem_of_lookup_2|done|].
  destruct (trail_level_le_decision s b eb d Hinv Hd) as [_ ?];
    [by eapply list_elem_of_lookup_2|done|].
  split; [lia|]. split; [done|].
  pose proof (ti_steps _ Hinv) as Hsteps.
  pose proof (trail_levels_lookup s p a ea Ha Hea) as Hpa.
  pose proof (trail_levels_lookup s q b eb Hb Heb) as Hqb.
  clear -Hsteps Hpa Hqb Hpq.
  assert (∀ ls prev i x, level_steps prev ls → ls !! i = Some x →
                         (x ≤ prev + Z.of_nat i + 1)%Z) as Hfirst.
  { induction ls as [|y ls IH]; intros prev i x Hst Hi; [done|].
    destruct Hst as [Hy Hst]. destruct i as [|i]; simpl in Hi.
    - injection Hi as <-. lia.
    - specialize (IH y i x Hst Hi). lia. }
  split; [|by specialize (Hfirst _ 0%Z p ea Hsteps Hpa); lia].
  revert Hsteps Hpa Hqb. generalize (trail_levels s) 0%Z. revert q Hpq.
  induction p as [|p IH]; intros q Hpq ls prev Hst Hpa Hqb.
  - destruct ls as [|y ls]; [done|]. simpl in Hpa. injection Hpa as ->.
    destruct Hst as [_ Hst]. destruct q as [|q]; simpl in Hqb.
    + injection Hqb as <-. lia.
    + specialize (Hfirst ls ea q eb Hst Hqb). lia.
  - destruct ls as [|y ls]; [done|]. destruct q as [|q]; [lia|].
    destruct Hst as [_ Hst]. simpl in Hpa, Hqb.
    specialize (IH q ltac:(lia) ls y Hst Hpa Hqb). lia.
Qed.

Lemma trail_levels_ordered_sat :
  reachable st_sat ∧ que st_sat !! 0 = Some (xn 0) ∧
  que st_sat !! 2 = Some (xp 2) ∧ (0 ≤ 2)%nat ∧
  ∃ ea eb d,
    lit_level st_sat (xn 0) = Some ea ∧ lit_level st_sat (xp 2) = Some eb ∧
    decision_level st_sat = Ok d ∧ (0 ≤ ea ≤ eb)%Z ∧ (eb ≤ d)%Z ∧
    (eb ≤ ea + Z.of_nat (2 - 0))%Z ∧ (ea ≤ Z.of_nat 0 + 1)%Z.
Proof.
  assert (que st_sat !! 0 = Some (xn 0)) as Ha by reflexivity.
  assert (que st_sat !! 2 = Some (xp 2)) as Hb by reflexivity.
  assert (0 ≤ 2)%nat as Hle by lia.
  split; [exact st_sat_reachable|]. split; [exact Ha|]. split; [exact Hb|].
  split; [exact Hle|].
  exact (trail_levels_ordered st_sat 0 2 _ _ st_sat_reachable Ha Hb Hle).
Defined.

(** ** The choice of the next decision *)

Lemma next_undef_spec (s : Solver) (n v : nat) :
  v + n ≤ length (levels s) → v + n ≤ length (assings s) →
  (∃ u (a : bool), v ≤ u < v + n ∧ levels s !! u = Some None ∧
          assings s !! u = Some a ∧
          next_undef s n v =
            Ok (Some (Lit.mk (if a then 2 * Z.of_nat u
                              else 2 * Z.of_nat u + 1)%Z)) ∧
          ∀ w, v ≤ w < u → ∃ d, levels s !! w = Some (Some d)) ∨
  (next_undef s n v = Ok None ∧
   ∀ w, v ≤ w < v + n → ∃ d, levels s !! w = Some (Some d)).
Proof.
  revert v. induction n as [|n IH]; intros v Hl Ha.
  { right. split; [done|]. intros w Hw. lia. }
  destruct (lookup_lt_is_Some_2 (levels s) v) as [lv Hlv]; [lia|].
  destruct (lookup_lt_is_Some_2 (assings s) v) as [a Hav]; [lia|].
  simpl. rewrite (proj2 (at_Ok _ _ _) Hlv). simpl. destruct lv as [d|].
  - destruct (IH (S v)) as [(u & a' & Hu & Hnone & Hau & Hnext & Hbelow)|
                            [Hnext Hall]]; [lia|lia| |].
    + left. exists u, a'. split; [lia|]. split; [done|]. split; [done|].
      split; [done|]. intros w Hw.
      destruct (decide (w = v)) as [->|]; [by exists d|].
      apply Hbelow. lia.
    + right. split; [done|]. intros w Hw.
      destruct (decide (w = v)) as [->|]; [by exists d|].
      apply Hall. lia.
  - left. exists v, a. split; [lia|]. split; [done|]. split; [done|].
    split; [|intros w Hw; lia].
    rewrite (proj2 (at_Ok _ _ _) Hav). simpl. unfold Lit.make.
    rewrite bool_decide_eq_true_2 by lia. reflexivity.
Qed.



(** ** What propagation changes *)

Lemma propagated_refl (s : Solver) : propagated s s.
Proof.
  split; try done.
  - intros cr C HC. by exists C.
  - exists []. by rewrite app_nil_r.
Qed.

Lemma propagated_trans (s1 s2 s3 : Solver) :
  propagated s1 s2 → propagated s2 s3 → propagated s1 s3.
Proof.
  intros [A1 A2 A3 A4 A5 A6 [n1 A7] A8 A9] [B1 B2 B3 B4 B5 B6 [n2 B7] B8 B9].
  split; try congruence.
  - intros cr C HC. destruct (A6 cr C HC) as (C' & HC' & Hp).
    destruct (B6 cr C' HC') as (C'' & HC'' & Hp'). exists C''.
    split; [done|]. by rewrite Hp'.
  - exists (n1 ++ n2). by rewrite B7, A7, app_assoc.
  - intros l e He Hne. apply B8; [|done]. by apply A8.
  - intros l e He. by apply B9, A9.
Qed.

Lemma insert_head_perm {A} (C : list A) (b : nat) (x cb : A) :
  C !! b = Some cb → cb :: <[b:=x]> C ≡ₚ x :: C.
Proof.
  revert b. induction C as [|y C IH]; intros b Hb; [done|].
  destruct b as [|b]; simpl in *.
  - injection Hb as ->. apply perm_swap.
  - rewrite (perm_swap y cb), (IH b Hb). apply perm_swap.
Qed.

Lemma swap_perm {A} (C : list A) (a b : nat) (ca cb : A) :
  C !! a = Some ca → C !! b = Some cb → <[b:=ca]> (<[a:=cb]> C) ≡ₚ C.
Proof.
  revert a b. induction C as [|y C IH]; intros a b Ha Hb; [done|].
  destruct a as [|a], b as [|b]; simpl in *.
  - injection Ha as ->. by injection Hb as ->.
  - injection Ha as ->. by apply insert_head_perm.
  - injection Hb as ->. by apply insert_head_perm.
  - by rewrite (IH a b).
Qed.

Lemma normalized_perm (C : list Lit.t) (c0 c1 nlit : Lit.t) :
  C !! 0 = Some c0 → C !! 1 = Some c1 → normalized C c0 c1 nlit ≡ₚ C.
Proof.
  intros H0 H1. unfold normalized. case_decide; [|done].
  by apply swap_perm.
Qed.

Lemma store_heap_perm (s : Solver) (cr : nat) (C C1 : list Lit.t) :
  heap s !! cr = Some C → C1 ≡ₚ C →
  ∀ cr' C', heap s !! cr' = Some C' →
            ∃ C'', heap (store s cr C1) !! cr' = Some C'' ∧ C'' ≡ₚ C'.
Proof.
  intros HC Hp cr' C' HC'. simpl.
  destruct (decide (cr' = cr)) as [->|Hne].
  - exists C1. rewrite list_lookup_insert_eq by (by eapply lookup_lt_Some).
    split; [done|]. congruence.
  - exists C'. by rewrite list_lookup_insert_ne.
Qed.

Lemma propagated_store (s : Solver) (cr : nat) (C C1 : list Lit.t) :
  heap s !! cr = Some C → C1 ≡ₚ C → propagated s (store s cr C1).
Proof.
  intros HC Hp. split; simpl; try done.
  - by rewrite length_insert.
  - by apply (store_heap_perm s cr C).
  - exists []. by rewrite app_nil_r.
Qed.

Lemma propagated_frame (s s' : Solver) :
  clauses s' = clauses s → learnts s' = learnts s → heap s' = heap s →
  length (watchers s') = length (watchers s) →
  levels s' = levels s → assings s' = assings s → que s' = que s →
  propagated s s'.
Proof.
  intros H1 H2 H3 H4 H5 H6 H7. split; try congruence.
  - intros cr C HC. exists C. by rewrite H3.
  - exists []. by rewrite app_nil_r.
  - intros l e He _. rewrite <- He. apply eval_ext; congruence.
  - intros l e. unfold lit_level, var_level. by rewrite H5.
Qed.

Lemma propagated_assigned (s : Solver) (lit : Lit.t) (d : Z)
  (reason : option nat) :
  (0 ≤ Lit.vidx lit)%Z → levels s !! vnat lit = Some None →
  propagated s (assigned_state s lit d reason).
Proof.
  intros Hv Hl. split; simpl; try done.
  - by rewrite length_insert.
  - intros cr C HC. by exists C.
  - by exists [lit].
  - intros l e He Hne. rewrite <- He.
    apply eval_Ok in He as (Hvl & lv & Hlv & He).
    assert (vnat l ≠ vnat lit) as Hdiff.
    { intros Heq. rewrite Heq, Hl in Hlv. injection Hlv as <-. done. }
    apply eval_ext; simpl; by rewrite list_lookup_insert_ne.
  - intros l e. unfold lit_level, var_level. simpl. intros He.
    destruct (decide (vnat l = vnat lit)) as [Heq|Hne].
    + rewrite Heq, Hl in He. done.
    + by rewrite list_lookup_insert_ne.
Qed.

Lemma propagated_visit (s : Solver) (lit : Lit.t) (i : nat) (s' : Solver)
  (o : Outcome) :
  visit s lit i = Ok (s', o) → propagated s s'.
Proof.
  intros Hvisit.
  apply visit_Ok in Hvisit
    as (ws & cr & C & c0 & c1 & first & ef & Hl & Hws & Hi & HC & H0 & H1 &
        Hn1 & Hn0 & Hnlit & Hef & Hcases).
  set (C1 := normalized C c0 c1 (Lit.not lit)) in *.
  assert (C1 ≡ₚ C) as Hp1 by (by apply normalized_perm).
  pose proof (propagated_store s cr C C1 HC Hp1) as Hstore.
  assert (heap (store s cr C1) !! cr = Some C1) as HC1.
  { simpl. apply list_lookup_insert_eq. by eapply lookup_lt_Some. }
  destruct Hcases as [(-> & -> & ->)|[(Hne & Hmove)|[(-> & Hall & -> & ->)|
                      (-> & Hall & Henq & ->)]]].
  - done.
  - destruct Hmove as (k & ck & e & w & Hk & Hck & He & HeF & Hlast & Hlt &
                       Hpush & ->).
    apply push_watcher_Ok in Hpush as (_ & w0 & _ & ->).
    eapply propagated_trans; [exact Hstore|].
    eapply propagated_trans.
    + apply (propagated_store (store s cr C1) cr C1
                              (<[k:=Lit.not lit]> (<[1:=ck]> C1)) HC1).
      by apply swap_perm.
    + apply propagated_frame; simpl; try done.
      by rewrite !length_insert.
  - eapply propagated_trans; [exact Hstore|].
    by apply propagated_frame.
  - eapply propagated_trans; [exact Hstore|].
    apply enqueue_Ok in Henq as (Hv & Hlv & _ & _ & d & _ & ->).
    by apply propagated_assigned.
Qed.

Lemma propagated_watch_loop (fuel : nat) (s : Solver) (lit : Lit.t) (i : nat)
  (s' : Solver) (r : option nat) :
  watch_loop fuel s lit i = Ok (s', r) → propagated s s'.
Proof.
  revert s i. induction fuel as [|fuel IH]; intros s i; simpl; [done|].
  intros H. apply bind_Ok in H as (ws & _ & H).
  case_decide as Hlt.
  - apply bind_Ok in H as ([s1 o] & Hvisit & H).
    apply propagated_visit in Hvisit.
    destruct o as [i'|cr].
    + eapply propagated_trans; [exact Hvisit|]. by apply (IH s1 i').
    + by injection H as <- _.
  - injection H as <- _. apply propagated_refl.
Qed.

Lemma propagated_propagate (fuel : nat) (s s' : Solver) (r : option nat) :
  propagate fuel s = Ok (s', r) → propagated s s'.
Proof.
  revert s. induction fuel as [|fuel IH]; intros s; [done|].
  cbn [propagate]. case_decide as Hlt.
  - intros H. apply bind_Ok in H as (lit & _ & H).
    apply bind_Ok in H as ([s2 r2] & Hloop & H).
    apply propagated_watch_loop in Hloop.
    assert (propagated s s2) as Hs2.
    { eapply propagated_trans; [|exact Hloop]. by apply propagated_frame. }
    destruct r2 as [cr|].
    + by injection H as <- _.
    + eapply propagated_trans; [exact Hs2|]. by apply (IH s2).
  - intros [= <- _]. apply propagated_refl.
Qed.

(** [propagate] never adds, removes or rewrites a clause: behind every
    handle the same literals stay, in a possibly different order; the
    clause and learnt lists are as before.  It never takes an entry off
    the trail, and a literal that had a value keeps it. *)
Theorem propagate_keeps_formula (fuel : nat) (s s' : Solver)
  (r : option nat) :
  propagate fuel s = Ok (s', r) →
  clauses s' = clauses s ∧ learnts s' = learnts s ∧
  length (heap s') = length (heap s) ∧
  (∀ cr C, heap s !! cr = Some C →
           ∃ C', heap s' !! cr = Some C' ∧ C' ≡ₚ C) ∧
  (∃ new, que s' = que s ++ new) ∧
  (∀ l e, eval s l = Ok e → e ≠ LitBool.Undefine → eval s' l = Ok e) ∧
  (∀ l e, lit_level s l = Some e → lit_level s' l = Some e).
Proof.
  intros H. apply propagated_propagate in H.
  destruct H as [H1 H2 H3 _ _ H4 H5 H6 H7].
  split; [exact H1|]. split; [exact H2|]. split; [exact H3|].
  split; [exact H4|]. split; [exact H5|]. split; [exact H6|exact H7].
Qed.

Lemma propagate_keeps_formula_sat :
  propagate 5 st_sat_decided = Ok (st_sat_propagated, None) ∧
  clauses st_sat_propagated = clauses st_sat_decided ∧
  learnts st_sat_propagated = learnts st_sat_decided ∧
  length (heap st_sat_propagated) = length (heap st_sat_decided) ∧
  (∀ cr C, heap st_sat_decided !! cr = Some C →
           ∃ C', heap st_sat_propagated !! cr = Some C' ∧ C' ≡ₚ C) ∧
  (∃ new, que st_sat_propagated = que st_sat_decided ++ new) ∧
  (∀ l e, eval st_sat_decided l = Ok e → e ≠ LitBool.Undefine →
          eval st_sat_propagated l = Ok e) ∧
  (∀ l e, lit_level st_sat_decided l = Some e →
          lit_level st_sat_propagated l = Some e).
Proof.
  assert (propagate 5 st_sat_decided = Ok (st_sat_propagated, None)) as H
    by (vm_compute; reflexivity).
  split; [exact H|].
  exact (propagate_keeps_formula 5 _ _ _ H).
Defined.

(** ** The conflict [propagate] reports *)

Lemma watch_loop_conflict (fuel : nat) (s : Solver) (lit : Lit.t) (i : nat)
  (s' : Solver) (cr : nat) :
  watch_loop fuel s lit i = Ok (s', Some cr) →
  ∃ C, heap s' !! cr = Some C ∧ C !! 1 = Some (Lit.not lit) ∧
       (∀ y, y ∈ C → eval s' y = Ok LitBool.False) ∧
       que_head s' = length (que s').
Proof.
  revert s i. induction fuel as [|fuel IH]; intros s i; simpl; [done|].
  intros H. apply bind_Ok in H as (ws & _ & H).
  case_decide as Hlt; [|done].
  apply bind_Ok in H as ([s1 o] & Hvisit & H).
  destruct o as [i'|cr']; [by apply (IH s1 i')|].
  injection H as <- <-.
  apply visit_Ok in Hvisit
    as (ws' & cr & C & c0 & c1 & first & ef & Hl & Hws & Hi & HC & H0 & H1 &
        Hn1 & Hn0 & Hnlit & Hef & Hcases).
  set (C1 := normalized C c0 c1 (Lit.not lit)) in *.
  destruct Hcases as [(_ & _ & [=])|[(_ & Hmove)|[(-> & Hall & -> & [= <-])|
                      (_ & _ & _ & [=])]]].
  { by destruct Hmove as (? & ? & ? & ? & _ & _ & _ & _ & _ & _ & _ & [=]). }
  exists C1. simpl. split.
  { apply list_lookup_insert_eq. by eapply lookup_lt_Some. }
  split; [done|]. split; [|done].
  intros y Hy. rewrite (eval_ext s) by done.
  apply list_elem_of_lookup in Hy as [j Hj].
  destruct j as [|[|j]].
  - congruence.
  - congruence.
  - apply Hall. apply list_elem_of_lookup. exists j. by rewrite lookup_drop.
Qed.

Lemma propagate_conflict (fuel : nat) (s s' : Solver) (cr : nat) :
  propagate fuel s = Ok (s', Some cr) →
  ∃ C, heap s' !! cr = Some C ∧
       (∀ y, y ∈ C → eval s' y = Ok LitBool.False) ∧
       que_head s' = length (que s').
Proof.
  revert s. induction fuel as [|fuel IH]; intros s; [done|].
  cbn [propagate]. case_decide as Hlt; [|done].
  intros H. apply bind_Ok in H as (lit & _ & H).
  apply bind_Ok in H as ([s2 r2] & Hloop & H).
  destruct r2 as [cr2|]; [|by apply (IH s2)].
  injection H as <- <-.
  apply watch_loop_conflict in Hloop as (C & HC & _ & Hall & Hhead).
  by exists C.
Qed.

(** The clause [propagate] returns as the conflict is a clause of the
    database that is falsified: every one of its literals evaluates to
    False in the state that is returned, the negation of each stands on
    the trail, and the cursor is at the end of the trail. *)
Theorem propagate_conflict_falsified (fuel : nat) (s s' : Solver)
  (cr : nat) :
  reachable s → propagate fuel s = Ok (s', Some cr) →
  cr ∈ clauses s' ∧
  ∃ C, heap s' !! cr = Some C ∧ 2 ≤ length C ∧
       (∀ y, y ∈ C → eval s' y = Ok LitBool.False ∧ Lit.not y ∈ que s') ∧
       que_head s' = length (que s').
Proof.
  intros Hs Hprop.
  assert (reachable s') as Hs' by (by eapply reach_propagate).
  apply reachable_inv in Hs' as [Ht Hw _].
  apply propagate_conflict in Hprop as (C & HC & Hall & Hhead).
  split.
  { rewrite (wi_clauses _ Hw). apply elem_of_seq.
    apply lookup_lt_Some in HC. lia. }
  exists C. split; [done|]. split; [by apply (wi_size _ Hw cr)|].
  split; [|done]. intros y Hy. split; [by apply Hall|].
  destruct (false_on_trail s' y Ht (Hall y Hy)) as [i Hi].
  by eapply list_elem_of_lookup_2.
Qed.

Lemma st_conflict_decided_reachable : reachable st_conflict_decided.
Proof.
  apply (reach_new_decision
           (mkSolver [false; false] None
              [[xp 0; xp 1]; [xn 0; xp 1]; [xp 0; xn 1]; [xn 0; xn 1]]
              [0; 1; 2; 3] []
              [[1; 3]; [0; 2]; [2; 3]; [0; 1]]
              [None; None] [None; None] [] 0) (xn 0));
    [|vm_compute; reflexivity].
  apply (reachable_adds
           [[xp 0; xp 1]; [xn 0; xp 1]; [xp 0; xn 1]; [xn 0; xn 1]]
           (new_solver 2)); [apply reach_new|].
  vm_compute. reflexivity.
Qed.

Lemma propagate_conflict_falsified_x :
  reachable st_conflict_decided ∧
  propagate 10 st_conflict_decided = Ok (st_conflict, Some 2) ∧
  2 ∈ clauses st_conflict ∧
  ∃ C, heap st_conflict !! 2 = Some C ∧ 2 ≤ length C ∧
       (∀ y, y ∈ C → eval st_conflict y = Ok LitBool.False ∧
                     Lit.not y ∈ que st_conflict) ∧
       que_head st_conflict = length (que st_conflict).
Proof.
  assert (propagate 10 st_conflict_decided = Ok (st_conflict, Some 2)) as H
    by (vm_compute; reflexivity).
  split; [exact st_conflict_decided_reachable|]. split; [exact H|].
  exact (propagate_conflict_falsified 10 _ _ _ st_conflict_decided_reachable
                                      H).
Defined.

(** ** Watched literals during the search *)

Lemma queued_frame (s s' : Solver) (l : Lit.t) :
  que s' = que s → que_head s' = que_head s → queued s l → queued s' l.
Proof. unfold queued. intros -> ->. done. Qed.

Lemma live_frame (s s' : Solver) (w : Lit.t) :
  levels s' = levels s → assings s' = assings s →
  que s' = que s → que_head s' = que_head s →
  live s w → live s' w.
Proof.
  intros Hl Ha Hq Hh [Hw|Hw].
  - left. rewrite (eval_ext s s'); [done|congruence..].
  - right. by apply (queued_frame s).
Qed.

Lemma has_live_watch_frame (s s' : Solver) (C : list Lit.t) :
  levels s' = levels s → assings s' = assings s →
  que s' = que s → que_head s' = que_head s →
  has_live_watch s C → has_live_watch s' C.
Proof.
  intros Hl Ha Hq Hh (j & w & Hj & Hw & Hlive).
  exists j, w. split; [done|]. split; [done|]. by apply (live_frame s).
Qed.

(** An assignment keeps the watched literals live: the literal it makes
    False has its negation queued. *)
Lemma live_assigned (s : Solver) (lit : Lit.t) (d : Z) (reason : option nat)
  (w : Lit.t) :
  (0 ≤ Lit.vidx lit)%Z → levels s !! vnat lit = Some None →
  vnat lit < length (assings s) → vnat lit < length (reasons s) →
  que_head s ≤ length (que s) →
  live s w → live (assigned_state s lit d reason) w.
Proof.
  intros Hv Hl Ha Hr Hhead Hlive.
  destruct (assigned_state_effect s lit d d reason Hv Hl Ha Hr)
    as (_ & Htrue & _ & Hother & Hque & _).
  destruct Hlive as [Hw|(p & Hp & Hq)].
  - destruct (eval (assigned_state s lit d reason) w) as [[| |]|er]
      eqn:Hfalse;
      [left; unfold assigned_state in *; rewrite Hfalse; discriminate|
      |left; unfold assigned_state in *; rewrite Hfalse; discriminate..].
    right. destruct (decide (Lit.var w = Lit.var lit)) as [Hvar|Hvar].
    + destruct (lit_same_var w lit Hvar) as [->| ->]; [congruence|].
      rewrite lit_not_not. exists (length (que s)). split; [done|].
      simpl. by rewrite lookup_app_r, Nat.sub_diag by lia.
    + rewrite (Hother w Hvar) in Hfalse. done.
  - right. exists p. split; [done|]. simpl. by apply lookup_app_l_Some.
Qed.

Lemma has_live_watch_assigned (s : Solver) (lit : Lit.t) (d : Z)
  (reason : option nat) (C : list Lit.t) :
  (0 ≤ Lit.vidx lit)%Z → levels s !! vnat lit = Some None →
  vnat lit < length (assings s) → vnat lit < length (reasons s) →
  que_head s ≤ length (que s) →
  has_live_watch s C → has_live_watch (assigned_state s lit d reason) C.
Proof.
  intros Hv Hl Ha Hr Hhead (j & w & Hj & Hw & Hlive).
  exists j, w. split; [done|]. split; [done|]. by apply live_assigned.
Qed.

(** Where the handles of a watcher list are after
    [watcher\[i\] = watcher.back(); watcher.pop_back()]. *)
Lemma swap_pop_lookup (ws : list nat) (i k : nat) (w cr : nat) :
  last ws = Some w → i < k → ws !! k = Some cr →
  ∃ k', i ≤ k' ∧ removelast (<[i:=w]> ws) !! k' = Some cr.
Proof.
  intros Hlast Hik Hk.
  destruct ws as [|x ws _] using rev_ind; [done|].
  rewrite last_snoc in Hlast. injection Hlast as ->.
  assert (i < length ws) as Hi.
  { apply lookup_lt_Some in Hk. rewrite length_app in Hk. simpl in Hk. lia. }
  rewrite insert_app_l by done. rewrite removelast_snoc.
  apply lookup_app_Some in Hk as [Hk|[Hge Hk]].
  - exists k. split; [lia|]. rewrite list_lookup_insert_ne by lia. done.
  - destruct (k - length ws) as [|?] eqn:E; [|done].
    simpl in Hk. injection Hk as ->. exists i. split; [done|].
    by rewrite list_lookup_insert_eq.
Qed.

(** A clause found in the watcher list of [lit] watches the negation of
    [lit]. *)
Lemma watched_negation (s : Solver) (lit : Lit.t) (ws : list nat)
  (cr : nat) (C : list Lit.t) :
  watch_inv s → (0 ≤ Lit.lidx lit)%Z →
  watchers s !! lnat lit = Some ws → cr ∈ ws → heap s !! cr = Some C →
  ∃ j, j < 2 ∧ C !! j = Some (Lit.not lit).
Proof.
  intros Hw Hl Hws Hin HC.
  apply occ_pos in Hin. rewrite (wi_occ _ Hw cr C _ ws HC Hws) in Hin.
  unfold watched_by in Hin.
  destruct (C !! 0) as [c0|] eqn:H0; [|lia].
  destruct (C !! 1) as [c1|] eqn:H1; [|lia].
  destruct (wi_range _ Hw cr C 0 c0 HC) as [Hr0 _]; [lia|done|].
  destruct (wi_range _ Hw cr C 1 c1 HC) as [Hr1 _]; [lia|done|].
  unfold ind in Hin.
  destruct (decide (lnat lit = lnat (Lit.not c0))) as [E0|_].
  - exists 0. split; [lia|]. apply lnat_inj in E0; [|done..].
    by rewrite E0, lit_not_not.
  - destruct (decide (lnat lit = lnat (Lit.not c1))) as [E1|_]; [|lia].
    exists 1. split; [lia|]. apply lnat_inj in E1; [|done..].
    by rewrite E1, lit_not_not.
Qed.

(** A clause that watches the negation of [lit] is in the watcher list
    of [lit]. *)
Lemma watching_registered (s : Solver) (lit : Lit.t) (cr : nat)
  (C : list Lit.t) (j : nat) :
  watch_inv s → heap s !! cr = Some C → j < 2 →
  C !! j = Some (Lit.not lit) →
  ∃ ws k, watchers s !! lnat lit = Some ws ∧ ws !! k = Some cr.
Proof.
  intros Hw HC Hj Hjl.
  destruct (wi_range _ Hw cr C j _ HC Hj Hjl) as [Hr Hlt].
  rewrite lit_not_not in Hr, Hlt.
  destruct (lookup_lt_is_Some_2 _ _ Hlt) as [ws Hws].
  exists ws.
  cut (cr ∈ ws).
  { intros [k Hk]%list_elem_of_lookup. by exists k. }
  apply occ_pos.
  rewrite (wi_occ _ Hw cr C _ ws HC Hws). unfold watched_by.
  pose proof (wi_size _ Hw cr C HC) as Hlen.
  destruct (lookup_lt_is_Some_2 C 0) as [c0 H0]; [lia|].
  destruct (lookup_lt_is_Some_2 C 1) as [c1 H1]; [lia|].
  rewrite H0, H1. unfold ind.
  destruct j as [|[|j]]; [| |lia].
  - assert (c0 = Lit.not lit) as -> by congruence.
    rewrite lit_not_not. rewrite decide_True by done. lia.
  - assert (c1 = Lit.not lit) as -> by congruence.
    rewrite lit_not_not.
    rewrite (decide_True (P := lnat lit = lnat lit)) by done. lia.
Qed.

Lemma lit_level_frame (s s' : Solver) (l : Lit.t) :
  levels s' = levels s → lit_level s' l = lit_level s l.
Proof. intros H. unfold lit_level, var_level. by rewrite H. Qed.

(** ** One visit inside [propagate] *)

Lemma visiting_visit (s : Solver) (lit : Lit.t) (i : nat) (d : Z)
  (s' : Solver) (o : Outcome) :
  visiting s lit i d → visit s lit i = Ok (s', o) →
  match o with
  | Next i' => visiting s' lit i' d
  | Conflict _ => conflicting s' d
  end.
Proof.
  intros [Hinv Hsz Hhead Hlevel Hlit Hqueued Hlive] Hvisit.
  pose proof (solver_inv_visit _ _ _ _ _ Hinv Hvisit) as Hinv'.
  pose proof (propagated_visit _ _ _ _ _ Hvisit) as Hpg.
  assert (length (watchers s') = 2 * length (levels s')) as Hsz'.
  { by rewrite (pg_watchers_length _ _ Hpg), (pg_levels_length _ _ Hpg). }
  apply visit_Ok in Hvisit
    as (ws & cr & C & c0 & c1 & first & ef & Hl & Hws & Hi & HC & H0 & H1 &
        Hn1 & Hn0 & Hnlit & Hef & Hcases).
  set (C1 := normalized C c0 c1 (Lit.not lit)) in *.
  assert (heap (store s cr C1) !! cr = Some C1) as HC1.
  { simpl. apply list_lookup_insert_eq. by eapply lookup_lt_Some. }
  assert (∀ cr' C', cr' ≠ cr → heap s !! cr' = Some C' →
            has_live_watch s C' ∨ ∃ k, S i ≤ k ∧ ws !! k = Some cr') as Hwait.
  { intros cr' C' Hne HC'.
    destruct (Hlive cr' C' HC') as [Hlv|(ws' & k & Hws' & Hk & Hcr')];
      [by left|].
    right. assert (ws' = ws) as -> by congruence. exists k. split; [|done].
    destruct (decide (k = i)) as [->|]; [congruence|lia]. }
  destruct Hcases as [(-> & -> & ->)|[(Hne & Hmove)|[(-> & Hall & -> & ->)|
                      (-> & Hall & Henq & ->)]]].
  - (* the other watched literal is True *)
    split.
    + done.
    + done.
    + done.
    + by rewrite (decision_level_ext s).
    + by rewrite (lit_level_frame s).
    + intros l Hq. rewrite (lit_level_frame s) by done.
      by apply Hqueued.
    + intros cr' C' HC'. destruct (decide (cr' = cr)) as [->|Hne].
      * left. assert (C' = C1) as -> by congruence.
        exists 0, first. split; [lia|]. split; [done|]. left.
        rewrite (eval_ext s) by done. rewrite Hef. discriminate.
      * simpl in HC'. rewrite list_lookup_insert_ne in HC' by done.
        destruct (Hwait cr' C' Hne HC') as [Hlv|(k & Hk & Hcr')].
        -- left. by apply (has_live_watch_frame s).
        -- right. exists ws, k. split; [done|]. split; [lia|done].
  - (* a new literal to watch *)
    destruct Hmove as (k & ck & e & w & Hk & Hck & He & HeF & Hlast & Hlt &
                       Hpush & ->).
    apply push_watcher_Ok in Hpush as (Hnck & w0 & Hw0 & ->).
    assert (lnat (Lit.not ck) ≠ lnat lit) as Hslot.
    { intros Heq. apply lnat_inj in Heq; [|done..].
      assert (ck = Lit.not lit) as -> by (by rewrite <- Heq, lit_not_not).
      rewrite Hnlit in He. injection He as <-. done. }
    split.
    + done.
    + done.
    + done.
    + by rewrite (decision_level_ext s).
    + by rewrite (lit_level_frame s).
    + intros l Hq. rewrite (lit_level_frame s) by done.
      by apply Hqueued.
    + intros cr' C' HC'. simpl in HC'.
      destruct (decide (cr' = cr)) as [->|Hne'].
      * left. rewrite list_lookup_insert_eq in HC'
          by (rewrite length_insert; by eapply lookup_lt_Some).
        injection HC' as <-. exists 1, ck. split; [lia|]. split.
        { rewrite list_lookup_insert_ne by lia.
          apply list_lookup_insert_eq. by eapply lookup_lt_Some. }
        left. rewrite (eval_ext s) by done. rewrite He. congruence.
      * rewrite !list_lookup_insert_ne in HC' by done.
        destruct (Hwait cr' C' Hne' HC') as [Hlv|(k' & Hk' & Hcr')].
        -- left. by apply (has_live_watch_frame s).
        -- right. destruct (swap_pop_lookup ws i k' w cr' Hlast) as
             (k'' & Hk'' & Hcr''); [lia|done|].
           exists (removelast (<[i:=w]> ws)), k''. split; [|done].
           simpl. unfold lnat in *.
           rewrite list_lookup_insert_ne by done.
           apply list_lookup_insert_eq. by eapply lookup_lt_Some.
  - (* every literal is False *)
    split.
    + done.
    + done.
    + done.
    + by rewrite (decision_level_ext s).
    + intros cr' C' HC'. destruct (decide (cr' = cr)) as [->|Hne].
      * assert (C' = C1) as -> by (simpl in *; congruence).
        exists 1, (Lit.not lit). split; [lia|]. split; [done|]. right.
        rewrite (lit_level_frame s) by done. by rewrite lit_level_not.
      * simpl in HC'. rewrite list_lookup_insert_ne in HC' by done.
        destruct (Hlive cr' C' HC') as [(j & w & Hj & Hw & Hlv)|
                                        (ws' & k & Hws' & Hk & Hcr')].
        -- exists j, w. split; [done|]. split; [done|].
           destruct Hlv as [Hnf|Hq].
           ++ left. by rewrite (eval_ext s).
           ++ right. rewrite (lit_level_frame s) by done.
              rewrite <- lit_level_not. by apply Hqueued.
        -- destruct (watched_negation s lit ws' cr' C' (si_watch _ Hinv)
                                      Hl Hws')
             as (j & Hj & Hjl); [by eapply list_elem_of_lookup_2|done|].
           exists j, (Lit.not lit). split; [done|]. split; [done|]. right.
           rewrite (lit_level_frame s) by done. by rewrite lit_level_not.
  - (* unit propagation *)
    apply enqueue_Ok in Henq as (Hv & Hlv & Ha & Hr & d' & Hd' & ->).
    rewrite (decision_level_ext s) in Hd' by done.
    assert (d' = d) as -> by congruence.
    destruct (assigned_state_effect (store s cr C1) first d d (Some cr)
                                    Hv Hlv Ha Hr)
      as (_ & Htrue & _ & _ & Hque & _ & Hdl & Hfl).
    pose proof (propagated_assigned (store s cr C1) first d (Some cr) Hv Hlv)
      as Hpa.
    split.
    + done.
    + done.
    + simpl. rewrite length_app. simpl. lia.
    + done.
    + apply (pg_level _ _ Hpa). by rewrite (lit_level_frame s).
    + intros l (p & Hp & Hq). simpl in Hp, Hq.
      apply lookup_app_Some in Hq as [Hq|[Hge Hq]].
      * apply (pg_level _ _ Hpa). rewrite (lit_level_frame s) by done.
        apply Hqueued. by exists p.
      * destruct (p - length (que s)) as [|?]; [|done].
        simpl in Hq. by injection Hq as <-.
    + intros cr' C' HC'. destruct (decide (cr' = cr)) as [->|Hne].
      * left. assert (C' = C1) as -> by (simpl in *; congruence).
        exists 0, first. split; [lia|]. split; [done|]. left.
        unfold assigned_state in *. rewrite Htrue. discriminate.
      * simpl in HC'. rewrite list_lookup_insert_ne in HC' by done.
        destruct (Hwait cr' C' Hne HC') as [Hlive'|(k & Hk & Hcr')].
        -- left. by apply has_live_watch_assigned.
        -- right. exists ws, k. split; [done|]. split; [lia|done].
Qed.

Lemma visiting_watch_loop (fuel : nat) (s : Solver) (lit : Lit.t) (i : nat)
  (d : Z) (s' : Solver) (r : option nat) :
  visiting s lit i d → watch_loop fuel s lit i = Ok (s', r) →
  match r with
  | None => search_inv s' ∧ decision_level s' = Ok d
  | Some _ => conflicting s' d
  end.
Proof.
  revert s i. induction fuel as [|fuel IH]; intros s i Hvis; simpl; [done|].
  intros H. apply bind_Ok in H as (ws & Hws & H).
  apply at_z_Ok in Hws as [Hl Hws]. fold (lnat lit) in Hws.
  case_decide as Hlt.
  - apply bind_Ok in H as ([s1 o] & Hvisit & H).
    pose proof (visiting_visit _ _ _ _ _ _ Hvis Hvisit) as Hnext.
    destruct o as [i'|cr].
    + by apply (IH s1 i').
    + by injection H as <- <-.
  - injection H as <- <-. destruct Hvis as [Hinv Hsz Hhead Hlevel _ Hq Hlive].
    split; [|done]. split; try done.
    + intros l d0 Hl0 Hd0. assert (d0 = d) as -> by congruence.
      by apply Hq.
    + intros cr C HC.
      destruct (Hlive cr C HC) as [Hlv|(ws' & k & Hws' & Hk & Hcr)]; [done|].
      assert (ws' = ws) as -> by congruence.
      apply lookup_lt_Some in Hcr. lia.
Qed.

(** ** A run of [propagate] *)

Lemma search_inv_propagate (fuel : nat) (s s' : Solver) (r : option nat) :
  search_inv s → propagate fuel s = Ok (s', r) →
  match r with
  | None => search_inv s' ∧ que_head s' = length (que s')
  | Some _ => ∃ d, conflicting s' d
  end.
Proof.
  revert s. induction fuel as [|fuel IH]; intros s Hs; [done|].
  cbn [propagate]. case_decide as Hlt.
  - intros H. apply bind_Ok in H as (lit & Hlit & H). apply at_Ok in Hlit.
    apply bind_Ok in H as ([s2 r2] & Hloop & H).
    destruct Hs as [Hinv Hsz Hhead Hq Hlive].
    destruct (decision_level_total s (si_trail _ Hinv)) as [d Hd].
    assert (visiting (set_que_head s (que_head s + 1)) lit 0 d) as Hvis.
    { split.
      - by apply solver_inv_set_que_head.
      - done.
      - simpl. lia.
      - by rewrite (decision_level_ext s).
      - rewrite (lit_level_frame s) by done. apply Hq; [|done].
        by exists (que_head s).
      - intros l (p & Hp & Hl). simpl in Hp, Hl.
        rewrite (lit_level_frame s) by done. apply Hq; [|done].
        exists p. split; [lia|done].
      - intros cr C HC. simpl in HC.
        destruct (Hlive cr C HC) as (j & w & Hj & Hw & [Hnf|(p & Hp & Hl)]).
        + left. exists j, w. split; [done|]. split; [done|]. by left.
        + destruct (decide (p = que_head s)) as [->|Hne].
          * right. assert (w = Lit.not lit) as ->.
            { rewrite <- (lit_not_not w). congruence. }
            destruct (watching_registered s lit cr C j (si_watch _ Hinv)
                                          HC Hj Hw) as (ws & k & Hws & Hk).
            exists ws, k. split; [done|]. split; [lia|done].
          * left. exists j, w. split; [done|]. split; [done|]. right.
            exists p. simpl. split; [lia|done]. }
    pose proof (visiting_watch_loop _ _ _ _ _ _ _ Hvis Hloop) as Hres.
    destruct r2 as [cr|].
    + injection H as <- <-. by exists d.
    + destruct Hres as [Hs2 _]. by apply (IH s2).
  - intros [= <- <-]. split; [done|]. pose proof (sr_head _ Hs). lia.
Qed.

(** ** Decisions *)

Lemma search_inv_assigned (s : Solver) (l : Lit.t) (d d' : Z)
  (reason : option nat) :
  search_inv s → solver_inv (assigned_state s l d' reason) →
  (0 ≤ Lit.vidx l)%Z → levels s !! vnat l = Some None →
  vnat l < length (assings s) → vnat l < length (reasons s) →
  decision_level s = Ok d →
  (d' = d ∨ que_head s = length (que s)) →
  search_inv (assigned_state s l d' reason).
Proof.
  intros [Hinv Hsz Hhead Hq Hlive] Hinv' Hv Hl Ha Hr Hd Hcase.
  destruct (assigned_state_effect s l d d' reason Hv Hl Ha Hr)
    as (_ & Htrue & _ & _ & Hque & _ & Hdl & Hfl).
  pose proof (propagated_assigned s l d' reason Hv Hl) as Hpa.
  split.
  - done.
  - simpl. by rewrite length_insert.
  - simpl. rewrite length_app. simpl. lia.
  - intros y d0 (p & Hp & Hy) Hd0.
    assert (d0 = d') as -> by (unfold assigned_state in *; congruence).
    simpl in Hp, Hy. apply lookup_app_Some in Hy as [Hy|[Hge Hy]].
    + destruct Hcase as [->|Hfull].
      * apply (pg_level _ _ Hpa). apply Hq; [|done]. by exists p.
      * apply lookup_lt_Some in Hy. lia.
    + destruct (p - length (que s)) as [|?]; [|done].
      simpl in Hy. by injection Hy as <-.
  - intros cr C HC. apply has_live_watch_assigned; try done.
    by apply (Hlive cr).
Qed.

Lemma search_inv_new_decision (s : Solver) (l : Lit.t) (s' : Solver) :
  search_inv s → que_head s = length (que s) →
  new_decision s l None = Ok s' → search_inv s' ∧ propagated s s'.
Proof.
  intros Hs Hfull Hdec.
  assert (solver_inv s') as Hinv'.
  { eapply solver_inv_enqueue_decision; [apply Hs|]. by right. }
  apply new_decision_Ok in Hdec as (Hv & Hl & Ha & Hr & d & Hd & ->).
  split; [|by apply propagated_assigned].
  apply (search_inv_assigned s l d); try done. by right.
Qed.

Lemma search_inv_enqueue (s : Solver) (l : Lit.t) (reason : option nat)
  (s' : Solver) :
  search_inv s → solver_inv s' → enqueue s l reason = Ok s' →
  search_inv s' ∧ propagated s s'.
Proof.
  intros Hs Hinv' Henq.
  apply enqueue_Ok in Henq as (Hv & Hl & Ha & Hr & d & Hd & ->).
  split; [|by apply propagated_assigned].
  apply (search_inv_assigned s l d); try done. by left.
Qed.

(** ** What the search keeps *)

Lemma persists_refl (s : Solver) : persists s s.
Proof. split; [|done]. intros cr C HC. by exists C. Qed.

Lemma persists_trans (s1 s2 s3 : Solver) :
  persists s1 s2 → persists s2 s3 → persists s1 s3.
Proof.
  intros [A1 A2] [B1 B2]. split.
  - intros cr C HC. destruct (A1 cr C HC) as (C' & HC' & Hp).
    destruct (B1 cr C' HC') as (C'' & HC'' & Hp'). exists C''.
    split; [done|]. by rewrite Hp'.
  - intros l Hl H0. destruct (A2 l Hl H0) as [Hl2 H02]. by apply B2.
Qed.

Lemma propagated_persists (s s' : Solver) : propagated s s' → persists s s'.
Proof.
  intros Hpg. split; [apply (pg_heap _ _ Hpg)|].
  intros l Hl H0. split; [|by apply (pg_level _ _ Hpg)].
  destruct (pg_trail _ _ Hpg) as [new ->]. set_solver.
Qed.

Lemma recorded_persists (s s' : Solver) (c : list Lit.t) :
  persists s s' → recorded s c → recorded s' c.
Proof.
  intros [Hheap Hroot] [(cr & C & HC & Hp)|(l & -> & Hl & H0)].
  - left. destruct (Hheap cr C HC) as (C' & HC' & Hp'). exists cr, C'.
    split; [done|]. by rewrite Hp'.
  - right. exists l. split; [done|]. by apply Hroot.
Qed.

(** ** The backjump level *)

Lemma account_below (s : Solver) (level : Z) (f : Frontier) (lit : Lit.t)
  (f' : Frontier) :
  account s level f lit = Ok f' →
  Forall (below s level) (learnt_clause f) →
  Forall (below s level) (learnt_clause f').
Proof.
  unfold account. intros H Hf. apply bind_Ok in H as (lv & Hlv & H).
  apply at_z_Ok in Hlv as [_ Hlv].
  injection H as <-. destruct (opt_lt lv level) eqn:Hlt; simpl; [|done].
  apply Forall_app. split; [done|]. apply Forall_singleton. by exists lv.
Qed.

Lemma seed_below (s : Solver) (level : Z) (lits : list Lit.t)
  (f f' : Frontier) :
  seed s level lits f = Ok f' →
  Forall (below s level) (learnt_clause f) →
  Forall (below s level) (learnt_clause f').
Proof.
  revert f. induction lits as [|l lits IH]; intros f; simpl.
  { by intros [= ->]. }
  intros H Hf. apply bind_Ok in H as (e & He & H).
  apply bind_Ok in H as ([] & _ & H).
  apply bind_Ok in H as (f1 & Hf1 & H).
  apply (IH f1); [done|]. by eapply account_below.
Qed.

Lemma resolve_below (s : Solver) (level : Z) (lits : list Lit.t)
  (f f' : Frontier) :
  resolve s level lits f = Ok f' →
  Forall (below s level) (learnt_clause f) →
  Forall (below s level) (learnt_clause f').
Proof.
  revert f. induction lits as [|l lits IH]; intros f; simpl.
  { by intros [= ->]. }
  intros H Hf. case_decide as Hseen; [by apply (IH f)|].
  apply bind_Ok in H as (f1 & Hf1 & H).
  apply (IH f1); [done|]. by eapply account_below.
Qed.

Lemma walk_below (n : nat) (s : Solver) (level : Z) (f : Frontier)
  (uip : Lit.t) (f' : Frontier) :
  walk n s level f = Ok (uip, f') →
  Forall (below s level) (learnt_clause f) →
  Forall (below s level) (learnt_clause f').
Proof.
  revert f. induction n as [|i IH]; intros f; simpl; [done|].
  intros H Hf. apply bind_Ok in H as (lit & _ & H).
  case_decide as Hseen; [|by apply (IH f)].
  case_decide as Hcount.
  { by injection H as <- <-. }
  apply bind_Ok in H as (r & _ & H).
  apply bind_Ok in H as ([] & _ & H). destruct r as [reason|]; [|done].
  apply bind_Ok in H as (clause & _ & H).
  apply bind_Ok in H as (c0 & _ & H).
  apply bind_Ok in H as ([] & _ & H).
  apply bind_Ok in H as (f1 & Hf1 & H).
  apply (IH f1); [done|]. by eapply resolve_below.
Qed.

Lemma max_level_below (s : Solver) (lits : list Lit.t) (acc b level : Z) :
  max_level s lits acc = Ok b → (acc < level)%Z →
  Forall (below s level) lits → (b < level)%Z.
Proof.
  revert acc. induction lits as [|l lits IH]; intros acc; simpl.
  { intros [= ->]. done. }
  intros H Hacc Hall. apply Forall_cons in Hall as [(lv' & Hlv' & Hlt) Hall].
  apply bind_Ok in H as (lv & Hlv & H). apply at_z_Ok in Hlv as [_ Hlv].
  fold (vnat l) in Hlv. assert (lv' = lv) as -> by congruence.
  apply bind_Ok in H as ([] & _ & H). destruct lv as [e|]; [|done].
  simpl in Hlt. apply Z.ltb_lt in Hlt.
  apply (IH (Z.max acc e)); [done|lia|done].
Qed.

(** The level [analyze] returns is below the level of the conflict. *)
Lemma analyze_below (s : Solver) (conflict : nat) (L : list Lit.t) (b d : Z) :
  analyze s conflict = Ok (L, b) → decision_level s = Ok d → (0 < d)%Z →
  (b < d)%Z.
Proof.
  unfold analyze. intros H Hd Hpos. rewrite Hd in H. simpl in H.
  apply bind_Ok in H as (K & HK & H).
  apply bind_Ok in H as (f0 & Hseed & H).
  apply bind_Ok in H as ([] & _ & H).
  apply bind_Ok in H as ([uip f1] & Hwalk & H).
  apply bind_Ok in H as (L' & Hswap & H).
  apply bind_Ok in H as (b' & Hmax & H). injection H as -> ->.
  apply seed_below in Hseed; [|by constructor].
  apply walk_below in Hwalk; [|done].
  apply swap_ends_lookup in Hswap as (_ & _ & Htail).
  apply (max_level_below _ _ _ _ d) in Hmax; [done..|].
  apply Forall_forall. intros y Hy.
  apply list_elem_of_lookup in Hy as [j Hj]. rewrite lookup_drop in Hj.
  rewrite Forall_forall in Hwalk. apply Hwalk. apply (Htail (1 + j)); [lia|done].
Qed.

Lemma decision_level_nonneg (s : Solver) (d : Z) :
  trail_inv s → decision_level s = Ok d → (0 ≤ d)%Z.
Proof.
  intros Hinv Hd. rewrite (decision_level_last s d Hd).
  by destruct (level_steps_last_ge 0 _ (ti_steps _ Hinv)).
Qed.

(** ** Backjumping from a conflict *)

Lemma popped_state_eval (s : Solver) (keep popped : list Lit.t) (w : Lit.t)
  (e : LitBool.t) :
  eval (popped_state s keep popped) w = Ok e → e ≠ LitBool.Undefine →
  eval s w = Ok e.
Proof.
  intros He Hne. rewrite <- He. symmetry.
  apply eval_Ok in He as (Hv & lv & Hlv & He). simpl in Hlv.
  destruct lv as [d|]; [|done].
  apply eval_ext; [|done]. simpl.
  apply clear_slots_lookup_notin. intros l Hl Heq.
  assert (vnat l < length (levels s)) as Hlt.
  { rewrite <- Heq in Hlv. apply lookup_lt_Some in Hlv.
    by rewrite clear_slots_length in Hlv. }
  rewrite <- Heq, (clear_slots_lookup_in popped (levels s) l Hl Hlt) in Hlv.
  done.
Qed.

Lemma search_inv_backjump (s : Solver) (d b : Z) (s1 : Solver) :
  conflicting s d → (0 ≤ b < d)%Z → pop_queue_until s b = Ok s1 →
  search_inv s1 ∧ persists s s1.
Proof.
  intros [Hinv Hsz Hhead Hlevel Hlive] Hb Hpop.
  pose proof (solver_inv_pop_queue_until _ _ _ Hinv Hpop) as Hinv1.
  pose proof (si_trail _ Hinv) as Ht.
  pose proof (ti_nodup _ Ht) as Hnd.
  apply pop_queue_until_Ok in Hpop
    as (_ & keep & popped & Hsplit & -> & Hall & Hstop); [|done].
  rewrite Hsplit in Hnd.
  assert (Forall (fun y => vnat y < length (levels s) ∧
                           vnat y < length (reasons s)) popped) as Hrange.
  { eapply Forall_impl; [exact Hall|]. simpl.
    intros y (_ & Hyr & e & Hye & _). split; [|done].
    by eapply lookup_lt_Some. }
  assert (∀ l, l ∈ keep →
            levels (popped_state s keep popped) !! vnat l
            = levels s !! vnat l) as Hkeep.
  { intros l Hl.
    apply (popped_state_lookup_keep s keep popped (vnat l)).
    intros l' Hl'. by apply (NoDup_app_vnat_ne keep popped l l'). }
  (* the entries that are kept are not above the level [b] *)
  assert (∀ l, l ∈ keep → above s b l = false) as Hlow.
  { destruct (last keep) as [l0|] eqn:Hlast.
    - apply (trail_prefix_not_above s keep popped b l0 Ht Hsplit Hlast).
      destruct Hstop as (_ & lv & Hlv & Hgt). simpl in Hlv.
      rewrite Hkeep in Hlv by (by apply last_Some_elem_of).
      unfold above, var_level. by rewrite Hlv.
    - apply last_None in Hlast. subst keep. set_solver. }
  split; [split|split].
  - done.
  - simpl. by rewrite clear_slots_length.
  - simpl. lia.
  - intros l d0 (p & Hp & Hl) Hd0. simpl in Hp, Hl.
    assert (last keep = Some l) as Hlast.
    { rewrite last_lookup.
      apply lookup_lt_Some in Hl as Hlt.
      by replace (Nat.pred (length keep)) with p by lia. }
    destruct (trail_level_Some _ l (si_trail _ Hinv1)) as [e He].
    { simpl. by apply last_Some_elem_of. }
    rewrite He. f_equal.
    apply decision_level_Ok in Hd0. simpl in Hd0. rewrite Hlast in Hd0.
    destruct Hd0 as (_ & lv & Hlv & ->).
    unfold lit_level, var_level in He. simpl in He. rewrite Hlv in He.
    simpl in He. by subst lv.
  - intros cr C HC. simpl in HC.
    destruct (Hlive cr C HC) as (j & w & Hj & Hw & Hcase).
    exists j, w. split; [done|]. split; [done|]. left.
    intros Hfalse.
    pose proof (popped_state_eval s keep popped w _ Hfalse) as Hfalse'.
    destruct Hcase as [Hnf|Hd]; [by apply Hnf, Hfalse'|].
    (* a variable of level [d] has been popped *)
    apply eval_Ok in Hfalse as (_ & lv & Hlv & Hval). simpl in Hlv.
    unfold lit_level, var_level in Hd.
    destruct (levels s !! vnat w) as [[e|]|] eqn:Hlw; simplify_eq/=.
    destruct (ti_trail _ Ht (vnat w) d Hlw) as (l & Hl & Hvl).
    rewrite Hsplit in Hl. apply elem_of_app in Hl as [Hl|Hl].
    + specialize (Hlow l Hl). unfold above, var_level in Hlow.
      rewrite Hvl, Hlw in Hlow. simpl in Hlow.
      apply Z.ltb_ge in Hlow. lia.
    + rewrite <- Hvl in Hlv.
      rewrite (clear_slots_lookup_in popped (levels s) l Hl) in Hlv.
      * injection Hlv as <-. done.
      * rewrite Hvl. by eapply lookup_lt_Some.
  - intros cr C HC. by exists C.
  - intros l Hl H0. rewrite Hsplit in Hl. simpl.
    apply elem_of_app in Hl as [Hl|Hl].
    + split; [done|]. unfold lit_level, var_level in *. simpl.
      by rewrite Hkeep.
    + rewrite Forall_forall in Hall.
      destruct (Hall l Hl) as (_ & _ & e & He & Hlt).
      unfold lit_level, var_level in H0. rewrite He in H0.
      simpl in H0. injection H0 as ->. lia.
Qed.

(** ** Attaching a clause *)

Lemma search_inv_attach (s : Solver) (C : list Lit.t) (learnt : bool)
  (s' : Solver) :
  search_inv s →
  attach_clause (set_heap s (heap s ++ [C])) (length (heap s)) learnt = Ok s' →
  has_live_watch s C →
  search_inv s' ∧ persists s s' ∧ heap s' !! length (heap s) = Some C ∧
  que_head s' = que_head s ∧ que s' = que s ∧ levels s' = levels s.
Proof.
  intros [Hinv Hsz Hhead Hq Hlive] Hattach HliveC.
  pose proof Hattach as Hattach'.
  apply solver_inv_attach_fresh in Hattach'
    as (Hinv' & Hheap & Has & Hlv & Hrs & Hque); [|done].
  apply attach_clause_Ok in Hattach
    as (_ & c0 & c1 & w0 & w1 & _ & _ & _ & _ & _ & _ & _ & _ & _ & Hws & _ &
        _ & _ & _ & Hqh).
  simpl in Hqh.
  assert (heap s' !! length (heap s) = Some C) as HC.
  { by rewrite Hheap, lookup_app_r, Nat.sub_diag by lia. }
  split; [split|].
  - done.
  - rewrite Hws, !length_insert, Hlv. done.
  - by rewrite Hqh, Hque.
  - intros l d Hl Hd. rewrite (lit_level_frame s) by done.
    apply Hq; [by apply (queued_frame s')|].
    by rewrite <- (decision_level_ext s s').
  - intros cr C' HC'. rewrite Hheap in HC'.
    apply lookup_app_Some in HC' as [HC'|[Hge HC']].
    + apply (has_live_watch_frame s); try done. by apply (Hlive cr).
    + destruct (cr - length (heap s)) as [|?]; [|done].
      simpl in HC'. injection HC' as <-.
      by apply (has_live_watch_frame s).
  - split; [|done]. split.
    + intros cr C' HC'. exists C'. split; [|done].
      rewrite Hheap. by apply lookup_app_l_Some.
    + intros l Hl H0. rewrite Hque. split; [done|].
      by rewrite (lit_level_frame s).
Qed.

(** ** Learning from a conflict *)

Lemma search_inv_learn (s : Solver) (d : Z) (cr : nat) (s' : Solver) :
  conflicting s d → d ≠ 0%Z → learn s cr = Ok s' →
  search_inv s' ∧ persists s s'.
Proof.
  intros Hcf Hd0 Hlearn.
  pose proof (solver_inv_learn s cr s' (cf_inv _ _ Hcf) Hlearn) as Hinv'.
  pose proof (decision_level_nonneg s d (si_trail _ (cf_inv _ _ Hcf))
                                    (cf_level _ _ Hcf)) as Hd.
  unfold learn in Hlearn.
  apply bind_Ok in Hlearn as ([L b] & Hanalyze & H).
  apply bind_Ok in H as (s1 & Hpop & H).
  pose proof (analyze_below s cr L b d Hanalyze (cf_level _ _ Hcf)) as Hb.
  apply analyze_Ok in Hanalyze as (uip & _ & Hhead & Hb0 & _);
    [|apply (cf_inv _ _ Hcf)].
  destruct (search_inv_backjump s d b s1 Hcf) as [Hs1 Hp1]; [lia|done|].
  case_decide as Hlen.
  - apply bind_Ok in H as (l0 & _ & H).
    destruct (search_inv_enqueue s1 l0 None s' Hs1 Hinv' H) as [Hs' Hpg].
    split; [done|]. eapply persists_trans; [exact Hp1|].
    by apply propagated_persists.
  - unfold make_shared in H.
    apply bind_Ok in H as (s3 & Hattach & H).
    apply bind_Ok in H as (l0 & Hl0 & H). apply at_Ok in Hl0.
    assert (has_live_watch s1 L) as HliveL.
    { exists 0, l0. split; [lia|]. split; [done|]. left.
      apply attach_clause_Ok in Hattach
        as (_ & _ & _ & _ & _ & _ & _ & _ & _ & _ & _ & _ & _ & _ & _ & Has &
            Hlv & _).
      simpl in Has, Hlv.
      apply enqueue_Ok in H as (Hv & Hl & _).
      rewrite Hlv in Hl. intros Hfalse.
      apply eval_Ok in Hfalse as (_ & lv & Hlv' & Hval).
      rewrite Hl in Hlv'. injection Hlv' as <-. done. }
    destruct (search_inv_attach s1 L true s3 Hs1 Hattach HliveL)
      as (Hs3 & Hp3 & _).
    destruct (search_inv_enqueue s3 l0 _ s' Hs3 Hinv' H) as [Hs' Hpg].
    split; [done|]. eapply persists_trans; [exact Hp1|].
    eapply persists_trans; [exact Hp3|].
    by apply propagated_persists.
Qed.

(** ** One iteration of [solve] *)

Lemma search_inv_solve_step (fuel : nat) (s s' : Solver)
  (r : option Status) :
  search_inv s → solve_step fuel s = Ok (s', r) →
  persists s s' ∧
  match r with
  | None => search_inv s'
  | Some Sat =>
      search_inv s' ∧ que_head s' = length (que s') ∧
      ∀ v, v < length (levels s') → ∃ d, levels s' !! v = Some (Some d)
  | Some _ => True
  end.
Proof.
  intros Hs. unfold solve_step. intros H.
  apply bind_Ok in H as ([s1 conflict] & Hprop & H).
  pose proof (propagated_persists _ _ (propagated_propagate _ _ _ _ Hprop))
    as Hp1.
  pose proof (search_inv_propagate _ _ _ _ Hs Hprop) as Hres.
  destruct conflict as [cr|].
  - destruct Hres as [d Hcf].
    apply bind_Ok in H as (d' & Hd' & H).
    case_decide as Hzero.
    { injection H as <- <-. done. }
    apply bind_Ok in H as (s2 & Hlearn & H). injection H as <- <-.
    assert (d' = d) as -> by (pose proof (cf_level _ _ Hcf); congruence).
    destruct (search_inv_learn s1 d cr s2 Hcf Hzero Hlearn) as [Hs2 Hp2].
    split; [|done]. by eapply persists_trans.
  - destruct Hres as [Hs1 Hfull].
    apply bind_Ok in H as (next & Hnext & H).
    pose proof (ti_assings _ (si_trail _ (sr_inv _ Hs1))) as Hlen.
    destruct next as [l|].
    + apply bind_Ok in H as (s2 & Hdec & H). injection H as <- <-.
      destruct (search_inv_new_decision s1 l s2 Hs1 Hfull Hdec) as [Hs2 Hpg].
      split; [|done]. eapply persists_trans; [exact Hp1|].
      by apply propagated_persists.
    + injection H as <- <-. split; [done|]. split; [done|]. split; [done|].
      destruct (next_undef_spec s1 (length (assings s1)) 0)
        as [(u & a & _ & _ & _ & Hsome & _)|[_ Hall]];
        [simpl; lia|simpl; lia|congruence|].
      intros v Hv. apply Hall. simpl. lia.
Qed.

Lemma search_inv_solve (fuel : nat) (s s' : Solver) :
  search_inv s → solve fuel s = Ok (s', Sat) →
  persists s s' ∧ search_inv s' ∧ que_head s' = length (que s') ∧
  ∀ v, v < length (levels s') → ∃ d, levels s' !! v = Some (Some d).
Proof.
  revert s. induction fuel as [|fuel IH]; intros s Hs; [done|].
  cbn [solve]. intros H. apply bind_Ok in H as ([s1 r] & Hstep & H).
  destruct (search_inv_solve_step _ _ _ _ Hs Hstep) as [Hp Hres].
  destruct r as [st|].
  - injection H as <- ->. by destruct Hres as (? & ? & ?).
  - destruct (IH s1 Hres H) as (Hp' & Hrest).
    split; [by eapply persists_trans|done].
Qed.

(** ** Adding the clauses before the search *)

Lemma lit_level_new_var (s : Solver) (l : Lit.t) (e : Z) :
  lit_level s l = Some e → lit_level (new_var s) l = Some e.
Proof.
  unfold lit_level, var_level. simpl. intros H.
  destruct (levels s !! vnat l) as [lv|] eqn:Hl; [|done].
  by rewrite (lookup_app_l_Some _ _ _ _ Hl).
Qed.

Lemma decision_level_new_var (s : Solver) (d : Z) :
  decision_level s = Ok d → decision_level (new_var s) = Ok d.
Proof.
  intros Hd. apply decision_level_Ok. apply decision_level_Ok in Hd.
  simpl. destruct (last (que s)) as [l0|]; [|done].
  destruct Hd as (Hv & lv & Hlv & ->). split; [done|].
  exists lv. split; [|done]. by apply lookup_app_l_Some.
Qed.

Lemma search_inv_new_var (s : Solver) : search_inv s → search_inv (new_var s).
Proof.
  intros [Hinv Hsz Hhead Hq Hlive].
  pose proof (si_trail _ Hinv) as Ht.
  destruct (decision_level_total s Ht) as [d Hd].
  split.
  - by apply solver_inv_new_var.
  - simpl. rewrite !length_app. simpl. lia.
  - done.
  - intros l d0 Hl Hd0.
    rewrite (decision_level_new_var s d Hd) in Hd0. injection Hd0 as <-.
    apply lit_level_new_var. by apply Hq.
  - intros cr C HC. destruct (Hlive cr C HC) as (j & w & Hj & Hw & Hlv).
    exists j, w. split; [done|]. split; [done|].
    destruct Hlv as [Hnf|Hqd]; [|by right].
    left. intros Hfalse. apply Hnf.
    apply eval_Ok in Hfalse as (Hv & lv & Hlv & Hval). simpl in Hlv.
    destruct lv as [e|]; [|done]. destruct Hval as (a & Ha & ->).
    simpl in Ha.
    assert (vnat w < length (levels s)) as Hlt.
    { destruct (decide (vnat w < length (levels s))) as [|Hge]; [done|].
      rewrite lookup_app_r in Hlv by lia.
      destruct (vnat w - length (levels s)) as [|?]; done. }
    rewrite lookup_app_l in Hlv by done.
    rewrite lookup_app_l in Ha by (by rewrite (ti_assings _ Ht)).
    apply eval_Ok. split; [done|]. exists (Some e). split; [done|].
    by exists a.
Qed.

Lemma search_inv_grow (c : list Lit.t) (s : Solver) :
  search_inv s → search_inv (grow s c).
Proof.
  revert s. induction c as [|l c IH]; intros s Hs; [done|].
  rewrite grow_cons. apply IH. case_bool_decide; [|done].
  by apply search_inv_new_var.
Qed.

Lemma persists_grow (c : list Lit.t) (s : Solver) : persists s (grow s c).
Proof.
  revert s. induction c as [|l c IH]; intros s; [apply persists_refl|].
  rewrite grow_cons. eapply persists_trans; [|apply IH].
  case_bool_decide; [|apply persists_refl]. split.
  - intros cr C HC. by exists C.
  - intros y Hy H0. split; [done|]. by apply lit_level_new_var.
Qed.

Lemma loading_add_clause (s : Solver) (c : list Lit.t) (s' : Solver) :
  search_inv s → que_head s = 0 → decision_level s = Ok 0%Z →
  add_clause s c = Ok s' →
  search_inv s' ∧ que_head s' = 0 ∧ decision_level s' = Ok 0%Z ∧
  persists s s' ∧ recorded s' c.
Proof.
  intros Hs Hhead Hd Hadd.
  assert (solver_inv s') as Hinv'.
  { eapply solver_inv_add_clause; [apply Hs|done]. }
  unfold add_clause in Hadd.
  pose proof (search_inv_grow c s Hs) as Hs1.
  pose proof (persists_grow c s) as Hp1.
  destruct (grow_frame c s) as (_ & _ & _ & _ & Hqh & _ & Hdl).
  apply Hdl in Hd. rewrite <- Hqh in Hhead. clear Hqh Hdl.
  case_decide as Hlen.
  - apply bind_Ok in Hadd as (l & Hl & Hadd). apply at_Ok in Hl.
    assert (c = [l]) as ->.
    { destruct c as [|x [|y c]]; simpl in *; [done| |lia]. congruence. }
    destruct (search_inv_enqueue _ l None s' Hs1 Hinv' Hadd) as [Hs' Hpg].
    apply enqueue_Ok in Hadd as (Hv & Hlv & Ha & Hr & d & Hd' & ->).
    assert (d = 0%Z) as -> by congruence.
    destruct (assigned_state_effect _ l 0 0 None Hv Hlv Ha Hr)
      as (_ & _ & _ & _ & Hque & _ & Hdl & Hfl).
    split; [done|]. split; [done|]. split; [done|]. split.
    { eapply persists_trans; [exact Hp1|]. by apply propagated_persists. }
    right. exists l. split; [done|]. split; [|done].
    unfold assigned_state in *. rewrite Hque. set_solver.
  - unfold make_shared in Hadd.
    assert (has_live_watch (grow s c) c) as Hlive.
    { apply attach_clause_Ok in Hadd
        as (C & c0 & _ & _ & _ & HC & H0 & _).
      simpl in HC. rewrite lookup_app_r, Nat.sub_diag in HC by lia.
      injection HC as <-.
      exists 0, c0. split; [lia|]. split; [done|].
      destruct (eval (grow s c) c0) as [[| |]|er] eqn:He;
        [left; congruence| |left; congruence..].
      right. destruct (false_on_trail _ c0 (si_trail _ (sr_inv _ Hs1)) He)
        as [p Hp].
      exists p. split; [lia|done]. }
    destruct (search_inv_attach _ c false s' Hs1 Hadd Hlive)
      as (Hs' & Hp' & HC & Hqh & Hque & Hlv).
    split; [done|]. split; [congruence|]. split.
    { by rewrite (decision_level_ext (grow s c)). }
    split; [by eapply persists_trans|].
    left. exists (length (heap (grow s c))), c. done.
Qed.

Lemma loading_adds (cs : list (list Lit.t)) (s s' : Solver) :
  search_inv s → que_head s = 0 → decision_level s = Ok 0%Z →
  adds s cs = Ok s' →
  search_inv s' ∧ que_head s' = 0 ∧ decision_level s' = Ok 0%Z ∧
  ∀ c, c ∈ cs → recorded s' c.
Proof.
  unfold adds. revert s'. induction cs as [|c cs IH] using rev_ind;
    intros s' Hs Hhead Hd; simpl.
  { intros [= <-]. split; [done|]. split; [done|]. split; [done|].
    intros c Hc. by apply elem_of_nil in Hc. }
  rewrite foldl_app. simpl. intros H.
  apply bind_Ok in H as (s1 & H1 & H).
  destruct (IH s1 Hs Hhead Hd H1) as (Hs1 & Hhead1 & Hd1 & Hrec).
  destruct (loading_add_clause s1 c s' Hs1 Hhead1 Hd1 H)
    as (Hs' & Hhead' & Hd' & Hp & Hc).
  split; [done|]. split; [done|]. split; [done|].
  intros c' [Hc'|Hc']%elem_of_app.
  - eapply recorded_persists; [exact Hp|]. by apply Hrec.
  - apply list_elem_of_singleton in Hc'. by subst c'.
Qed.

Lemma search_inv_new_solver (n : nat) : search_inv (new_solver n).
Proof.
  split.
  - apply solver_inv_new_solver.
  - simpl. rewrite !length_replicate. done.
  - done.
  - intros l d (p & _ & Hp). done.
  - intros cr C HC. done.
Qed.

(** A watched literal is a literal of a variable of the solver. *)
Lemma watched_in_range (s : Solver) (cr : nat) (C : list Lit.t) (j : nat)
  (w : Lit.t) :
  watch_inv s → length (watchers s) = 2 * length (levels s) →
  heap s !! cr = Some C → j < 2 → C !! j = Some w →
  (0 ≤ Lit.vidx w)%Z ∧ vnat w < length (levels s).
Proof.
  intros Hw Hsz HC Hj Hjw.
  destruct (wi_range _ Hw cr C j w HC Hj Hjw) as [Hr Hlt].
  unfold Lit.lidx in Hr.
  assert (0 ≤ Lit.x w)%Z as Hx by (by apply lit_not_nonneg).
  assert (0 ≤ Lit.var w)%Z as Hv by (by apply lit_var_nonneg).
  split; [done|].
  unfold lnat, Lit.lidx in Hlt. rewrite Hsz in Hlt.
  pose proof (lit_x_decompose (Lit.not w)) as Hdec.
  rewrite lit_var_not in Hdec. unfold vnat, Lit.vidx.
  destruct (Lit.neg (Lit.not w)); lia.
Qed.

(** * The answers of [solve] *)

(** ** Assignments that satisfy the clauses *)

Lemma models_lit_not (M : Z → bool) (l : Lit.t) :
  models_lit M (Lit.not l) ↔ ¬ models_lit M l.
Proof.
  unfold models_lit. rewrite lit_var_not, lit_pos_not.
  destruct (M (Lit.var l)), (Lit.pos l); simpl; split; congruence.
Qed.

Lemma models_perm (M : Z → bool) (C C' : list Lit.t) :
  C ≡ₚ C' → models M C → models M C'.
Proof. intros Hp (l & Hl & Hm). exists l. by rewrite <- Hp. Qed.

Lemma models_app (M : Z → bool) (C C' : list Lit.t) :
  models M (C ++ C') ↔ models M C ∨ models M C'.
Proof.
  split.
  - intros (l & [Hl|Hl]%elem_of_app & Hm); [left|right]; by exists l.
  - intros [(l & Hl & Hm)|(l & Hl & Hm)]; exists l; split; try done;
      apply elem_of_app; auto.
Qed.

(** At level 0 a False literal is false under every assignment that the
    solver's clauses hold for. *)
Lemma root_false (M : Z → bool) (s : Solver) (y : Lit.t) :
  trail_inv s → entailed M s → decision_level s = Ok 0%Z →
  eval s y = Ok LitBool.False → ¬ models_lit M y.
Proof.
  intros Ht Hen Hd Hy. apply models_lit_not.
  destruct (false_on_trail s y Ht Hy) as [i Hi].
  apply list_elem_of_lookup_2 in Hi.
  apply (en_root _ _ Hen); [done|].
  destruct (trail_level_Some s _ Ht Hi) as [e He].
  destruct (trail_level_le_decision s _ e 0 Ht Hd Hi He).
  rewrite He. f_equal. lia.
Qed.

Lemma entailed_frame (M : Z → bool) (s s' : Solver) :
  que s' = que s → levels s' = levels s →
  (∀ cr C', heap s' !! cr = Some C' →
            ∃ C, heap s !! cr = Some C ∧ C ≡ₚ C') →
  entailed M s → entailed M s'.
Proof.
  intros Hq Hl Hheap [Hh Hr]. split.
  - intros cr C' HC'. destruct (Hheap cr C' HC') as (C & HC & Hp).
    eapply models_perm; [exact Hp|]. by apply (Hh cr).
  - intros l Hin H0. rewrite Hq in Hin.
    rewrite (lit_level_frame s) in H0 by done. by apply Hr.
Qed.

Lemma entailed_store (M : Z → bool) (s : Solver) (cr : nat)
  (C C1 : list Lit.t) :
  heap s !! cr = Some C → C1 ≡ₚ C → entailed M s →
  entailed M (store s cr C1).
Proof.
  intros HC Hp. apply entailed_frame; try done.
  intros cr' C' HC'. simpl in HC'.
  destruct (decide (cr' = cr)) as [->|Hne].
  - rewrite list_lookup_insert_eq in HC' by (by eapply lookup_lt_Some).
    injection HC' as <-. by exists C.
  - rewrite list_lookup_insert_ne in HC' by done. by exists C'.
Qed.

Lemma entailed_assigned (M : Z → bool) (s : Solver) (lit : Lit.t) (d : Z)
  (reason : option nat) :
  trail_inv s → entailed M s →
  (0 ≤ Lit.vidx lit)%Z → levels s !! vnat lit = Some None →
  (d = 0%Z → models_lit M lit) →
  entailed M (assigned_state s lit d reason).
Proof.
  intros Ht [Hh Hr] Hv Hl Hd. split; [done|].
  intros l Hin H0. simpl in Hin. apply elem_of_app in Hin as [Hin|Hin].
  - apply Hr; [done|].
    destruct (trail_inv_slot s l Ht Hin) as (_ & [e He] & _).
    unfold lit_level, var_level in *. simpl in H0.
    rewrite list_lookup_insert_ne in H0; [done|]. congruence.
  - apply list_elem_of_singleton in Hin. subst l. apply Hd.
    unfold lit_level, var_level in H0. simpl in H0.
    rewrite list_lookup_insert_eq in H0 by (by eapply lookup_lt_Some).
    simpl in H0. congruence.
Qed.

(** ** Propagation keeps what is entailed *)

Lemma entailed_visit (M : Z → bool) (s : Solver) (lit : Lit.t) (i : nat)
  (s' : Solver) (o : Outcome) :
  solver_inv s → entailed M s → visit s lit i = Ok (s', o) →
  entailed M s'.
Proof.
  intros Hinv Hen Hvisit.
  apply visit_Ok in Hvisit
    as (ws & cr & C & c0 & c1 & first & ef & Hl & Hws & Hi & HC & H0 & H1 &
        Hn1 & Hn0 & Hnlit & Hef & Hcases).
  set (C1 := normalized C c0 c1 (Lit.not lit)) in *.
  assert (C1 ≡ₚ C) as Hp1 by (by apply normalized_perm).
  pose proof (entailed_store M s cr C C1 HC Hp1 Hen) as Hen1.
  assert (heap (store s cr C1) !! cr = Some C1) as HC1.
  { simpl. apply list_lookup_insert_eq. by eapply lookup_lt_Some. }
  destruct Hcases as [(-> & -> & ->)|[(Hne & Hmove)|[(-> & Hall & -> & ->)|
                      (-> & Hall & Henq & ->)]]].
  - done.
  - destruct Hmove as (k & ck & e & w & Hk & Hck & He & HeF & Hlast & Hlt &
                       Hpush & ->).
    apply push_watcher_Ok in Hpush as (_ & w0 & _ & ->).
    eapply (entailed_frame M
              (store (store s cr C1) cr (<[k:=Lit.not lit]> (<[1:=ck]> C1))));
      [done|done| |].
    + intros cr' C' HC'. by exists C'.
    + apply (entailed_store M _ cr C1); [done| |done]. by apply swap_perm.
  - by apply (entailed_frame M (store s cr C1));
      [..|intros cr' C' HC'; by exists C'|].
  - apply enqueue_Ok in Henq as (Hv & Hlv & _ & _ & d & Hd & ->).
    apply entailed_assigned; try done.
    { apply (trail_inv_frame s); [done..|apply Hinv]. }
    intros ->. rewrite (decision_level_ext s) in Hd by done.
    destruct (en_heap _ _ Hen1 cr C1 HC1) as (l & Hin & Hm).
    apply list_elem_of_lookup in Hin as [j Hj].
    destruct j as [|[|j]].
    + congruence.
    + assert (l = Lit.not lit) as -> by congruence.
      by destruct (root_false M s _ (si_trail _ Hinv) Hen Hd Hnlit).
    + destruct (root_false M s l (si_trail _ Hinv) Hen Hd); [|done].
      apply Hall. apply list_elem_of_lookup. exists j.
      by rewrite lookup_drop.
Qed.

Lemma entailed_watch_loop (M : Z → bool) (fuel : nat) (s : Solver)
  (lit : Lit.t) (i : nat) (s' : Solver) (r : option nat) :
  solver_inv s → entailed M s → watch_loop fuel s lit i = Ok (s', r) →
  entailed M s'.
Proof.
  revert s i. induction fuel as [|fuel IH]; intros s i Hinv Hen; simpl;
    [done|].
  intros H. apply bind_Ok in H as (ws & _ & H).
  case_decide as Hlt.
  - apply bind_Ok in H as ([s1 o] & Hvisit & H).
    pose proof (solver_inv_visit _ _ _ _ _ Hinv Hvisit) as Hinv1.
    pose proof (entailed_visit M _ _ _ _ _ Hinv Hen Hvisit) as Hen1.
    destruct o as [i'|cr].
    + by apply (IH s1 i').
    + by injection H as <- _.
  - by injection H as <- _.
Qed.

Lemma entailed_propagate (M : Z → bool) (fuel : nat) (s s' : Solver)
  (r : option nat) :
  solver_inv s → entailed M s → propagate fuel s = Ok (s', r) →
  entailed M s'.
Proof.
  revert s. induction fuel as [|fuel IH]; intros s Hinv Hen; [done|].
  cbn [propagate]. case_decide as Hlt.
  - intros H. apply bind_Ok in H as (lit & _ & H).
    apply bind_Ok in H as ([s2 r2] & Hloop & H).
    assert (entailed M s2) as Hen2.
    { eapply entailed_watch_loop; [| |exact Hloop].
      - by apply solver_inv_set_que_head.
      - apply (entailed_frame M s); try done.
        intros cr C HC. by exists C. }
    destruct r2 as [cr|].
    + by injection H as <- _.
    + apply (IH s2); [|done..].
      eapply solver_inv_watch_loop; [|exact Hloop].
      by apply solver_inv_set_que_head.
  - by intros [= <- _].
Qed.

(** ** The learnt clause is a consequence of the clauses *)

Lemma filter_length_mono {A} (P Q : A → Prop)
  `{!∀ x, Decision (P x)} `{!∀ x, Decision (Q x)} (l : list A) :
  (∀ z, z ∈ l → Q z → P z) → length (filter Q l) ≤ length (filter P l).
Proof.
  induction l as [|x l IH]; intros Himp; [done|].
  rewrite !filter_cons.
  assert (length (filter Q l) ≤ length (filter P l)) as Hl.
  { apply IH. intros z Hz. apply Himp. by right. }
  assert (Q x → P x) as Hx by (apply Himp; by left).
  destruct (decide (Q x)), (decide (P x)); simpl; try tauto; lia.
Qed.

Lemma filter_length_one_more {A} (P Q N : A → Prop)
  `{!∀ x, Decision (P x)} `{!∀ x, Decision (Q x)} (l : list A) :
  NoDup l → (∀ z, z ∈ l → Q z → P z ∨ N z) →
  (∀ z1 z2, z1 ∈ l → z2 ∈ l → N z1 → N z2 → z1 = z2) →
  length (filter Q l) ≤ S (length (filter P l)).
Proof.
  induction l as [|a l IH]; intros Hnd Himp Huniq; [simpl; lia|].
  apply NoDup_cons in Hnd as [Hna Hnd]. rewrite !filter_cons.
  assert (length (filter Q l) ≤ S (length (filter P l))) as Hl.
  { apply IH; [done| |].
    - intros z Hz. apply Himp. by right.
    - intros z1 z2 H1 H2. apply Huniq; by right. }
  destruct (decide (Q a)) as [HQ|HQ]; [|destruct (decide (P a)); simpl; lia].
  destruct (decide (P a)) as [HP|HP]; simpl; [lia|].
  destruct (Himp a) as [?|HN]; [by left|done|done|].
  assert (length (filter Q l) ≤ length (filter P l)); [|lia].
  apply filter_length_mono. intros z Hz HQz.
  destruct (Himp z) as [?|HNz]; [by right|done|done|].
  assert (z = a) as -> by (apply Huniq; [by right|by left|done..]).
  done.
Qed.

Lemma filter_none {A} (P : A → Prop) `{!∀ x, Decision (P x)} (l : list A) :
  (∀ x, x ∈ l → ¬ P x) → filter P l = [].
Proof.
  induction l as [|a l IH]; intros Hno; [done|].
  rewrite filter_cons, decide_False by (apply Hno; by left).
  apply IH. intros x Hx. apply Hno. by right.
Qed.

Lemma opens_mono (s : Solver) (d : Z) (seen : gset Z) (n : nat) :
  length (opens s d seen n) ≤ length (opens s d seen (S n)).
Proof.
  unfold opens. destruct (que s !! n) as [t|] eqn:Hn.
  - rewrite (take_S_r _ _ _ Hn), filter_app, length_app. lia.
  - apply lookup_ge_None in Hn. by rewrite !take_ge by lia.
Qed.

Lemma elem_of_opens (s : Solver) (d : Z) (seen : gset Z) (n : nat)
  (t : Lit.t) :
  t ∈ opens s d seen n ↔
  open s d seen t ∧ ∃ p, p < n ∧ que s !! p = Some t.
Proof.
  unfold opens. rewrite list_elem_of_filter, list_elem_of_lookup.
  split.
  - intros [Ho [p Hp]]. split; [done|]. exists p.
    apply lookup_take_Some in Hp. naive_solver.
  - intros [Ho (p & Hp & Ht)]. split; [done|]. exists p.
    by rewrite lookup_take_lt.
Qed.

Lemma var_level_lit (s : Solver) (l : Lit.t) (lv : option Z) :
  levels s !! vnat l = Some lv → var_level s (vnat l) = lv.
Proof. unfold var_level. by intros ->. Qed.

Lemma vnat_same_var (l1 l2 : Lit.t) : Lit.var l1 = Lit.var l2 → vnat l1 = vnat l2.
Proof. unfold vnat, Lit.vidx. by intros ->. Qed.

(** A seen literal that a model makes true, its negation standing on the
    trail before position [n]: the resolvent holds. *)
Lemma seen_resolvent (M : Z → bool) (s : Solver) (d : Z) (n : nat)
  (f : Frontier) (y : Lit.t) (q : nat) :
  frontier_ok s d n f → q < n → que s !! q = Some (Lit.not y) →
  Lit.var y ∈ checking_variables f → models_lit M y →
  resolvent M s d n f.
Proof.
  intros [_ Hseen] Hq Hy Hvar Hm.
  destruct (opt_lt (var_level s (vnat (Lit.not y))) d) eqn:Hlt.
  - left. exists y. split; [|done].
    rewrite <- (lit_not_not y). apply Hseen; [|by rewrite lit_var_not|done].
    by eapply list_elem_of_lookup_2.
  - right. exists q, (Lit.not y). split; [done|]. split; [done|].
    split; [|by apply models_lit_not; rewrite lit_not_not].
    split; [by rewrite lit_var_not|done].
Qed.

Lemma account_frontier (s : Solver) (d : Z) (n : nat) (f f' : Frontier)
  (y : Lit.t) :
  trail_inv s → eval s y = Ok LitBool.False →
  frontier_ok s d n f → account s d f y = Ok f' →
  frontier_ok s d n f' ∧
  checking_variables f' = {[Lit.var y]} ∪ checking_variables f ∧
  (∀ l, l ∈ learnt_clause f → l ∈ learnt_clause f') ∧
  (∀ M, resolvent M s d n f → resolvent M s d n f').
Proof.
  intros Ht Hy [Hcount Hseen] Hacc.
  apply account_Ok in Hacc as (lv & Hlv & Hcv & Hlc & Hcn).
  destruct (false_on_trail s y Ht Hy) as [q Hq].
  apply list_elem_of_lookup_2 in Hq as Hqin.
  assert (∀ t, t ∈ que s → Lit.var t = Lit.var y → t = Lit.not y) as Huniq.
  { intros t Hin Hvar. apply (trail_same_var s); [done..|].
    by rewrite lit_var_not. }
  assert (∀ t, Lit.var t = Lit.var y → var_level s (vnat t) = lv) as Hsame.
  { intros t Hvar. rewrite (vnat_same_var t y Hvar). by apply var_level_lit. }
  assert (∀ l, l ∈ learnt_clause f → l ∈ learnt_clause f') as Hsub.
  { intros l Hl. rewrite Hlc. destruct (opt_lt lv d); [|done].
    apply elem_of_app. by left. }
  split; [split|].
  - rewrite Hcv, Hcn. unfold opens in *.
    destruct (opt_lt lv d) eqn:Hlt.
    + assert (length (filter (open s d ({[Lit.var y]} ∪ checking_variables f))
                             (take n (que s)))
              ≤ length (filter (open s d (checking_variables f))
                               (take n (que s)))); [|lia].
      apply filter_length_mono. intros t Hin [Hvar Hop].
      split; [|done]. apply elem_of_union in Hvar as [Hvar|Hvar]; [|done].
      apply elem_of_singleton in Hvar. rewrite (Hsame t Hvar) in Hop.
      congruence.
    + assert (length (filter (open s d ({[Lit.var y]} ∪ checking_variables f))
                             (take n (que s)))
              ≤ S (length (filter (open s d (checking_variables f))
                                  (take n (que s))))); [|lia].
      apply (filter_length_one_more _ _ (fun t => Lit.var t = Lit.var y)).
      * eapply sublist_NoDup; [|apply sublist_take].
        eapply NoDup_fmap_1, (ti_nodup _ Ht).
      * intros t Hin [Hvar Hop].
        apply elem_of_union in Hvar as [Hvar|Hvar].
        -- right. by apply elem_of_singleton in Hvar.
        -- left. by split.
      * intros t1 t2 H1 H2 Hv1 Hv2.
        apply (subseteq_take n (que s)) in H1, H2.
        by rewrite (Huniq t1 H1 Hv1), (Huniq t2 H2 Hv2).
  - intros t Hin Hvar Hlt. rewrite Hcv in Hvar.
    apply elem_of_union in Hvar as [Hvar|Hvar]; [|by apply Hsub, Hseen].
    apply elem_of_singleton in Hvar.
    rewrite (Huniq t Hin Hvar), lit_not_not.
    rewrite (Hsame t Hvar) in Hlt. rewrite Hlc, Hlt.
    apply elem_of_app. right. by apply list_elem_of_singleton.
  - split; [done|]. split; [done|].
    intros M [(l & Hl & Hm)|(p & t & Hp & Hpt & [Hvar Hop] & Hm)].
    + left. exists l. split; [by apply Hsub|done].
    + right. exists p, t. split; [done|]. split; [done|]. split; [|done].
      split; [|done]. rewrite Hcv. apply elem_of_union. by right.
Qed.

Lemma seed_frontier (M : Z → bool) (s : Solver) (d : Z) (lits : list Lit.t)
  (f f' : Frontier) :
  trail_inv s → frontier_ok s d (length (que s)) f →
  seed s d lits f = Ok f' →
  frontier_ok s d (length (que s)) f' ∧
  (resolvent M s d (length (que s)) f ∨ models M lits →
   resolvent M s d (length (que s)) f').
Proof.
  intros Ht. revert f. induction lits as [|y lits IH]; intros f Hf; simpl.
  { intros [= ->]. split; [done|]. intros [?|(l & Hl & _)]; [done|].
    by apply elem_of_nil in Hl. }
  intros H. apply bind_Ok in H as (e & He & H).
  apply bind_Ok in H as ([] & Hassert & H). apply assert_Ok in Hassert.
  apply bool_decide_eq_true in Hassert. subst e.
  apply bind_Ok in H as (f1 & Hf1 & H).
  destruct (account_frontier s d _ f f1 y Ht He Hf Hf1)
    as (Hf1ok & Hcv & Hsub & Hres).
  destruct (IH f1 Hf1ok H) as [Hf' Hres']. split; [done|].
  intros Hcase. apply Hres'.
  destruct Hcase as [Hr|(l & Hl & Hm)]; [left; by apply Hres|].
  apply elem_of_cons in Hl as [->|Hl]; [|right; by exists l].
  left. destruct (false_on_trail s y Ht He) as [q Hq].
  apply (seen_resolvent M s d _ f1 y q); try done.
  - by eapply lookup_lt_Some.
  - rewrite Hcv. apply elem_of_union. left. by apply elem_of_singleton.
Qed.

Lemma resolve_frontier (M : Z → bool) (s : Solver) (d : Z) (i : nat)
  (lits : list Lit.t) (f f' : Frontier) :
  trail_inv s → frontier_ok s d i f →
  (∀ y, y ∈ lits → eval s y = Ok LitBool.False) →
  resolve s d lits f = Ok f' →
  frontier_ok s d i f' ∧
  (∀ y, y ∈ lits → Lit.var y ∈ checking_variables f') ∧
  (∀ v, v ∈ checking_variables f → v ∈ checking_variables f') ∧
  (resolvent M s d i f → resolvent M s d i f').
Proof.
  intros Ht. revert f. induction lits as [|y lits IH]; intros f Hf Hfalse;
    simpl.
  { intros [= ->]. split; [done|]. split; [|done].
    intros y Hy. by apply elem_of_nil in Hy. }
  assert (∀ z, z ∈ lits → eval s z = Ok LitBool.False) as Hfalse'.
  { intros z Hz. apply Hfalse. by right. }
  case_decide as Hseen.
  - intros H. destruct (IH f Hf Hfalse' H) as (Hf' & Hvars & Hmono & Hres).
    split; [done|]. split; [|done].
    intros z [->|Hz]%elem_of_cons; [by apply Hmono|by apply Hvars].
  - intros H. apply bind_Ok in H as (f1 & Hf1 & H).
    destruct (account_frontier s d i f f1 y Ht) as (Hf1ok & Hcv & _ & Hres1);
      [apply Hfalse; by left|done..|].
    destruct (IH f1 Hf1ok Hfalse' H) as (Hf' & Hvars & Hmono & Hres).
    split; [done|]. split; [|split].
    + intros z [->|Hz]%elem_of_cons; [|by apply Hvars].
      apply Hmono. rewrite Hcv. apply elem_of_union. left.
      by apply elem_of_singleton.
    + intros v Hv. apply Hmono. rewrite Hcv. apply elem_of_union. by right.
    + intros Hr. by apply Hres, Hres1.
Qed.

(** Before the trail entry at [i], when that entry is not open: nothing
    is open. *)
Lemma opens_below (s : Solver) (d : Z) (seen : gset Z) (i : nat)
  (lit : Lit.t) :
  trail_inv s → que s !! i = Some lit →
  opt_lt (var_level s (vnat lit)) d = true →
  ∀ p t, p < i → que s !! p = Some t →
         opt_lt (var_level s (vnat t)) d = true.
Proof.
  intros Ht Hi Hlt p t Hp Hpt.
  destruct (trail_level_Some s lit Ht) as [el Hel];
    [by eapply list_elem_of_lookup_2|].
  destruct (trail_level_Some s t Ht) as [et Het];
    [by eapply list_elem_of_lookup_2|].
  pose proof (trail_level_mono s p i t lit et el Ht Hpt Hi ltac:(lia) Het Hel).
  unfold lit_level in *. rewrite Hel in Hlt. rewrite Het. simpl in *.
  apply Z.ltb_lt in Hlt. apply Z.ltb_lt. lia.
Qed.

Lemma walk_frontier (M : Z → bool) (s : Solver) (d : Z) (n : nat)
  (f : Frontier) (uip : Lit.t) (f' : Frontier) :
  trail_inv s → reason_inv s →
  (∀ cr C, heap s !! cr = Some C → models M C) →
  frontier_ok s d n f → resolvent M s d n f →
  walk n s d f = Ok (uip, f') →
  models M (learnt_clause f' ++ [Lit.not uip]).
Proof.
  intros Ht Hr Hheap. revert f.
  induction n as [|i IH]; intros f Hf Hres; simpl; [done|].
  intros H. apply bind_Ok in H as (lit & Hlit & H). apply at_Ok in Hlit.
  apply list_elem_of_lookup_2 in Hlit as Hin.
  destruct Hf as [Hcount Hseen].
  case_decide as Hvar.
  - (* a seen literal *)
    assert (open s d (checking_variables f) lit ∨
            opt_lt (var_level s (vnat lit)) d = true) as Hcase.
    { destruct (opt_lt (var_level s (vnat lit)) d) eqn:Hlt; [by right|].
      left. by split. }
    (* the number of open literals before it *)
    assert (Z.of_nat (length (opens s d (checking_variables f) i))
            ≤ counter f - 1 ∨
            (opens s d (checking_variables f) i = [] ∧
             opt_lt (var_level s (vnat lit)) d = true))%Z as Hbefore.
    { destruct Hcase as [Hop|Hlt].
      - left. unfold opens in *. rewrite (take_S_r _ _ _ Hlit) in Hcount.
        rewrite filter_app, length_app in Hcount.
        rewrite filter_cons, decide_True in Hcount by done.
        simpl in Hcount. lia.
      - right. split; [|done]. unfold opens.
        apply filter_none. intros t Ht' [_ Hop].
        apply list_elem_of_lookup in Ht' as [p Hp].
        apply lookup_take_Some in Hp as [Hp Hpi].
        pose proof (opens_below s d (checking_variables f) i lit Ht Hlit Hlt
                                p t Hpi Hp). congruence. }
    case_decide as Hstop.
    + (* the unique implication point *)
      injection H as <- <-. simpl in *.
      apply models_app.
      destruct Hres as [Hm|(p & t & Hp & Hpt & Hop & Hm)]; [by left|].
      destruct (decide (p = i)) as [->|Hne].
      * right. exists (Lit.not lit). split; [by apply list_elem_of_singleton|].
        apply models_lit_not. congruence.
      * exfalso.
        assert (t ∈ opens s d (checking_variables f) i) as Hopen.
        { apply elem_of_opens. split; [done|]. exists p. split; [lia|done]. }
        destruct Hbefore as [Hle|[Hnil _]].
        -- destruct (opens s d (checking_variables f) i); [|simpl in Hle; lia].
           by apply elem_of_nil in Hopen.
        -- rewrite Hnil in Hopen. by apply elem_of_nil in Hopen.
    + apply bind_Ok in H as (r & Hrs & H). apply at_z_Ok in Hrs as [Hv Hrs].
      apply bind_Ok in H as ([] & _ & H). destruct r as [reason|]; [|done].
      apply bind_Ok in H as (R & HR & H). apply at_Ok in HR.
      apply bind_Ok in H as (c0 & Hc0 & H). apply at_Ok in Hc0.
      apply bind_Ok in H as ([] & Hassert & H). apply assert_Ok in Hassert.
      apply bool_decide_eq_true in Hassert. subst c0.
      apply bind_Ok in H as (f1 & Hf1 & H).
      destruct (Hr lit reason Hin Hrs) as (R' & HR' & _ & Hrest).
      assert (R' = R) as -> by (unfold deref in *; congruence).
      assert ({[Lit.var lit]} ∪ checking_variables f = checking_variables f)
        as Hset by set_solver.
      rewrite Hset in Hf1.
      set (f2 := mkFrontier (checking_variables f) (learnt_clause f)
                            (counter f - 1)) in *.
      assert (frontier_ok s d i f2) as Hf2.
      { split; [|done]. simpl.
        destruct Hbefore as [Hle|[Hnil _]]; [done|]. rewrite Hnil. simpl. lia. }
      assert (∀ y, y ∈ drop 1 R → eval s y = Ok LitBool.False ∧
                ∃ q, q < i ∧ que s !! q = Some (Lit.not y)) as Htail.
      { intros y Hy. apply list_elem_of_lookup in Hy as [j Hj].
        rewrite lookup_drop in Hj.
        destruct (Hrest (1 + j) y) as [Hfalse (q & p & Hqp & Hq & Hp)];
          [lia|done|].
        split; [done|]. exists q. split; [|done].
        by rewrite <- (trail_position_unique s p i lit Ht Hp Hlit). }
      destruct (resolve_frontier M s d i (drop 1 R) f2 f1 Ht Hf2)
        as (Hf1ok & Hvars & Hmono & Hres1); [by intros y [? _]%Htail|done|].
      apply (IH f1 Hf1ok); [|done].
      destruct Hres as [Hm|(p & t & Hp & Hpt & Hop & Hm)].
      { apply Hres1. by left. }
      destruct (decide (p = i)) as [->|Hne].
      * assert (t = lit) as -> by congruence.
        destruct (Hheap reason R HR) as (l & Hl & Hml).
        apply list_elem_of_lookup in Hl as [j Hj].
        destruct j as [|j]; [congruence|].
        assert (l ∈ drop 1 R) as Hld.
        { apply list_elem_of_lookup. exists j. by rewrite lookup_drop. }
        destruct (Htail l Hld) as [_ (q & Hq & Hql)].
        apply (seen_resolvent M s d i f1 l q); try done. by apply Hvars.
      * apply Hres1. right. exists p, t. split; [lia|done].
  - (* a literal that was not seen *)
    apply (IH f); [| |done].
    + split; [|done]. pose proof (opens_mono s d (checking_variables f) i).
      lia.
    + destruct Hres as [Hm|(p & t & Hp & Hpt & Hop & Hm)]; [by left|].
      right. exists p, t. split; [|done].
      destruct (decide (p = i)) as [->|]; [|lia].
      assert (t = lit) as -> by congruence. by destruct Hop.
Qed.

(** The clause [analyze] returns holds under every assignment that
    satisfies the stored clauses. *)
Lemma analyze_entailed (M : Z → bool) (s : Solver) (conflict : nat)
  (L : list Lit.t) (b : Z) :
  solver_inv s → (∀ cr C, heap s !! cr = Some C → models M C) →
  analyze s conflict = Ok (L, b) → models M L.
Proof.
  intros [Ht _ Hr] Hheap. unfold analyze. intros H.
  apply bind_Ok in H as (d & Hd & H).
  apply bind_Ok in H as (K & HK & H). apply at_Ok in HK.
  apply bind_Ok in H as (f0 & Hseed & H).
  apply bind_Ok in H as ([] & _ & H).
  apply bind_Ok in H as ([uip f1] & Hwalk & H).
  apply bind_Ok in H as (L' & Hswap & H).
  apply bind_Ok in H as (b' & Hmax & H). injection H as -> ->.
  destruct (seed_frontier M s d K (mkFrontier ∅ [] 0) f0 Ht) as [Hf0 Hres0];
    [|done|].
  { split; simpl.
    - unfold opens. rewrite filter_none; [done|].
      intros t _ [Hvar _]. by apply not_elem_of_empty in Hvar.
    - intros t _ Hvar. by apply not_elem_of_empty in Hvar. }
  pose proof (walk_frontier M s d _ f0 uip f1 Ht Hr Hheap Hf0) as Hm.
  apply swap_at_Ok in Hswap as (ca & cb & Ha & Hb & ->).
  eapply models_perm; [symmetry; by apply swap_perm|].
  apply Hm; [|done]. apply Hres0. right. by apply (Hheap conflict).
Qed.

(** ** The search keeps what is entailed *)

Lemma entailed_new_var (M : Z → bool) (s : Solver) :
  trail_inv s → entailed M s → entailed M (new_var s).
Proof.
  intros Ht [Hh Hr]. split; [done|].
  intros l Hin H0. apply Hr; [done|].
  destruct (trail_inv_slot s l Ht Hin) as (_ & _ & _ & Hlt & _).
  unfold lit_level, var_level in *. simpl in H0.
  by rewrite lookup_app_l in H0.
Qed.

Lemma entailed_grow (M : Z → bool) (c : list Lit.t) (s : Solver) :
  solver_inv s → entailed M s → entailed M (grow s c).
Proof.
  revert s. induction c as [|l c IH]; intros s Hinv Hen; [done|].
  rewrite grow_cons. case_bool_decide; [|by apply IH].
  apply IH; [by apply solver_inv_new_var|].
  apply entailed_new_var; [apply Hinv|done].
Qed.

Lemma entailed_attach (M : Z → bool) (s : Solver) (C : list Lit.t)
  (learnt : bool) (s' : Solver) :
  solver_inv s → entailed M s → models M C →
  attach_clause (set_heap s (heap s ++ [C])) (length (heap s)) learnt = Ok s' →
  entailed M s'.
Proof.
  intros Hinv [Hh Hr] HC Hattach.
  apply solver_inv_attach_fresh in Hattach
    as (_ & Hheap & _ & Hlv & _ & Hque); [|done].
  split.
  - intros cr C' HC'. rewrite Hheap in HC'.
    apply lookup_app_Some in HC' as [HC'|[_ HC']]; [by apply (Hh cr)|].
    destruct (cr - length (heap s)) as [|?]; [|done].
    simpl in HC'. by injection HC' as <-.
  - intros l Hin H0. rewrite Hque in Hin.
    rewrite (lit_level_frame s) in H0 by done. by apply Hr.
Qed.

Lemma entailed_add_clause (M : Z → bool) (s : Solver) (c : list Lit.t)
  (s' : Solver) :
  solver_inv s → entailed M s → models M c → add_clause s c = Ok s' →
  entailed M s'.
Proof.
  intros Hinv Hen Hc Hadd. unfold add_clause in Hadd.
  pose proof (solver_inv_grow c s Hinv) as Hinv1.
  pose proof (entailed_grow M c s Hinv Hen) as Hen1.
  case_decide as Hlen.
  - apply bind_Ok in Hadd as (l & Hl & Hadd). apply at_Ok in Hl.
    assert (c = [l]) as ->.
    { destruct c as [|x [|y c]]; simpl in *; [done| |lia]. congruence. }
    apply enqueue_Ok in Hadd as (Hv & Hlv & _ & _ & d & _ & ->).
    apply entailed_assigned; [apply Hinv1|done..|].
    intros _. destruct Hc as (y & Hy & Hm).
    apply list_elem_of_singleton in Hy. by subst y.
  - unfold make_shared in Hadd. by eapply entailed_attach.
Qed.

Lemma entailed_adds (M : Z → bool) (cs : list (list Lit.t)) (s s' : Solver) :
  solver_inv s → entailed M s → (∀ c, c ∈ cs → models M c) →
  adds s cs = Ok s' → solver_inv s' ∧ entailed M s'.
Proof.
  unfold adds. revert s'. induction cs as [|c cs IH] using rev_ind;
    intros s' Hinv Hen Hcs; simpl.
  { by intros [= <-]. }
  rewrite foldl_app. simpl. intros H.
  apply bind_Ok in H as (s1 & H1 & H).
  destruct (IH s1 Hinv Hen) as [Hinv1 Hen1]; [|done|].
  { intros c' Hc'. apply Hcs. apply elem_of_app. by left. }
  split; [by eapply solver_inv_add_clause|].
  eapply entailed_add_clause; [done..| |done].
  apply Hcs. apply elem_of_app. right. by apply list_elem_of_singleton.
Qed.

Lemma entailed_pop_queue_until (M : Z → bool) (s : Solver) (b : Z)
  (s1 : Solver) :
  trail_inv s → entailed M s → pop_queue_until s b = Ok s1 →
  entailed M s1.
Proof.
  intros Ht [Hh Hr] Hpop. pose proof (ti_nodup _ Ht) as Hnd.
  apply pop_queue_until_Ok in Hpop
    as (_ & keep & popped & Hsplit & -> & _ & _); [|done].
  rewrite Hsplit in Hnd. split; [done|].
  intros l Hin H0. simpl in Hin. apply Hr.
  - rewrite Hsplit. apply elem_of_app. by left.
  - unfold lit_level, var_level in *. simpl in H0.
    destruct (popped_state_lookup_keep s keep popped (vnat l)) as [Heq _].
    { intros l' Hl'. by apply (NoDup_app_vnat_ne keep popped l l'). }
    simpl in Heq. by rewrite Heq in H0.
Qed.

(** The literals of the learnt clause behind the first stay False when
    the trail is cut at the level [analyze] returns. *)
Lemma learnt_tail_false (s : Solver) (conflict : nat) (L : list Lit.t)
  (b : Z) (s1 : Solver) :
  solver_inv s → analyze s conflict = Ok (L, b) →
  pop_queue_until s b = Ok s1 →
  ∀ j y, 0 < j → L !! j = Some y → eval s1 y = Ok LitBool.False.
Proof.
  intros Hinv Hanalyze Hpop j y Hj Hy.
  apply analyze_Ok in Hanalyze as (uip & _ & _ & _ & Htail); [|apply Hinv].
  destruct (Htail j y Hj Hy) as (He & e & Hlv & Hle).
  apply pop_queue_until_Ok in Hpop
    as (_ & keep & popped & Hq & -> & Hall & _); [|apply Hinv].
  rewrite <- He. apply eval_ext; [|done]. simpl.
  apply clear_slots_lookup_notin. intros l Hl Heq.
  rewrite Forall_forall in Hall.
  destruct (Hall l Hl) as (_ & _ & d & Hd & Hlt).
  rewrite Heq, Hlv in Hd. injection Hd as <-. lia.
Qed.

Lemma entailed_learn (M : Z → bool) (s : Solver) (conflict : nat)
  (s' : Solver) :
  solver_inv s → entailed M s → learn s conflict = Ok s' → entailed M s'.
Proof.
  intros Hinv Hen. unfold learn. intros H.
  apply bind_Ok in H as ([L b] & Hanalyze & H).
  apply bind_Ok in H as (s1 & Hpop & H).
  pose proof (analyze_entailed M s conflict L b Hinv (en_heap _ _ Hen)
                               Hanalyze) as HL.
  pose proof (learnt_tail_false s conflict L b s1 Hinv Hanalyze Hpop)
    as Htail.
  pose proof (solver_inv_pop_queue_until _ _ _ Hinv Hpop) as Hinv1.
  pose proof (entailed_pop_queue_until M s b s1 (si_trail _ Hinv) Hen Hpop)
    as Hen1.
  case_decide as Hlen.
  - apply bind_Ok in H as (l0 & Hl0 & H). apply at_Ok in Hl0.
    assert (L = [l0]) as ->.
    { destruct L as [|x [|y L]]; simpl in *; [done| |lia]. congruence. }
    apply enqueue_Ok in H as (Hv & Hlv & _ & _ & d & _ & ->).
    apply entailed_assigned; [apply Hinv1|done..|].
    intros _. destruct HL as (y & Hy & Hm).
    apply list_elem_of_singleton in Hy. by subst y.
  - unfold make_shared in H.
    apply bind_Ok in H as (s3 & Hattach & H).
    apply bind_Ok in H as (l0 & Hl0 & H). apply at_Ok in Hl0.
    pose proof (entailed_attach M s1 L true s3 Hinv1 Hen1 HL Hattach) as Hen3.
    apply solver_inv_attach_fresh in Hattach
      as (Hinv3 & _ & Has & Hlv3 & _ & Hque3); [|done].
    apply enqueue_Ok in H as (Hv & Hlv & _ & _ & d & Hd & ->).
    apply entailed_assigned; [apply Hinv3|done..|].
    intros ->. destruct HL as (y & Hy & Hm).
    apply list_elem_of_lookup in Hy as [j Hj].
    destruct j as [|j]; [congruence|].
    destruct (root_false M s3 y (si_trail _ Hinv3) Hen3 Hd); [|done].
    rewrite <- (Htail (S j) y) by (lia || done).
    apply eval_ext; congruence.
Qed.

Lemma entailed_solve_step (M : Z → bool) (fuel : nat) (s s' : Solver)
  (r : option Status) :
  solver_inv s → entailed M s → solve_step fuel s = Ok (s', r) →
  r ≠ Some Unsat ∧ solver_inv s' ∧ entailed M s'.
Proof.
  intros Hinv Hen. unfold solve_step. intros H.
  apply bind_Ok in H as ([s1 conflict] & Hprop & H).
  pose proof (solver_inv_propagate _ _ _ _ Hinv Hprop) as Hinv1.
  pose proof (entailed_propagate M _ _ _ _ Hinv Hen Hprop) as Hen1.
  destruct conflict as [cr|].
  - apply bind_Ok in H as (d & Hd & H).
    apply propagate_conflict in Hprop as (C & HC & Hall & _).
    case_decide as Hzero.
    + exfalso. subst d.
      destruct (en_heap _ _ Hen1 cr C HC) as (y & Hy & Hm).
      by destruct (root_false M s1 y (si_trail _ Hinv1) Hen1 Hd (Hall y Hy)).
    + apply bind_Ok in H as (s2 & Hlearn & H). injection H as <- <-.
      split; [done|]. split; [by eapply solver_inv_learn|].
      by eapply entailed_learn.
  - apply bind_Ok in H as (next & Hnext & H). destruct next as [l|].
    + apply bind_Ok in H as (s2 & Hdec & H). injection H as <- <-.
      split; [done|]. split.
      { eapply solver_inv_enqueue_decision; [done|]. by right. }
      apply new_decision_Ok in Hdec as (Hv & Hlv & _ & _ & d & Hd & ->).
      apply entailed_assigned; [apply Hinv1|done..|].
      pose proof (decision_level_nonneg s1 d (si_trail _ Hinv1) Hd). lia.
    + injection H as <- <-. done.
Qed.

Lemma entailed_solve (M : Z → bool) (fuel : nat) (s s' : Solver)
  (st : Status) :
  solver_inv s → entailed M s → solve fuel s = Ok (s', st) → st ≠ Unsat.
Proof.
  revert s. induction fuel as [|fuel IH]; intros s Hinv Hen; [done|].
  cbn [solve]. intros H. apply bind_Ok in H as ([s1 r] & Hstep & H).
  destruct (entailed_solve_step M _ _ _ _ Hinv Hen Hstep)
    as (Hr & Hinv1 & Hen1).
  destruct r as [st'|].
  - injection H as <- <-. congruence.
  - by apply (IH s1).
Qed.

(** ** The answer SAT *)

(** If [solve] answers SAT for clauses that were added to a fresh solver,
    the assignment it stops with is total and satisfies each of them:
    every variable has a level, and every clause has a literal that
    evaluates to True, so the stored polarities are a model of the
    clauses. *)
Theorem solve_sat_sound (n : nat) (cs : list (list Lit.t)) (fuel : nat)
  (s' : Solver) :
  run n cs fuel = Ok (s', Sat) →
  (∀ v, v < length (assings s') → ∃ d, levels s' !! v = Some (Some d)) ∧
  (∀ c, c ∈ cs → ∃ l, l ∈ c ∧ eval s' l = Ok LitBool.True) ∧
  (∀ c, c ∈ cs → models (assignment s') c).
Proof.
  unfold run. intros H. apply bind_Ok in H as (s0 & Hadds & Hsolve).
  destruct (loading_adds cs (new_solver n) s0) as (Hs0 & _ & _ & Hrec);
    [apply search_inv_new_solver|done|done|done|].
  destruct (search_inv_solve fuel s0 s' Hs0 Hsolve)
    as (Hp & [Hinv Hsz Hhead Hq Hlive] & Hfull & Hall).
  pose proof (si_trail _ Hinv) as Ht.
  assert (∀ c, c ∈ cs → ∃ l, l ∈ c ∧ eval s' l = Ok LitBool.True) as Htrue.
  { intros c Hc.
    destruct (recorded_persists s0 s' c Hp (Hrec c Hc))
      as [(cr & C & HC & Hperm)|(l & -> & Hl & _)].
    - destruct (Hlive cr C HC) as (j & w & Hj & Hw & Hlv).
      exists w. split.
      { rewrite <- Hperm. by eapply list_elem_of_lookup_2. }
      destruct Hlv as [Hnf|(p & Hp' & Hqd)].
      + destruct (watched_in_range s' cr C j w (si_watch _ Hinv) Hsz HC Hj Hw)
          as [Hv Hlt].
        destruct (Hall (vnat w) Hlt) as [d Hd].
        destruct (lookup_lt_is_Some_2 (assings s') (vnat w)) as [a Ha].
        { by rewrite (ti_assings _ Ht). }
        assert (eval s' w = Ok (lit_value a w)) as He.
        { apply eval_Ok. split; [done|]. exists (Some d). split; [done|].
          by exists a. }
        rewrite He in *. unfold lit_value in *.
        by destruct (Lit.neg w), a.
      + apply lookup_lt_Some in Hqd. lia.
    - exists l. split; [by apply list_elem_of_singleton|].
      by apply (ti_true _ Ht). }
  split. { intros v Hv. apply Hall. by rewrite <- (ti_assings _ Ht). }
  split; [done|].
  intros c Hc. destruct (Htrue c Hc) as (l & Hl & He).
  exists l. split; [done|]. apply eval_True in He as (Hv & _ & Ha).
  unfold models_lit, assignment. fold (Lit.vidx l). fold (vnat l).
  by rewrite Ha.
Qed.

Lemma solve_sat_sound_run :
  run 3 [[xp 0; xp 1; xp 2]; [xn 0; xp 1]; [xn 1; xp 2]] 100
    = Ok (st_sat, Sat) ∧
  (∀ v, v < length (assings st_sat) →
        ∃ d, levels st_sat !! v = Some (Some d)) ∧
  (∀ c, c ∈ [[xp 0; xp 1; xp 2]; [xn 0; xp 1]; [xn 1; xp 2]] →
        ∃ l, l ∈ c ∧ eval st_sat l = Ok LitBool.True) ∧
  (∀ c, c ∈ [[xp 0; xp 1; xp 2]; [xn 0; xp 1]; [xn 1; xp 2]] →
        models (assignment st_sat) c).
Proof.
  assert (run 3 [[xp 0; xp 1; xp 2]; [xn 0; xp 1]; [xn 1; xp 2]] 100
          = Ok (st_sat, Sat)) as H by (vm_compute; reflexivity).
  split; [exact H|].
  exact (solve_sat_sound 3 _ 100 st_sat H).
Defined.

(** ** The answer UNSAT *)

(** If [solve] answers UNSAT for clauses that were added to a fresh
    solver, no assignment of the variables satisfies all of them. *)
Theorem solve_unsat_sound (n : nat) (cs : list (list Lit.t)) (fuel : nat)
  (s' : Solver) :
  run n cs fuel = Ok (s', Unsat) →
  ∀ M : Z → bool, ¬ ∀ c, c ∈ cs → models M c.
Proof.
  unfold run. intros H M Hcs. apply bind_Ok in H as (s0 & Hadds & Hsolve).
  destruct (entailed_adds M cs (new_solver n) s0) as [Hinv0 Hen0];
    [apply solver_inv_new_solver| |done|done|].
  { split.
    - intros cr C HC. simpl in HC. by rewrite lookup_nil in HC.
    - intros l Hl. simpl in Hl. by apply elem_of_nil in Hl. }
  by destruct (entailed_solve M fuel s0 s' Unsat Hinv0 Hen0 Hsolve).
Qed.

Lemma solve_unsat_sound_run :
  run 3 [[xp 0; xp 1]; [xn 0; xp 2]; [xn 1; xp 2]; [xn 2]] 100
    = Ok (st_unsat, Unsat) ∧
  ∀ M : Z → bool,
    ¬ ∀ c, c ∈ [[xp 0; xp 1]; [xn 0; xp 2]; [xn 1; xp 2]; [xn 2]] →
           models M c.
Proof.
  assert (run 3 [[xp 0; xp 1]; [xn 0; xp 2]; [xn 1; xp 2]; [xn 2]] 100
          = Ok (st_unsat, Unsat)) as H by (vm_compute; reflexivity).
  split; [exact H|].
  exact (solve_unsat_sound 3 _ 100 st_unsat H).
Defined.

(** ** What [analyze] learns *)

(** Whenever [analyze] returns in a reachable state at a level [d > 0],
    the clause it returns is a consequence of the stored clauses: every
    assignment that satisfies them satisfies it.  Its first literal is
    the negation of a trail literal, the others are False, and the level
    it returns bounds their levels and is below [d]. *)
Theorem analyze_learnt_consequence (s : Solver) (conflict : nat)
  (L : list Lit.t) (b d : Z) :
  reachable s → analyze s conflict = Ok (L, b) →
  decision_level s = Ok d → (0 < d)%Z →
  (∀ M, (∀ cr C, heap s !! cr = Some C → models M C) → models M L) ∧
  (0 ≤ b < d)%Z ∧
  ∃ uip, uip ∈ que s ∧ L !! 0 = Some (Lit.not uip) ∧
    ∀ j y, 0 < j → L !! j = Some y →
      eval s y = Ok LitBool.False ∧
      ∃ e, lit_level s y = Some e ∧ (e ≤ b)%Z.
Proof.
  intros Hs Hanalyze Hd Hpos. pose proof (reachable_inv s Hs) as Hinv.
  split.
  { intros M HM. by apply (analyze_entailed M s conflict L b). }
  pose proof (analyze_below s conflict L b d Hanalyze Hd Hpos) as Hb.
  apply analyze_Ok in Hanalyze as (uip & Hin & Hhead & Hb0 & Htail);
    [|apply Hinv].
  split; [lia|]. exists uip. split; [done|]. split; [done|].
  intros j y Hj Hy. destruct (Htail j y Hj Hy) as (He & e & Hlv & Hle).
  split; [done|]. exists e. split; [|done].
  unfold lit_level, var_level. by rewrite Hlv.
Qed.

Lemma analyze_learnt_consequence_conflict :
  reachable st_conflict ∧ analyze st_conflict 2 = Ok ([xp 0], 0%Z) ∧
  decision_level st_conflict = Ok 1%Z ∧ (0 < 1)%Z ∧
  (∀ M, (∀ cr C, heap st_conflict !! cr = Some C → models M C) →
        models M [xp 0]) ∧
  (0 ≤ 0 < 1)%Z ∧
  ∃ uip, uip ∈ que st_conflict ∧ [xp 0] !! 0 = Some (Lit.not uip) ∧
    ∀ j y, 0 < j → [xp 0] !! j = Some y →
      eval st_conflict y = Ok LitBool.False ∧
      ∃ e, lit_level st_conflict y = Some e ∧ (e ≤ 0)%Z.
Proof.
  assert (analyze st_conflict 2 = Ok ([xp 0], 0%Z)) as Ha
    by (vm_compute; reflexivity).
  assert (decision_level st_conflict = Ok 1%Z) as Hd
    by (vm_compute; reflexivity).
  assert (0 < 1)%Z as Hpos by lia.
  split; [exact st_conflict_reachable|]. split; [exact Ha|].
  split; [exact Hd|]. split; [exact Hpos|].
  exact (analyze_learnt_consequence st_conflict 2 _ 0 1 st_conflict_reachable
                                    Ha Hd Hpos).
Defined.

(** ** The conflict branch of [solve] *)

Lemma attach_clause_learnts (s : Solver) (cr : nat) (learnt : bool)
  (s' : Solver) :
  attach_clause s cr learnt = Ok s' →
  learnts s' = if learnt then learnts s ++ [cr] else learnts s.
Proof.
  unfold attach_clause. intros H. inv_ok. subst.
  repeat match goal with
         | H : push_watcher _ _ _ = Ok _ |- _ =>
             apply push_watcher_Ok in H as (_ & ? & _ & ->)
         end.
  by destruct learnt.
Qed.

(** After the conflict branch of [solve] the learnt clause is asserting:
    its first literal is True and last on the trail, and all its other
    literals are False.  A learnt clause of several literals is appended
    to the clause store, to the clause list and to [learnts], and is the
    reason of its first literal; a learnt unit is stored nowhere and its
    literal has no reason. *)
Theorem learn_asserts (s : Solver) (conflict : nat) (s' : Solver) :
  reachable s → learn s conflict = Ok s' →
  ∃ L b l0,
    analyze s conflict = Ok (L, b) ∧ L !! 0 = Some l0 ∧
    last (que s') = Some l0 ∧ eval s' l0 = Ok LitBool.True ∧
    (∀ j y, 0 < j → L !! j = Some y → eval s' y = Ok LitBool.False) ∧
    (length L = 1 →
     heap s' = heap s ∧ clauses s' = clauses s ∧ learnts s' = learnts s ∧
     reasons s' !! vnat l0 = Some None) ∧
    (length L ≠ 1 →
     heap s' = heap s ++ [L] ∧
     clauses s' = clauses s ++ [length (heap s)] ∧
     learnts s' = learnts s ++ [length (heap s)] ∧
     reasons s' !! vnat l0 = Some (Some (length (heap s)))).
Proof.
  intros Hs Hlearn. pose proof (reachable_inv s Hs) as Hinv.
  unfold learn in Hlearn.
  apply bind_Ok in Hlearn as ([L b] & Hanalyze & H).
  apply bind_Ok in H as (s1 & Hpop & H).
  pose proof (learnt_tail_false s conflict L b s1 Hinv Hanalyze Hpop)
    as Htail.
  assert (heap s1 = heap s ∧ clauses s1 = clauses s ∧ learnts s1 = learnts s)
    as (Hh1 & Hc1 & Hl1).
  { apply pop_queue_until_Ok in Hpop
      as (_ & keep & popped & _ & -> & _); [done|apply Hinv]. }
  exists L, b.
  (* the state before the learnt literal is assigned *)
  assert (∃ s3 l0 r,
            L !! 0 = Some l0 ∧ enqueue s3 l0 r = Ok s' ∧
            (∀ y, eval s3 y = eval s1 y) ∧
            (length L = 1 →
             r = None ∧ heap s3 = heap s ∧ clauses s3 = clauses s ∧
             learnts s3 = learnts s) ∧
            (length L ≠ 1 →
             r = Some (length (heap s)) ∧ heap s3 = heap s ++ [L] ∧
             clauses s3 = clauses s ++ [length (heap s)] ∧
             learnts s3 = learnts s ++ [length (heap s)]))
    as (s3 & l0 & r & Hl0 & Henq & Hev & Hunit & Hmany).
  { case_decide as Hlen.
    - apply bind_Ok in H as (l0 & Hl0 & H). apply at_Ok in Hl0.
      exists s1, l0, None. split; [done|]. split; [done|]. split; [done|].
      split; [done|]. done.
    - unfold make_shared in H.
      apply bind_Ok in H as (s3 & Hattach & H).
      apply bind_Ok in H as (l0 & Hl0 & H). apply at_Ok in Hl0.
      pose proof (attach_clause_learnts _ _ _ _ Hattach) as Hl3.
      apply attach_clause_Ok in Hattach
        as (_ & _ & _ & _ & _ & _ & _ & _ & _ & _ & _ & _ & Hh3 & Hc3 & _ &
            Has & Hlv & _).
      simpl in *. exists s3, l0, (Some (length (heap s1))).
      split; [done|]. split; [done|]. split.
      { intros y. apply eval_ext; congruence. }
      split; [done|]. intros _. rewrite Hh3, Hc3, Hl3, Hh1, Hc1, Hl1. done. }
  exists l0. split; [done|]. split; [done|].
  apply enqueue_Ok in Henq as (Hv & Hlv & Ha & Hr & d & Hd & ->).
  destruct (assigned_state_effect s3 l0 d d r Hv Hlv Ha Hr)
    as (_ & Htrue & _ & _ & Hque & Hreason & _).
  pose proof (propagated_assigned s3 l0 d r Hv Hlv) as Hpa.
  split. { unfold assigned_state in *. by rewrite Hque, last_snoc. }
  split; [done|]. split.
  { intros j y Hj Hy. apply (pg_eval _ _ Hpa); [|done].
    rewrite Hev. by apply (Htail j). }
  split.
  - intros Hlen. destruct (Hunit Hlen) as (-> & ? & ? & ?). done.
  - intros Hlen. destruct (Hmany Hlen) as (-> & ? & ? & ?). done.
Qed.

Lemma learn_asserts_conflict :
  reachable st_conflict ∧ learn st_conflict 2 = Ok st_learnt ∧
  ∃ L b l0,
    analyze st_conflict 2 = Ok (L, b) ∧ L !! 0 = Some l0 ∧
    last (que st_learnt) = Some l0 ∧ eval st_learnt l0 = Ok LitBool.True ∧
    (∀ j y, 0 < j → L !! j = Some y → eval st_learnt y = Ok LitBool.False) ∧
    (length L = 1 →
     heap st_learnt = heap st_conflict ∧
     clauses st_learnt = clauses st_conflict ∧
     learnts st_learnt = learnts st_conflict ∧
     reasons st_learnt !! vnat l0 = Some None) ∧
    (length L ≠ 1 →
     heap st_learnt = heap st_conflict ++ [L] ∧
     clauses st_learnt = clauses st_conflict ++ [length (heap st_conflict)] ∧
     learnts st_learnt = learnts st_conflict ++ [length (heap st_conflict)] ∧
     reasons st_learnt !! vnat l0 = Some (Some (length (heap st_conflict)))).
Proof.
  assert (learn st_conflict 2 = Ok st_learnt) as H
    by (vm_compute; reflexivity).
  split; [exact st_conflict_reachable|]. split; [exact H|].
  exact (learn_asserts st_conflict 2 st_learnt st_conflict_reachable H).
Defined.

(** * [propagate] runs through *)

(** ** The sizes of the vectors *)

Lemma sizes_grow (c : list Lit.t) (s : Solver) :
  length (watchers s) = 2 * length (levels s) →
  length (watchers (grow s c)) = 2 * length (levels (grow s c)).
Proof.
  revert s. induction c as [|l c IH]; intros s Hs; [done|].
  rewrite grow_cons. apply IH. case_bool_decide; [|done].
  simpl. rewrite !length_app. simpl. lia.
Qed.

Lemma sizes_assigned (s : Solver) (l : Lit.t) (d : Z) (r : option nat) :
  length (watchers s) = 2 * length (levels s) →
  length (watchers (assigned_state s l d r))
  = 2 * length (levels (assigned_state s l d r)).
Proof. simpl. by rewrite length_insert. Qed.

Lemma sizes_attach (s : Solver) (cr : nat) (learnt : bool) (s' : Solver) :
  attach_clause s cr learnt = Ok s' →
  length (watchers s) = 2 * length (levels s) →
  length (watchers s') = 2 * length (levels s').
Proof.
  intros H Hs. apply attach_clause_Ok in H
    as (C & c0 & c1 & w0 & w1 & _ & _ & _ & _ & _ & _ & _ & _ & _ & Hws & _ &
        Hlv & _).
  by rewrite Hws, !length_insert, Hlv.
Qed.

Lemma sizes_pop_queue_until (s : Solver) (b : Z) (s' : Solver) :
  NoDup (vnat <$> que s) → pop_queue_until s b = Ok s' →
  length (watchers s) = 2 * length (levels s) →
  length (watchers s') = 2 * length (levels s').
Proof.
  intros Hnd H Hs. apply pop_queue_until_Ok in H
    as (_ & keep & popped & _ & -> & _); [|done].
  simpl. by rewrite clear_slots_length.
Qed.

(** Two watcher lists per variable, in every reachable state. *)
Lemma reachable_sizes (s : Solver) :
  reachable s → length (watchers s) = 2 * length (levels s).
Proof.
  induction 1 as [n|s Hs IH|s c s' Hs IH Hadd|s l s' Hs IH Henq|
                  s l s' Hs IH Hdec|s b s' Hs IH Hpop|
                  s fuel s' r Hs IH Hprop|s cr s' Hs IH Hlearn].
  - simpl. by rewrite !length_replicate.
  - simpl. rewrite !length_app. simpl. lia.
  - unfold add_clause in Hadd. pose proof (sizes_grow c s IH) as Hg.
    case_decide.
    + apply bind_Ok in Hadd as (l & _ & Hadd).
      apply enqueue_Ok in Hadd as (_ & _ & _ & _ & d & _ & ->).
      by apply sizes_assigned.
    + unfold make_shared in Hadd. by apply (sizes_attach _ _ _ _ Hadd).
  - apply enqueue_Ok in Henq as (_ & _ & _ & _ & d & _ & ->).
    by apply sizes_assigned.
  - apply new_decision_Ok in Hdec as (_ & _ & _ & _ & d & _ & ->).
    by apply sizes_assigned.
  - apply (sizes_pop_queue_until s b); [|done..].
    apply (ti_nodup _ (si_trail _ (reachable_inv s Hs))).
  - apply propagated_propagate in Hprop.
    by rewrite (pg_watchers_length _ _ Hprop), (pg_levels_length _ _ Hprop).
  - unfold learn in Hlearn.
    apply bind_Ok in Hlearn as ([L b] & _ & H).
    apply bind_Ok in H as (s1 & Hpop & H).
    assert (length (watchers s1) = 2 * length (levels s1)) as H1.
    { apply (sizes_pop_queue_until s b); [|done..].
      apply (ti_nodup _ (si_trail _ (reachable_inv s Hs))). }
    case_decide.
    + apply bind_Ok in H as (l0 & _ & H).
      apply enqueue_Ok in H as (_ & _ & _ & _ & d & _ & ->).
      by apply sizes_assigned.
    + unfold make_shared in H.
      apply bind_Ok in H as (s3 & Hattach & H).
      apply bind_Ok in H as (l0 & _ & H).
      apply enqueue_Ok in H as (_ & _ & _ & _ & d & _ & ->).
      apply sizes_assigned. by apply (sizes_attach _ _ _ _ Hattach).
Qed.

(** ** One visit returns *)

Lemma eval_total (s : Solver) (y : Lit.t) :
  length (assings s) = length (levels s) →
  (0 ≤ Lit.vidx y)%Z → vnat y < length (levels s) →
  ∃ e, eval s y = Ok e.
Proof.
  intros Hlen Hv Hlt.
  destruct (lookup_lt_is_Some_2 (levels s) (vnat y) Hlt) as [lv Hlv].
  destruct (lookup_lt_is_Some_2 (assings s) (vnat y)) as [a Ha]; [lia|].
  destruct lv as [d|].
  - exists (lit_value a y). apply eval_Ok. split; [done|].
    exists (Some d). split; [done|]. by exists a.
  - exists LitBool.Undefine. by apply eval_Undefine.
Qed.

(** The watcher slots of the two literals of a variable of the solver. *)
Lemma lit_slot (y : Lit.t) (n : nat) :
  (0 ≤ Lit.vidx y)%Z → vnat y < n →
  (0 ≤ Lit.lidx y)%Z ∧ lnat y < 2 * n.
Proof.
  intros Hv Hlt. pose proof (lit_x_decompose y) as Hx.
  unfold Lit.lidx, lnat, vnat, Lit.vidx, Lit.lidx in *.
  destruct (Lit.neg y); lia.
Qed.

Lemma find_watch_total (s : Solver) (lits : list Lit.t) (k : nat) :
  (∀ y, y ∈ lits → ∃ e, eval s y = Ok e) →
  ∃ found, find_watch s lits k = Ok found.
Proof.
  revert k. induction lits as [|y lits IH]; intros k Hev; simpl; [eauto|].
  destruct (Hev y) as [e He]; [by left|]. rewrite He. simpl.
  case_decide; [|eauto]. apply IH. intros z Hz. apply Hev. by right.
Qed.

Lemma normalize_Ok (C : list Lit.t) (c0 c1 nlit : Lit.t) :
  C !! 0 = Some c0 → C !! 1 = Some c1 →
  (if decide (c0 = nlit) then swap_at C 0 1 else Ok C)
  = Ok (normalized C c0 c1 nlit).
Proof.
  intros H0 H1. unfold normalized. case_decide; [|done].
  unfold swap_at. rewrite (proj2 (at_Ok _ _ _) H0), (proj2 (at_Ok _ _ _) H1).
  done.
Qed.

Lemma ret_bind {A B} (a : A) (f : A → result B) : Ok a ≫= f = f a.
Proof. reflexivity. Qed.

Ltac run_step :=
  repeat first [rewrite ret_bind | progress cbn [assert] |
                progress cbn beta iota zeta |
                progress cbn [watchers store set_heap]].

Lemma visit_total (s : Solver) (lit : Lit.t) (i : nat) (ws : list nat) :
  propagable s → lit ∈ que s →
  watchers s !! lnat lit = Some ws → i < length ws →
  ∃ s' o, visit s lit i = Ok (s', o).
Proof.
  intros [Hinv Hsz Hcov] Hin Hws Hi.
  pose proof (si_trail _ Hinv) as Ht. pose proof (si_watch _ Hinv) as Hw.
  destruct (trail_inv_slot s lit Ht Hin) as (Hv & _ & _ & Hlt & _).
  destruct (lit_slot lit _ Hv Hlt) as [Hl _].
  destruct (lookup_lt_is_Some_2 ws i Hi) as [cr Hcr].
  assert (cr ∈ ws) as Hcrin by (by eapply list_elem_of_lookup_2).
  destruct (lookup_lt_is_Some_2 (heap s) cr) as [C HC].
  { by apply (wi_valid _ Hw (lnat lit) ws). }
  pose proof (wi_size _ Hw cr C HC) as Hlen.
  destruct (lookup_lt_is_Some_2 C 0) as [c0 H0]; [lia|].
  destruct (lookup_lt_is_Some_2 C 1) as [c1 H1]; [lia|].
  destruct (watched_negation s lit ws cr C Hw Hl Hws Hcrin HC)
    as (j & Hj & Hjl).
  set (nlit := Lit.not lit) in *.
  set (C1 := normalized C c0 c1 nlit).
  destruct (normalized_lookup_01 C c0 c1 nlit H0 H1) as [Hn0 Hn1].
  fold C1 in Hn0, Hn1.
  assert (C1 !! 1 = Some nlit) as Hn1'.
  { rewrite Hn1. case_decide; [congruence|].
    destruct j as [|[|j]]; [congruence|congruence|lia]. }
  assert (C1 ≡ₚ C) as Hperm by (by apply normalized_perm).
  assert (length (assings s) = length (levels s)) as Hal
    by apply (ti_assings _ Ht).
  assert (∀ y, y ∈ C1 → ∃ e, eval (store s cr C1) y = Ok e) as Hevals.
  { intros y Hy. rewrite Hperm in Hy.
    destruct (Hcov cr C y HC Hy) as [Hvy Hlty].
    destruct (eval_total s y Hal Hvy Hlty) as [e He].
    exists e. by rewrite (eval_ext s). }
  unfold visit. run_step.
  rewrite (proj2 (at_z_Ok (watchers s) (Lit.lidx lit) ws) (conj Hl Hws)).
  run_step. rewrite (proj2 (at_Ok _ _ _) Hcr). run_step.
  unfold deref. rewrite (proj2 (at_Ok _ _ _) HC). run_step.
  rewrite (proj2 (at_Ok _ _ _) H0). run_step.
  rewrite (proj2 (at_Ok _ _ _) H1). run_step.
  fold nlit.
  assert (bool_decide (c0 = nlit) || bool_decide (c1 = nlit) = true) as ->.
  { destruct j as [|[|j]]; [| |lia].
    - rewrite bool_decide_eq_true_2 by congruence. done.
    - rewrite (bool_decide_eq_true_2 (c1 = nlit)) by congruence.
      by rewrite orb_true_r. }
  run_step. rewrite (normalize_Ok C c0 c1 nlit H0 H1). run_step. fold C1.
  rewrite (proj2 (at_Ok _ _ _) Hn1'). run_step.
  rewrite bool_decide_eq_true_2 by done. run_step.
  assert (eval (store s cr C1) nlit = Ok LitBool.False) as ->.
  { rewrite (eval_ext s) by done.
    apply (eval_not s lit LitBool.True). by apply (ti_true _ Ht). }
  run_step. rewrite bool_decide_eq_true_2 by done. run_step.
  destruct (lookup_lt_is_Some_2 C1 0) as [first Hfirst].
  { unfold C1. rewrite normalized_length. lia. }
  rewrite (proj2 (at_Ok _ _ _) Hfirst). run_step.
  destruct (Hevals first) as [ef Hef]; [by eapply list_elem_of_lookup_2|].
  rewrite Hef. run_step.
  destruct (decide (ef = LitBool.True)) as [Htrue|Htrue]; [eauto|].
  destruct (find_watch_total (store s cr C1) (drop 2 C1) 2) as [found Hfound].
  { intros y Hy. apply Hevals. apply list_elem_of_lookup in Hy as [p Hp].
    rewrite lookup_drop in Hp. by eapply list_elem_of_lookup_2. }
  rewrite Hfound. run_step. destruct found as [k|].
  - (* a new literal to watch *)
    apply find_watch_Some in Hfound as (p & y & e & -> & Hp & He & Hne).
    rewrite lookup_drop in Hp.
    rewrite (proj2 (swap_at_Ok C1 1 (2 + p) _)
                   (ex_intro _ nlit (ex_intro _ y
                      (conj Hn1' (conj Hp eq_refl))))).
    run_step. unfold swap_pop.
    destruct (last ws) as [w|] eqn:Hlast.
    2: { apply last_None in Hlast. subst ws. simpl in Hi. lia. }
    rewrite (proj2 (set_at_Ok ws i w _) (conj Hi eq_refl)). run_step.
    assert (lnat lit < length (watchers s)) as Hslot
      by (by eapply lookup_lt_Some).
    rewrite (proj2 (set_at_z_Ok (watchers s) (Lit.lidx lit) _ _)
                   (conj Hl (conj Hslot eq_refl))).
    run_step.
    assert (<[2 + p:=nlit]> (<[1:=y]> C1) !! 1 = Some y) as Hy1.
    { rewrite list_lookup_insert_ne by lia.
      apply list_lookup_insert_eq. by eapply lookup_lt_Some. }
    rewrite (proj2 (at_Ok _ _ _) Hy1). run_step.
    destruct (Hcov cr C y HC) as [Hvy Hlty].
    { rewrite <- Hperm. by eapply list_elem_of_lookup_2. }
    rewrite <- vidx_not in Hvy. rewrite <- (vnat_not y) in Hlty.
    destruct (lit_slot (Lit.not y) _ Hvy Hlty) as [Hly Hslty].
    rewrite <- Hsz in Hslty.
    destruct (lookup_lt_is_Some_2
                (<[Z.to_nat (Lit.lidx lit):=removelast (<[i:=w]> ws)]>
                   (watchers s)) (lnat (Lit.not y))) as [w0 Hw0].
    { by rewrite length_insert. }
    match goal with
    | |- context [push_watcher ?st ?idx ?c] =>
        assert (∃ s'', push_watcher st idx c = Ok s'') as [s'' ->]
    end.
    { eexists. apply push_watcher_Ok. split; [done|]. exists w0.
      split; [exact Hw0|reflexivity]. }
    run_step. eauto.
  - (* no literal to watch *)
    destruct (decide (ef = LitBool.False)) as [Hfalse|Hfalse]; [eauto|].
    rewrite bool_decide_eq_true_2 by (by destruct ef). run_step.
    assert (ef = LitBool.Undefine) as -> by (by destruct ef).
    rewrite (eval_ext s) in Hef by done.
    apply eval_Undefine in Hef as [Hvf Hlf].
    destruct (decision_level_total s Ht) as [d Hd].
    assert (vnat first < length (levels s)) as Hltf
      by (by eapply lookup_lt_Some).
    assert (∃ s'', enqueue (store s cr C1) first (Some cr) = Ok s'')
      as [s'' ->].
    { eexists. apply enqueue_Ok.
      split; [done|]. split; [done|]. split; [simpl; lia|]. split.
      { simpl. by rewrite (ti_reasons _ Ht). }
      exists d. split; [|reflexivity]. by rewrite (decision_level_ext s). }
    run_step. eauto.
Qed.

(** ** The loops return *)

Lemma covered_propagated (s s' : Solver) :
  propagated s s' → covered s → covered s'.
Proof.
  intros Hpg Hcov cr C' y HC' Hy.
  rewrite (pg_levels_length _ _ Hpg).
  destruct (lookup_lt_is_Some_2 (heap s) cr) as [C HC].
  { rewrite <- (pg_heap_length _ _ Hpg). by eapply lookup_lt_Some. }
  destruct (pg_heap _ _ Hpg cr C HC) as (C'' & HC'' & Hperm).
  assert (C'' = C') as -> by congruence.
  apply (Hcov cr C y HC). by rewrite <- Hperm.
Qed.

Lemma propagable_visit (s : Solver) (lit : Lit.t) (i : nat) (s' : Solver)
  (o : Outcome) :
  propagable s → visit s lit i = Ok (s', o) → propagable s'.
Proof.
  intros [Hinv Hsz Hcov] Hvisit.
  pose proof (propagated_visit _ _ _ _ _ Hvisit) as Hpg. split.
  - by eapply solver_inv_visit.
  - by rewrite (pg_watchers_length _ _ Hpg), (pg_levels_length _ _ Hpg).
  - by eapply covered_propagated.
Qed.

(** A visit that goes on moves to the next index, or shortens the
    watcher list it goes through; it leaves the cursor where it was. *)
Lemma visit_progress (s : Solver) (lit : Lit.t) (i i' : nat) (s' : Solver)
  (ws : list nat) :
  visit s lit i = Ok (s', Next i') →
  watchers s !! lnat lit = Some ws → i < length ws →
  que_head s' = que_head s ∧
  ∃ ws', watchers s' !! lnat lit = Some ws' ∧
         length ws' - i' < length ws - i.
Proof.
  intros Hvisit Hws Hi.
  apply visit_Ok in Hvisit
    as (ws0 & cr & C & c0 & c1 & first & ef & Hl & Hws0 & Hcr & HC & H0 & H1 &
        Hn1 & Hn0 & Hnlit & Hef & Hcases).
  assert (ws0 = ws) as -> by congruence.
  set (C1 := normalized C c0 c1 (Lit.not lit)) in *.
  destruct Hcases as [(-> & -> & [= ->])|[(Hne & Hmove)|
                      [(-> & Hall & -> & [=])|(-> & Hall & Henq & [= ->])]]].
  - split; [done|]. exists ws. split; [done|]. lia.
  - destruct Hmove as (k & ck & e & w & Hk & Hck & He & HeF & Hlast & Hlt &
                       Hpush & [= ->]).
    apply push_watcher_Ok in Hpush as (Hnck & w0 & Hw0 & ->).
    split; [done|].
    assert (lnat (Lit.not ck) ≠ lnat lit) as Hslot.
    { intros Heq. apply lnat_inj in Heq; [|done..].
      assert (ck = Lit.not lit) as -> by (by rewrite <- Heq, lit_not_not).
      rewrite Hnlit in He. injection He as <-. done. }
    exists (removelast (<[i:=w]> ws)). split.
    + simpl. unfold lnat in *. rewrite list_lookup_insert_ne by done.
      apply list_lookup_insert_eq. by eapply lookup_lt_Some.
    + rewrite length_swap_pop; [lia|]. intros ->. simpl in Hi. lia.
  - apply enqueue_Ok in Henq as (_ & _ & _ & _ & d & _ & ->).
    split; [done|]. exists ws. split; [done|]. lia.
Qed.

Lemma watch_loop_total (fuel : nat) (s : Solver) (lit : Lit.t) (i : nat)
  (ws : list nat) :
  propagable s → lit ∈ que s → watchers s !! lnat lit = Some ws →
  length ws - i < fuel →
  ∃ s' r, watch_loop fuel s lit i = Ok (s', r) ∧ propagable s' ∧
          (r = None → que_head s' = que_head s).
Proof.
  revert s i ws. induction fuel as [|fuel IH]; intros s i ws Hs Hin Hws Hfuel;
    [lia|].
  pose proof (si_trail _ (pr_inv _ Hs)) as Ht.
  destruct (trail_inv_slot s lit Ht Hin) as (Hv & _ & _ & Hlt & _).
  destruct (lit_slot lit _ Hv Hlt) as [Hl _].
  cbn [watch_loop].
  rewrite (proj2 (at_z_Ok (watchers s) (Lit.lidx lit) ws) (conj Hl Hws)).
  rewrite ret_bind.
  destruct (decide (i < length ws)) as [Hi|Hi]; [|by eexists _, _].
  destruct (visit_total s lit i ws Hs Hin Hws Hi) as (s1 & o & Hvisit).
  rewrite Hvisit, ret_bind.
  pose proof (propagable_visit _ _ _ _ _ Hs Hvisit) as Hs1.
  destruct o as [i'|cr]; [|by eexists _, _].
  destruct (visit_progress s lit i i' s1 ws Hvisit Hws Hi)
    as (Hhead & ws' & Hws' & Hless).
  destruct (IH s1 i' ws' Hs1) as (s' & r & Hloop & Hs' & Hhead');
    [|done|lia|].
  { destruct (pg_trail _ _ (propagated_visit _ _ _ _ _ Hvisit)) as [new ->].
    apply elem_of_app. by left. }
  exists s', r. split; [done|]. split; [done|].
  intros Hr. rewrite (Hhead' Hr). done.
Qed.

Lemma filter_split_length {A} (P : A → Prop) `{!∀ x, Decision (P x)}
  (l : list A) :
  length l = length (filter P l) + length (filter (fun x => ¬ P x) l).
Proof.
  induction l as [|a l IH]; [done|]. rewrite !filter_cons.
  destruct (decide (P a)), (decide (¬ P a)); simpl; try tauto; lia.
Qed.

Lemma occ_filter_le (x : nat) (P : nat → Prop) `{!∀ x, Decision (P x)}
  (l : list nat) :
  occ x (filter P l) ≤ occ x l.
Proof.
  unfold occ. induction l as [|a l IH]; [done|]. rewrite !filter_cons.
  destruct (decide (P a)); rewrite ?filter_cons;
    destruct (decide (x = a)); simpl; lia.
Qed.

(** A list of handles below [h] that holds no handle more than twice has
    at most [2 h] entries. *)
Lemma handles_length (h : nat) (ws : list nat) :
  (∀ x, x ∈ ws → x < h) → (∀ x, occ x ws ≤ 2) → length ws ≤ 2 * h.
Proof.
  revert ws. induction h as [|h IH]; intros ws Hlt Hocc.
  { destruct ws as [|x ws]; [done|]. specialize (Hlt x ltac:(by left)). lia. }
  rewrite (filter_split_length (eq h) ws).
  assert (length (filter (fun x => ¬ h = x) ws) ≤ 2 * h) as Hrest.
  { apply IH.
    - intros x [Hne Hx]%list_elem_of_filter. specialize (Hlt x Hx). lia.
    - intros x. etransitivity; [apply occ_filter_le|apply Hocc]. }
  specialize (Hocc h). unfold occ in Hocc. lia.
Qed.

Lemma watcher_length (s : Solver) (i : nat) (ws : list nat) :
  watch_inv s → watchers s !! i = Some ws → length ws ≤ 2 * length (heap s).
Proof.
  intros Hw Hws. apply handles_length.
  - intros cr Hcr. by apply (wi_valid _ Hw i ws).
  - intros cr. destruct (heap s !! cr) as [C|] eqn:HC.
    + rewrite (wi_occ _ Hw cr C i ws HC Hws). unfold watched_by, ind.
      destruct (C !! 0), (C !! 1); try lia.
      repeat case_decide; lia.
    + destruct (decide (cr ∈ ws)) as [Hin|Hnin].
      * apply (wi_valid _ Hw i ws) in Hin; [|done].
        apply lookup_ge_None in HC. lia.
      * assert (¬ 0 < occ cr ws) as Hz by (by rewrite <- occ_pos). lia.
Qed.

Lemma propagate_total_steps (k fuel : nat) (s : Solver) :
  propagable s → length (levels s) - que_head s < k →
  k + 2 * length (heap s) + 1 ≤ fuel →
  ∃ s' r, propagate fuel s = Ok (s', r).
Proof.
  revert fuel s. induction k as [|k IH]; intros fuel s Hs Hk Hfuel; [lia|].
  destruct fuel as [|fuel]; [lia|]. cbn [propagate].
  destruct (decide (que_head s < length (que s))) as [Hlt|Hge];
    [|by eexists _, _].
  destruct (lookup_lt_is_Some_2 (que s) (que_head s) Hlt) as [lit Hlit].
  rewrite (proj2 (at_Ok _ _ _) Hlit), ret_bind.
  pose proof (si_trail _ (pr_inv _ Hs)) as Ht.
  apply list_elem_of_lookup_2 in Hlit as Hin.
  destruct (trail_inv_slot s lit Ht Hin) as (Hv & _ & _ & Hlv & _).
  destruct (lit_slot lit _ Hv Hlv) as [_ Hslot].
  rewrite <- (pr_sizes _ Hs) in Hslot.
  destruct (lookup_lt_is_Some_2 _ _ Hslot) as [ws Hws].
  assert (propagable (set_que_head s (que_head s + 1))) as Hs1.
  { destruct Hs as [Hinv Hsz Hcov]. split; [|done..].
    by apply solver_inv_set_que_head. }
  destruct (watch_loop_total (S fuel) (set_que_head s (que_head s + 1)) lit 0 ws
                             Hs1 Hin Hws)
    as (s2 & r2 & Hloop & Hs2 & Hhead).
  { pose proof (watcher_length s _ ws (si_watch _ (pr_inv _ Hs)) Hws). lia. }
  rewrite Hloop, ret_bind. destruct r2 as [cr|]; [by eexists _, _|].
  pose proof (propagated_watch_loop _ _ _ _ _ _ Hloop) as Hpg.
  apply IH; [done| |].
  - rewrite (pg_levels_length _ _ Hpg), (Hhead eq_refl). simpl.
    (* the trail is not longer than the number of variables *)
    assert (length (que s) ≤ length (levels s)); [|lia].
    rewrite <- (length_fmap vnat).
    apply NoDup_bounded_length; [apply (ti_nodup _ Ht)|].
    intros v (y & -> & Hy)%list_elem_of_fmap.
    by destruct (trail_inv_slot s y Ht Hy) as (_ & _ & _ & ? & _).
  - rewrite (pg_heap_length _ _ Hpg). simpl. lia.
Qed.

(** In a reachable state whose stored clauses only mention variables of
    the solver, [propagate] returns: no assertion of [propagate] or
    [enqueue] fails, no vector is read or written out of range, and the
    loops end within [levels.size() + 2 * (number of stored clauses) + 2]
    steps. *)
Theorem propagate_total (s : Solver) (fuel : nat) :
  reachable s → covered s →
  length (levels s) + 2 * length (heap s) + 2 ≤ fuel →
  ∃ s' r, propagate fuel s = Ok (s', r) ∧ reachable s' ∧ covered s'.
Proof.
  intros Hs Hcov Hfuel.
  assert (propagable s) as Hp.
  { split; [by apply reachable_inv|by apply reachable_sizes|done]. }
  destruct (propagate_total_steps (S (length (levels s))) fuel s Hp)
    as (s' & r & Hprop); [lia|lia|].
  exists s', r. split; [done|]. split; [by eapply reach_propagate|].
  eapply covered_propagated; [|done]. by eapply propagated_propagate.
Qed.

Lemma propagate_total_sat :
  reachable st_sat_decided ∧ covered st_sat_decided ∧
  length (levels st_sat_decided) + 2 * length (heap st_sat_decided) + 2 ≤ 11 ∧
  ∃ s' r, propagate 11 st_sat_decided = Ok (s', r) ∧ reachable s' ∧
          covered s'.
Proof.
  assert (reachable st_sat_decided) as Hs.
  { apply (reach_new_decision
             (mkSolver [false; false; false] None
                [[xp 0; xp 1; xp 2]; [xn 0; xp 1]; [xn 1; xp 2]]
                [0; 1; 2] []
                [[1]; [0]; [2]; [0; 1]; []; [2]]
                [None; None; None] [None; None; None] [] 0) (xn 0));
      [|vm_compute; reflexivity].
    apply (reachable_adds [[xp 0; xp 1; xp 2]; [xn 0; xp 1]; [xn 1; xp 2]]
                          (new_solver 3)); [apply reach_new|].
    vm_compute. reflexivity. }
  assert (covered st_sat_decided) as Hcov.
  { intros cr C y HC Hy. destruct cr as [|[|[|cr]]]; simpl in HC;
      [injection HC as <-..|done];
      repeat (apply elem_of_cons in Hy as [->|Hy]; [vm_compute; split;
        [discriminate|lia]|]); by apply elem_of_nil in Hy. }
  assert (length (levels st_sat_decided)
          + 2 * length (heap st_sat_decided) + 2 ≤ 11) as Hfuel
    by (simpl; lia).
  split; [exact Hs|]. split; [exact Hcov|]. split; [exact Hfuel|].
  exact (propagate_total st_sat_decided 11 Hs Hcov Hfuel).
Defined.

(** ** Propagation without a conflict *)

(** If [propagate] reports no conflict on clauses that were added to a
    fresh solver, it has visited the whole trail, and none of the added
    clauses is falsified: each has a literal that does not evaluate to
    False, the literal of a unit clause being True. *)
Theorem propagate_no_conflict_consistent (n : nat) (cs : list (list Lit.t))
  (s : Solver) (fuel : nat) (s' : Solver) :
  adds (new_solver n) cs = Ok s →
  propagate fuel s = Ok (s', None) →
  que_head s' = length (que s') ∧
  (∀ c, c ∈ cs → ∃ l, l ∈ c ∧ eval s' l ≠ Ok LitBool.False) ∧
  (∀ l, [l] ∈ cs → eval s' l = Ok LitBool.True).
Proof.
  intros Hadds Hprop.
  destruct (loading_adds cs (new_solver n) s) as (Hs & _ & _ & Hrec);
    [apply search_inv_new_solver|done|done|done|].
  destruct (search_inv_propagate fuel s s' None Hs Hprop)
    as [[Hinv Hsz Hhead Hq Hlive] Hfull].
  pose proof (si_trail _ Hinv) as Ht.
  pose proof (propagated_persists _ _ (propagated_propagate _ _ _ _ Hprop))
    as Hp.
  split; [done|]. split.
  - intros c Hc.
    destruct (recorded_persists s s' c Hp (Hrec c Hc))
      as [(cr & C & HC & Hperm)|(l & -> & Hl & _)].
    + destruct (Hlive cr C HC) as (j & w & Hj & Hw & Hlv).
      exists w. split.
      { rewrite <- Hperm. by eapply list_elem_of_lookup_2. }
      destruct Hlv as [Hnf|(p & Hp' & Hqd)]; [done|].
      apply lookup_lt_Some in Hqd. lia.
    + exists l. split; [by apply list_elem_of_singleton|].
      rewrite (ti_true _ Ht l Hl). discriminate.
  - intros l Hc.
    destruct (recorded_persists s s' [l] Hp (Hrec _ Hc))
      as [(cr & C & HC & Hperm)|(l' & [= <-] & Hl & _)].
    + apply Permutation_length in Hperm.
      pose proof (wi_size _ (si_watch _ Hinv) cr C HC). simpl in Hperm. lia.
    + by apply (ti_true _ Ht).
Qed.

Lemma propagate_no_conflict_consistent_chain :
  adds (new_solver 4) [[xp 0]; [xn 0; xp 1]; [xn 1; xp 2; xp 3]]
    = Ok st_chain ∧
  propagate 20 st_chain = Ok (st_chain_propagated, None) ∧
  que_head st_chain_propagated = length (que st_chain_propagated) ∧
  (∀ c, c ∈ [[xp 0]; [xn 0; xp 1]; [xn 1; xp 2; xp 3]] →
        ∃ l, l ∈ c ∧ eval st_chain_propagated l ≠ Ok LitBool.False) ∧
  (∀ l, [l] ∈ [[xp 0]; [xn 0; xp 1]; [xn 1; xp 2; xp 3]] →
        eval st_chain_propagated l = Ok LitBool.True).
Proof.
  assert (adds (new_solver 4) [[xp 0]; [xn 0; xp 1]; [xn 1; xp 2; xp 3]]
          = Ok st_chain) as Ha by (vm_compute; reflexivity).
  assert (propagate 20 st_chain = Ok (st_chain_propagated, None)) as Hp
    by (vm_compute; reflexivity).
  split; [exact Ha|]. split; [exact Hp|].
  exact (propagate_no_conflict_consistent 4 _ st_chain 20
           st_chain_propagated Ha Hp).
Defined.

(** ** The member [status] *)

Lemma status_grow (c : list Lit.t) (s : Solver) : status (grow s c) = status s.
Proof.
  revert s. induction c as [|l c IH]; intros s; [done|].
  rewrite grow_cons, IH. by case_bool_decide.
Qed.

Lemma status_enqueue (s : Solver) (l : Lit.t) (r : option nat) (s' : Solver) :
  enqueue s l r = Ok s' → status s' = status s.
Proof. intros H. by apply enqueue_Ok in H as (_ & _ & _ & _ & d & _ & ->). Qed.

Lemma status_attach_clause (s : Solver) (cr : nat) (learnt : bool)
  (s' : Solver) :
  attach_clause s cr learnt = Ok s' → status s' = status s.
Proof.
  unfold attach_clause. intros H. inv_ok. subst.
  repeat match goal with
         | H : push_watcher _ _ _ = Ok _ |- _ =>
             apply push_watcher_Ok in H as (_ & ? & _ & ->)
         end.
  by destruct learnt.
Qed.

Lemma status_add_clause (s : Solver) (c : list Lit.t) (s' : Solver) :
  add_clause s c = Ok s' → status s' = status s.
Proof.
  unfold add_clause. intros H. case_decide.
  - apply bind_Ok in H as (c0 & _ & H).
    by rewrite (status_enqueue _ _ _ _ H), status_grow.
  - destruct (make_shared (grow s c) c) as [s2 cr] eqn:Hm.
    unfold make_shared in Hm. injection Hm as <- <-.
    by rewrite (status_attach_clause _ _ _ _ H), <- (status_grow c s).
Qed.

Lemma status_pop_loop (n : nat) (s : Solver) (until_level : Z) (s' : Solver) :
  pop_loop n s until_level = Ok s' → status s' = status s.
Proof.
  revert s. induction n as [|n IH]; intros s; simpl; [by intros [= <-]|].
  destruct (last (que s)) as [lit|]; [|by intros [= <-]].
  intros H. apply bind_Ok in H as (lv & _ & H).
  destruct (opt_gt lv until_level); [|by injection H as <-].
  apply bind_Ok in H as (rsn & _ & H). apply bind_Ok in H as (lvs & _ & H).
  by rewrite (IH _ H).
Qed.

Lemma status_pop_queue_until (s : Solver) (until_level : Z) (s' : Solver) :
  pop_queue_until s until_level = Ok s' → status s' = status s.
Proof.
  unfold pop_queue_until. intros H. apply bind_Ok in H as ([] & _ & H).
  apply bind_Ok in H as (s1 & Hloop & H). apply status_pop_loop in Hloop.
  case_decide; injection H as <-; done.
Qed.

Lemma status_visit (s : Solver) (lit : Lit.t) (i : nat) (s' : Solver)
  (o : Outcome) :
  visit s lit i = Ok (s', o) → status s' = status s.
Proof.
  intros Hvisit.
  apply visit_Ok in Hvisit
    as (ws & cr & C & c0 & c1 & first & ef & _ & _ & _ & _ & _ & _ &
        _ & _ & _ & _ & Hcases).
  destruct Hcases as [(_ & -> & _)|[(_ & Hmove)|[(_ & _ & -> & _)|
                      (_ & _ & Henq & _)]]]; [done| |done|].
  - destruct Hmove as (k & ck & e & w & _ & _ & _ & _ & _ & _ & Hpush & _).
    by apply push_watcher_Ok in Hpush as (_ & w0 & _ & ->).
  - by rewrite (status_enqueue _ _ _ _ Henq).
Qed.

Lemma status_watch_loop (fuel : nat) (s : Solver) (lit : Lit.t) (i : nat)
  (s' : Solver) (r : option nat) :
  watch_loop fuel s lit i = Ok (s', r) → status s' = status s.
Proof.
  revert s i. induction fuel as [|fuel IH]; intros s i; simpl; [done|].
  intros H. apply bind_Ok in H as (ws & _ & H).
  case_decide; [|by injection H as <- _].
  apply bind_Ok in H as ([s1 o] & Hvisit & H).
  apply status_visit in Hvisit. destruct o as [i'|cr].
  - by rewrite (IH _ _ H).
  - by injection H as <- _.
Qed.

Lemma status_propagate (fuel : nat) (s s' : Solver) (r : option nat) :
  propagate fuel s = Ok (s', r) → status s' = status s.
Proof.
  revert s. induction fuel as [|fuel IH]; intros s; [done|].
  cbn [propagate]. case_decide as Hlt; [|by intros [= <- _]].
  intros H. apply bind_Ok in H as (lit & _ & H).
  apply bind_Ok in H as ([s2 r2] & Hloop & H).
  apply status_watch_loop in Hloop. simpl in Hloop. destruct r2 as [cr|].
  - by injection H as <- _.
  - by rewrite (IH _ H).
Qed.

Lemma status_learn (s : Solver) (conflict : nat) (s' : Solver) :
  learn s conflict = Ok s' → status s' = status s.
Proof.
  unfold learn. intros H. apply bind_Ok in H as ([L b] & _ & H).
  apply bind_Ok in H as (s1 & Hpop & H). apply status_pop_queue_until in Hpop.
  case_decide.
  - apply bind_Ok in H as (l0 & _ & H).
    by rewrite (status_enqueue _ _ _ _ H).
  - unfold make_shared in H. apply bind_Ok in H as (s3 & Hattach & H).
    apply bind_Ok in H as (l0 & _ & H).
    by rewrite (status_enqueue _ _ _ _ H), (status_attach_clause _ _ _ _ Hattach).
Qed.

Lemma status_solve (fuel : nat) (s s' : Solver) (st : Status) :
  solve fuel s = Ok (s', st) → st ≠ Unknown ∧ status s' = status s.
Proof.
  revert s. induction fuel as [|fuel IH]; intros s; [done|].
  cbn [solve]. intros H. apply bind_Ok in H as ([s1 r] & Hstep & H).
  assert (status s1 = status s ∧ ∀ st', r = Some st' → st' ≠ Unknown)
    as [Hs1 Hr].
  { unfold solve_step in Hstep.
    apply bind_Ok in Hstep as ([s0 conflict] & Hprop & Hstep).
    apply status_propagate in Hprop. destruct conflict as [cr|].
    - apply bind_Ok in Hstep as (d & _ & Hstep). case_decide.
      + injection Hstep as <- <-. split; [done|]. by intros st' [= <-].
      + apply bind_Ok in Hstep as (s2 & Hlearn & Hstep).
        injection Hstep as <- <-. split; [|done].
        by rewrite (status_learn _ _ _ Hlearn).
    - apply bind_Ok in Hstep as (next & _ & Hstep). destruct next as [l|].
      + apply bind_Ok in Hstep as (s2 & Hdec & Hstep).
        injection Hstep as <- <-. split; [|done].
        by apply new_decision_Ok in Hdec as (_ & _ & _ & _ & d & _ & ->).
      + injection Hstep as <- <-. split; [done|]. by intros st' [= <-]. }
  destruct r as [st'|].
  - injection H as <- <-. split; [by apply Hr|done].
  - destruct (IH _ H) as [Hst Hs']. split; [done|]. by rewrite Hs'.
Qed.

(** The public member [status] is never written: it is empty in every
    reachable state, and still empty when [solve] has returned, whose
    answer is Sat or Unsat and never Unknown. *)
Theorem status_never_set (s : Solver) :
  reachable s →
  status s = None ∧
  ∀ fuel s' st, solve fuel s = Ok (s', st) →
                st ≠ Unknown ∧ status s' = None.
Proof.
  intros Hs.
  assert (status s = None) as Hnone.
  { induction Hs as [n|s Hs IH|s c s' Hs IH Hadd|s l s' Hs IH Henq|
                     s l s' Hs IH Hdec|s b s' Hs IH Hpop|
                     s fuel s' r Hs IH Hprop|s cr s' Hs IH Hlearn].
    - done.
    - done.
    - by rewrite (status_add_clause _ _ _ Hadd).
    - by rewrite (status_enqueue _ _ _ _ Henq).
    - by apply new_decision_Ok in Hdec as (_ & _ & _ & _ & d & _ & ->).
    - by rewrite (status_pop_queue_until _ _ _ Hpop).
    - by rewrite (status_propagate _ _ _ _ Hprop).
    - by rewrite (status_learn _ _ _ Hlearn). }
  split; [done|]. intros fuel s' st Hsolve.
  destruct (status_solve fuel s s' st Hsolve) as [Hst Hs'].
  split; [done|]. by rewrite Hs'.
Qed.

Lemma status_never_set_sat :
  reachable st_sat ∧
  status st_sat = None ∧
  ∀ fuel s' st, solve fuel st_sat = Ok (s', st) →
                st ≠ Unknown ∧ status s' = None.
Proof.
  split; [exact st_sat_reachable|].
  exact (status_never_set st_sat st_sat_reachable).
Defined.
